(** * Step generators and playback scheduler of the sorting visualiser

    A shallow embedding of [strategy.js] (the step generators: shuffle,
    accent and the fifteen sort drivers) and of [animateSort] in [main.js]
    (the playback scheduler), with the properties of the specification
    stated and proved over it.

    JavaScript generators are embedded as programs of a small monad that
    threads the array object and the counters and collects the yielded
    steps in order; loops whose termination is not evident from their
    guards take an explicit fuel and report when it runs out. *)

From Stdlib Require Import ZArith List Bool Lia Permutation Sorted FinFun.
Import ListNotations.
Local Open Scope Z_scope.

(* ================================================================== *)
(** * JavaScript values and arrays *)
(* ================================================================== *)

(** The arrays hold integer keys; [Undefined] is what reading past the end
    of an array gives (and what ends up stored when such a read is written
    back). *)
Inductive value : Type :=
| Num (z : Z)
| Undefined.

Definition value_eqb (x y : value) : bool :=
  match x, y with
  | Num a, Num b => a =? b
  | Undefined, Undefined => true
  | _, _ => false
  end.

(** Relational operators: any comparison with [undefined] is false. *)
Definition js_lt (x y : value) : bool :=
  match x, y with Num a, Num b => a <? b | _, _ => false end.
Definition js_le (x y : value) : bool :=
  match x, y with Num a, Num b => a <=? b | _, _ => false end.
Definition js_gt (x y : value) : bool := js_lt y x.
Definition js_ge (x y : value) : bool := js_le y x.
(** [===] and [!==]. *)
Definition strict_eq (x y : value) : bool := value_eqb x y.
Definition strict_neq (x y : value) : bool := negb (value_eqb x y).

Definition jsarray := list value.

Definition nums (l : list Z) : jsarray := map Num l.

(** [a[i]] *)
Definition get_idx (a : jsarray) (i : Z) : value :=
  if i <? 0 then Undefined else nth (Z.to_nat i) a Undefined.

(** [a[i] = v] for a natural index: inside the array the slot is replaced,
    at or past the end the array grows (the skipped slots read back as
    [undefined]). *)
Fixpoint set_nat (a : jsarray) (i : nat) (v : value) : jsarray :=
  match a, i with
  | [], O => [v]
  | [], S i' => Undefined :: set_nat [] i' v
  | _ :: a', O => v :: a'
  | x :: a', S i' => x :: set_nat a' i' v
  end.

(** [a[i] = v]; no generator writes at a negative index (that would create
    a property, not an element), the array is left as it is there. *)
Definition set_idx (a : jsarray) (i : Z) (v : value) : jsarray :=
  if i <? 0 then a else set_nat a (Z.to_nat i) v.

Definition len (a : jsarray) : Z := Z.of_nat (length a).

(** [[a[i], a[j]] = [a[j], a[i]]]: the right-hand side is read first, then
    [a[i]] and [a[j]] are assigned in that order. *)
Definition swap_idx (a : jsarray) (i j : Z) : jsarray :=
  let vj := get_idx a j in
  let vi := get_idx a i in
  set_idx (set_idx a i vj) j vi.

(* ================================================================== *)
(** * Steps, counters and the generator monad *)
(* ================================================================== *)

(** A yielded step object.  The drivers leave some fields out of some
    steps; an absent field is [None]. *)
Record Step : Type := mkStep {
  array : jsarray;
  swappedIndexes : option (list Z);
  compareIndexes : option (list Z);
  step_comparisons : option Z;
  step_swaps : option Z
}.

(** The [stats] object of a driver invocation (for the drivers that keep
    two local counters instead, the two locals). *)
Record Stats : Type := mkStats {
  comparisons : Z;
  swaps : Z
}.

(** What a running generator owns: the array object it was given, mutated
    in place, and its counters. *)
Record Mem : Type := mkMem {
  arr : jsarray;
  stats : Stats
}.

(** A generator body: from a memory, the steps yielded in order, the
    memory at the end, and the returned value, [None] when a fuelled loop
    ran out of fuel before its guard turned false. *)
Definition Prog (A : Type) : Type := Mem -> list Step * Mem * option A.

Definition out {A} (r : list Step * Mem * option A) : list Step := fst (fst r).
Definition mem {A} (r : list Step * Mem * option A) : Mem := snd (fst r).
Definition res {A} (r : list Step * Mem * option A) : option A := snd r.

Definition ret {A} (a : A) : Prog A := fun m => ([], m, Some a).

Definition bind {A B} (p : Prog A) (f : A -> Prog B) : Prog B :=
  fun m =>
    let '(o1, m1, r1) := p m in
    match r1 with
    | None => (o1, m1, None)
    | Some a =>
        let '(o2, m2, r2) := f a m1 in
        (o1 ++ o2, m2, r2)
    end.

Declare Scope prog_scope.
Delimit Scope prog_scope with prog.
Notation "x <- p ;; q" := (bind p (fun x => q))
  (at level 61, p at next level, right associativity) : prog_scope.
Notation "p ;; q" := (bind p (fun _ => q))
  (at level 61, right associativity) : prog_scope.
Local Open Scope prog_scope.

(** Out of fuel. *)
Definition timeout {A} : Prog A := fun m => ([], m, None).

(** [arr[i]] *)
Definition rd (i : Z) : Prog value := fun m => ([], m, Some (get_idx (arr m) i)).
(** [arr[i] = v] *)
Definition wr (i : Z) (v : value) : Prog unit :=
  fun m => ([], mkMem (set_idx (arr m) i v) (stats m), Some tt).
(** [arr.length] *)
Definition length_ : Prog Z := fun m => ([], m, Some (len (arr m))).
(** [[...arr]] *)
Definition snapshot : Prog jsarray := fun m => ([], m, Some (arr m)).
(** [[arr[i], arr[j]] = [arr[j], arr[i]]] *)
Definition swap (i j : Z) : Prog unit :=
  fun m => ([], mkMem (swap_idx (arr m) i j) (stats m), Some tt).
(** [stats.comparisons++] *)
Definition inc_comparisons : Prog unit :=
  fun m => ([], mkMem (arr m) (mkStats (comparisons (stats m) + 1) (swaps (stats m))), Some tt).
(** [stats.swaps += k] *)
Definition add_swaps (k : Z) : Prog unit :=
  fun m => ([], mkMem (arr m) (mkStats (comparisons (stats m)) (swaps (stats m) + k)), Some tt).
(** [stats.swaps++] *)
Definition inc_swaps : Prog unit := add_swaps 1.

(** [yield { array: [...arr], swappedIndexes, compareIndexes,
             comparisons: stats.comparisons, swaps: stats.swaps }]
    with [None] for a highlight field the object literal leaves out. *)
Definition yield_step (sw cmp : option (list Z)) : Prog unit :=
  fun m =>
    ([mkStep (arr m) sw cmp (Some (comparisons (stats m))) (Some (swaps (stats m)))],
     m, Some tt).

(** [yield { array: [...arr], ... }] of shuffle and accent, without counters. *)
Definition yield_bare (sw cmp : option (list Z)) : Prog unit :=
  fun m => ([mkStep (arr m) sw cmp None None], m, Some tt).

(** [if (b) { p }] *)
Definition when (b : bool) (p : Prog unit) : Prog unit :=
  if b then p else ret tt.

(** A counted loop: [cnt] iterations, the index starting at [i] and moving
    by [d]; [acc] carries the locals the body updates. *)
Fixpoint for_ {A} (cnt : nat) (i d : Z) (body : Z -> A -> Prog A) (acc : A) : Prog A :=
  match cnt with
  | O => ret acc
  | S cnt' => acc' <- body i acc ;; for_ cnt' (i + d) d body acc'
  end.

(** [for (let i = lo; i < hi; i++)] *)
Definition for_up {A} (lo hi : Z) (body : Z -> A -> Prog A) (acc : A) : Prog A :=
  for_ (Z.to_nat (hi - lo)) lo 1 body acc.
(** [for (let i = hi; i > lo; i--)] *)
Definition for_down_gt {A} (hi lo : Z) (body : Z -> A -> Prog A) (acc : A) : Prog A :=
  for_ (Z.to_nat (hi - lo)) hi (-1) body acc.
(** [for (let i = hi; i >= lo; i--)] *)
Definition for_down_ge {A} (hi lo : Z) (body : Z -> A -> Prog A) (acc : A) : Prog A :=
  for_ (Z.to_nat (hi - lo + 1)) hi (-1) body acc.
(** [for (let i = lo; i < hi; i += 2)] *)
Definition for_up2 {A} (lo hi : Z) (body : Z -> A -> Prog A) (acc : A) : Prog A :=
  for_ (Z.to_nat ((hi - lo + 1) / 2)) lo 2 body acc.

(** A counted loop whose body may [break]: the body returns [true] to
    leave the loop. *)
Fixpoint for_brk {A} (cnt : nat) (i d : Z) (body : Z -> A -> Prog (bool * A)) (acc : A)
  : Prog A :=
  match cnt with
  | O => ret acc
  | S cnt' =>
      r <- body i acc ;;
      if fst r then ret (snd r) else for_brk cnt' (i + d) d body (snd r)
  end.

(** [while (cond) { body }] over the locals [a]; the guard is tested
    before the fuel, so a loop whose guard is false needs none. *)
Fixpoint while_ {A} (fuel : nat) (cond : A -> Mem -> bool) (body : A -> Prog A) (a : A)
  : Prog A :=
  fun m =>
    if cond a m then
      match fuel with
      | O => timeout m
      | S fuel' => bind (body a) (while_ fuel' cond body) m
      end
    else ret a m.

(** Running a generator body on an array, counters at zero. *)
Definition run {A} (p : Prog A) (a : jsarray) : list Step * Mem * option A :=
  p (mkMem a (mkStats 0 0)).
Definition steps_of {A} (p : Prog A) (a : jsarray) : list Step := out (run p a).
Definition final_array {A} (p : Prog A) (a : jsarray) : jsarray := arr (mem (run p a)).
Definition completes {A} (p : Prog A) (a : jsarray) : Prop := res (run p a) <> None.

(* ================================================================== *)
(** * The step generators of [strategy.js] *)
(* ================================================================== *)

(** [shuffleGenerator]: Fisher-Yates from the end.  [pick i] stands for
    [Math.floor(Math.random() * (i + 1))] at index [i]. *)
Definition shuffleGenerator (pick : Z -> Z) : Prog unit :=
  n <- length_ ;;
  for_down_gt (n - 1) 0 (fun i _ =>
    let j := pick i in
    swap i j ;;
    yield_bare None (Some [i; j])) tt.

(** [accentGenerator] *)
Definition accentGenerator : Prog unit :=
  n <- length_ ;;
  for_up 0 n (fun i _ => yield_bare (Some [i]) None) tt ;;
  yield_bare None None.

(** ** Merge sort *)

(** The positions [k] of [left..right] with [arr[k] !== initialArray[k]]. *)
Fixpoint changed_from (cnt : nat) (k : Z) (a initialArray : jsarray) : list Z :=
  match cnt with
  | O => []
  | S cnt' =>
      (if strict_neq (get_idx a k) (get_idx initialArray k) then [k] else [])
        ++ changed_from cnt' (k + 1) a initialArray
  end.

Definition merge (left mid right : Z) (yieldCompare : bool) : Prog unit :=
  initialArray <- snapshot ;;
  (* while (i <= mid && j <= right) *)
  st <- while_ (Z.to_nat (right - left + 1))
          (fun '(i, j, _) _ => (i <=? mid) && (j <=? right))
          (fun '(i, j, merged) =>
             inc_comparisons ;;
             when yieldCompare (yield_step (Some []) (Some [i; j])) ;;
             ai <- rd i ;;
             aj <- rd j ;;
             if js_le ai aj then ret (i + 1, j, merged ++ [ai])
             else ret (i, j + 1, merged ++ [aj]))
          (left, mid + 1, []) ;;
  let '(i, j, merged) := st in
  (* while (i <= mid) merged.push(arr[i++]) *)
  merged <- for_up i (mid + 1) (fun i merged => ai <- rd i ;; ret (merged ++ [ai])) merged ;;
  (* while (j <= right) merged.push(arr[j++]) *)
  merged <- for_up j (right + 1) (fun j merged => aj <- rd j ;; ret (merged ++ [aj])) merged ;;
  for_up left (right + 1) (fun k _ => wr k (get_idx merged (k - left))) tt ;;
  a <- snapshot ;;
  let swapped := changed_from (Z.to_nat (right + 1 - left)) left a initialArray in
  if yieldCompare && (0 <? Z.of_nat (length swapped)) then
    add_swaps (Z.of_nat (length swapped)) ;;
    yield_step (Some swapped) (Some [])
  else ret tt.

Fixpoint mergeSortRecursive (fuel : nat) (left right : Z) (yieldCompare : bool)
  : Prog unit :=
  if left <? right then
    match fuel with
    | O => timeout
    | S fuel' =>
        let mid := (left + right) / 2 in
        mergeSortRecursive fuel' left mid yieldCompare ;;
        mergeSortRecursive fuel' (mid + 1) right yieldCompare ;;
        merge left mid right yieldCompare
    end
  else ret tt.

Definition mergeSort (yieldCompare : bool) : Prog unit :=
  n <- length_ ;;
  mergeSortRecursive (Z.to_nat (n - 1)) 0 (n - 1) yieldCompare.

(** ** Selection sort *)

Definition selectionSort (yieldCompare : bool) : Prog unit :=
  n <- length_ ;;
  for_up 0 (n - 1) (fun i previousSwappedIndexes =>
    minIndex <- for_up (i + 1) n (fun j minIndex =>
        inc_comparisons ;;
        when yieldCompare (yield_step (Some previousSwappedIndexes) (Some [i; j])) ;;
        aj <- rd j ;;
        am <- rd minIndex ;;
        ret (if js_lt aj am then j else minIndex)) i ;;
    if minIndex =? i then ret previousSwappedIndexes
    else
      swap i minIndex ;;
      inc_swaps ;;
      yield_step (Some [i; minIndex]) None ;;
      ret [i; minIndex]) [] ;;
  yield_step None None.

(** ** Insertion sort *)

Definition insertionSort (yieldCompare : bool) : Prog unit :=
  n <- length_ ;;
  for_up 1 n (fun i previousSwappedIndexes =>
    key <- rd i ;;
    (* while (j >= 0 && arr[j] > key) *)
    st <- while_ (Z.to_nat i)
            (fun '(j, _) m => (j >=? 0) && js_gt (get_idx (arr m) j) key)
            (fun '(j, prev) =>
               inc_comparisons ;;
               when yieldCompare (yield_step (Some prev) (Some [j; j + 1])) ;;
               aj <- rd j ;;
               wr (j + 1) aj ;;
               let j := j - 1 in
               inc_swaps ;;
               ret (j, [j + 1; j + 2]))
            (i - 1, previousSwappedIndexes) ;;
    let '(j, prev) := st in
    wr (j + 1) key ;;
    yield_step (Some prev) None ;;
    ret prev) [] ;;
  yield_step None None.

(** ** Binary insertion sort *)

Definition binaryInsertionSort (yieldCompare : bool) : Prog unit :=
  n <- length_ ;;
  for_up 1 n (fun i previousSwappedIndexes =>
    key <- rd i ;;
    let j := i - 1 in
    (* while (left <= right) *)
    st <- while_ (Z.to_nat (j + 1))
            (fun '(left_, right_, _) _ => left_ <=? right_)
            (fun '(left_, right_, insertIndex) =>
               inc_comparisons ;;
               let mid := (left_ + right_) / 2 in
               when yieldCompare (yield_step (Some previousSwappedIndexes) (Some [mid; i])) ;;
               am <- rd mid ;;
               if js_gt am key then ret (left_, mid - 1, mid)
               else ret (mid + 1, right_, insertIndex))
            (0, j, i) ;;
    let '(_, _, insertIndex) := st in
    prev <- for_down_ge j insertIndex (fun k _ =>
        ak <- rd k ;;
        wr (k + 1) ak ;;
        inc_swaps ;;
        ret [k; k + 1]) previousSwappedIndexes ;;
    wr insertIndex key ;;
    yield_step (Some prev) None ;;
    ret prev) [] ;;
  yield_step None None.

(** ** Quick sort (Lomuto partition) *)

Definition partition (low high : Z) (yieldCompare : bool) : Prog Z :=
  pivot <- rd high ;;
  i <- for_up low high (fun j i =>
      inc_comparisons ;;
      when yieldCompare (yield_step (Some []) (Some [j; high])) ;;
      aj <- rd j ;;
      if js_le aj pivot then
        swap (i + 1) j ;;
        inc_swaps ;;
        when yieldCompare (yield_step (Some [i + 1; j]) (Some [])) ;;
        ret (i + 1)
      else ret i) (low - 1) ;;
  swap (i + 1) high ;;
  inc_swaps ;;
  when yieldCompare (yield_step (Some [i + 1; high]) (Some [])) ;;
  ret (i + 1).

Fixpoint quickSortRecursive (fuel : nat) (low high : Z) (yieldCompare : bool)
  : Prog unit :=
  (if low <? high then
     match fuel with
     | O => timeout
     | S fuel' =>
         pi <- partition low high yieldCompare ;;
         quickSortRecursive fuel' low (pi - 1) yieldCompare ;;
         quickSortRecursive fuel' (pi + 1) high yieldCompare
     end
   else ret tt) ;;
  when yieldCompare (yield_step (Some []) (Some [])).

Definition quickSort (yieldCompare : bool) : Prog unit :=
  n <- length_ ;;
  quickSortRecursive (Z.to_nat (n - 1)) 0 (n - 1) yieldCompare.

(** ** Bubble sort *)

(** One compare-and-exchange of positions [i] and [j] as bubble, cocktail
    shaker, comb and odd-even sort write it; returns whether it swapped. *)
Definition compare_exchange (i j : Z) (yieldCompare : bool) : Prog bool :=
  inc_comparisons ;;
  when yieldCompare (yield_step (Some []) (Some [i; j])) ;;
  ai <- rd i ;;
  aj <- rd j ;;
  if js_gt ai aj then
    swap i j ;;
    inc_swaps ;;
    when yieldCompare (yield_step (Some [i; j]) (Some [])) ;;
    ret true
  else ret false.

Definition bubbleSort (yieldCompare : bool) : Prog unit :=
  n <- length_ ;;
  for_brk (Z.to_nat (n - 1)) 0 1 (fun i _ =>
    swapped <- for_up 0 (n - 1 - i) (fun j swapped =>
        b <- compare_exchange j (j + 1) yieldCompare ;;
        ret (b || swapped)) false ;;
    (* if (!swapped) break *)
    ret (negb swapped, tt)) tt ;;
  when yieldCompare (yield_step (Some []) (Some [])).

(** ** Cocktail shaker sort *)

Definition cocktailShakerSort (yieldCompare : bool) : Prog unit :=
  n <- length_ ;;
  (* while (start < end), the third local records a [break] *)
  while_ (Z.to_nat (n - 1))
    (fun '(start, end_, broke) _ => (start <? end_) && negb broke)
    (fun '(start, end_, _) =>
       swapped <- for_up start end_ (fun i swapped =>
           b <- compare_exchange i (i + 1) yieldCompare ;;
           ret (b || swapped)) false ;;
       if negb swapped then ret (start, end_, true)
       else
         let end_ := end_ - 1 in
         swapped <- for_down_gt end_ start (fun i swapped =>
             b <- compare_exchange (i - 1) i yieldCompare ;;
             ret (b || swapped)) false ;;
         if negb swapped then ret (start, end_, true)
         else ret (start + 1, end_, false))
    (0, n - 1, false) ;;
  when yieldCompare (yield_step (Some []) (Some [])).

(** ** Gnome sort *)

Definition gnomeSort (fuel : nat) (yieldCompare : bool) : Prog unit :=
  (* while (index < arr.length) *)
  while_ fuel
    (fun index m => index <? len (arr m))
    (fun index =>
       let index := if index =? 0 then index + 1 else index in
       inc_comparisons ;;
       when yieldCompare (yield_step (Some []) (Some [index - 1; index])) ;;
       a <- rd index ;;
       b <- rd (index - 1) ;;
       if js_ge a b then ret (index + 1)
       else
         swap index (index - 1) ;;
         inc_swaps ;;
         when yieldCompare (yield_step (Some [index - 1; index]) (Some [])) ;;
         ret (index - 1))
    0 ;;
  when yieldCompare (yield_step (Some []) (Some [])).

(** ** Comb sort *)

(** [Math.floor(gap / 1.3)]: for the integer gaps that occur (at most the
    array length) the floating-point quotient floors to the exact
    [floor(10 * gap / 13)]. *)
Definition shrink (gap : Z) : Z := gap * 10 / 13.

Definition combSort (fuel : nat) (yieldCompare : bool) : Prog unit :=
  n <- length_ ;;
  (* while (!sorted) *)
  while_ fuel
    (fun '(gap, sorted) _ => negb sorted)
    (fun '(gap, sorted) =>
       let gap := shrink gap in
       let '(gap, sorted) := if gap <=? 1 then (1, true) else (gap, sorted) in
       (* while (i + gap < arr.length) { ...; i++ } *)
       sorted <- for_up 0 (n - gap) (fun i sorted =>
           b <- compare_exchange i (i + gap) yieldCompare ;;
           ret (if b then false else sorted)) sorted ;;
       ret (gap, sorted))
    (n, false) ;;
  when yieldCompare (yield_step (Some []) (Some [])).

(** ** Shell sort *)

Definition shellSort (yieldCompare : bool) : Prog unit :=
  n <- length_ ;;
  (* while (gap > 0) *)
  while_ (Z.to_nat (n / 2))
    (fun gap _ => gap >? 0)
    (fun gap =>
       for_up gap n (fun i _ =>
         temp <- rd i ;;
         (* while (j >= gap && arr[j - gap] > temp) *)
         j <- while_ (Z.to_nat i)
                (fun j m => (j >=? gap) && js_gt (get_idx (arr m) (j - gap)) temp)
                (fun j =>
                   inc_comparisons ;;
                   when yieldCompare (yield_step (Some []) (Some [j; j - gap])) ;;
                   a <- rd (j - gap) ;;
                   wr j a ;;
                   inc_swaps ;;
                   when yieldCompare (yield_step (Some [j; j - gap]) (Some [])) ;;
                   ret (j - gap))
                i ;;
         wr j temp ;;
         when (yieldCompare && negb (j =? i)) (yield_step (Some [j]) (Some []))) tt ;;
       ret (gap / 2))
    (n / 2) ;;
  when yieldCompare (yield_step (Some []) (Some [])).

(** ** Heap sort *)

Fixpoint heapify (fuel : nat) (n i : Z) (yieldCompare : bool) : Prog unit :=
  let left_ := 2 * i + 1 in
  let right_ := 2 * i + 2 in
  al <- rd left_ ;;
  ai <- rd i ;;
  let largest := if (left_ <? n) && js_gt al ai then left_ else i in
  ar <- rd right_ ;;
  ag <- rd largest ;;
  let largest := if (right_ <? n) && js_gt ar ag then right_ else largest in
  if largest =? i then ret tt
  else
    match fuel with
    | O => timeout
    | S fuel' =>
        inc_comparisons ;;
        when yieldCompare (yield_step (Some []) (Some [i; largest])) ;;
        swap i largest ;;
        inc_swaps ;;
        when yieldCompare (yield_step (Some [i; largest]) (Some [])) ;;
        heapify fuel' n largest yieldCompare
    end.

Definition heapSort (yieldCompare : bool) : Prog unit :=
  n <- length_ ;;
  for_down_ge (n / 2 - 1) 0 (fun i _ => heapify (Z.to_nat n) n i yieldCompare) tt ;;
  for_down_gt (n - 1) 0 (fun i _ =>
    swap 0 i ;;
    inc_swaps ;;
    when yieldCompare (yield_step (Some [0; i]) (Some [])) ;;
    heapify (Z.to_nat i) i 0 yieldCompare) tt ;;
  when yieldCompare (yield_step (Some []) (Some [])).

(** ** Odd-even sort *)

Definition oddEvenSort (fuel : nat) (yieldCompare : bool) : Prog unit :=
  n <- length_ ;;
  (* while (!sorted) *)
  while_ fuel
    (fun sorted _ => negb sorted)
    (fun _ =>
       sorted <- for_up2 1 (n - 1) (fun i sorted =>
           b <- compare_exchange i (i + 1) yieldCompare ;;
           ret (if b then false else sorted)) true ;;
       for_up2 0 (n - 1) (fun i sorted =>
           b <- compare_exchange i (i + 1) yieldCompare ;;
           ret (if b then false else sorted)) sorted)
    false ;;
  when yieldCompare (yield_step (Some []) (Some [])).

(** ** Bitonic sort *)

Fixpoint bitonicMerge (fuel : nat) (low cnt : Z) (up yieldCompare : bool) : Prog unit :=
  if cnt <=? 1 then ret tt
  else
    match fuel with
    | O => timeout
    | S fuel' =>
        let mid := cnt / 2 in
        for_up low (low + mid) (fun i _ =>
          inc_comparisons ;;
          when yieldCompare (yield_step (Some []) (Some [i; i + mid])) ;;
          a <- rd i ;;
          b <- rd (i + mid) ;;
          if Bool.eqb (js_gt a b) up then
            swap i (i + mid) ;;
            inc_swaps ;;
            when yieldCompare (yield_step (Some [i; i + mid]) (Some []))
          else ret tt) tt ;;
        bitonicMerge fuel' low mid up yieldCompare ;;
        bitonicMerge fuel' (low + mid) mid up yieldCompare
    end.

Fixpoint bitonicSortRec (fuel : nat) (low cnt : Z) (up yieldCompare : bool) : Prog unit :=
  if cnt <=? 1 then ret tt
  else
    match fuel with
    | O => timeout
    | S fuel' =>
        let mid := cnt / 2 in
        bitonicSortRec fuel' low mid true yieldCompare ;;
        bitonicSortRec fuel' (low + mid) mid false yieldCompare ;;
        bitonicMerge (Z.to_nat cnt) low cnt up yieldCompare
    end.

(** [bitonicSort(arr, up = true, yieldCompare = true)] *)
Definition bitonicSort (up yieldCompare : bool) : Prog unit :=
  n <- length_ ;;
  bitonicSortRec (Z.to_nat n) 0 n up yieldCompare ;;
  when yieldCompare (yield_step None None).

(** ** Cycle sort *)

(** The scan [for (let i = cycleStart + 1; i < n; i++)] that counts the
    elements smaller than [item]; it occurs twice in the source. *)
Definition cycle_scan (cycleStart n : Z) (item : value) (yieldCompare : bool) : Prog Z :=
  for_up (cycleStart + 1) n (fun i pos =>
    inc_comparisons ;;
    ai <- rd i ;;
    let pos := if js_lt ai item then pos + 1 else pos in
    when yieldCompare (yield_step (Some []) (Some [i])) ;;
    ret pos) cycleStart.

(** [while (item === arr[pos]) pos++] *)
Definition cycle_skip (fuel : nat) (item : value) (pos : Z) : Prog Z :=
  while_ fuel (fun pos m => strict_eq item (get_idx (arr m) pos))
    (fun pos => ret (pos + 1)) pos.

(** [[arr[pos], item] = [item, arr[pos]]; stats.swaps++; yield];
    returns the new [item]. *)
Definition cycle_place (pos : Z) (item : value) (yieldCompare : bool) : Prog value :=
  ap <- rd pos ;;
  wr pos item ;;
  inc_swaps ;;
  when yieldCompare (yield_step (Some [pos]) (Some [])) ;;
  ret ap.

Definition cycleSort (fuel : nat) (yieldCompare : bool) : Prog unit :=
  n <- length_ ;;
  for_up 0 (n - 1) (fun cycleStart _ =>
    item <- rd cycleStart ;;
    pos <- cycle_scan cycleStart n item yieldCompare ;;
    if pos =? cycleStart then ret tt (* continue *)
    else
      pos <- cycle_skip fuel item pos ;;
      item <- (if negb (pos =? cycleStart) then cycle_place pos item yieldCompare
               else ret item) ;;
      (* while (pos !== cycleStart) *)
      while_ fuel
        (fun '(pos, _) _ => negb (pos =? cycleStart))
        (fun '(_, item) =>
           pos <- cycle_scan cycleStart n item yieldCompare ;;
           pos <- cycle_skip fuel item pos ;;
           ap <- rd pos ;;
           if strict_neq item ap then
             item <- cycle_place pos item yieldCompare ;;
             ret (pos, item)
           else ret (pos, item))
        (pos, item) ;;
      ret tt) tt ;;
  when yieldCompare (yield_step None None).

(** ** LSD radix sort *)

(** [Math.max(...arr)] when it is a number; [None] stands for [-Infinity]
    (empty array) and [NaN] (an [undefined] element), for both of which the
    guard [Math.floor(maxNum / exp) > 0] is false. *)
Fixpoint max_num (a : jsarray) : option Z :=
  match a with
  | [] => None
  | Num z :: [] => Some z
  | Num z :: a' => match max_num a' with Some y => Some (Z.max z y) | None => None end
  | Undefined :: _ => None
  end.

(** [Math.floor(v / exp) % 10] when it is one of the ten bucket indexes;
    any other result (a negative remainder, [NaN]) names a property of
    [count] that is not one of its elements.  The quotient is taken here
    on the integers; the page divides doubles, and for keys below [2^53]
    in size and the powers of ten the loop reaches ([exp <= maxNum]) the
    floor of the rounded quotient is the floor of the exact one.  From
    [2^53] on the two can differ, and what is proved about the digits of
    such keys is not a statement about the page. *)
Definition digit_of (v : value) (exp : Z) : option nat :=
  match v with
  | Num z =>
      let d := Z.rem (z / exp) 10 in
      if (0 <=? d) && (d <? 10) then Some (Z.to_nat d) else None
  | Undefined => None
  end.

Fixpoint upd_nat (l : list Z) (i : nat) (x : Z) : list Z :=
  match l, i with
  | [], _ => []
  | _ :: l', O => x :: l'
  | y :: l', S i' => y :: upd_nat l' i' x
  end.

Definition lsdRadixSort (yieldCompare : bool) : Prog unit :=
  a0 <- snapshot ;;
  n <- length_ ;;
  let maxNum := max_num a0 in
  (* while (Math.floor(maxNum / exp) > 0) *)
  while_ (match maxNum with Some mx => S (Z.to_nat (Z.log2 mx)) | None => O end)
    (fun exp _ => match maxNum with Some mx => mx / exp >? 0 | None => false end)
    (fun exp =>
       let output := repeat (Num 0) (Z.to_nat n) in
       let count := repeat 0 10 in
       count <- for_up 0 n (fun i count =>
           ai <- rd i ;;
           yield_step (Some []) (Some [i]) ;;
           ret (match digit_of ai exp with
                | Some d => upd_nat count d (nth d count 0 + 1)
                | None => count
                end)) count ;;
       count <- for_up 1 10 (fun i count =>
           let count := upd_nat count (Z.to_nat i)
                          (nth (Z.to_nat i) count 0 + nth (Z.to_nat (i - 1)) count 0) in
           yield_step (Some []) (Some []) ;;
           ret count) count ;;
       co <- for_down_ge (n - 1) 0 (fun i '(count, output) =>
           ai <- rd i ;;
           let co := match digit_of ai exp with
                     | Some d =>
                         let c := nth d count 0 - 1 in
                         (upd_nat count d c, set_idx output c ai)
                     | None => (count, output)
                     end in
           yield_step (Some []) (Some [i]) ;;
           ret co) (count, output) ;;
       let output := snd co in
       for_up 0 n (fun i _ =>
           wr i (get_idx output i) ;;
           inc_swaps ;;
           when yieldCompare (yield_step (Some [i]) (Some []))) tt ;;
       ret (exp * 10))
    1 ;;
  when yieldCompare (yield_step None None).
(* ================================================================== *)
(** * The drawing: [rearrangeImage] of [main.js] *)
(* ================================================================== *)

(** [rearrangeImage] cuts the picture into [order.length] vertical strips
    and pastes them back in the order given, then paints the highlights.
    What is embedded here is its arithmetic (where each strip is cut,
    where each is pasted and labelled, and where each highlight is
    painted, in pixels along the width of the canvas) and the calls of
    [drawImage] that throw. *)

Inductive Color : Type :=
| Red    (* 'rgba(255, 0, 0, 0.5)' *)
| Green. (* 'rgba(0, 255, 0, 0.5)' *)

Record Colored : Type := mkColored {
  indexes : list Z;
  color : Color
}.

(** The [image] handed to [rearrangeImage], as [drawImage] sees it: a
    picture that failed to load is [Broken], and drawing it throws an
    [InvalidStateError]; one that is loaded, or still loading (nothing
    is drawn then), is [Available]. *)
Inductive Image : Type :=
| Available
| Broken.

(** The [context]: the size of its canvas, in pixels (two non-negative
    integers). *)
Record Context : Type := mkContext {
  canvas_width : Z;
  canvas_height : Z
}.

(** [Math.floor(canvas.width / segmentCount)] *)
Definition segmentWidth (width segmentCount : Z) : Z := width / segmentCount.

(** [canvas.width % segmentCount] *)
Definition remainder (width segmentCount : Z) : Z := Z.rem width segmentCount.

(** [i < remainder ? segmentWidth + 1 : segmentWidth] *)
Definition currentSegmentWidth (width segmentCount i : Z) : Z :=
  if i <? remainder width segmentCount then segmentWidth width segmentCount + 1
  else segmentWidth width segmentCount.

(** A strip cut from the picture: where it starts and how wide it is. *)
Record Segment : Type := mkSegment {
  seg_x : Z;
  seg_width : Z
}.

(** The first loop, from strip [i] on:
    [segmentCtx.drawImage(canvas, accumulatedWidth, 0, currentSegmentWidth, ...);
     segments.push(segmentCanvas); accumulatedWidth += currentSegmentWidth]. *)
Fixpoint cut_from (width segmentCount : Z) (cnt : nat) (i accumulatedWidth : Z)
  : list Segment :=
  match cnt with
  | O => []
  | S cnt' =>
      let w := currentSegmentWidth width segmentCount i in
      mkSegment accumulatedWidth w
        :: cut_from width segmentCount cnt' (i + 1) (accumulatedWidth + w)
  end.

Definition segments (width segmentCount : Z) : list Segment :=
  cut_from width segmentCount (Z.to_nat segmentCount) 0 0.

(** [segments[segmentIndex]] for [segmentIndex = order[i]]: [undefined]
    unless the entry is the index of a strip. *)
Definition segment_at (segs : list Segment) (segmentIndex : value) : option Segment :=
  match segmentIndex with
  | Num z => if z <? 0 then None else nth_error segs (Z.to_nat z)
  | Undefined => None
  end.

(** One turn of the second loop: [context.drawImage(segment,
    accumulatedWidth, 0)] and [context.fillText(segmentIndex, textX, 80)]
    with [textX = accumulatedWidth + currentSegmentWidth / 2], kept here
    as twice its value. *)
Record Paste : Type := mkPaste {
  paste_x : Z;
  pasted : Segment;
  label : value;
  label_x_twice : Z
}.

(** The second loop, from slot [i] on.  [drawImage] throws a [TypeError]
    when [segments[order[i]]] is [undefined], and an [InvalidStateError]
    when the strip is a canvas 0 pixels wide; both are [None] here. *)
Fixpoint paste_from (width segmentCount : Z) (segs : list Segment) (order : jsarray)
    (i accumulatedWidth : Z) : option (list Paste) :=
  match order with
  | [] => Some []
  | segmentIndex :: order' =>
      let w := currentSegmentWidth width segmentCount i in
      match segment_at segs segmentIndex with
      | None => None
      | Some segment =>
          if seg_width segment <? 1 then None
          else
            match paste_from width segmentCount segs order' (i + 1) (accumulatedWidth + w) with
            | None => None
            | Some ps =>
                Some (mkPaste accumulatedWidth segment segmentIndex (2 * accumulatedWidth + w)
                        :: ps)
            end
      end
  end.

(** [context.fillRect(index * segmentWidth, 0, currentSegmentWidth,
    canvas.height)] in the colour of its group. *)
Record Rect : Type := mkRect {
  rect_x : Z;
  rect_width : Z;
  rect_color : Color
}.

Definition highlight_rects (width segmentCount : Z) (colored : list Colored) : list Rect :=
  flat_map (fun c =>
      map (fun index =>
             mkRect (index * segmentWidth width segmentCount)
                    (currentSegmentWidth width segmentCount index) (color c))
          (indexes c))
    colored.

Record Picture : Type := mkPicture {
  pastes : list Paste;
  rects : list Rect
}.

(** [rearrangeImage({ order, image, context, colored })]: what is pasted
    and painted, or [None] when the call throws:
    - [context.drawImage(image, ...)] throws on a broken picture;
    - [order.length] throws a [TypeError] when [order] is [undefined];
    - with no strip at all ([order] empty) nothing is cut or pasted, and
      the highlights, at positions that are not finite numbers, paint
      nothing;
    - the first loop draws from the canvas itself, which throws an
      [InvalidStateError] when the canvas is 0 pixels wide or high (a
      strip cut 0 pixels wide from a canvas that is not is only empty);
    - the second loop throws as [paste_from] says. *)
Definition rearrangeImage (order : option jsarray) (image : Image) (context : Context)
    (colored : list Colored) : option Picture :=
  let width := canvas_width context in
  let height := canvas_height context in
  match image with
  | Broken => None
  | Available =>
      match order with
      | None => None
      | Some [] => Some (mkPicture [] [])
      | Some order =>
          let segmentCount := len order in
          if (width <? 1) || (height <? 1) then None
          else
            match paste_from width segmentCount (segments width segmentCount) order 0 0 with
            | None => None
            | Some ps => Some (mkPicture ps (highlight_rects width segmentCount colored))
            end
      end
  end.
(* ================================================================== *)
(** * The playback scheduler: [animateSort] of [main.js] *)
(* ================================================================== *)

(** ** Generators as the scheduler sees them *)

(** One call of [next()] on a running generator: a yielded step and the
    generator to resume; or the end, with the content the array object
    handed to the generator has at that point; or [Pending] when the
    fuel of the embedded program ran out before either, so that what the
    call does is not known (a generator that loops without yielding
    never answers). *)
Inductive Next (S : Type) : Type :=
| Yield (result : Step) (st : S)
| Done (underlying : jsarray)
| Pending.
Arguments Yield {S} result st.
Arguments Done {S} underlying.
Arguments Pending {S}.

Record Iterator : Type := mkIterator {
  it_state : Type;
  it_start : it_state;
  it_next : it_state -> Next it_state
}.

(** [generator(finalArray, yieldCompare)]; the flag is [None] when the
    caller leaves it out. *)
Definition Generator : Type := jsarray -> option bool -> Iterator.

(** The iterator of a generator body that has been run on an array: it
    yields the steps of the run in order, and then ends if the run
    returned. *)
Definition iterator_of (r : list Step * Mem * option unit) : Iterator :=
  {| it_state := list Step;
     it_start := out r;
     it_next := fun st =>
       match st with
       | result :: st' => Yield result st'
       | [] =>
           match res r with
           | Some _ => Done (arr (mem r))
           | None => Pending
           end
       end |}.

(** A driver [function* (arr, yieldCompare = true)] as a generator. *)
Definition generator_of (driver : bool -> Prog unit) : Generator :=
  fun a yieldCompare =>
    iterator_of (run (driver (match yieldCompare with Some b => b | None => true end)) a).

(** Shuffle and accent take the array only. *)
Definition generator_of_unflagged (body : Prog unit) : Generator :=
  fun a _ => iterator_of (run body a).

(** ** Numbers of the scheduler *)

(** The value of [Math.ceil(frameDuration / interval)]: a division by zero
    gives an infinity or [NaN]. *)
Inductive jsnum : Type :=
| Fin (z : Z)
| PosInf
| NegInf
| NaN.

(** [Math.ceil(frameDuration / interval)] for integer millisecond inputs. *)
Definition numStepsPerFrame (frameDuration interval : Z) : jsnum :=
  if interval =? 0 then
    if 0 <? frameDuration then PosInf
    else if frameDuration <? 0 then NegInf
    else NaN
  else Fin (- ((- frameDuration) / interval)).

(** [i < k] for a loop counter [i]. *)
Definition lt_jsnum (i : Z) (k : jsnum) : bool :=
  match k with
  | Fin z => i <? z
  | PosInf => true
  | NegInf | NaN => false
  end.

(** ** The queue *)

Record QueueEntry : Type := mkEntry {
  q_array : jsarray;
  q_colored : list Colored;
  q_soundIndexes : list Z
}.

(** The object pushed on [colorAndSoundQueue] for a yielded [result]
    (absent highlight fields default to the empty array). *)
Definition enqueue (result : Step) : QueueEntry :=
  let swapped := match swappedIndexes result with Some l => l | None => [] end in
  let compared := match compareIndexes result with Some l => l | None => [] end in
  mkEntry (array result)
    [mkColored compared Red; mkColored swapped Green]
    (if Z.of_nat (length compared) =? 0 then swapped else compared).

(** The drain loop once a first step has been consumed: [budget] is how
    many more steps may be consumed before [i > 80000] breaks the loop.
    The loop asks the generator for a step before it tests the count, so
    a generator that does not answer keeps it waiting whatever the
    count. *)
Fixpoint drain_more {S} (next : S -> Next S) (budget : nat) (st : S) (finalArray : jsarray)
  : option (list QueueEntry * jsarray) :=
  match next st with
  | Done _ => Some ([], finalArray)
  | Pending => None
  | Yield result st' =>
      match budget with
      | O => Some ([], finalArray) (* i > 80000: break *)
      | S budget' =>
          match drain_more next budget' st' (array result) with
          | Some (queue, final) => Some (enqueue result :: queue, final)
          | None => None
          end
      end
  end.

Definition safetyCap : nat := Z.to_nat 80000.

(** [for (let result of generator(finalArray, yieldCompare)) { i++; if (i >
    80000) break; ... }]: the entries pushed, and [finalArray] at the end;
    [None] when the loop is not known to end.  Until the first step is
    consumed [finalArray] is the array object the generator works on. *)
Definition drain (it : Iterator) : option (list QueueEntry * jsarray) :=
  match it_next it (it_start it) with
  | Done underlying => Some ([], underlying)
  | Pending => None
  | Yield result st' =>
      match drain_more (it_next it) (Nat.pred safetyCap) st' (array result) with
      | Some (queue, final) => Some (enqueue result :: queue, final)
      | None => None
      end
  end.

(** ** Frames and presentation *)

Record Frame : Type := mkFrame {
  combinedArray : option jsarray; (* [None]: still [undefined] *)
  combinedColored : list Colored;
  combinedSoundIndexes : list Z   (* a [Set], in insertion order *)
}.

(** [Set.prototype.add] *)
Definition set_add (s : list Z) (x : Z) : list Z :=
  if existsb (Z.eqb x) s then s else s ++ [x].

(** The inner loop
    [for (let i = 0; i < numStepsPerFrame && queue.length > 0; i++)]
    from counter [i]: the frame built and the queue left. *)
Fixpoint fill_frame (k : jsnum) (i : Z) (fr : Frame) (queue : list QueueEntry)
  : Frame * list QueueEntry :=
  match queue with
  | [] => (fr, [])
  | e :: queue' =>
      if lt_jsnum i k then
        fill_frame k (i + 1)
          (mkFrame (Some (q_array e))
                   (combinedColored fr ++ q_colored e)
                   (if i =? 0 then fold_left set_add (q_soundIndexes e) (combinedSoundIndexes fr)
                    else combinedSoundIndexes fr))
          queue'
      else (fr, queue)
  end.

(** What the presentation has done: a call of [rearrangeImage] that drew
    its picture, a call of [playBeep], a pause. *)
Inductive Event : Type :=
| Draw (order : jsarray) (colored : list Colored)
| Beep (duration n : Z) (indexes : list Z)
| Sleep (ms : Z).

(** [playBeep({ duration, n, indexes, type: 'square' })]: one tone per
    index, at [calculateFrequency(n, i) = 20 + 5980 * (i / n)] hertz,
    stopped [duration] milliseconds later.  With [n = 0] the frequency
    of a tone is not a finite number and [setValueAtTime] throws a
    [TypeError]: [None].  Two more throws are outside what is embedded,
    and the statements that a presentation goes on past a tone assume
    them away: a negative [duration] can put the stop before the start
    of the audio clock ([RangeError]), and an index beyond [2^53] in
    size can give a frequency that is not a float. *)
Definition playBeep (duration n : Z) (indexes : list Z) : option Event :=
  match indexes with
  | [] => Some (Beep duration n [])
  | _ :: _ => if n =? 0 then None else Some (Beep duration n indexes)
  end.

Inductive Completion : Type :=
| Completed
| Threw      (* [rearrangeImage] or [playBeep] threw *)
| Unfinished (* fuel ran out *).

(** [while (colorAndSoundQueue.length > 0) { ... }]: the events that took
    place and how the loop ends. *)
Fixpoint present (fuel : nat) (image : Image) (context : Context) (k : jsnum)
    (duration n : Z) (queue : list QueueEntry) : list Event * Completion :=
  match queue with
  | [] => ([], Completed)
  | _ :: _ =>
      match fuel with
      | O => ([], Unfinished)
      | S fuel' =>
          let '(fr, queue') := fill_frame k 0 (mkFrame None [] []) queue in
          match combinedArray fr,
                rearrangeImage (combinedArray fr) image context (combinedColored fr) with
          | Some order, Some _ =>
              match playBeep duration n (combinedSoundIndexes fr) with
              | None => ([Draw order (combinedColored fr)], Threw)
              | Some beep =>
                  let '(events, c) := present fuel' image context k duration n queue' in
                  (Draw order (combinedColored fr) :: beep :: Sleep duration :: events, c)
              end
          | _, _ => ([], Threw)
          end
      end
  end.

Inductive Outcome : Type :=
| Returned (finalArray : jsarray)
| Rejected   (* the promise is rejected with what was thrown *)
| Stuck      (* not known to end: the fuel ran out *).

(** [animateSort({ image, context, arr, interval, frameDuration,
    generator, yieldCompare })]: the presentation events in order and how
    the call ends.  The queue loses at least one entry per iteration
    that does not throw, so its length is fuel enough for the
    presentation loop. *)
Definition animateSort (image : Image) (context : Context) (arr_ : jsarray)
    (interval frameDuration : Z) (generator : Generator) (yieldCompare : option bool)
  : list Event * Outcome :=
  let numSteps := numStepsPerFrame frameDuration interval in
  match drain (generator arr_ yieldCompare) with
  | None => ([], Stuck)
  | Some (queue, finalArray) =>
      let '(events, c) :=
        present (length queue) image context numSteps
          (Z.max frameDuration interval) (len arr_) queue in
      match c with
      | Completed =>
          match rearrangeImage (Some finalArray) image context [] with
          | Some _ => (events ++ [Draw finalArray []], Returned finalArray)
          | None => (events, Rejected)
          end
      | Threw => (events, Rejected)
      | Unfinished => (events, Stuck)
      end
  end.

(* ================================================================== *)
(** * The rounds of [execute] in [main.js] *)
(* ================================================================== *)

(** [Array.from({ length: n }, (_, i) => i)] for an integer [n]; a
    negative length counts as 0. *)
Definition identity_order (n : Z) : jsarray :=
  map (fun i => Num (Z.of_nat i)) (seq 0 (Z.to_nat n)).

(** One turn of the loop of [execute], for the entry
    [[isEfficient, sortGen, ...]]: a fresh array [0 .. n-1] is shuffled,
    sorted by [sortGen] and swept by the accent pass, each through
    [animateSort], with a pause of one second after the shuffle and of
    two seconds at the end.  Each [animateSort] is awaited: when one is
    rejected the rest is not run.  [pick] stands for the random draws of
    the shuffle, and the values of the form are integers; [context] is
    the canvas, sized to the window, and [image] the picture; writing
    the name of the sort on the label of the canvas is left out. *)
Definition execute_round (image : Image) (context : Context) (pick : Z -> Z)
    (frameDuration slowInterval fastInterval slowN fastN : Z)
    (isEfficient : bool) (sortGen : Generator) : list Event * Completion :=
  let n := if isEfficient then slowN else fastN in
  let interval := if isEfficient then slowInterval else fastInterval in
  let arr_ := identity_order n in
  let '(shuffling, r1) :=
    animateSort image context arr_ slowInterval frameDuration
      (generator_of_unflagged (shuffleGenerator pick)) None in
  match r1 with
  | Rejected => (shuffling, Threw)
  | Stuck => (shuffling, Unfinished)
  | Returned shuffledArray =>
      let '(sorting, r2) :=
        animateSort image context shuffledArray interval frameDuration sortGen (Some true) in
      match r2 with
      | Rejected => (shuffling ++ [Sleep 1000] ++ sorting, Threw)
      | Stuck => (shuffling ++ [Sleep 1000] ++ sorting, Unfinished)
      | Returned sortedArray =>
          let '(accent, r3) :=
            animateSort image context sortedArray fastInterval frameDuration
              (generator_of_unflagged accentGenerator) (Some true) in
          match r3 with
          | Rejected => (shuffling ++ [Sleep 1000] ++ sorting ++ accent, Threw)
          | Stuck => (shuffling ++ [Sleep 1000] ++ sorting ++ accent, Unfinished)
          | Returned _ =>
              (shuffling ++ [Sleep 1000] ++ sorting ++ accent ++ [Sleep 2000], Completed)
          end
      end
  end.

(** The loop of [execute] over its entries; [picks r] are the random
    draws of round [r]. *)
Fixpoint execute_rounds (image : Image) (context : Context)
    (picks : nat -> Z -> Z) (round : nat)
    (frameDuration slowInterval fastInterval slowN fastN : Z)
    (entries : list (bool * Generator)) : list Event * Completion :=
  match entries with
  | [] => ([], Completed)
  | (isEfficient, sortGen) :: entries' =>
      let '(events, c) :=
        execute_round image context (picks round) frameDuration slowInterval fastInterval slowN fastN
          isEfficient sortGen in
      match c with
      | Completed =>
          let '(events', c') :=
            execute_rounds image context picks (S round) frameDuration slowInterval fastInterval slowN fastN
              entries' in
          (events ++ events', c')
      | _ => (events, c)
      end
  end.

(** The entries of the loop: merge sort on [slowN] elements, then (in the
    longer version of the page) selection and insertion sort on [fastN]. *)
Definition entries_merge : list (bool * Generator) := [(true, generator_of mergeSort)].
Definition entries_three : list (bool * Generator) :=
  [(true, generator_of mergeSort); (false, generator_of selectionSort);
   (false, generator_of insertionSort)].

(* ================================================================== *)
(** * Definitions used to state the properties *)
(* ================================================================== *)

(** ** Scheduler *)

(** [k >= 1] for the computed number of steps per frame. *)
Definition at_least_one (k : jsnum) : bool :=
  match k with
  | Fin z => 1 <=? z
  | PosInf => true
  | NegInf | NaN => false
  end.

(** How many entries are taken from counter [i] on when [n] are queued. *)
Definition take_count (k : jsnum) (i : Z) (n : nat) : nat :=
  match k with
  | Fin z => Nat.min (Z.to_nat (z - i)) n
  | PosInf => n
  | NegInf | NaN => O
  end.

(** The size of the next frame when [n] entries are queued. *)
Definition frame_len (k : jsnum) (n : nat) : nat := take_count k 0 n.

(** The queue cut into consecutive groups of [frame_len] entries. *)
Fixpoint chunks (fuel : nat) (k : jsnum) (queue : list QueueEntry) : list (list QueueEntry) :=
  match queue, fuel with
  | [], _ => []
  | _, O => []
  | _, S fuel' =>
      let c := frame_len k (length queue) in
      firstn c queue :: chunks fuel' k (skipn c queue)
  end.

(** The array a frame shows after folding the entries [ch] over [d]. *)
Definition shown_array (d : option jsarray) (ch : list QueueEntry) : option jsarray :=
  fold_left (fun _ e => Some (q_array e)) ch d.

(** The sound indexes of a step, as a set in insertion order. *)
Definition sound_set (e : QueueEntry) : list Z := fold_left set_add (q_soundIndexes e) [].

(** What presenting one group of entries as a frame asks of the
    collaborators. *)
Definition frame_events (duration n : Z) (ch : list QueueEntry) : list Event :=
  match ch with
  | [] => []
  | e :: rest =>
      [Draw (q_array (last rest e)) (flat_map q_colored ch);
       Beep duration n (sound_set e);
       Sleep duration]
  end.



(** What the generator answers to the first call of [next()]. *)
Definition first_answer (it : Iterator) : Next (it_state it) := it_next it (it_start it).

(** The array the drain ends on when it has consumed the steps [steps]
    of a generator working on the array object [underlying]: the
    snapshot of the last step, or the object itself when there is no
    step. *)
Definition settle (underlying : jsarray) (steps : list Step) : jsarray :=
  match steps with
  | s :: rest => array (last rest s)
  | [] => underlying
  end.

(** ** What can be presented *)

(** The entry is the index of one of the [n] strips cut from a canvas
    [width] pixels wide, and that strip is not empty. *)
Definition shown_strip (width n : Z) (v : value) : bool :=
  match v with
  | Num z => (0 <=? z) && (z <? n) && (1 <=? currentSegmentWidth width n z)
  | Undefined => false
  end.

(** The [order] can be drawn: the picture is not broken and, unless
    there is nothing to draw, the canvas is not empty and every entry
    names a strip that is not empty. *)
Definition drawable (image : Image) (context : Context) (order : jsarray) : bool :=
  match image, order with
  | Broken, _ => false
  | Available, [] => true
  | Available, _ :: _ =>
      (1 <=? canvas_width context) && (1 <=? canvas_height context) &&
      forallb (shown_strip (canvas_width context) (len order)) order
  end.

(** An index whose tone has a frequency that is a float: [i / n] is at
    most [2^53] in size, so that [20 + 5980 * (i / n)] is well within
    the floats (every position of an array of [n] elements is such an
    index). *)
Definition safe_index (n i : Z) : bool := (- (2 ^ 53 * n) <=? i) && (i <=? 2 ^ 53 * n).

(** The tones of [indexes] can be played for [duration] milliseconds
    over [n] elements: there is none to play, or [n] is not 0, the
    duration is not negative and the indexes are safe. *)
Definition audible (duration n : Z) (indexes : list Z) : bool :=
  match indexes with
  | [] => true
  | _ :: _ => negb (n =? 0) && (0 <=? duration) && forallb (safe_index n) indexes
  end.

(** The step can be presented whatever frame it falls in: its array
    can be drawn and its sound indexes played. *)
Definition showable (image : Image) (context : Context) (duration n : Z) (s : Step) : bool :=
  drawable image context (array s) && audible duration n (q_soundIndexes (enqueue s)).

(** The group of entries can be presented as a frame: the array of its
    last entry can be drawn and the sound indexes of its first entry
    played. *)
Definition presentable (image : Image) (context : Context) (duration n : Z)
    (group : list QueueEntry) : bool :=
  match group with
  | [] => true
  | e :: rest =>
      drawable image context (q_array (last rest e)) && audible duration n (q_soundIndexes e)
  end.

(** The spec's reading of the steps per frame: the ceiling clamped to a
    minimum of 1. *)
Definition spec_stepsPerFrame (frameDuration interval : Z) : Z :=
  Z.max 1 (- ((- frameDuration) / interval)).

(** ** Arrays of numbers *)

(** [l[i]] and [l[i] = x] on a list of integers, for an index in range. *)
Definition zth (l : list Z) (i : Z) : Z := nth (Z.to_nat i) l 0.

Fixpoint upd_at (l : list Z) (i : nat) (x : Z) : list Z :=
  match l, i with
  | [], _ => []
  | _ :: l', O => x :: l'
  | y :: l', S i' => y :: upd_at l' i' x
  end.

Definition upd (l : list Z) (i : Z) (x : Z) : list Z := upd_at l (Z.to_nat i) x.

Definition swapz (l : list Z) (i j : Z) : list Z := upd (upd l i (zth l j)) j (zth l i).

Definition zlen (l : list Z) : Z := Z.of_nat (length l).

(** The ascending sequence [0 .. n-1]. *)
Definition iota (n : nat) : list Z := map Z.of_nat (seq 0 n).

(** [l] is ascending on the positions [lo .. hi-1]. *)
Definition sorted_on (l : list Z) (lo hi : Z) : Prop :=
  forall i j, lo <= i -> i <= j -> j < hi -> zth l i <= zth l j.

(** ** Weakest preconditions *)

(** From memory [m] the program returns (it does not run out of fuel) and
    the steps it yields, its result and its final memory satisfy [Q]. *)
Definition wp {A} (p : Prog A) (Q : list Step -> A -> Mem -> Prop) (m : Mem) : Prop :=
  exists o m' a, p m = (o, m', Some a) /\ Q o a m'.

(** ** Properties of the yielded steps *)

(** Every step the program yields satisfies [P], from every memory (and
    whether or not it runs out of fuel). *)
Definition emits {A} (P : Step -> Prop) (p : Prog A) : Prop :=
  forall m, Forall P (out (p m)).

(** [q] behaves as [p] except that it yields only the steps of [p] that
    [keep] selects. *)
Definition filtered {A} (keep : Step -> bool) (p q : Prog A) : Prop :=
  forall m, out (q m) = filter keep (out (p m)) /\ mem (q m) = mem (p m) /\ res (q m) = res (p m).

(** An absent highlight list counts as empty. *)
Definition no_indexes (o : option (list Z)) : bool :=
  match o with
  | None | Some [] => true
  | Some (_ :: _) => false
  end.

(** A step with neither compare nor swap highlights. *)
Definition bare (s : Step) : bool :=
  no_indexes (compareIndexes s) && no_indexes (swappedIndexes s).

Definition highlighted (s : Step) : Prop := bare s = false.

(** The counters a step carries, when it carries both. *)
Definition counters (s : Step) : option (Z * Z) :=
  match step_comparisons s, step_swaps s with
  | Some c, Some w => Some (c, w)
  | _, _ => None
  end.

Definition stats_le (a b : Stats) : Prop :=
  comparisons a <= comparisons b /\ swaps a <= swaps b.

(** The steps carry counters that never decrease along the list and lie
    between the counters [lo] and [hi]. *)
Fixpoint counters_monotone (lo : Stats) (steps : list Step) (hi : Stats) : Prop :=
  match steps with
  | [] => stats_le lo hi
  | s :: steps' =>
      exists c w, counters s = Some (c, w) /\
        stats_le lo (mkStats c w) /\ counters_monotone (mkStats c w) steps' hi
  end.

(** The program's steps carry non-decreasing counters, starting from the
    counters it is entered with and ending at most at those it leaves. *)
Definition monotone {A} (p : Prog A) : Prop :=
  forall m, counters_monotone (stats m) (out (p m)) (stats (mem (p m))).

(** The counters the last yielded step carries are the final counters
    (or nothing was yielded and the counters did not move). *)
Definition synced_with (m0 : Stats) (steps : list Step) (m1 : Stats) : Prop :=
  match rev steps with
  | [] => m1 = m0
  | s :: _ => counters s = Some (comparisons m1, swaps m1)
  end.

Definition synced {A} (p : Prog A) : Prop :=
  forall m, synced_with (stats m) (out (p m)) (stats (mem (p m))).

(** The program yields nothing. *)
Definition quiet {A} (p : Prog A) : Prop := forall m, out (p m) = [].

(** Every yielded step but the last satisfies [P]. *)
Definition all_but_last {A} (P : Step -> Prop) (p : Prog A) : Prop :=
  forall m, Forall P (removelast (out (p m))).

(** The program yields at most one step. *)
Definition at_most_one {A} (p : Prog A) : Prop :=
  forall m, (length (out (p m)) <= 1)%nat.

(** Selections of steps used to compare the runs with the flag on and off. *)
Definition keep_none (s : Step) : bool := false.
Definition keep_uncompared (s : Step) : bool := no_indexes (compareIndexes s).
Definition keep_unswapped (s : Step) : bool :=
  match swappedIndexes s with
  | Some [] => true
  | _ => false
  end.

(** The counters a run ends with. *)
Definition final_stats {A} (p : Prog A) (a : jsarray) : Stats := stats (mem (run p a)).

(** When the program returns, the last step it yielded carries the
    counters it ends with. *)
Definition ends_terminal {A} (p : Prog A) : Prop :=
  forall m, res (p m) <> None ->
    exists o s, out (p m) = o ++ [s] /\
      counters s = Some (comparisons (stats (mem (p m))), swaps (stats (mem (p m)))).

(** [q] computes what [p] computes, on the array and the comparison
    counter, and leaves the swap counter alone. *)
Definition same_but_swaps {A} (p q : Prog A) : Prop :=
  forall m1 m2,
    arr m1 = arr m2 -> comparisons (stats m1) = comparisons (stats m2) ->
    arr (mem (p m1)) = arr (mem (q m2)) /\
    comparisons (stats (mem (p m1))) = comparisons (stats (mem (q m2))) /\
    res (p m1) = res (q m2) /\
    swaps (stats (mem (q m2))) = swaps (stats m2).

(** A comparison step of merge sort. *)
Definition compare_step (s : Step) : Prop :=
  swappedIndexes s = Some [] /\ exists i j, compareIndexes s = Some [i; j].

(** The steps the spec expects of a run with the flag off: the mutation
    steps of the run with the flag on, and its highlight-free settled
    step. *)
Definition spec_mutation_steps (on : list Step) : list Step :=
  filter (fun s => negb (no_indexes (swappedIndexes s)) || bare s) on.

(** The counters of a run: non-decreasing along its steps and, when the
    run returns, carried to the end by its last step. *)
Definition counters_behave (p : Prog unit) (a : jsarray) : Prop :=
  counters_monotone (mkStats 0 0) (steps_of p a) (final_stats p a) /\
  (completes p a -> synced_with (mkStats 0 0) (steps_of p a) (final_stats p a)).


(** What one call of [merge] with the flag on yields, from memory [m] to
    memory [m']: comparison steps, one per pair examined, then, when some
    position of [left..right] changed value, one consolidated step that
    lists the changed positions; the swap counter grows by their number. *)
Definition merge_emission (left right : Z) (m : Mem) (o : list Step) (m' : Mem) : Prop :=
  let changed := changed_from (Z.to_nat (right + 1 - left)) left (arr m') (arr m) in
  exists cmps,
    Forall compare_step cmps /\
    comparisons (stats m') = comparisons (stats m) + Z.of_nat (length cmps) /\
    match changed with
    | [] => o = cmps /\ swaps (stats m') = swaps (stats m)
    | _ :: _ =>
        o = cmps ++ [mkStep (arr m') (Some changed) (Some [])
                       (Some (comparisons (stats m'))) (Some (swaps (stats m')))] /\
        swaps (stats m') = swaps (stats m) + Z.of_nat (length changed)
    end.

(** ** A reference count *)

(** Insertion sort as the spec describes it, re-run without step
    emission and counting what it does: the element to place is compared
    with the elements before it, from the nearest, until one that is not
    greater is met or the start is reached, and each element passed is
    shifted right by one.  Every comparison counts as a comparison and
    every right-shift as a swap.  [placed] holds the elements already
    placed, greatest (nearest) first; the result is the new [placed]
    with the comparisons and the swaps made. *)
Fixpoint reference_insert (key : Z) (placed : list Z) : list Z * Z * Z :=
  match placed with
  | [] => ([key], 0, 0)
  | x :: rest =>
      if key <? x then
        let '(placed', c, w) := reference_insert key rest in (x :: placed', c + 1, w + 1)
      else (key :: x :: rest, 1, 0)
  end.

Fixpoint reference_insert_all (placed todo : list Z) : list Z * Z * Z :=
  match todo with
  | [] => (rev placed, 0, 0)
  | key :: todo' =>
      let '(placed', c, w) := reference_insert key placed in
      let '(sorted, c', w') := reference_insert_all placed' todo' in
      (sorted, c + c', w + w')
  end.

(** The sorted array, the comparisons and the swaps of the reference
    run on [l]. *)
Definition reference_insertionSort (l : list Z) : list Z * Z * Z :=
  match l with
  | [] => ([], 0, 0)
  | x :: todo => reference_insert_all [x] todo
  end.

(** ** Sorting *)

(** The run of [p] on the array [l] returns, and its last yielded step
    shows the ascending sequence [0 .. n-1]. *)
Definition sorts (p : Prog unit) (l : list Z) (n : nat) : Prop :=
  exists o s m', run p (nums l) = (o ++ [s], m', Some tt) /\ array s = nums (iota n).

(** The memory holds a list of numbers that is an ascending permutation
    of [l]. *)
Definition sorted_mem (l : list Z) (m : Mem) : Prop :=
  exists l', arr m = nums l' /\ Permutation l' l /\ sorted_on l' 0 (zlen l').

(** The number of elements of [l] below [x], and the number of
    inversions of [l]. *)
Fixpoint count_lt (x : Z) (l : list Z) : Z :=
  match l with
  | [] => 0
  | y :: l' => (if y <? x then 1 else 0) + count_lt x l'
  end.

Fixpoint inversions (l : list Z) : Z :=
  match l with
  | [] => 0
  | x :: l' => count_lt x l' + inversions l'
  end.

(** The positions from [t] on are in order and hold nothing smaller than
    what is before them. *)
Definition tail_done (l : list Z) (t n : Z) : Prop :=
  sorted_on l t n /\ forall a b, 0 <= a < t -> t <= b < n -> zth l a <= zth l b.

(** The positions before [h] are in order and hold nothing greater than
    what is after them. *)
Definition head_done (l : list Z) (h n : Z) : Prop :=
  sorted_on l 0 h /\ forall a b, 0 <= a < h -> h <= b < n -> zth l a <= zth l b.

(** Insertion with a hole at [h]: the positions [0..i] but [h] are in
    order, and what is after the hole is greater than the key. *)
Definition hole_inv (a : list Z) (h i key : Z) : Prop :=
  (forall p q, 0 <= p -> p <= q -> q <= i -> p <> h -> q <> h -> zth a p <= zth a q) /\
  (forall q, h < q <= i -> key < zth a q).

(** The numbers an array holds ([undefined] read as 0). *)
Definition ints (a : jsarray) : list Z :=
  map (fun v => match v with Num z => z | Undefined => 0 end) a.

(** [a'] differs from [a] only inside the window [lo .. hi], and what it
    holds there was in the window of [a]. *)
Definition window_kept (a a' : list Z) (lo hi : Z) : Prop :=
  zlen a' = zlen a /\
  (forall k, 0 <= k -> k < lo \/ hi < k -> zth a' k = zth a k) /\
  (forall k, lo <= k <= hi -> exists k', lo <= k' <= hi /\ zth a' k = zth a k').

(** Max-heap order on the first [n] positions: every child [c] of a
    parent [k >= lo] holds at most what its parent holds. *)
Definition heap_ok (a : list Z) (n lo : Z) : Prop :=
  forall k c, lo <= k -> c < n -> c = 2 * k + 1 \/ c = 2 * k + 2 -> zth a c <= zth a k.

(** The same but for the parent [i], whose children are however
    dominated by the parent of [i]. *)
Definition heap_but (a : list Z) (n lo i : Z) : Prop :=
  (forall k c, lo <= k -> k <> i -> c < n -> c = 2 * k + 1 \/ c = 2 * k + 2 ->
               zth a c <= zth a k) /\
  (forall p c, lo <= p -> i = 2 * p + 1 \/ i = 2 * p + 2 ->
               c = 2 * i + 1 \/ c = 2 * i + 2 -> c < n -> zth a c <= zth a p).

(** The elements of [a] at the positions [x .. y-1]. *)
Definition sub (a : list Z) (x y : Z) : list Z :=
  firstn (Z.to_nat (y - x)) (skipn (Z.to_nat x) a).

(** [a'] differs from [a] only inside the window [lo .. hi]. *)
Definition frame (a a' : list Z) (lo hi : Z) : Prop :=
  zlen a' = zlen a /\ forall k, 0 <= k -> k < lo \/ hi < k -> zth a' k = zth a k.

(** The steps [o] end with one that shows the array of [m']. *)
Definition shows_last (o : list Step) (m' : Mem) : Prop :=
  exists o' s, o = o' ++ [s] /\ array s = arr m'.

(** Merging the runs [left .. mid] and [mid+1 .. right] of [a], read up
    to [i] and [j]: [mz] holds what was read, in order, and nothing in it
    exceeds what is still to be read. *)
Definition merge_inv (a : list Z) (left mid right i j : Z) (mz : list Z) : Prop :=
  left <= i <= mid + 1 /\ mid + 1 <= j <= right + 1 /\
  zlen mz = (i - left) + (j - (mid + 1)) /\
  Permutation mz (sub a left i ++ sub a (mid + 1) j) /\
  sorted_on mz 0 (zlen mz) /\
  forall t, 0 <= t < zlen mz ->
            (i <= mid -> zth mz t <= zth a i) /\ (j <= right -> zth mz t <= zth a j).

(** The number of positions of [l], counted from [k], that do not hold
    their own index. *)
Fixpoint misplaced (k : Z) (l : list Z) : Z :=
  match l with
  | [] => 0
  | x :: l' => (if x =? k then 0 else 1) + misplaced (k + 1) l'
  end.

(** Cycle sort at [c] with [item] in hand: putting [item] back at [c]
    gives a permutation of [0 .. n-1] whose positions before [c] are
    final. *)
Definition cycle_inv (n : nat) (a : list Z) (item c : Z) : Prop :=
  Permutation (upd a c item) (iota n) /\ forall k, 0 <= k < c -> zth a k = k.

(** ** Counting sort on one digit *)

(** The decimal digit of [x] that [exp] selects. *)
Definition dg (exp x : Z) : Z := Z.rem (x / exp) 10.

(** The number of [k < i] with [f k]. *)
Fixpoint countn (f : nat -> bool) (i : nat) : Z :=
  match i with
  | O => 0
  | S i' => countn f i' + (if f i' then 1 else 0)
  end.

Definition eqd (a : list Z) (exp d : Z) (k : nat) : bool := dg exp (zth a (Z.of_nat k)) =? d.
Definition ltd (a : list Z) (exp d : Z) (k : nat) : bool := dg exp (zth a (Z.of_nat k)) <? d.

(** Where the stable counting sort puts the element at [j]: after the
    elements of smaller digit, and after the earlier ones of its digit. *)
Definition bucket_pos (a : list Z) (exp : Z) (j : nat) : Z :=
  let d := dg exp (zth a (Z.of_nat j)) in
  countn (ltd a exp d) (length a) + countn (eqd a exp d) j.

Definition sorted_by (f : Z -> Z) (a : list Z) : Prop :=
  forall p q, 0 <= p -> p <= q -> q < zlen a -> f (zth a p) <= f (zth a q).

(** ** Bitonic sequences, by thresholds *)

(** The positions of [lo .. lo+n-1] where [b] holds form one block. *)
Definition ones_block (b : Z -> bool) (lo n : Z) : Prop :=
  exists p q, lo <= p <= q /\ q <= lo + n /\
              forall i, lo <= i < lo + n -> (b i = true <-> p <= i < q).

(** One block of ones, or one block of zeros: a bitonic 0-1 sequence. *)
Definition bitonic01 (b : Z -> bool) (lo n : Z) : Prop :=
  ones_block b lo n \/ ones_block (fun i => negb (b i)) lo n.

(** [x] is not after [y] in the direction [up]. *)
Definition cmp (up : bool) (x y : Z) : Prop := if up then x <= y else y <= x.

(** [v] is at or after the threshold [t] in the direction [up]. *)
Definition thr (up : bool) (t v : Z) : bool := if up then t <=? v else v <=? t.

(** A bitonic window: every threshold cuts it as a bitonic 0-1 sequence. *)
Definition bitonic (up : bool) (a : list Z) (lo n : Z) : Prop :=
  forall t, bitonic01 (fun i => thr up t (zth a i)) lo n.

(** The window [lo .. lo+n-1] is in order in the direction [up]. *)
Definition sorted_dir (up : bool) (a : list Z) (lo n : Z) : Prop :=
  forall x y, lo <= x -> x <= y -> y < lo + n -> cmp up (zth a x) (zth a y).

(** [a1] is [a] after the half-cleaner on [lo .. lo+2m-1]: every pair
    [(i, i+m)] holds the same two values, in the order [up]. *)
Definition cleaned (up : bool) (a a1 : list Z) (lo m : Z) : Prop :=
  forall i, lo <= i < lo + m ->
    ((zth a1 i = zth a i /\ zth a1 (i + m) = zth a (i + m)) \/
     (zth a1 i = zth a (i + m) /\ zth a1 (i + m) = zth a i)) /\
    cmp up (zth a1 i) (zth a1 (i + m)).

Definition pow2 (k : nat) : Z := 2 ^ Z.of_nat k.

(** The [array] field of the last step a run yields, if it yields one. *)
Definition final_step_array (p : Prog unit) (a : jsarray) : option jsarray :=
  match rev (steps_of p a) with
  | s :: _ => Some (array s)
  | [] => None
  end.

(** Fuel that covers the loops of gnome, comb, odd-even and cycle sort on
    [n] elements. *)
Definition enough_fuel (n fuel : nat) : Prop := 2 * (Z.of_nat n + 1) ^ 3 <= Z.of_nat fuel.

(* ================================================================== *)
(** * Definitions used to state further properties of the code *)
(* ================================================================== *)

(** The run of [p] on the array of integers [l] returns, leaves in the
    array an ascending rearrangement of [l], and the last step it yields
    shows that array. *)
Definition sorts_ints (p : Prog unit) (l : list Z) : Prop :=
  exists o s m' l',
    run p (nums l) = (o ++ [s], m', Some tt) /\
    arr m' = nums l' /\ array s = nums l' /\
    Permutation l' l /\ StronglySorted Z.le l'.

(** The same in the direction [up]: ascending when [up], else descending. *)
Definition sorts_ints_dir (up : bool) (p : Prog unit) (l : list Z) : Prop :=
  exists o s m' l',
    run p (nums l) = (o ++ [s], m', Some tt) /\
    arr m' = nums l' /\ array s = nums l' /\
    Permutation l' l /\ StronglySorted (if up then Z.le else Z.ge) l'.

(** The counters the last yielded step carries. *)
Definition last_counters (p : Prog unit) (a : jsarray) : option (Z * Z) :=
  match rev (steps_of p a) with
  | s :: _ => counters s
  | [] => None
  end.

(** The program keeps the array an array of integers, and every exchange
    it counts removes one inversion: the swap counter plus the number of
    inversions left stays what it was. *)
Definition pays_inversions {A} (p : Prog A) : Prop :=
  forall m l, arr m = nums l ->
    exists l', arr (mem (p m)) = nums l' /\
      swaps (stats (mem (p m))) + inversions l' = swaps (stats m) + inversions l.

(** The run ends with swap counter [k], and the last step it yields
    shows that count. *)
Definition counts_swaps (p : Prog unit) (a : jsarray) (k : Z) : Prop :=
  swaps (final_stats p a) = k /\ exists c, last_counters p a = Some (c, k).

(** [hi, hi - 1, ...]: [cnt] indexes going down from [hi]. *)
Definition downfrom (hi : Z) (cnt : nat) : list Z :=
  map (fun k => hi - Z.of_nat k) (seq 0 cnt).

(** The step shows a rearrangement of the integers [l]. *)
Definition shows_perm (l : list Z) (s : Step) : Prop :=
  exists l', array s = nums l' /\ Permutation l' l.

(** ** Playback *)

(** The arrays the presentation draws, in order. *)
Definition drawn (events : list Event) : list jsarray :=
  flat_map (fun e => match e with Draw order _ => [order] | _ => [] end) events.

(** The sets of indexes the presentation sounds, in order. *)
Definition sounded (events : list Event) : list (list Z) :=
  flat_map (fun e => match e with Beep _ _ indexes => [indexes] | _ => [] end) events.

(** The sound of a group of entries presented as a frame: the sound set
    of its first entry. *)
Definition frame_sound (group : list QueueEntry) : list Z :=
  match group with
  | e :: _ => sound_set e
  | [] => []
  end.


(** [animateSort], given the integers [l] and the driver, presents
    frames, then once more, without highlights, the array in ascending
    order, and returns that array. *)
Definition plays_sorted (image : Image) (context : Context)
    (driver : bool -> Prog unit) (l : list Z) (interval frameDuration : Z) : Prop :=
  exists frames l',
    animateSort image context (nums l) interval frameDuration (generator_of driver) (Some true)
      = (frames ++ [Draw (nums l') []], Returned (nums l')) /\
    Permutation l' l /\ StronglySorted Z.le l'.

(** A round of [execute] on [n] elements runs to its end, and ends on
    the picture in order followed by the closing pause. *)
Definition round_restores (n : Z) (r : list Event * Completion) : Prop :=
  exists events, r = (events ++ [Draw (identity_order n) []; Sleep 2000], Completed).

(** An order of [n] strips: [n] entries, each the index of a strip
    (an index may come more than once). *)
Definition order_of (n : Z) (a : jsarray) : Prop :=
  exists l, a = nums l /\ zlen l = n /\ Forall (fun z => 0 <= z < n) l.

(** A step that shows an order of [n] strips and sounds positions of it
    only. *)
Definition plain_step (n : Z) (s : Step) : Prop :=
  order_of n (array s) /\ Forall (fun i => 0 <= i < n) (q_soundIndexes (enqueue s)).

(** What a sort of the page needs for its phase of a round: it sorts
    within the cap through plain steps, or, on an array of at most one
    element, returns without a step. *)
Definition round_ready (D : bool -> Prog unit) (l : list Z) (n : nat) : Prop :=
  (sorts_ints (D true) l /\ (length (steps_of (D true) (nums l)) <= safetyCap)%nat /\
   wp (D true) (fun o _ m' => Forall (plain_step (zlen l)) o /\ order_of (zlen l) (arr m'))
      (mkMem (nums l) (mkStats 0 0))) \/
  (run (D true) (nums l) = ([], mkMem (nums l) (mkStats 0 0), Some tt) /\ (n <= 1)%nat).

(** ** Layout *)

(** Where strip [k] of the picture starts. *)
Definition strip_x (width segmentCount k : Z) : Z :=
  k * segmentWidth width segmentCount + Z.min k (remainder width segmentCount).

(** Strip [k] as it is cut. *)
Definition strip (width segmentCount k : Z) : Segment :=
  mkSegment (strip_x width segmentCount k) (currentSegmentWidth width segmentCount k).

(** The widths of strips, added up. *)
Definition total_width (segs : list Segment) : Z :=
  fold_right (fun s t => seg_width s + t) 0 segs.

(** The entry is the index of one of [n] strips. *)
Definition strip_index (n : Z) (v : value) : Prop :=
  exists z, v = Num z /\ 0 <= z < n.

(** ** The flag *)

(** The flag changes neither the array the run leaves nor whether the
    run returns. *)
Definition same_result (driver : bool -> Prog unit) (a : jsarray) : Prop :=
  final_array (driver false) a = final_array (driver true) a /\
  (completes (driver false) a <-> completes (driver true) a).

(* ================================================================== *)
(** * Arrays of numbers *)
(* ================================================================== *)

Lemma len_nums (l : list Z) : len (nums l) = zlen l.
Proof. unfold len, nums, zlen. rewrite length_map. reflexivity. Qed.

Lemma length_upd_at : forall l i x, length (upd_at l i x) = length l.
Proof. induction l as [|y l IH]; intros [|i] x; simpl; auto. Qed.

Lemma zlen_upd (l : list Z) (i x : Z) : zlen (upd l i x) = zlen l.
Proof. unfold zlen, upd. rewrite length_upd_at. reflexivity. Qed.

Lemma zlen_swapz (l : list Z) (i j : Z) : zlen (swapz l i j) = zlen l.
Proof. unfold swapz. rewrite !zlen_upd. reflexivity. Qed.

Lemma nth_upd_at : forall l i j x,
  nth j (upd_at l i x) 0 =
    if (j =? i)%nat then (if (i <? length l)%nat then x else 0) else nth j l 0.
Proof.
  induction l as [|y l IH]; intros i j x.
  - replace (upd_at [] i x) with (@nil Z) by (destruct i; reflexivity).
    destruct (j =? i)%nat; destruct j; reflexivity.
  - destruct i as [|i]; destruct j as [|j]; try reflexivity.
    cbn [upd_at nth length]. rewrite IH. reflexivity.
Qed.

Lemma zth_upd (l : list Z) (i j x : Z) :
  0 <= i < zlen l -> 0 <= j ->
  zth (upd l i x) j = if j =? i then x else zth l j.
Proof.
  unfold zth, upd, zlen. intros Hi Hj. rewrite nth_upd_at.
  destruct (Z.eqb_spec j i) as [->|Hne].
  - rewrite Nat.eqb_refl. destruct (Nat.ltb_spec (Z.to_nat i) (length l)); [reflexivity | lia].
  - destruct (Nat.eqb_spec (Z.to_nat j) (Z.to_nat i)); [lia | reflexivity].
Qed.

Lemma zth_upd_same (l : list Z) (i x : Z) : 0 <= i < zlen l -> zth (upd l i x) i = x.
Proof. intros H. rewrite zth_upd by lia. rewrite Z.eqb_refl. reflexivity. Qed.

Lemma zth_upd_other (l : list Z) (i j x : Z) :
  0 <= i < zlen l -> 0 <= j -> j <> i -> zth (upd l i x) j = zth l j.
Proof.
  intros Hi Hj Hne. rewrite zth_upd by lia.
  destruct (Z.eqb_spec j i); [contradiction | reflexivity].
Qed.

Lemma zth_swapz (l : list Z) (i j k : Z) :
  0 <= i < zlen l -> 0 <= j < zlen l -> 0 <= k ->
  zth (swapz l i j) k = if k =? j then zth l i else if k =? i then zth l j else zth l k.
Proof.
  intros Hi Hj Hk. unfold swapz.
  rewrite zth_upd by (rewrite ?zlen_upd; lia).
  destruct (Z.eqb_spec k j); [reflexivity|].
  rewrite zth_upd by lia. reflexivity.
Qed.

(** Equality of integer lists, position by position. *)
Lemma zth_ext (l1 l2 : list Z) :
  zlen l1 = zlen l2 -> (forall i, 0 <= i < zlen l1 -> zth l1 i = zth l2 i) -> l1 = l2.
Proof.
  unfold zlen, zth. intros Hlen H.
  apply (nth_ext l1 l2 0 0); [lia|].
  intros n Hn. specialize (H (Z.of_nat n)). rewrite Nat2Z.id in H. apply H. lia.
Qed.

Lemma get_nums (l : list Z) (i : Z) :
  0 <= i < zlen l -> get_idx (nums l) i = Num (zth l i).
Proof.
  unfold get_idx, zth, nums, zlen. intros H.
  destruct (Z.ltb_spec i 0); [lia|].
  rewrite (nth_indep _ Undefined (Num 0)) by (rewrite length_map; lia).
  apply (map_nth Num).
Qed.

Lemma get_oob (a : jsarray) (i : Z) : len a <= i -> get_idx a i = Undefined.
Proof.
  unfold get_idx, len. intros H. destruct (Z.ltb_spec i 0); [reflexivity|].
  apply nth_overflow. lia.
Qed.

Lemma set_nat_nums : forall l i x,
  (i < length l)%nat -> set_nat (nums l) i (Num x) = nums (upd_at l i x).
Proof.
  induction l as [|y l IH]; intros [|i] x H; simpl in *; try lia; [reflexivity|].
  f_equal. apply IH. lia.
Qed.

Lemma set_nums (l : list Z) (i x : Z) :
  0 <= i < zlen l -> set_idx (nums l) i (Num x) = nums (upd l i x).
Proof.
  unfold set_idx, upd, zlen. intros H. destruct (Z.ltb_spec i 0); [lia|].
  apply set_nat_nums. lia.
Qed.

Lemma swap_nums (l : list Z) (i j : Z) :
  0 <= i < zlen l -> 0 <= j < zlen l -> swap_idx (nums l) i j = nums (swapz l i j).
Proof.
  intros Hi Hj. unfold swap_idx, swapz.
  rewrite !get_nums by assumption.
  rewrite set_nums by assumption.
  rewrite set_nums by (rewrite zlen_upd; assumption). reflexivity.
Qed.

Lemma length_set_nat : forall a i v, length (set_nat a i v) = Nat.max (length a) (S i).
Proof.
  induction a as [|x a IH]; intros i v.
  - induction i as [|i IHi]; simpl in *; [reflexivity | rewrite IHi; reflexivity].
  - destruct i; simpl; [lia | rewrite IH; lia].
Qed.

Lemma nums_inj (l1 l2 : list Z) : nums l1 = nums l2 -> l1 = l2.
Proof.
  revert l2. induction l1 as [|x l1 IH]; intros [|y l2] H; simpl in H; try discriminate; auto.
  injection H as -> H. f_equal. auto.
Qed.

(** ** Permutations *)

Lemma upd_at_split : forall l i x,
  (i < length l)%nat -> upd_at l i x = firstn i l ++ x :: skipn (S i) l.
Proof.
  induction l as [|y l IH]; intros [|i] x H; simpl in *; try lia; [reflexivity|].
  f_equal. apply IH. lia.
Qed.

Lemma nth_split_at : forall (l : list Z) i,
  (i < length l)%nat -> l = firstn i l ++ nth i l 0 :: skipn (S i) l.
Proof.
  induction l as [|y l IH]; intros [|i] H; simpl in *; try lia; [reflexivity|].
  f_equal. apply IH. lia.
Qed.

(** A rearrangement given by an injective map of the positions is a
    permutation. *)
Lemma perm_by_index (l l' : list Z) (f : Z -> Z) :
  zlen l' = zlen l ->
  (forall x, 0 <= x < zlen l -> 0 <= f x < zlen l) ->
  (forall x y, 0 <= x < zlen l -> 0 <= y < zlen l -> f x = f y -> x = y) ->
  (forall x, 0 <= x < zlen l -> zth l' x = zth l (f x)) ->
  Permutation l l'.
Proof.
  unfold zlen, zth. intros Hlen Hb Hinj Hnth.
  apply (proj2 (Permutation_nth l l' 0)). split; [lia|].
  exists (fun n => Z.to_nat (f (Z.of_nat n))). repeat split.
  - intros x Hx. specialize (Hb (Z.of_nat x)). lia.
  - intros x y Hx Hy Hxy.
    assert (f (Z.of_nat x) = f (Z.of_nat y)).
    { pose proof (Hb (Z.of_nat x)). pose proof (Hb (Z.of_nat y)). lia. }
    apply Hinj in H; lia.
  - intros x Hx. specialize (Hnth (Z.of_nat x)). rewrite Nat2Z.id in Hnth. apply Hnth. lia.
Qed.

Lemma swapz_perm (l : list Z) (i j : Z) :
  0 <= i < zlen l -> 0 <= j < zlen l -> Permutation (swapz l i j) l.
Proof.
  intros Hi Hj. symmetry.
  apply (perm_by_index l (swapz l i j)
           (fun x => if x =? j then i else if x =? i then j else x)).
  - apply zlen_swapz.
  - intros x Hx. destruct (Z.eqb_spec x j); [lia|]. destruct (Z.eqb_spec x i); lia.
  - intros x y Hx Hy.
    destruct (Z.eqb_spec x j); destruct (Z.eqb_spec y j);
      destruct (Z.eqb_spec x i); destruct (Z.eqb_spec y i); lia.
  - intros x Hx. rewrite zth_swapz by lia.
    destruct (Z.eqb_spec x j); [reflexivity|]. destruct (Z.eqb_spec x i); reflexivity.
Qed.

(** ** Sorted arrays *)

Lemma sorted_on_StronglySorted : forall l,
  sorted_on l 0 (zlen l) -> StronglySorted Z.le l.
Proof.
  induction l as [|x l IH]; intros H; constructor.
  - apply IH. intros i j Hi Hij Hj.
    specialize (H (i + 1) (j + 1)). unfold zth, zlen in *.
    replace (Z.to_nat (i + 1)) with (S (Z.to_nat i)) in H by lia.
    replace (Z.to_nat (j + 1)) with (S (Z.to_nat j)) in H by lia.
    simpl in H. apply H; simpl length; lia.
  - apply Forall_forall. intros y Hy.
    destruct (In_nth l y 0 Hy) as [n [Hn Hnth]].
    specialize (H 0 (Z.of_nat (S n))). unfold zth, zlen in H.
    rewrite Nat2Z.id in H. simpl in H. rewrite Hnth in H. apply H; lia.
Qed.

Lemma StronglySorted_perm_eq : forall l1 l2,
  StronglySorted Z.le l1 -> StronglySorted Z.le l2 -> Permutation l1 l2 -> l1 = l2.
Proof.
  induction l1 as [|a l1 IH]; intros l2 H1 H2 HP.
  - apply Permutation_nil in HP. subst. reflexivity.
  - destruct l2 as [|b l2]; [apply Permutation_sym, Permutation_nil in HP; discriminate|].
    inversion H1 as [|? ? S1 F1]; inversion H2 as [|? ? S2 F2]; subst.
    assert (a = b).
    { assert (Ha : In a (b :: l2)) by (apply (Permutation_in _ HP); left; reflexivity).
      assert (Hb : In b (a :: l1)) by (apply (Permutation_in _ (Permutation_sym HP)); left; reflexivity).
      rewrite Forall_forall in F1, F2.
      destruct Ha as [Ha|Ha]; [congruence|]. destruct Hb as [Hb|Hb]; [congruence|].
      specialize (F1 _ Hb). specialize (F2 _ Ha). lia. }
    subst b. f_equal. apply IH; auto. apply (Permutation_cons_inv HP).
Qed.

Lemma iota_StronglySorted (n : nat) : StronglySorted Z.le (iota n).
Proof.
  unfold iota. generalize 0%nat. induction n as [|n IH]; intros s; simpl; constructor.
  - apply IH.
  - apply Forall_forall. intros y Hy. apply in_map_iff in Hy. destruct Hy as [x [<- Hx]].
    apply in_seq in Hx. lia.
Qed.

(** An ascending permutation of [0 .. n-1] is [0 .. n-1]. *)
Lemma sorted_perm_iota (l : list Z) (n : nat) :
  Permutation l (iota n) -> sorted_on l 0 (zlen l) -> l = iota n.
Proof.
  intros HP Hs. apply StronglySorted_perm_eq; auto using iota_StronglySorted, sorted_on_StronglySorted.
Qed.

Lemma zlen_iota (n : nat) : zlen (iota n) = Z.of_nat n.
Proof. unfold zlen, iota. rewrite length_map, length_seq. reflexivity. Qed.

Lemma perm_zlen (l1 l2 : list Z) : Permutation l1 l2 -> zlen l1 = zlen l2.
Proof. intros H. unfold zlen. rewrite (Permutation_length H). reflexivity. Qed.

(* ================================================================== *)
(** * The generator monad: equations and weakest preconditions *)
(* ================================================================== *)

Lemma bind_some {A B} (p : Prog A) (f : A -> Prog B) (m m1 : Mem) (o : list Step) (a : A) :
  p m = (o, m1, Some a) ->
  bind p f m = (o ++ out (f a m1), mem (f a m1), res (f a m1)).
Proof.
  intros H. unfold bind. rewrite H. destruct (f a m1) as [[o2 m2] r2]. reflexivity.
Qed.

Lemma bind_none {A B} (p : Prog A) (f : A -> Prog B) (m m1 : Mem) (o : list Step) :
  p m = (o, m1, None) -> bind p f m = (o, m1, None).
Proof. intros H. unfold bind. rewrite H. reflexivity. Qed.

Lemma triple_eta {A} (r : list Step * Mem * option A) : r = (out r, mem r, res r).
Proof. destruct r as [[o m] x]. reflexivity. Qed.

Lemma wp_conseq {A} (p : Prog A) (Q Q' : list Step -> A -> Mem -> Prop) (m : Mem) :
  wp p Q m -> (forall o a m', Q o a m' -> Q' o a m') -> wp p Q' m.
Proof. intros (o & m' & a & H & HQ) Himp. exists o, m', a. auto. Qed.

Lemma wp_ret {A} (a : A) (Q : list Step -> A -> Mem -> Prop) (m : Mem) :
  Q [] a m -> wp (ret a) Q m.
Proof. intros H. exists [], m, a. auto. Qed.

Lemma wp_bind {A B} (p : Prog A) (f : A -> Prog B) (Q : list Step -> B -> Mem -> Prop) (m : Mem) :
  wp p (fun o1 a m1 => wp (f a) (fun o2 b m2 => Q (o1 ++ o2) b m2) m1) m ->
  wp (bind p f) Q m.
Proof.
  intros (o1 & m1 & a & H1 & o2 & m2 & b & H2 & HQ).
  exists (o1 ++ o2), m2, b. split; [|assumption].
  rewrite (bind_some _ _ _ _ _ _ H1), H2. reflexivity.
Qed.

Lemma wp_inv {A} (p : Prog A) (Q : list Step -> A -> Mem -> Prop) (m : Mem) :
  wp p Q m -> exists a, res (p m) = Some a /\ Q (out (p m)) a (mem (p m)).
Proof. intros (o & m' & a & H & HQ). rewrite H. exists a. auto. Qed.

Lemma wp_rd (i : Z) (Q : list Step -> value -> Mem -> Prop) (m : Mem) :
  Q [] (get_idx (arr m) i) m -> wp (rd i) Q m.
Proof. intros H. eexists _, _, _. split; [reflexivity | exact H]. Qed.

Lemma wp_wr (i : Z) (v : value) (Q : list Step -> unit -> Mem -> Prop) (m : Mem) :
  Q [] tt (mkMem (set_idx (arr m) i v) (stats m)) -> wp (wr i v) Q m.
Proof. intros H. eexists _, _, _. split; [reflexivity | exact H]. Qed.

Lemma wp_swap (i j : Z) (Q : list Step -> unit -> Mem -> Prop) (m : Mem) :
  Q [] tt (mkMem (swap_idx (arr m) i j) (stats m)) -> wp (swap i j) Q m.
Proof. intros H. eexists _, _, _. split; [reflexivity | exact H]. Qed.

Lemma wp_length (Q : list Step -> Z -> Mem -> Prop) (m : Mem) :
  Q [] (len (arr m)) m -> wp length_ Q m.
Proof. intros H. eexists _, _, _. split; [reflexivity | exact H]. Qed.

Lemma wp_snapshot (Q : list Step -> jsarray -> Mem -> Prop) (m : Mem) :
  Q [] (arr m) m -> wp snapshot Q m.
Proof. intros H. eexists _, _, _. split; [reflexivity | exact H]. Qed.

Lemma wp_inc_comparisons (Q : list Step -> unit -> Mem -> Prop) (m : Mem) :
  Q [] tt (mkMem (arr m) (mkStats (comparisons (stats m) + 1) (swaps (stats m)))) ->
  wp inc_comparisons Q m.
Proof. intros H. eexists _, _, _. split; [reflexivity | exact H]. Qed.

Lemma wp_add_swaps (k : Z) (Q : list Step -> unit -> Mem -> Prop) (m : Mem) :
  Q [] tt (mkMem (arr m) (mkStats (comparisons (stats m)) (swaps (stats m) + k))) ->
  wp (add_swaps k) Q m.
Proof. intros H. eexists _, _, _. split; [reflexivity | exact H]. Qed.

Lemma wp_inc_swaps (Q : list Step -> unit -> Mem -> Prop) (m : Mem) :
  Q [] tt (mkMem (arr m) (mkStats (comparisons (stats m)) (swaps (stats m) + 1))) ->
  wp inc_swaps Q m.
Proof. apply wp_add_swaps. Qed.

Lemma wp_yield_step (sw cmp : option (list Z)) (Q : list Step -> unit -> Mem -> Prop) (m : Mem) :
  Q [mkStep (arr m) sw cmp (Some (comparisons (stats m))) (Some (swaps (stats m)))] tt m ->
  wp (yield_step sw cmp) Q m.
Proof. intros H. eexists _, _, _. split; [reflexivity | exact H]. Qed.

Lemma wp_yield_bare (sw cmp : option (list Z)) (Q : list Step -> unit -> Mem -> Prop) (m : Mem) :
  Q [mkStep (arr m) sw cmp None None] tt m -> wp (yield_bare sw cmp) Q m.
Proof. intros H. eexists _, _, _. split; [reflexivity | exact H]. Qed.

Lemma wp_when (b : bool) (p : Prog unit) (Q : list Step -> unit -> Mem -> Prop) (m : Mem) :
  (b = true -> wp p Q m) -> (b = false -> Q [] tt m) -> wp (when b p) Q m.
Proof. destruct b; intros H1 H2; [apply H1 | apply wp_ret, H2]; reflexivity. Qed.

(** Counted loops: the invariant [I] speaks of the index about to be
    run, the steps yielded so far, the locals and the memory. *)
Lemma wp_for_gen {A} (d : Z) (body : Z -> A -> Prog A)
    (I : Z -> list Step -> A -> Mem -> Prop) :
  forall cnt i o acc m,
    I i o acc m ->
    (forall k o acc m, (k < cnt)%nat -> I (i + Z.of_nat k * d) o acc m ->
       wp (body (i + Z.of_nat k * d) acc)
          (fun o' acc' m' => I (i + Z.of_nat k * d + d) (o ++ o') acc' m') m) ->
    wp (for_ cnt i d body acc)
       (fun o' acc' m' => I (i + Z.of_nat cnt * d) (o ++ o') acc' m') m.
Proof.
  induction cnt as [|cnt IH]; intros i o acc m HI Hbody.
  - apply wp_ret. rewrite app_nil_r. replace (i + Z.of_nat 0 * d) with i by lia. exact HI.
  - cbn [for_]. apply wp_bind.
    pose proof (Hbody O o acc m ltac:(lia)) as H0.
    replace (i + Z.of_nat 0 * d) with i in H0 by lia.
    eapply wp_conseq; [apply H0; exact HI|].
    intros o1 acc1 m1 H1. cbv beta.
    eapply wp_conseq.
    + apply (IH (i + d) (o ++ o1) acc1 m1 H1).
      intros k o' acc' m' Hk HI'.
      specialize (Hbody (S k) o' acc' m' ltac:(lia)).
      replace (i + Z.of_nat (S k) * d) with (i + d + Z.of_nat k * d) in Hbody by lia.
      apply Hbody. exact HI'.
    + intros o2 acc2 m2 H2. cbv beta in H2. rewrite app_assoc.
      replace (i + Z.of_nat (S cnt) * d) with (i + d + Z.of_nat cnt * d) by lia. exact H2.
Qed.

Lemma wp_for_up {A} (lo hi : Z) (body : Z -> A -> Prog A) (acc : A)
    (I : Z -> list Step -> A -> Mem -> Prop) (Q : list Step -> A -> Mem -> Prop) (m : Mem) :
  I lo [] acc m ->
  (forall j o acc m, lo <= j < hi -> I j o acc m ->
     wp (body j acc) (fun o' acc' m' => I (j + 1) (o ++ o') acc' m') m) ->
  (forall o acc m, I (Z.max lo hi) o acc m -> Q o acc m) ->
  wp (for_up lo hi body acc) Q m.
Proof.
  intros H0 Hbody HQ. unfold for_up.
  eapply wp_conseq.
  - apply (wp_for_gen 1 body I (Z.to_nat (hi - lo)) lo [] acc m H0).
    intros k o acc' m' Hk HI. apply Hbody; [lia | exact HI].
  - intros o a m' H. cbv beta in H. apply HQ.
    replace (Z.max lo hi) with (lo + Z.of_nat (Z.to_nat (hi - lo)) * 1) by lia. exact H.
Qed.

Lemma wp_for_down_gt {A} (hi lo : Z) (body : Z -> A -> Prog A) (acc : A)
    (I : Z -> list Step -> A -> Mem -> Prop) (Q : list Step -> A -> Mem -> Prop) (m : Mem) :
  I hi [] acc m ->
  (forall j o acc m, lo < j <= hi -> I j o acc m ->
     wp (body j acc) (fun o' acc' m' => I (j - 1) (o ++ o') acc' m') m) ->
  (forall o acc m, I (Z.min lo hi) o acc m -> Q o acc m) ->
  wp (for_down_gt hi lo body acc) Q m.
Proof.
  intros H0 Hbody HQ. unfold for_down_gt.
  eapply wp_conseq.
  - apply (wp_for_gen (-1) body I (Z.to_nat (hi - lo)) hi [] acc m H0).
    intros k o acc' m' Hk HI.
    replace (hi + Z.of_nat k * -1 + -1) with (hi + Z.of_nat k * -1 - 1) by lia.
    apply Hbody; [lia | exact HI].
  - intros o a m' H. cbv beta in H. apply HQ.
    replace (Z.min lo hi) with (hi + Z.of_nat (Z.to_nat (hi - lo)) * -1) by lia. exact H.
Qed.

Lemma wp_for_down_ge {A} (hi lo : Z) (body : Z -> A -> Prog A) (acc : A)
    (I : Z -> list Step -> A -> Mem -> Prop) (Q : list Step -> A -> Mem -> Prop) (m : Mem) :
  I hi [] acc m ->
  (forall j o acc m, lo <= j <= hi -> I j o acc m ->
     wp (body j acc) (fun o' acc' m' => I (j - 1) (o ++ o') acc' m') m) ->
  (forall o acc m, I (Z.min (lo - 1) hi) o acc m -> Q o acc m) ->
  wp (for_down_ge hi lo body acc) Q m.
Proof.
  intros H0 Hbody HQ. unfold for_down_ge.
  eapply wp_conseq.
  - apply (wp_for_gen (-1) body I (Z.to_nat (hi - lo + 1)) hi [] acc m H0).
    intros k o acc' m' Hk HI.
    replace (hi + Z.of_nat k * -1 + -1) with (hi + Z.of_nat k * -1 - 1) by lia.
    apply Hbody; [lia | exact HI].
  - intros o a m' H. cbv beta in H. apply HQ.
    replace (Z.min (lo - 1) hi) with (hi + Z.of_nat (Z.to_nat (hi - lo + 1)) * -1) by lia.
    exact H.
Qed.

Lemma while_eq {A} (fuel : nat) (cond : A -> Mem -> bool) (body : A -> Prog A) (a : A) (m : Mem) :
  while_ fuel cond body a m =
    if cond a m then
      match fuel with
      | O => timeout m
      | S fuel' => bind (body a) (while_ fuel' cond body) m
      end
    else ret a m.
Proof. destruct fuel; reflexivity. Qed.

Lemma wp_eq {A} (p q : Prog A) (Q : list Step -> A -> Mem -> Prop) (m : Mem) :
  p m = q m -> wp q Q m -> wp p Q m.
Proof. unfold wp. intros ->. trivial. Qed.

(** While loops: an invariant and an integer variant that the body
    decreases and keeps non-negative; the fuel covers the variant. *)
Lemma wp_while {A} (cond : A -> Mem -> bool) (body : A -> Prog A)
    (I : list Step -> A -> Mem -> Prop) (V : A -> Mem -> Z) :
  (forall o a m, I o a m -> cond a m = true ->
     wp (body a) (fun o' a' m' => I (o ++ o') a' m' /\ 0 <= V a' m' < V a m) m) ->
  forall fuel o a m,
    I o a m -> V a m <= Z.of_nat fuel ->
    wp (while_ fuel cond body a)
       (fun o' a' m' => I (o ++ o') a' m' /\ cond a' m' = false) m.
Proof.
  intros Hbody. induction fuel as [|fuel IH]; intros o a m HI HV.
  - destruct (cond a m) eqn:Hc.
    + destruct (Hbody o a m HI Hc) as (? & ? & ? & _ & _ & ?). lia.
    + eapply wp_eq; [rewrite while_eq, Hc; reflexivity|].
      apply wp_ret. rewrite app_nil_r. auto.
  - destruct (cond a m) eqn:Hc.
    + eapply wp_eq; [rewrite while_eq, Hc; reflexivity|].
      apply wp_bind. eapply wp_conseq; [apply (Hbody o a m HI Hc)|].
      intros o1 a1 m1 [H1 HV1]. cbv beta.
      eapply wp_conseq; [apply (IH (o ++ o1) a1 m1 H1); lia|].
      intros o2 a2 m2 H2. cbv beta in H2. rewrite app_assoc. exact H2.
    + eapply wp_eq; [rewrite while_eq, Hc; reflexivity|].
      apply wp_ret. rewrite app_nil_r. auto.
Qed.

Lemma wp_for_brk_gen {A} (d : Z) (body : Z -> A -> Prog (bool * A))
    (I : Z -> list Step -> A -> Mem -> Prop) (Q : list Step -> A -> Mem -> Prop) :
  forall cnt i o acc m,
    I i o acc m ->
    (forall k o acc m, (k < cnt)%nat -> I (i + Z.of_nat k * d) o acc m ->
       wp (body (i + Z.of_nat k * d) acc)
          (fun o' r m' =>
             if fst r then Q (o ++ o') (snd r) m'
             else I (i + Z.of_nat k * d + d) (o ++ o') (snd r) m') m) ->
    (forall o acc m, I (i + Z.of_nat cnt * d) o acc m -> Q o acc m) ->
    wp (for_brk cnt i d body acc) (fun o' acc' m' => Q (o ++ o') acc' m') m.
Proof.
  induction cnt as [|cnt IH]; intros i o acc m HI Hbody HQ.
  - apply wp_ret. rewrite app_nil_r. apply HQ.
    replace (i + Z.of_nat 0 * d) with i by lia. exact HI.
  - cbn [for_brk]. apply wp_bind.
    pose proof (Hbody O o acc m ltac:(lia)) as H0.
    replace (i + Z.of_nat 0 * d) with i in H0 by lia.
    eapply wp_conseq; [apply H0; exact HI|].
    intros o1 [b acc1] m1 H1. cbn [fst snd] in *.
    destruct b.
    + apply wp_ret. rewrite app_nil_r. exact H1.
    + eapply wp_conseq.
      * apply (IH (i + d) (o ++ o1) acc1 m1 H1).
        -- intros k o' acc' m' Hk HI'.
           specialize (Hbody (S k) o' acc' m' ltac:(lia)).
           replace (i + Z.of_nat (S k) * d) with (i + d + Z.of_nat k * d) in Hbody by lia.
           apply Hbody. exact HI'.
        -- intros o' acc' m' HI'. apply HQ.
           replace (i + Z.of_nat (S cnt) * d) with (i + d + Z.of_nat cnt * d) by lia.
           exact HI'.
      * intros o2 acc2 m2 H2. cbv beta in H2. rewrite app_assoc. exact H2.
Qed.

Lemma wp_while_inv {A} (cond : A -> Mem -> bool) (body : A -> Prog A)
    (I : list Step -> A -> Mem -> Prop) (V : A -> Mem -> Z)
    (Q : list Step -> A -> Mem -> Prop) (fuel : nat) (a : A) (m : Mem) :
  I [] a m ->
  V a m <= Z.of_nat fuel ->
  (forall o a m, I o a m -> cond a m = true ->
     wp (body a) (fun o' a' m' => I (o ++ o') a' m' /\ 0 <= V a' m' < V a m) m) ->
  (forall o a m, I o a m -> cond a m = false -> Q o a m) ->
  wp (while_ fuel cond body a) Q m.
Proof.
  intros HI HV Hbody HQ.
  eapply wp_conseq; [apply (wp_while cond body I V Hbody fuel [] a m HI HV)|].
  intros o a' m' [H1 H2]. apply HQ; assumption.
Qed.

Lemma wp_when_true (p : Prog unit) (Q : list Step -> unit -> Mem -> Prop) (m : Mem) :
  wp p Q m -> wp (when true p) Q m.
Proof. trivial. Qed.

Lemma wp_when_false (p : Prog unit) (Q : list Step -> unit -> Mem -> Prop) (m : Mem) :
  Q [] tt m -> wp (when false p) Q m.
Proof. apply wp_ret. Qed.

Lemma wp_for_up2 {A} (lo hi : Z) (body : Z -> A -> Prog A) (acc : A)
    (I : Z -> list Step -> A -> Mem -> Prop) (Q : list Step -> A -> Mem -> Prop) (m : Mem) :
  I lo [] acc m ->
  (forall j o acc m, lo <= j < hi -> I j o acc m ->
     wp (body j acc) (fun o' acc' m' => I (j + 2) (o ++ o') acc' m') m) ->
  (forall o acc m, I (lo + 2 * Z.max 0 ((hi - lo + 1) / 2)) o acc m -> Q o acc m) ->
  wp (for_up2 lo hi body acc) Q m.
Proof.
  intros H0 Hbody HQ. unfold for_up2.
  eapply wp_conseq.
  - apply (wp_for_gen 2 body I (Z.to_nat ((hi - lo + 1) / 2)) lo [] acc m H0).
    intros k o acc' m' Hk HI. apply Hbody; [|exact HI].
    assert (Z.of_nat k < (hi - lo + 1) / 2) by lia.
    assert (2 * ((hi - lo + 1) / 2) <= hi - lo + 1) by (apply Z.mul_div_le; lia).
    lia.
  - intros o a m' H. cbv beta in H. apply HQ.
    replace (lo + 2 * Z.max 0 ((hi - lo + 1) / 2))
      with (lo + Z.of_nat (Z.to_nat ((hi - lo + 1) / 2)) * 2) by lia.
    exact H.
Qed.

Lemma wp_for_brk {A} (cnt : nat) (i d : Z) (body : Z -> A -> Prog (bool * A)) (acc : A)
    (I : Z -> list Step -> A -> Mem -> Prop) (Q : list Step -> A -> Mem -> Prop) (m : Mem) :
  I i [] acc m ->
  (forall k o acc m, (k < cnt)%nat -> I (i + Z.of_nat k * d) o acc m ->
     wp (body (i + Z.of_nat k * d) acc)
        (fun o' r m' =>
           if fst r then Q (o ++ o') (snd r) m'
           else I (i + Z.of_nat k * d + d) (o ++ o') (snd r) m') m) ->
  (forall o acc m, I (i + Z.of_nat cnt * d) o acc m -> Q o acc m) ->
  wp (for_brk cnt i d body acc) Q m.
Proof.
  intros H0 Hbody HQ.
  apply (wp_for_brk_gen d body I Q cnt i [] acc m H0 Hbody HQ).
Qed.

(** One step of symbolic execution of a straight-line program. *)
Ltac wp_step :=
  lazymatch goal with
  | |- wp (bind _ _) _ _ => apply wp_bind
  | |- wp (ret _) _ _ => apply wp_ret
  | |- wp (rd _) _ _ => apply wp_rd
  | |- wp (wr _ _) _ _ => apply wp_wr
  | |- wp (swap _ _) _ _ => apply wp_swap
  | |- wp length_ _ _ => apply wp_length
  | |- wp snapshot _ _ => apply wp_snapshot
  | |- wp inc_comparisons _ _ => apply wp_inc_comparisons
  | |- wp inc_swaps _ _ => apply wp_inc_swaps
  | |- wp (add_swaps _) _ _ => apply wp_add_swaps
  | |- wp (yield_step _ _) _ _ => apply wp_yield_step
  | |- wp (yield_bare _ _) _ _ => apply wp_yield_bare
  | |- wp (when true _) _ _ => apply wp_when_true
  | |- wp (when false _) _ _ => apply wp_when_false
  end.

Ltac wp_steps := repeat wp_step; cbv beta; cbn [arr stats comparisons swaps app].

(* ================================================================== *)
(** * Rules for the properties of yielded steps *)
(* ================================================================== *)

Lemma out_bind {A B} (p : Prog A) (f : A -> Prog B) (m : Mem) :
  out (bind p f m) =
    out (p m) ++ match res (p m) with Some a => out (f a (mem (p m))) | None => [] end.
Proof.
  unfold bind. destruct (p m) as [[o1 m1] [a|]]; cbn [out mem res fst snd].
  - destruct (f a m1) as [[o2 m2] r2]. reflexivity.
  - rewrite app_nil_r. reflexivity.
Qed.

Lemma mem_bind {A B} (p : Prog A) (f : A -> Prog B) (m : Mem) :
  mem (bind p f m) =
    match res (p m) with Some a => mem (f a (mem (p m))) | None => mem (p m) end.
Proof.
  unfold bind. destruct (p m) as [[o1 m1] [a|]]; cbn [out mem res fst snd]; [|reflexivity].
  destruct (f a m1) as [[o2 m2] r2]. reflexivity.
Qed.

Lemma res_bind {A B} (p : Prog A) (f : A -> Prog B) (m : Mem) :
  res (bind p f m) =
    match res (p m) with Some a => res (f a (mem (p m))) | None => None end.
Proof.
  unfold bind. destruct (p m) as [[o1 m1] [a|]]; cbn [out mem res fst snd]; [|reflexivity].
  destruct (f a m1) as [[o2 m2] r2]. reflexivity.
Qed.

(** ** Quiet programs *)

Lemma quiet_ret {A} (a : A) : quiet (ret a).
Proof. intros m. reflexivity. Qed.
Lemma quiet_timeout {A} : quiet (@timeout A).
Proof. intros m. reflexivity. Qed.
Lemma quiet_rd (i : Z) : quiet (rd i).
Proof. intros m. reflexivity. Qed.
Lemma quiet_wr (i : Z) (v : value) : quiet (wr i v).
Proof. intros m. reflexivity. Qed.
Lemma quiet_swap (i j : Z) : quiet (swap i j).
Proof. intros m. reflexivity. Qed.
Lemma quiet_length : quiet length_.
Proof. intros m. reflexivity. Qed.
Lemma quiet_snapshot : quiet snapshot.
Proof. intros m. reflexivity. Qed.
Lemma quiet_inc_comparisons : quiet inc_comparisons.
Proof. intros m. reflexivity. Qed.
Lemma quiet_add_swaps (k : Z) : quiet (add_swaps k).
Proof. intros m. reflexivity. Qed.
Lemma quiet_inc_swaps : quiet inc_swaps.
Proof. intros m. reflexivity. Qed.
Lemma quiet_when_false (p : Prog unit) : quiet (when false p).
Proof. intros m. reflexivity. Qed.

Lemma quiet_bind {A B} (p : Prog A) (f : A -> Prog B) :
  quiet p -> (forall a, quiet (f a)) -> quiet (bind p f).
Proof.
  intros Hp Hf m. rewrite out_bind, Hp. destruct (res (p m)); [apply Hf | reflexivity].
Qed.

Lemma quiet_for {A} (d : Z) (body : Z -> A -> Prog A) :
  (forall i acc, quiet (body i acc)) -> forall cnt i acc, quiet (for_ cnt i d body acc).
Proof.
  intros Hb. induction cnt as [|cnt IH]; intros i acc; cbn [for_].
  - apply quiet_ret.
  - apply quiet_bind; auto.
Qed.

Lemma quiet_for_brk {A} (d : Z) (body : Z -> A -> Prog (bool * A)) :
  (forall i acc, quiet (body i acc)) -> forall cnt i acc, quiet (for_brk cnt i d body acc).
Proof.
  intros Hb. induction cnt as [|cnt IH]; intros i acc; cbn [for_brk].
  - apply quiet_ret.
  - apply quiet_bind; auto. intros [[] a]; cbn [fst snd]; [apply quiet_ret | apply IH].
Qed.

Lemma quiet_while {A} (cond : A -> Mem -> bool) (body : A -> Prog A) :
  (forall a, quiet (body a)) -> forall fuel a, quiet (while_ fuel cond body a).
Proof.
  intros Hb. induction fuel as [|fuel IH]; intros a m; rewrite while_eq;
    destruct (cond a m); try reflexivity.
  apply quiet_bind; auto.
Qed.

Create HintDb quiet.
#[global] Hint Resolve quiet_ret quiet_timeout quiet_rd quiet_wr quiet_swap quiet_length
  quiet_snapshot quiet_inc_comparisons quiet_add_swaps quiet_inc_swaps quiet_when_false
  : quiet.

(** Decompose a goal [quiet p] along the structure of the program. *)
Ltac quiet_tac :=
  unfold for_up, for_down_gt, for_down_ge, for_up2;
  repeat match goal with
    | |- quiet _ => progress cbn [andb]
    | |- quiet (bind _ _) => apply quiet_bind; [|intros ?]
    | |- quiet (for_ _ _ _ _ _) => apply quiet_for; intros ? ?
    | |- quiet (for_brk _ _ _ _ _) => apply quiet_for_brk; intros ? ?
    | |- quiet (while_ _ _ _ _) => apply quiet_while; intros ?
    | |- quiet (if ?b then _ else _) => destruct b; cbv beta iota
    | |- quiet (match ?x with Some _ => _ | None => _ end) => destruct x; cbv beta iota
    | |- quiet (let '(_, _) := ?x in _) => destruct x; cbv beta iota
    | |- quiet _ => solve [auto with quiet]
    end.

(** ** [emits] *)

Lemma emits_quiet {A} (P : Step -> Prop) (p : Prog A) : quiet p -> emits P p.
Proof. intros H m. rewrite H. constructor. Qed.

Lemma emits_bind {A B} (P : Step -> Prop) (p : Prog A) (f : A -> Prog B) :
  emits P p -> (forall a, emits P (f a)) -> emits P (bind p f).
Proof.
  intros Hp Hf m. rewrite out_bind. apply Forall_app. split; [apply Hp|].
  destruct (res (p m)); [apply Hf | constructor].
Qed.

Lemma emits_yield_step (P : Step -> Prop) (sw cmp : option (list Z)) :
  (forall a c w, P (mkStep a sw cmp (Some c) (Some w))) -> emits P (yield_step sw cmp).
Proof. intros H m. repeat constructor. apply H. Qed.

Lemma emits_yield_bare (P : Step -> Prop) (sw cmp : option (list Z)) :
  (forall a, P (mkStep a sw cmp None None)) -> emits P (yield_bare sw cmp).
Proof. intros H m. repeat constructor. apply H. Qed.

Lemma emits_when (P : Step -> Prop) (b : bool) (p : Prog unit) :
  emits P p -> emits P (when b p).
Proof. destruct b; [trivial | intros _; apply emits_quiet, quiet_ret]. Qed.

Lemma emits_for {A} (P : Step -> Prop) (d : Z) (body : Z -> A -> Prog A) :
  (forall i acc, emits P (body i acc)) -> forall cnt i acc, emits P (for_ cnt i d body acc).
Proof.
  intros Hb. induction cnt as [|cnt IH]; intros i acc; cbn [for_].
  - apply emits_quiet, quiet_ret.
  - apply emits_bind; auto.
Qed.

Lemma emits_for_brk {A} (P : Step -> Prop) (d : Z) (body : Z -> A -> Prog (bool * A)) :
  (forall i acc, emits P (body i acc)) -> forall cnt i acc, emits P (for_brk cnt i d body acc).
Proof.
  intros Hb. induction cnt as [|cnt IH]; intros i acc; cbn [for_brk].
  - apply emits_quiet, quiet_ret.
  - apply emits_bind; auto.
    intros [[] a]; cbn [fst snd]; [apply emits_quiet, quiet_ret | apply IH].
Qed.

Lemma emits_while {A} (P : Step -> Prop) (cond : A -> Mem -> bool) (body : A -> Prog A) :
  (forall a, emits P (body a)) -> forall fuel a, emits P (while_ fuel cond body a).
Proof.
  intros Hb. induction fuel as [|fuel IH]; intros a m; rewrite while_eq;
    destruct (cond a m); try constructor.
  apply emits_bind; auto.
Qed.

(** Decompose a goal [emits P p] along the structure of the program;
    the yields are left to [tac]. *)
Ltac emits_with tac :=
  unfold for_up, for_down_gt, for_down_ge, for_up2;
  repeat match goal with
    | |- emits _ (bind _ _) => apply emits_bind; [|intros ?]
    | |- emits _ (for_ _ _ _ _ _) => apply emits_for; intros ? ?
    | |- emits _ (for_brk _ _ _ _ _) => apply emits_for_brk; intros ? ?
    | |- emits _ (while_ _ _ _ _) => apply emits_while; intros ?
    | |- emits _ (when _ _) => apply emits_when
    | |- emits _ (yield_step _ _) => apply emits_yield_step; intros ? ? ?; tac
    | |- emits _ (yield_bare _ _) => apply emits_yield_bare; intros ?; tac
    | |- emits _ (if ?b then _ else _) => destruct b; cbv beta iota
    | |- emits _ (match ?x with Some _ => _ | None => _ end) => destruct x; cbv beta iota
    | |- emits _ (let '(_, _) := ?x in _) => destruct x; cbv beta iota
    | |- emits _ _ => apply emits_quiet; solve [auto with quiet]
    end.

(** ** [filtered] *)

Lemma filtered_quiet {A} (keep : Step -> bool) (p : Prog A) : quiet p -> filtered keep p p.
Proof. intros H m. rewrite H. auto. Qed.

Lemma filtered_bind {A B} (keep : Step -> bool) (p q : Prog A) (f g : A -> Prog B) :
  filtered keep p q -> (forall a, filtered keep (f a) (g a)) ->
  filtered keep (bind p f) (bind q g).
Proof.
  intros Hp Hf m. destruct (Hp m) as (Ho & Hm & Hr).
  unfold bind. destruct (p m) as [[o1 m1] r1]. destruct (q m) as [[o1' m1'] r1'].
  cbn [out mem res fst snd] in Ho, Hm, Hr. subst o1' m1' r1'.
  destruct r1 as [a|]; [|cbn [out mem res fst snd]; auto].
  destruct (Hf a m1) as (Ho' & Hm' & Hr').
  destruct (f a m1) as [[o2 m2] r2]. destruct (g a m1) as [[o2' m2'] r2'].
  cbn [out mem res fst snd] in *. subst. rewrite filter_app. auto.
Qed.

Lemma filtered_yield_keep (keep : Step -> bool) (sw cmp : option (list Z)) :
  (forall a c w, keep (mkStep a sw cmp (Some c) (Some w)) = true) ->
  filtered keep (yield_step sw cmp) (yield_step sw cmp).
Proof. intros H m. cbn. rewrite H. auto. Qed.

Lemma filtered_yield_drop (keep : Step -> bool) (sw cmp : option (list Z)) :
  (forall a c w, keep (mkStep a sw cmp (Some c) (Some w)) = false) ->
  filtered keep (when true (yield_step sw cmp)) (when false (yield_step sw cmp)).
Proof. intros H m. cbn. rewrite H. auto. Qed.

Lemma filtered_for {A} (keep : Step -> bool) (d : Z) (body body' : Z -> A -> Prog A) :
  (forall i acc, filtered keep (body i acc) (body' i acc)) ->
  forall cnt i acc, filtered keep (for_ cnt i d body acc) (for_ cnt i d body' acc).
Proof.
  intros Hb. induction cnt as [|cnt IH]; intros i acc; cbn [for_].
  - apply filtered_quiet, quiet_ret.
  - apply filtered_bind; auto.
Qed.

Lemma filtered_for_brk {A} (keep : Step -> bool) (d : Z) (body body' : Z -> A -> Prog (bool * A)) :
  (forall i acc, filtered keep (body i acc) (body' i acc)) ->
  forall cnt i acc, filtered keep (for_brk cnt i d body acc) (for_brk cnt i d body' acc).
Proof.
  intros Hb. induction cnt as [|cnt IH]; intros i acc; cbn [for_brk].
  - apply filtered_quiet, quiet_ret.
  - apply filtered_bind; auto.
    intros [[] a]; cbn [fst snd]; [apply filtered_quiet, quiet_ret | apply IH].
Qed.

Lemma filtered_while {A} (keep : Step -> bool) (cond : A -> Mem -> bool)
    (body body' : A -> Prog A) :
  (forall a, filtered keep (body a) (body' a)) ->
  forall fuel a, filtered keep (while_ fuel cond body a) (while_ fuel cond body' a).
Proof.
  intros Hb. induction fuel as [|fuel IH]; intros a m; rewrite !while_eq;
    destruct (cond a m); try (cbn; solve [auto]).
  apply filtered_bind; auto.
Qed.

(** Decompose a goal [filtered keep p q] where [q] is [p] with its flag
    off. *)
Ltac filtered_tac :=
  unfold for_up, for_down_gt, for_down_ge, for_up2;
  repeat match goal with
    | |- filtered _ (bind _ _) (bind _ _) => apply filtered_bind; [|intros ?]
    | |- filtered _ (for_ _ _ _ _ _) (for_ _ _ _ _ _) => apply filtered_for; intros ? ?
    | |- filtered _ (for_brk _ _ _ _ _) (for_brk _ _ _ _ _) =>
        apply filtered_for_brk; intros ? ?
    | |- filtered _ (while_ _ _ _ _) (while_ _ _ _ _) => apply filtered_while; intros ?
    | |- filtered _ (when true (yield_step _ _)) (when false (yield_step _ _)) =>
        apply filtered_yield_drop; intros ? ? ?; reflexivity
    | |- filtered _ (yield_step _ _) (yield_step _ _) =>
        apply filtered_yield_keep; intros ? ? ?; reflexivity
    | |- filtered _ (if ?b then _ else _) (if ?b then _ else _) => destruct b; cbv beta iota
    | |- filtered _ (when ?b _) (when false _) =>
        lazymatch b with false => fail | _ => destruct b end
    | |- filtered _ (match ?x with Some _ => _ | None => _ end) _ => destruct x; cbv beta iota
    | |- filtered _ (let '(_, _) := ?x in _) _ => destruct x; cbv beta iota
    | |- filtered _ ?p ?p => apply filtered_quiet; solve [auto with quiet]
    | |- filtered _ _ _ => progress cbn [andb]
    end.

(** ** [monotone] *)

Lemma stats_le_refl (s : Stats) : stats_le s s.
Proof. unfold stats_le. lia. Qed.

Lemma stats_le_trans (a b c : Stats) : stats_le a b -> stats_le b c -> stats_le a c.
Proof. unfold stats_le. lia. Qed.

Lemma counters_monotone_le : forall steps lo hi,
  counters_monotone lo steps hi -> stats_le lo hi.
Proof.
  induction steps as [|s steps IH]; intros lo hi H; cbn in H; [exact H|].
  destruct H as (c & w & _ & H1 & H2). eapply stats_le_trans; eauto.
Qed.

Lemma counters_monotone_weaken : forall steps lo lo' hi,
  stats_le lo' lo -> counters_monotone lo steps hi -> counters_monotone lo' steps hi.
Proof.
  intros [|s steps] lo lo' hi Hle H; cbn in *.
  - eapply stats_le_trans; eauto.
  - destruct H as (c & w & Hc & H1 & H2). exists c, w.
    split; [exact Hc|]. split; [|exact H2].
    eapply stats_le_trans; eauto.
Qed.

Lemma counters_monotone_app : forall o1 o2 lo mid hi,
  counters_monotone lo o1 mid -> counters_monotone mid o2 hi ->
  counters_monotone lo (o1 ++ o2) hi.
Proof.
  induction o1 as [|s o1 IH]; intros o2 lo mid hi H1 H2; cbn in *.
  - eapply counters_monotone_weaken; eauto.
  - destruct H1 as (c & w & Hc & Hle & H1). exists c, w.
    split; [exact Hc|]. split; [exact Hle|]. eapply IH; eauto.
Qed.

Lemma monotone_quiet_same {A} (p : Prog A) :
  quiet p -> (forall m, stats (mem (p m)) = stats m) -> monotone p.
Proof. intros Hq Hs m. rewrite Hq, Hs. apply stats_le_refl. Qed.

Lemma monotone_bind {A B} (p : Prog A) (f : A -> Prog B) :
  monotone p -> (forall a, monotone (f a)) -> monotone (bind p f).
Proof.
  intros Hp Hf m. rewrite out_bind, mem_bind.
  destruct (res (p m)) as [a|].
  - eapply counters_monotone_app; [apply Hp | apply Hf].
  - rewrite app_nil_r. apply Hp.
Qed.

Lemma monotone_ret {A} (a : A) : monotone (ret a).
Proof. intros m. apply stats_le_refl. Qed.
Lemma monotone_timeout {A} : monotone (@timeout A).
Proof. intros m. apply stats_le_refl. Qed.
Lemma monotone_rd (i : Z) : monotone (rd i).
Proof. intros m. apply stats_le_refl. Qed.
Lemma monotone_wr (i : Z) (v : value) : monotone (wr i v).
Proof. intros m. apply stats_le_refl. Qed.
Lemma monotone_swap (i j : Z) : monotone (swap i j).
Proof. intros m. apply stats_le_refl. Qed.
Lemma monotone_length : monotone length_.
Proof. intros m. apply stats_le_refl. Qed.
Lemma monotone_snapshot : monotone snapshot.
Proof. intros m. apply stats_le_refl. Qed.
Lemma monotone_inc_comparisons : monotone inc_comparisons.
Proof. intros m. cbn. unfold stats_le. cbn. lia. Qed.
Lemma monotone_add_swaps (k : Z) : 0 <= k -> monotone (add_swaps k).
Proof. intros Hk m. cbn. unfold stats_le. cbn. lia. Qed.
Lemma monotone_inc_swaps : monotone inc_swaps.
Proof. apply monotone_add_swaps. lia. Qed.
Lemma monotone_yield_step (sw cmp : option (list Z)) : monotone (yield_step sw cmp).
Proof.
  intros m. cbn. exists (comparisons (stats m)), (swaps (stats m)).
  repeat split; cbn; try lia.
Qed.
Lemma monotone_when (b : bool) (p : Prog unit) : monotone p -> monotone (when b p).
Proof. destruct b; [trivial | intros _; apply monotone_ret]. Qed.

Lemma monotone_for {A} (d : Z) (body : Z -> A -> Prog A) :
  (forall i acc, monotone (body i acc)) -> forall cnt i acc, monotone (for_ cnt i d body acc).
Proof.
  intros Hb. induction cnt as [|cnt IH]; intros i acc; cbn [for_].
  - apply monotone_ret.
  - apply monotone_bind; auto.
Qed.

Lemma monotone_for_brk {A} (d : Z) (body : Z -> A -> Prog (bool * A)) :
  (forall i acc, monotone (body i acc)) -> forall cnt i acc, monotone (for_brk cnt i d body acc).
Proof.
  intros Hb. induction cnt as [|cnt IH]; intros i acc; cbn [for_brk].
  - apply monotone_ret.
  - apply monotone_bind; auto.
    intros [[] a]; cbn [fst snd]; [apply monotone_ret | apply IH].
Qed.

Lemma monotone_while {A} (cond : A -> Mem -> bool) (body : A -> Prog A) :
  (forall a, monotone (body a)) -> forall fuel a, monotone (while_ fuel cond body a).
Proof.
  intros Hb. induction fuel as [|fuel IH]; intros a m; rewrite while_eq;
    destruct (cond a m); try apply stats_le_refl.
  apply monotone_bind; auto.
Qed.

Create HintDb monotone.
#[global] Hint Resolve monotone_ret monotone_timeout monotone_rd monotone_wr monotone_swap
  monotone_length monotone_snapshot monotone_inc_comparisons monotone_inc_swaps
  monotone_yield_step : monotone.

Ltac monotone_tac :=
  unfold for_up, for_down_gt, for_down_ge, for_up2;
  repeat match goal with
    | |- monotone (bind _ _) => apply monotone_bind; [|intros ?]
    | |- monotone (for_ _ _ _ _ _) => apply monotone_for; intros ? ?
    | |- monotone (for_brk _ _ _ _ _) => apply monotone_for_brk; intros ? ?
    | |- monotone (while_ _ _ _ _) => apply monotone_while; intros ?
    | |- monotone (when _ _) => apply monotone_when
    | |- monotone (add_swaps _) => apply monotone_add_swaps; lia
    | |- monotone (if ?b then _ else _) => destruct b; cbv beta iota
    | |- monotone (match ?x with Some _ => _ | None => _ end) => destruct x; cbv beta iota
    | |- monotone (let '(_, _) := ?x in _) => destruct x; cbv beta iota
    | |- monotone _ => solve [auto with monotone]
    end.
(* ================================================================== *)
(** * The layout of the picture *)
(* ================================================================== *)

Section Layout.
Variables width n : Z.
Hypothesis Hwidth : 0 <= width.
Hypothesis Hn : 1 <= n.

Let sw := segmentWidth width n.
Let r := remainder width n.

Lemma remainder_range : 0 <= r < n.
Proof.
  unfold r, remainder. rewrite Z.rem_mod_nonneg by lia. apply Z.mod_pos_bound. lia.
Qed.

Lemma width_split : width = n * sw + r.
Proof.
  unfold sw, r, segmentWidth, remainder. rewrite Z.rem_mod_nonneg by lia.
  apply Z.div_mod. lia.
Qed.

Lemma segmentWidth_nonneg : 0 <= sw.
Proof. unfold sw, segmentWidth. apply Z.div_pos; lia. Qed.

Lemma strip_x_succ (k : Z) :
  0 <= k -> strip_x width n (k + 1) = strip_x width n k + currentSegmentWidth width n k.
Proof.
  intros Hk. unfold strip_x, currentSegmentWidth. fold r sw.
  pose proof remainder_range. destruct (Z.ltb_spec k r); lia.
Qed.

Lemma strip_x_0 : strip_x width n 0 = 0.
Proof. unfold strip_x. fold r. pose proof remainder_range. lia. Qed.

Lemma strip_x_end : strip_x width n n = width.
Proof.
  unfold strip_x. fold r sw. pose proof remainder_range. pose proof width_split. lia.
Qed.

Lemma strip_x_mono (j k : Z) : 0 <= j -> j <= k -> strip_x width n j <= strip_x width n k.
Proof.
  intros Hj Hjk. unfold strip_x. fold r sw. pose proof segmentWidth_nonneg.
  assert (j * sw <= k * sw) by nia. lia.
Qed.

Lemma cut_from_spec : forall cnt s,
  cut_from width n cnt (Z.of_nat s) (strip_x width n (Z.of_nat s))
    = map (strip width n) (map Z.of_nat (seq s cnt)).
Proof.
  induction cnt as [|cnt IH]; intros s; cbn [cut_from seq map]; [reflexivity|].
  f_equal. rewrite <- strip_x_succ by lia.
  replace (Z.of_nat s + 1) with (Z.of_nat (S s)) by lia. apply IH.
Qed.

Lemma segments_spec : segments width n = map (strip width n) (iota (Z.to_nat n)).
Proof.
  unfold segments. pose proof (cut_from_spec (Z.to_nat n) 0) as H.
  cbn [Z.of_nat] in H. rewrite strip_x_0 in H. exact H.
Qed.

Lemma total_width_strips : forall cnt s,
  total_width (map (strip width n) (map Z.of_nat (seq s cnt)))
    = strip_x width n (Z.of_nat (s + cnt)) - strip_x width n (Z.of_nat s).
Proof.
  unfold total_width.
  induction cnt as [|cnt IH]; intros s; cbn [seq map fold_right].
  - replace (s + 0)%nat with s by lia. lia.
  - rewrite IH. cbn [strip seg_width].
    replace (s + S cnt)%nat with (S s + cnt)%nat by lia.
    replace (Z.of_nat (S s)) with (Z.of_nat s + 1) by lia.
    rewrite strip_x_succ by lia. lia.
Qed.

Lemma segments_total : total_width (segments width n) = width.
Proof.
  rewrite segments_spec. unfold iota. rewrite total_width_strips.
  cbn [Nat.add Z.of_nat]. rewrite strip_x_0, Z2Nat.id by lia. rewrite strip_x_end. lia.
Qed.

Lemma segment_at_strip (z : Z) :
  0 <= z < n -> segment_at (segments width n) (Num z) = Some (strip width n z).
Proof.
  intros Hz. unfold segment_at. destruct (Z.ltb_spec z 0); [lia|].
  rewrite segments_spec. unfold iota. rewrite map_map.
  rewrite nth_error_map, nth_error_seq.
  destruct (Nat.ltb_spec (Z.to_nat z) (Z.to_nat n)); [|lia].
  cbn [option_map Nat.add]. rewrite Z2Nat.id by lia. reflexivity.
Qed.

Lemma segment_at_valid (v : value) (seg : Segment) :
  segment_at (segments width n) v = Some seg -> strip_index n v.
Proof.
  unfold segment_at. destruct v as [z|]; [|discriminate].
  destruct (Z.ltb_spec z 0); [discriminate|]. intros Hnth.
  exists z. split; [reflexivity|].
  assert (Hlt : (Z.to_nat z < length (segments width n))%nat).
  { apply nth_error_Some. rewrite Hnth. discriminate. }
  rewrite segments_spec in Hlt. unfold iota in Hlt. rewrite !length_map, length_seq in Hlt. lia.
Qed.

Lemma seg_width_strip (z : Z) : seg_width (strip width n z) = currentSegmentWidth width n z.
Proof. reflexivity. Qed.

(** A canvas at least as wide as there are strips leaves no strip
    empty. *)
Lemma strips_not_empty (z : Z) : n <= width -> 1 <= currentSegmentWidth width n z.
Proof.
  intros Hle. unfold currentSegmentWidth. fold sw r.
  assert (1 <= sw).
  { unfold sw, segmentWidth. apply Z.div_le_lower_bound; lia. }
  destruct (z <? r); lia.
Qed.

(** On a canvas narrower than there are strips, the strips that are not
    empty are the first [width] ones. *)
Lemma strips_narrow (z : Z) :
  width < n -> (1 <= currentSegmentWidth width n z <-> z < width).
Proof.
  intros Hlt. unfold currentSegmentWidth, segmentWidth, remainder.
  rewrite Z.div_small, Z.rem_small by lia.
  destruct (Z.ltb_spec z width); lia.
Qed.

(** The second loop on valid entries. *)
Lemma paste_from_spec : forall (l : list Z) (s : nat),
  Forall (fun z => 0 <= z < n /\ 1 <= currentSegmentWidth width n z) l ->
  paste_from width n (segments width n) (nums l) (Z.of_nat s) (strip_x width n (Z.of_nat s))
    = Some (map (fun p => mkPaste (strip_x width n (fst p)) (strip width n (snd p))
                            (Num (snd p))
                            (2 * strip_x width n (fst p)
                             + currentSegmentWidth width n (fst p)))
              (combine (map Z.of_nat (seq s (length l))) l)).
Proof.
  induction l as [|z l IH]; intros s Hall; [reflexivity|].
  inversion Hall as [|? ? [Hz Hw] Hl]; subst.
  cbn [nums map paste_from length seq combine]. fold (nums l).
  rewrite segment_at_strip by exact Hz. rewrite seg_width_strip.
  destruct (Z.ltb_spec (currentSegmentWidth width n z) 1); [lia|].
  rewrite <- strip_x_succ by lia.
  replace (Z.of_nat s + 1) with (Z.of_nat (S s)) by lia.
  rewrite (IH (S s) Hl). reflexivity.
Qed.

(** It throws exactly when an entry is not the index of a strip, or is
    the index of an empty one. *)
Lemma paste_from_shown (segs := segments width n) : forall order i acc,
  paste_from width n segs order i acc <> None <->
  forallb (shown_strip width n) order = true.
Proof.
  induction order as [|v order IH]; intros i acc; cbn [paste_from forallb].
  - split; [reflexivity | discriminate].
  - specialize (IH (i + 1) (acc + currentSegmentWidth width n i)).
    destruct v as [z|]; cbn [shown_strip segment_at].
    2:{ split; [intros Hc; contradiction Hc; reflexivity | discriminate]. }
    destruct (Z.ltb_spec z 0) as [Hneg|Hpos].
    { replace (0 <=? z) with false by (symmetry; apply Z.leb_gt; lia).
      cbn [andb]. split; [intros Hc; contradiction Hc; reflexivity | discriminate]. }
    replace (0 <=? z) with true by (symmetry; apply Z.leb_le; lia).
    destruct (Z.ltb_spec z n) as [Hlt|Hge].
    + pose proof (segment_at_strip z (conj Hpos Hlt)) as E.
      unfold segment_at in E. destruct (Z.ltb_spec z 0) as [?|_]; [lia|].
      fold segs in E. rewrite E, seg_width_strip. cbn [andb].
      destruct (Z.ltb_spec (currentSegmentWidth width n z) 1) as [H0|H1].
      * replace (1 <=? currentSegmentWidth width n z) with false
          by (symmetry; apply Z.leb_gt; lia).
        cbn [andb]. split; [intros Hc; contradiction Hc; reflexivity | discriminate].
      * replace (1 <=? currentSegmentWidth width n z) with true
          by (symmetry; apply Z.leb_le; lia).
        cbn [andb]. rewrite <- IH.
        destruct (paste_from width n segs order (i + 1)
                    (acc + currentSegmentWidth width n i));
          split; intros Hc; try discriminate; try (contradiction Hc; reflexivity).
    + cbn [andb].
      assert (E : nth_error segs (Z.to_nat z) = None).
      { apply nth_error_None. unfold segs. rewrite segments_spec. unfold iota.
        rewrite !length_map, length_seq. lia. }
      rewrite E. split; [intros Hc; contradiction Hc; reflexivity | discriminate].
Qed.

Lemma paste_from_valid (segs := segments width n) : forall order i acc ps,
  paste_from width n segs order i acc = Some ps -> Forall (strip_index n) order.
Proof.
  induction order as [|v order IH]; intros i acc ps H; [constructor|].
  cbn [paste_from] in H.
  destruct (segment_at segs v) as [seg|] eqn:E; [|discriminate].
  destruct (seg_width seg <? 1); [discriminate|].
  destruct (paste_from width n segs order (i + 1)
              (acc + currentSegmentWidth width n i)) as [ps'|] eqn:E'; [|discriminate].
  constructor; [apply (segment_at_valid v seg E) | apply (IH _ _ _ E')].
Qed.

End Layout.

Lemma strip_index_nums (n : Z) : forall order,
  Forall (strip_index n) order ->
  exists l, order = nums l /\ Forall (fun z => 0 <= z < n) l.
Proof.
  induction 1 as [|v order (z & -> & Hz) _ (l & -> & Hl)].
  - exists []. split; [reflexivity | constructor].
  - exists (z :: l). split; [reflexivity | constructor; assumption].
Qed.

Lemma nums_strip_index (n : Z) (l : list Z) :
  Forall (fun z => 0 <= z < n) l -> Forall (strip_index n) (nums l).
Proof.
  induction 1 as [|z l Hz _ IH]; [constructor|].
  constructor; [exists z; auto | exact IH].
Qed.

Lemma total_width_perm (s1 s2 : list Segment) :
  Permutation s1 s2 -> total_width s1 = total_width s2.
Proof. unfold total_width. induction 1; cbn [fold_right]; lia. Qed.

Lemma map_fst_combine {A B} : forall (l1 : list A) (l2 : list B),
  length l1 = length l2 -> map fst (combine l1 l2) = l1.
Proof.
  induction l1 as [|x l1 IH]; intros [|y l2] H; cbn in *; try discriminate; [reflexivity|].
  f_equal. apply IH. lia.
Qed.

Lemma map_snd_combine {A B} : forall (l1 : list A) (l2 : list B),
  length l1 = length l2 -> map snd (combine l1 l2) = l2.
Proof.
  induction l1 as [|x l1 IH]; intros [|y l2] H; cbn in *; try discriminate; [reflexivity|].
  f_equal. apply IH. lia.
Qed.

Lemma perm_iota_bounds (l : list Z) (n : nat) :
  Permutation l (iota n) -> Forall (fun z => 0 <= z < Z.of_nat n) l.
Proof.
  intros Hp. apply Forall_forall. intros z Hz.
  apply (Permutation_in _ Hp) in Hz. apply in_map_iff in Hz.
  destruct Hz as (k & <- & Hk). apply in_seq in Hk. lia.
Qed.

Lemma len_pos_cons (v : value) (order : jsarray) : 1 <= len (v :: order).
Proof. unfold len. cbn [length]. lia. Qed.

(** [rearrangeImage] draws exactly the orders that can be drawn,
    whatever the highlights. *)
Lemma rearrangeImage_drawable (order : jsarray) (image : Image) (context : Context)
    (colored : list Colored) :
  rearrangeImage (Some order) image context colored <> None <->
  drawable image context order = true.
Proof.
  unfold rearrangeImage, drawable.
  destruct image; [|split; [intros Hc; contradiction Hc; reflexivity | discriminate]].
  destruct order as [|v order]; [split; [reflexivity | discriminate]|].
  set (width := canvas_width context). set (height := canvas_height context).
  destruct (Z.ltb_spec width 1) as [Hw|Hw].
  { replace (1 <=? width) with false by (symmetry; apply Z.leb_gt; lia).
    cbn [orb andb]. split; [intros Hc; contradiction Hc; reflexivity | discriminate]. }
  replace (1 <=? width) with true by (symmetry; apply Z.leb_le; lia).
  destruct (Z.ltb_spec height 1) as [Hh|Hh].
  { replace (1 <=? height) with false by (symmetry; apply Z.leb_gt; lia).
    cbn [orb andb]. split; [intros Hc; contradiction Hc; reflexivity | discriminate]. }
  replace (1 <=? height) with true by (symmetry; apply Z.leb_le; lia).
  cbn [orb andb].
  rewrite <- (paste_from_shown width (len (v :: order)) ltac:(lia)
                (len_pos_cons v order) (v :: order) 0 0).
  destruct (paste_from width (len (v :: order)) (segments width (len (v :: order)))
              (v :: order) 0 0);
    split; intros Hc; try discriminate; try (contradiction Hc; reflexivity).
Qed.

Lemma drawable_draws (order : jsarray) (image : Image) (context : Context)
    (colored : list Colored) :
  drawable image context order = true ->
  exists picture, rearrangeImage (Some order) image context colored = Some picture.
Proof.
  intros H. apply (rearrangeImage_drawable order image context colored) in H.
  destruct (rearrangeImage (Some order) image context colored) as [p|];
    [exists p; reflexivity | contradiction H; reflexivity].
Qed.

Lemma not_drawable_throws (order : jsarray) (image : Image) (context : Context)
    (colored : list Colored) :
  drawable image context order = false ->
  rearrangeImage (Some order) image context colored = None.
Proof.
  intros H.
  destruct (rearrangeImage (Some order) image context colored) as [p|] eqn:E; [|reflexivity].
  assert (Hd : drawable image context order = true).
  { apply (rearrangeImage_drawable order image context colored). rewrite E. discriminate. }
  congruence.
Qed.

(** An array of strip indexes on a canvas wide enough can be drawn. *)
Lemma drawable_indexes (context : Context) (order : jsarray) :
  len order <= canvas_width context -> 1 <= canvas_height context ->
  Forall (strip_index (len order)) order ->
  drawable Available context order = true.
Proof.
  intros Hw Hh Hall. unfold drawable.
  destruct order as [|v order]; [reflexivity|].
  pose proof (len_pos_cons v order) as Hn.
  replace (1 <=? canvas_width context) with true by (symmetry; apply Z.leb_le; lia).
  replace (1 <=? canvas_height context) with true by (symmetry; apply Z.leb_le; lia).
  cbn [andb]. apply forallb_forall. intros x Hx.
  rewrite Forall_forall in Hall. destruct (Hall x Hx) as (z & -> & Hz).
  unfold shown_strip.
  pose proof (strips_not_empty (canvas_width context) (len (v :: order)) Hn z Hw).
  apply andb_true_intro. split; [apply andb_true_intro; split|].
  - apply Z.leb_le. lia.
  - apply Z.ltb_lt. lia.
  - apply Z.leb_le. assumption.
Qed.

(** A rearrangement of [0 .. n-1] on a canvas at least [n] pixels wide
    can be drawn. *)
Lemma drawable_perm (context : Context) (l : list Z) (n : nat) :
  Permutation l (iota n) ->
  Z.of_nat n <= canvas_width context -> 1 <= canvas_height context ->
  drawable Available context (nums l) = true.
Proof.
  intros Hp Hw Hh.
  assert (Hlen : len (nums l) = Z.of_nat n).
  { rewrite len_nums. rewrite (perm_zlen _ _ Hp). apply zlen_iota. }
  apply drawable_indexes; [lia | exact Hh|].
  rewrite Hlen. apply nums_strip_index. apply perm_iota_bounds. exact Hp.
Qed.

(** The layout for an order that lists valid strips. *)
Lemma layout_valid (context : Context) (l : list Z) (colored : list Colored) :
  let width := canvas_width context in
  let n := zlen l in
  l <> [] -> n <= width -> 1 <= canvas_height context ->
  Forall (fun z => 0 <= z < n) l ->
  rearrangeImage (Some (nums l)) Available context colored
    = Some (mkPicture
              (map (fun p => mkPaste (strip_x width n (fst p)) (strip width n (snd p))
                                (Num (snd p))
                                (2 * strip_x width n (fst p)
                                 + currentSegmentWidth width n (fst p)))
                 (combine (iota (length l)) l))
              (highlight_rects width n colored)).
Proof.
  intros width n Hne Hw Hh Hall.
  assert (Hn : 1 <= n).
  { unfold n, zlen. destruct l; [contradiction | cbn [length]; lia]. }
  unfold rearrangeImage. fold width.
  destruct (nums l) as [|v order] eqn:El.
  { destruct l; [contradiction | discriminate El]. }
  rewrite <- El. rewrite len_nums. fold n.
  destruct (Z.ltb_spec width 1); [lia|].
  destruct (Z.ltb_spec (canvas_height context) 1); [lia|].
  cbn [orb].
  assert (Hall' : Forall (fun z => 0 <= z < n /\ 1 <= currentSegmentWidth width n z) l).
  { eapply Forall_impl; [|exact Hall]. intros z Hz. split; [exact Hz|].
    apply strips_not_empty; lia. }
  pose proof (paste_from_spec width n ltac:(lia) Hn l 0 Hall') as Hps.
  cbn [Z.of_nat] in Hps. rewrite strip_x_0 in Hps by lia.
  rewrite Hps. reflexivity.
Qed.

(** The layout for a rearrangement of [0 .. n-1]: where the slots are. *)
Lemma layout_slots (context : Context) (l : list Z) (n : nat)
    (colored : list Colored) :
  let width := canvas_width context in
  (1 <= n)%nat -> Z.of_nat n <= width -> 1 <= canvas_height context ->
  Permutation l (iota n) ->
  exists ps,
    rearrangeImage (Some (nums l)) Available context colored
      = Some (mkPicture ps (highlight_rects width (Z.of_nat n) colored)) /\
    map paste_x ps = map (strip_x width (Z.of_nat n)) (iota n).
Proof.
  intros width Hn Hw Hh Hp.
  assert (Hlen : length l = n).
  { rewrite (Permutation_length Hp). unfold iota. rewrite length_map, length_seq. reflexivity. }
  assert (Hz : zlen l = Z.of_nat n) by (unfold zlen; rewrite Hlen; reflexivity).
  assert (Hne : l <> []) by (intros ->; cbn in Hlen; lia).
  assert (Hall : Forall (fun z => 0 <= z < zlen l) l)
    by (rewrite Hz; apply perm_iota_bounds; exact Hp).
  pose proof (layout_valid context l colored Hne ltac:(fold width; lia) Hh Hall) as E.
  cbv zeta in E. rewrite Hz, Hlen in E.
  assert (Hc : length (iota n) = length l)
    by (unfold iota; rewrite length_map, length_seq; lia).
  eexists. split; [exact E|].
  rewrite map_map. rewrite <- (map_fst_combine (iota n) l Hc) at 2.
  rewrite map_map. apply map_ext. reflexivity.
Qed.

(* ================================================================== *)
(** * The scheduler: frames, sound, drain *)
(* ================================================================== *)

Section Frames.
Variable k : jsnum.

Lemma take_count_step (i : Z) (n : nat) :
  lt_jsnum i k = true -> take_count k i (S n) = S (take_count k (i + 1) n).
Proof.
  destruct k as [z| | |]; simpl; try discriminate; trivial.
  intros H. apply Z.ltb_lt in H.
  replace (Z.to_nat (z - i)) with (S (Z.to_nat (z - (i + 1)))) by lia.
  reflexivity.
Qed.

Lemma take_count_stop (i : Z) (n : nat) :
  lt_jsnum i k = false -> take_count k i n = O.
Proof.
  destruct k as [z| | |]; simpl; try discriminate; trivial.
  intros H. apply Z.ltb_ge in H.
  replace (Z.to_nat (z - i)) with O by lia. reflexivity.
Qed.

(** Past the first step a frame only overwrites the array and appends
    colours. *)
Lemma fill_frame_from : forall queue i fr,
  1 <= i ->
  fill_frame k i fr queue =
    (mkFrame (shown_array (combinedArray fr) (firstn (take_count k i (length queue)) queue))
             (combinedColored fr ++ flat_map q_colored (firstn (take_count k i (length queue)) queue))
             (combinedSoundIndexes fr),
     skipn (take_count k i (length queue)) queue).
Proof.
  induction queue as [|e queue IH]; intros i fr Hi.
  - simpl. destruct (take_count k i 0); simpl; rewrite app_nil_r; destruct fr; reflexivity.
  - cbn [fill_frame length].
    destruct (lt_jsnum i k) eqn:Hlt.
    + rewrite take_count_step by assumption.
      rewrite IH by lia. cbn [combinedArray combinedColored combinedSoundIndexes].
      replace (i =? 0) with false by (symmetry; apply Z.eqb_neq; lia).
      cbn [firstn skipn flat_map]. unfold shown_array. cbn [fold_left].
      rewrite <- app_assoc. reflexivity.
    + rewrite take_count_stop by assumption.
      simpl. rewrite app_nil_r. destruct fr; reflexivity.
Qed.

Lemma last_cons_default {A} : forall (l : list A) (a d : A), last (a :: l) d = last l a.
Proof.
  induction l as [|b l IH]; intros a d; [reflexivity|].
  change (last (a :: b :: l) d) with (last (b :: l) d).
  rewrite (IH b d), (IH b a). reflexivity.
Qed.

Lemma shown_array_last : forall rest e d,
  shown_array d (e :: rest) = Some (q_array (last rest e)).
Proof.
  unfold shown_array. induction rest as [|e' rest IH]; intros e d; [reflexivity|].
  cbn [fold_left] in *. rewrite (IH e' (Some (q_array e))).
  rewrite last_cons_default. reflexivity.
Qed.

(** A frame started on a non-empty queue when [k >= 1]. *)
Lemma fill_frame_first (e : QueueEntry) (queue : list QueueEntry) :
  at_least_one k = true ->
  let c := take_count k 1 (length queue) in
  fill_frame k 0 (mkFrame None [] []) (e :: queue) =
    (mkFrame (Some (q_array (last (firstn c queue) e)))
             (flat_map q_colored (e :: firstn c queue))
             (sound_set e),
     skipn c queue).
Proof.
  intros Hk c. cbn [fill_frame].
  assert (Hlt : lt_jsnum 0 k = true).
  { destruct k; simpl in *; try discriminate; trivial.
    apply Z.ltb_lt. apply Z.leb_le in Hk. lia. }
  rewrite Hlt. rewrite fill_frame_from by lia.
  cbn [combinedArray combinedColored combinedSoundIndexes Z.eqb app].
  change (0 + 1) with 1. fold c.
  change (shown_array (Some (q_array e)) (firstn c queue))
    with (shown_array None (e :: firstn c queue)).
  rewrite shown_array_last. reflexivity.
Qed.

(** With [k < 1] (or [NaN]) the inner loop takes nothing. *)
Lemma fill_frame_none (fr : Frame) (queue : list QueueEntry) :
  at_least_one k = false -> fill_frame k 0 fr queue = (fr, queue).
Proof.
  intros Hk. destruct queue as [|e queue]; [reflexivity|].
  cbn [fill_frame].
  assert (Hlt : lt_jsnum 0 k = false).
  { destruct k; simpl in *; try discriminate; trivial.
    apply Z.ltb_ge. apply Z.leb_gt in Hk. lia. }
  rewrite Hlt. reflexivity.
Qed.

Lemma frame_len_cons (n : nat) :
  at_least_one k = true -> frame_len k (S n) = S (take_count k 1 n).
Proof.
  intros Hk. unfold frame_len. apply (take_count_step 0 n).
  destruct k; simpl in *; try discriminate; trivial.
  apply Z.ltb_lt. apply Z.leb_le in Hk. lia.
Qed.

(** The tones of a frame that can be played are played. *)
Lemma audible_plays (duration n : Z) (e : QueueEntry) :
  audible duration n (q_soundIndexes e) = true ->
  playBeep duration n (sound_set e) = Some (Beep duration n (sound_set e)).
Proof.
  unfold audible, sound_set, playBeep.
  destruct (q_soundIndexes e) as [|x xs]; [reflexivity|].
  intros H. apply andb_true_iff in H. destruct H as [H _].
  apply andb_true_iff in H. destruct H as [H _].
  destruct (n =? 0); [discriminate H|].
  destruct (fold_left set_add (x :: xs) []); reflexivity.
Qed.

(** The presentation loop presents the chunks of the queue, one frame
    each, and completes, when each can be presented. *)
Lemma present_chunks (image : Image) (context : Context) (duration n : Z) :
  forall fuel queue,
  at_least_one k = true ->
  (length queue <= fuel)%nat ->
  forallb (presentable image context duration n) (chunks fuel k queue) = true ->
  present fuel image context k duration n queue =
    (flat_map (frame_events duration n) (chunks fuel k queue), Completed).
Proof.
  induction fuel as [|fuel IH]; intros queue Hk Hlen Hok.
  - destruct queue; [reflexivity | simpl in Hlen; lia].
  - destruct queue as [|e queue]; [reflexivity|].
    cbn [present chunks] in *.
    rewrite fill_frame_first by assumption.
    cbn [length] in *. rewrite frame_len_cons in * by assumption.
    cbn [combinedArray combinedColored combinedSoundIndexes firstn skipn] in *.
    set (c := take_count k 1 (length queue)) in *.
    cbn [forallb presentable] in Hok.
    apply andb_true_iff in Hok. destruct Hok as [Hfr Hrest].
    apply andb_true_iff in Hfr. destruct Hfr as [Hdraw Hbeep].
    destruct (drawable_draws _ image context
                (flat_map q_colored (e :: firstn c queue)) Hdraw) as (picture & ->).
    rewrite (audible_plays duration n e Hbeep).
    rewrite IH; [reflexivity | assumption | | exact Hrest].
    rewrite length_skipn. simpl in Hlen. lia.
Qed.

(** With less than one step per frame the first frame is handed no
    array, and [rearrangeImage] throws. *)
Lemma present_throws (image : Image) (context : Context) (duration n : Z) (fuel : nat)
    (e : QueueEntry) (queue : list QueueEntry) :
  at_least_one k = false ->
  present (S fuel) image context k duration n (e :: queue) = ([], Threw).
Proof.
  intros Hk. cbn [present]. rewrite fill_frame_none by assumption. reflexivity.
Qed.

(** A first frame whose array cannot be drawn ends the presentation
    before anything is presented. *)
Lemma present_not_drawable (image : Image) (context : Context) (duration n : Z) (fuel : nat)
    (e : QueueEntry) (queue : list QueueEntry) :
  at_least_one k = true ->
  drawable image context
    (q_array (last (firstn (take_count k 1 (length queue)) queue) e)) = false ->
  present (S fuel) image context k duration n (e :: queue) = ([], Threw).
Proof.
  intros Hk Hd. cbn [present]. rewrite fill_frame_first by assumption.
  cbn [combinedArray combinedColored].
  rewrite (not_drawable_throws _ image context _ Hd). reflexivity.
Qed.

Lemma chunks_concat : forall fuel queue,
  at_least_one k = true -> (length queue <= fuel)%nat ->
  concat (chunks fuel k queue) = queue.
Proof.
  induction fuel as [|fuel IH]; intros queue Hk Hlen.
  - destruct queue; [reflexivity | simpl in Hlen; lia].
  - destruct queue as [|e queue]; [reflexivity|].
    cbn [chunks concat length]. rewrite frame_len_cons by assumption.
    rewrite IH; [apply firstn_skipn | assumption |].
    cbn [skipn]. rewrite length_skipn. simpl in Hlen. lia.
Qed.
End Frames.

Lemma chunks_sizes (z : Z) : forall fuel queue,
  1 <= z -> (length queue <= fuel)%nat ->
  Forall (fun ch => length ch = Z.to_nat z) (removelast (chunks fuel (Fin z) queue)) /\
  Forall (fun ch => (1 <= length ch <= Z.to_nat z)%nat) (chunks fuel (Fin z) queue).
Proof.
  induction fuel as [|fuel IH]; intros queue Hz Hlen.
  - destruct queue; [simpl; auto | simpl in Hlen; lia].
  - destruct queue as [|e queue]; [simpl; auto|].
    cbn [chunks].
    set (c := frame_len (Fin z) (length (e :: queue))).
    assert (Hc : c = Nat.min (Z.to_nat z) (S (length queue))).
    { unfold c, frame_len, take_count. cbn [length]. rewrite Z.sub_0_r. reflexivity. }
    clearbody c. cbn [length] in Hlen.
    assert (Hskip : (length (skipn c (e :: queue)) <= fuel)%nat).
    { rewrite length_skipn. cbn [length]. lia. }
    destruct (IH (skipn c (e :: queue)) Hz Hskip) as [IH1 IH2].
    assert (Hfirst : length (firstn c (e :: queue)) = c).
    { rewrite length_firstn. cbn [length]. lia. }
    split.
    + destruct (chunks fuel (Fin z) (skipn c (e :: queue))) as [|ch chs] eqn:Hch.
      * constructor.
      * change (removelast (firstn c (e :: queue) :: ch :: chs))
          with (firstn c (e :: queue) :: removelast (ch :: chs)).
        constructor; [|exact IH1].
        rewrite Hfirst.
        destruct (skipn c (e :: queue)) as [|x xs] eqn:Hs.
        { destruct fuel; discriminate Hch. }
        assert (Hne : length (skipn c (e :: queue)) <> O) by (rewrite Hs; discriminate).
        rewrite length_skipn in Hne. cbn [length] in Hne. lia.
    + constructor; [|exact IH2]. rewrite Hfirst. lia.
Qed.

(** ** The drain loop *)

Lemma safetyCap_succ : safetyCap = S (Nat.pred safetyCap).
Proof. unfold safetyCap. lia. Qed.


Lemma fold_array_last : forall (ys : list Step) (r : Step),
  fold_left (fun _ r => array r) ys (array r) = array (last ys r).
Proof.
  induction ys as [|y ys IH]; intros r; [reflexivity|].
  cbn [fold_left]. rewrite IH. destruct ys; [reflexivity|].
  symmetry. rewrite (last_cons_default (s :: ys) y r). reflexivity.
Qed.

Lemma settle_last (u : jsarray) (steps : list Step) (r : Step) :
  settle u (r :: steps) = array (last steps r).
Proof. reflexivity. Qed.

Lemma settle_app (u : jsarray) (o : list Step) (s : Step) : settle u (o ++ [s]) = array s.
Proof.
  destruct o as [|x o]; [reflexivity|].
  cbn [app settle]. rewrite last_last. reflexivity.
Qed.






(** The drain of a program run ends when the run returned or yielded
    more than 80,000 steps. *)
Lemma drain_more_iterator_of (r : list Step * Mem * option unit) :
  forall budget st final,
  res r <> None \/ (budget < length st)%nat ->
  drain_more (it_next (iterator_of r)) budget st final =
    Some (map enqueue (firstn budget st),
          fold_left (fun _ s => array s) (firstn budget st) final).
Proof.
  induction budget as [|budget IH]; intros st final H; cbn [drain_more].
  - destruct st as [|s st]; cbn [iterator_of it_next firstn map fold_left].
    + destruct H as [H|H]; [|cbn in H; lia].
      destruct (res r); [reflexivity | contradiction H; reflexivity].
    + reflexivity.
  - destruct st as [|s st]; cbn [iterator_of it_next firstn map fold_left].
    + destruct H as [H|H]; [|cbn in H; lia].
      destruct (res r); [reflexivity | contradiction H; reflexivity].
    + change (it_next (iterator_of r)) with
        (fun st : list Step =>
           match st with
           | result :: st' => Yield result st'
           | [] => match res r with Some _ => Done (arr (mem r)) | None => @Pending (list Step) end
           end) in IH.
      rewrite IH; [reflexivity|].
      destruct H as [H|H]; [left; exact H | right; cbn in H; lia].
Qed.

Lemma drain_iterator_of (r : list Step * Mem * option unit) :
  res r <> None \/ (safetyCap < length (out r))%nat ->
  drain (iterator_of r) =
    Some (map enqueue (firstn safetyCap (out r)),
          settle (arr (mem r)) (firstn safetyCap (out r))).
Proof.
  intros H. unfold drain. cbn [it_start it_next iterator_of].
  destruct (out r) as [|s o] eqn:Ho.
  - destruct H as [H|H]; [|cbn in H; lia].
    rewrite firstn_nil. destruct (res r); [reflexivity | contradiction H; reflexivity].
  - pose proof (drain_more_iterator_of r (Nat.pred safetyCap) o (array s)) as E.
    cbn [it_next iterator_of] in E. rewrite E.
    + rewrite (safetyCap_succ) at 3 4. cbn [firstn map].
      rewrite settle_last, fold_array_last. reflexivity.
    + destruct H as [H|H]; [left; exact H | right].
      rewrite safetyCap_succ in H. cbn [length] in H. lia.
Qed.

(** A run whose fuel ran out within the cap leaves the drain waiting. *)
Lemma drain_iterator_of_pending (r : list Step * Mem * option unit) :
  res r = None -> (length (out r) <= safetyCap)%nat -> drain (iterator_of r) = None.
Proof.
  intros Hres Hlen. unfold drain. cbn [it_start it_next iterator_of].
  rewrite safetyCap_succ in Hlen.
  destruct (out r) as [|s o]; [rewrite Hres; reflexivity|].
  cbn [length] in Hlen. apply le_S_n in Hlen.
  assert (G : forall budget st final, (length st <= budget)%nat ->
            drain_more (it_next (iterator_of r)) budget st final = None).
  { induction budget as [|budget IH]; intros st final Hl; cbn [drain_more].
    - destruct st; [|cbn in Hl; lia]. cbn [iterator_of it_next]. rewrite Hres. reflexivity.
    - destruct st as [|x st]; cbn [iterator_of it_next]; [rewrite Hres; reflexivity|].
      change (it_next (iterator_of r)) with
        (fun st : list Step =>
           match st with
           | result :: st' => Yield result st'
           | [] => match res r with Some _ => Done (arr (mem r)) | None => @Pending (list Step) end
           end) in IH.
      rewrite IH; [reflexivity | cbn in Hl; lia]. }
  cbn [it_next iterator_of] in G. rewrite G by exact Hlen. reflexivity.
Qed.

(** [animateSort] as a whole when the presentation can run. *)
Lemma animateSort_frames (image : Image) (context : Context) (arr_ : jsarray)
    (interval frameDuration : Z) (generator : Generator) (yieldCompare : option bool)
    (queue : list QueueEntry) (final : jsarray) :
  let k := numStepsPerFrame frameDuration interval in
  let duration := Z.max frameDuration interval in
  drain (generator arr_ yieldCompare) = Some (queue, final) ->
  at_least_one k = true \/ queue = [] ->
  forallb (presentable image context duration (len arr_)) (chunks (length queue) k queue)
    = true ->
  drawable image context final = true ->
  animateSort image context arr_ interval frameDuration generator yieldCompare =
    (flat_map (frame_events duration (len arr_)) (chunks (length queue) k queue)
       ++ [Draw final []],
     Returned final).
Proof.
  intros k duration Hd H Hok Hfinal. unfold animateSort. rewrite Hd. fold k duration.
  destruct (drawable_draws final image context [] Hfinal) as (picture & Hp).
  destruct H as [H|H].
  - rewrite present_chunks by (auto; lia). rewrite Hp. reflexivity.
  - subst queue. cbn [length present chunks flat_map app]. rewrite Hp. reflexivity.
Qed.

Lemma animateSort_throws (image : Image) (context : Context) (arr_ : jsarray)
    (interval frameDuration : Z) (generator : Generator) (yieldCompare : option bool)
    (queue : list QueueEntry) (final : jsarray) :
  drain (generator arr_ yieldCompare) = Some (queue, final) ->
  at_least_one (numStepsPerFrame frameDuration interval) = false ->
  queue <> [] ->
  animateSort image context arr_ interval frameDuration generator yieldCompare = ([], Rejected).
Proof.
  intros Hd Hk Hq. unfold animateSort. rewrite Hd.
  destruct queue as [|e queue']; [contradiction|].
  cbn [length]. rewrite present_throws by assumption. reflexivity.
Qed.

Lemma set_add_In (x y : Z) (s : list Z) : In y (set_add s x) <-> y = x \/ In y s.
Proof.
  unfold set_add. destruct (existsb (Z.eqb x) s) eqn:E.
  - apply existsb_exists in E. destruct E as [w [Hw Heq]]. apply Z.eqb_eq in Heq. subst w.
    split; [auto | intros [->|]; assumption].
  - rewrite in_app_iff. simpl. intuition.
Qed.

Lemma set_add_NoDup (x : Z) (s : list Z) : NoDup s -> NoDup (set_add s x).
Proof.
  intros Hs. unfold set_add. destruct (existsb (Z.eqb x) s) eqn:E; [assumption|].
  apply NoDup_app; [assumption | repeat constructor; simpl; tauto |].
  intros a Ha [Hax|[]]. subst a.
  assert (existsb (Z.eqb x) s = true)
    by (apply existsb_exists; exists x; split; [assumption | apply Z.eqb_refl]).
  congruence.
Qed.

Lemma fold_set_add : forall (l s : list Z),
  NoDup s ->
  NoDup (fold_left set_add l s) /\
  (forall y, In y (fold_left set_add l s) <-> In y l \/ In y s).
Proof.
  induction l as [|x l IH]; intros s Hs; cbn [fold_left].
  - split; [assumption | simpl; tauto].
  - destruct (IH (set_add s x) (set_add_NoDup x s Hs)) as [H1 H2].
    split; [assumption|]. intros y. rewrite H2, set_add_In. simpl. intuition.
Qed.

(** The sound set of a frame holds the sound indexes of its first step,
    each once. *)
Lemma sound_set_spec (e : QueueEntry) :
  NoDup (sound_set e) /\ forall y, In y (sound_set e) <-> In y (q_soundIndexes e).
Proof.
  destruct (fold_set_add (q_soundIndexes e) [] (NoDup_nil Z)) as [H1 H2].
  split; [exact H1|]. intros y. unfold sound_set. rewrite H2. simpl. tauto.
Qed.

(* ================================================================== *)
(** * Highlights of the yielded steps, driver by driver *)
(* ================================================================== *)

Lemma Forall_removelast {A} (P : A -> Prop) (l : list A) :
  Forall P l -> Forall P (removelast l).
Proof.
  induction 1 as [|x l Hx Hl IH]; [constructor|].
  destruct l; [constructor|]. cbn [removelast] in *. constructor; assumption.
Qed.

Lemma all_but_last_emits {A} (P : Step -> Prop) (p : Prog A) :
  emits P p -> all_but_last P p.
Proof. intros H m. apply Forall_removelast, H. Qed.

Lemma all_but_last_quiet_bind {A B} (P : Step -> Prop) (p : Prog A) (f : A -> Prog B) :
  quiet p -> (forall a, all_but_last P (f a)) -> all_but_last P (bind p f).
Proof.
  intros Hq Hf m. rewrite out_bind, Hq. cbn [app].
  destruct (res (p m)); [apply Hf | constructor].
Qed.

Lemma all_but_last_bind {A B} (P : Step -> Prop) (p : Prog A) (f : A -> Prog B) :
  emits P p -> (forall a, at_most_one (f a)) -> all_but_last P (bind p f).
Proof.
  intros Hp Hf m. rewrite out_bind.
  destruct (res (p m)) as [a|]; [|rewrite app_nil_r; apply Forall_removelast, Hp].
  specialize (Hf a (mem (p m))).
  destruct (out (f a (mem (p m)))) as [|s [|s' l]]; cbn [length] in Hf; try lia.
  - rewrite app_nil_r. apply Forall_removelast, Hp.
  - rewrite removelast_last. apply Hp.
Qed.

Lemma at_most_one_yield_step (sw cmp : option (list Z)) : at_most_one (yield_step sw cmp).
Proof. intros m. cbn. lia. Qed.

Lemma at_most_one_when (b : bool) (p : Prog unit) : at_most_one p -> at_most_one (when b p).
Proof. destruct b; [trivial | intros _ m; cbn; lia]. Qed.

Lemma at_most_one_yield_bare (sw cmp : option (list Z)) : at_most_one (yield_bare sw cmp).
Proof. intros m. cbn. lia. Qed.

#[global] Hint Resolve at_most_one_yield_step at_most_one_when at_most_one_yield_bare
  : quiet.

Lemma all_but_last_emits_bind {A B} (P : Step -> Prop) (p : Prog A) (f : A -> Prog B) :
  emits P p -> (forall a, all_but_last P (f a)) -> all_but_last P (bind p f).
Proof.
  intros Hp Hf m. rewrite out_bind.
  destruct (res (p m)) as [a|]; [|rewrite app_nil_r; apply Forall_removelast, Hp].
  specialize (Hf a (mem (p m))).
  destruct (out (f a (mem (p m)))) as [|s l] eqn:E.
  - rewrite app_nil_r. apply Forall_removelast, Hp.
  - rewrite removelast_app by discriminate. apply Forall_app. split; [apply Hp | exact Hf].
Qed.

(** A driver of the shape [loops; ...; terminal step]: [tac] shows that
    the loops yield highlighted steps only. *)
Ltac all_but_last_with tac :=
  repeat match goal with
    | |- all_but_last _ (bind _ (fun _ => when _ (yield_step _ _))) =>
        apply all_but_last_bind; [tac | intros ?; auto with quiet]
    | |- all_but_last _ (bind _ (fun _ => yield_step _ _)) =>
        apply all_but_last_bind; [tac | intros ?; auto with quiet]
    | |- all_but_last _ (bind _ (fun _ => yield_bare _ _)) =>
        apply all_but_last_bind; [tac | intros ?; auto with quiet]
    | |- all_but_last _ (bind _ _) =>
        apply all_but_last_emits_bind; [tac | intros ?]
    end.

Ltac driver_highlighted := all_but_last_with ltac:(emits_with ltac:(reflexivity)).

Lemma shuffleGenerator_highlighted (pick : Z -> Z) : emits highlighted (shuffleGenerator pick).
Proof. unfold shuffleGenerator. emits_with ltac:(reflexivity). Qed.

Lemma accentGenerator_highlighted : all_but_last highlighted accentGenerator.
Proof. unfold accentGenerator. driver_highlighted. Qed.

Lemma merge_tail_highlighted (yc : bool) (swapped : list Z) :
  emits highlighted
    (if yc && (0 <? Z.of_nat (length swapped)) then
       add_swaps (Z.of_nat (length swapped)) ;; yield_step (Some swapped) (Some [])
     else ret tt).
Proof.
  destruct swapped as [|k l].
  - rewrite andb_false_r. apply emits_quiet, quiet_ret.
  - emits_with ltac:(reflexivity).
Qed.

Lemma merge_highlighted (left mid right : Z) (yc : bool) :
  emits highlighted (merge left mid right yc).
Proof.
  unfold merge.
  apply emits_bind; [emits_with ltac:(reflexivity) | intros initialArray].
  apply emits_bind; [emits_with ltac:(reflexivity) | intros [[i j] merged]].
  repeat (apply emits_bind; [emits_with ltac:(reflexivity) | intros ?]).
  apply merge_tail_highlighted.
Qed.

Lemma mergeSortRecursive_highlighted (yc : bool) : forall fuel left right,
  emits highlighted (mergeSortRecursive fuel left right yc).
Proof.
  induction fuel as [|fuel IH]; intros left right; cbn [mergeSortRecursive];
    destruct (left <? right); try solve [apply emits_quiet; auto with quiet].
  emits_with ltac:(reflexivity); auto using merge_highlighted.
Qed.

Lemma mergeSort_highlighted (yc : bool) : emits highlighted (mergeSort yc).
Proof.
  unfold mergeSort. apply emits_bind; [apply emits_quiet; auto with quiet | intros n].
  apply mergeSortRecursive_highlighted.
Qed.

Lemma selectionSort_highlighted (yc : bool) : all_but_last highlighted (selectionSort yc).
Proof. unfold selectionSort. driver_highlighted. Qed.

Lemma compare_exchange_highlighted (i j : Z) (yc : bool) :
  emits highlighted (compare_exchange i j yc).
Proof. unfold compare_exchange. emits_with ltac:(reflexivity). Qed.

Ltac emits_highlighted :=
  emits_with ltac:(reflexivity); try apply compare_exchange_highlighted.

Ltac driver_highlighted_ce := all_but_last_with ltac:(emits_highlighted).

Lemma bubbleSort_highlighted (yc : bool) : all_but_last highlighted (bubbleSort yc).
Proof. unfold bubbleSort. driver_highlighted_ce. Qed.

Lemma cocktailShakerSort_highlighted (yc : bool) :
  all_but_last highlighted (cocktailShakerSort yc).
Proof. unfold cocktailShakerSort. driver_highlighted_ce. Qed.

Lemma gnomeSort_highlighted (fuel : nat) (yc : bool) :
  all_but_last highlighted (gnomeSort fuel yc).
Proof. unfold gnomeSort. driver_highlighted. Qed.

Lemma combSort_highlighted (fuel : nat) (yc : bool) :
  all_but_last highlighted (combSort fuel yc).
Proof. unfold combSort. driver_highlighted_ce. Qed.

Lemma shellSort_highlighted (yc : bool) : all_but_last highlighted (shellSort yc).
Proof. unfold shellSort. driver_highlighted. Qed.

Lemma heapify_highlighted (yc : bool) : forall fuel n i,
  emits highlighted (heapify fuel n i yc).
Proof.
  induction fuel as [|fuel IH]; intros n i; cbn [heapify];
    emits_with ltac:(reflexivity); apply IH.
Qed.

Lemma heapSort_highlighted (yc : bool) : all_but_last highlighted (heapSort yc).
Proof.
  unfold heapSort.
  all_but_last_with ltac:(emits_with ltac:(reflexivity); try apply heapify_highlighted).
Qed.

Lemma oddEvenSort_highlighted (fuel : nat) (yc : bool) :
  all_but_last highlighted (oddEvenSort fuel yc).
Proof. unfold oddEvenSort. driver_highlighted_ce. Qed.

Lemma bitonicMerge_highlighted (yc : bool) : forall fuel low cnt up,
  emits highlighted (bitonicMerge fuel low cnt up yc).
Proof.
  induction fuel as [|fuel IH]; intros low cnt up; cbn [bitonicMerge];
    emits_with ltac:(reflexivity); apply IH.
Qed.

Lemma bitonicSortRec_highlighted (yc : bool) : forall fuel low cnt up,
  emits highlighted (bitonicSortRec fuel low cnt up yc).
Proof.
  induction fuel as [|fuel IH]; intros low cnt up; cbn [bitonicSortRec];
    emits_with ltac:(reflexivity); try apply IH; apply bitonicMerge_highlighted.
Qed.

Lemma bitonicSort_highlighted (up yc : bool) : all_but_last highlighted (bitonicSort up yc).
Proof.
  unfold bitonicSort.
  all_but_last_with ltac:(emits_with ltac:(reflexivity); try apply bitonicSortRec_highlighted).
Qed.

Lemma cycleSort_highlighted (fuel : nat) (yc : bool) :
  all_but_last highlighted (cycleSort fuel yc).
Proof.
  unfold cycleSort, cycle_scan, cycle_skip, cycle_place. driver_highlighted.
Qed.

(* ================================================================== *)
(** * The runs with [yieldCompare] on and off, driver by driver *)
(* ================================================================== *)

Lemma selectionSort_filtered :
  filtered keep_uncompared (selectionSort true) (selectionSort false).
Proof. unfold selectionSort. filtered_tac. Qed.

Lemma insertionSort_filtered :
  filtered keep_uncompared (insertionSort true) (insertionSort false).
Proof. unfold insertionSort. filtered_tac. Qed.

Lemma binaryInsertionSort_filtered :
  filtered keep_uncompared (binaryInsertionSort true) (binaryInsertionSort false).
Proof. unfold binaryInsertionSort. filtered_tac. Qed.

Lemma partition_filtered (low high : Z) :
  filtered keep_none (partition low high true) (partition low high false).
Proof. unfold partition. filtered_tac. Qed.

Lemma quickSortRecursive_filtered : forall fuel low high,
  filtered keep_none (quickSortRecursive fuel low high true)
    (quickSortRecursive fuel low high false).
Proof.
  induction fuel as [|fuel IH]; intros low high; cbn [quickSortRecursive];
    filtered_tac; try apply partition_filtered; apply IH.
Qed.

Lemma quickSort_filtered : filtered keep_none (quickSort true) (quickSort false).
Proof. unfold quickSort. filtered_tac. apply quickSortRecursive_filtered. Qed.

Lemma compare_exchange_filtered (i j : Z) :
  filtered keep_none (compare_exchange i j true) (compare_exchange i j false).
Proof. unfold compare_exchange. filtered_tac. Qed.

Ltac filtered_ce := filtered_tac; try apply compare_exchange_filtered.

Lemma bubbleSort_filtered : filtered keep_none (bubbleSort true) (bubbleSort false).
Proof. unfold bubbleSort. filtered_ce. Qed.

Lemma cocktailShakerSort_filtered :
  filtered keep_none (cocktailShakerSort true) (cocktailShakerSort false).
Proof. unfold cocktailShakerSort. repeat filtered_ce. Qed.

Lemma gnomeSort_filtered (fuel : nat) :
  filtered keep_none (gnomeSort fuel true) (gnomeSort fuel false).
Proof. unfold gnomeSort. filtered_tac. Qed.

Lemma combSort_filtered (fuel : nat) :
  filtered keep_none (combSort fuel true) (combSort fuel false).
Proof. unfold combSort. repeat filtered_ce. Qed.

Lemma shellSort_filtered : filtered keep_none (shellSort true) (shellSort false).
Proof. unfold shellSort. filtered_tac. Qed.

Lemma heapify_filtered : forall fuel n i,
  filtered keep_none (heapify fuel n i true) (heapify fuel n i false).
Proof.
  induction fuel as [|fuel IH]; intros n i; cbn [heapify]; filtered_tac; apply IH.
Qed.

Lemma heapSort_filtered : filtered keep_none (heapSort true) (heapSort false).
Proof. unfold heapSort. filtered_tac; apply heapify_filtered. Qed.

Lemma oddEvenSort_filtered (fuel : nat) :
  filtered keep_none (oddEvenSort fuel true) (oddEvenSort fuel false).
Proof. unfold oddEvenSort. repeat filtered_ce. Qed.

Lemma bitonicMerge_filtered (up : bool) : forall fuel low cnt,
  filtered keep_none (bitonicMerge fuel low cnt up true) (bitonicMerge fuel low cnt up false).
Proof.
  induction fuel as [|fuel IH]; intros low cnt; cbn [bitonicMerge]; filtered_tac; apply IH.
Qed.

Lemma bitonicSortRec_filtered : forall fuel low cnt up,
  filtered keep_none (bitonicSortRec fuel low cnt up true)
    (bitonicSortRec fuel low cnt up false).
Proof.
  induction fuel as [|fuel IH]; intros low cnt up; cbn [bitonicSortRec]; filtered_tac;
    try apply IH; apply bitonicMerge_filtered.
Qed.

Lemma bitonicSort_filtered (up : bool) :
  filtered keep_none (bitonicSort up true) (bitonicSort up false).
Proof. unfold bitonicSort. filtered_tac. apply bitonicSortRec_filtered. Qed.

Lemma cycleSort_filtered (fuel : nat) :
  filtered keep_none (cycleSort fuel true) (cycleSort fuel false).
Proof. unfold cycleSort, cycle_scan, cycle_skip, cycle_place. filtered_tac. Qed.

Lemma lsdRadixSort_filtered :
  filtered keep_unswapped (lsdRadixSort true) (lsdRadixSort false).
Proof. unfold lsdRadixSort. filtered_tac. Qed.

(** Merge sort with the flag off yields nothing. *)
Lemma merge_quiet (left mid right : Z) : quiet (merge left mid right false).
Proof. unfold merge. quiet_tac. Qed.

Lemma mergeSortRecursive_quiet : forall fuel left right,
  quiet (mergeSortRecursive fuel left right false).
Proof.
  induction fuel as [|fuel IH]; intros left right; cbn [mergeSortRecursive]; quiet_tac;
    try apply IH; apply merge_quiet.
Qed.

Lemma mergeSort_quiet : quiet (mergeSort false).
Proof. unfold mergeSort. quiet_tac. apply mergeSortRecursive_quiet. Qed.

(** ** Counters *)

Lemma merge_monotone (left mid right : Z) (yc : bool) : monotone (merge left mid right yc).
Proof. unfold merge. monotone_tac. Qed.

Lemma mergeSortRecursive_monotone (yc : bool) : forall fuel left right,
  monotone (mergeSortRecursive fuel left right yc).
Proof.
  induction fuel as [|fuel IH]; intros left right; cbn [mergeSortRecursive]; monotone_tac;
    try apply IH; apply merge_monotone.
Qed.

Lemma mergeSort_monotone (yc : bool) : monotone (mergeSort yc).
Proof. unfold mergeSort. monotone_tac. apply mergeSortRecursive_monotone. Qed.

Lemma selectionSort_monotone (yc : bool) : monotone (selectionSort yc).
Proof. unfold selectionSort. monotone_tac. Qed.

Lemma insertionSort_monotone (yc : bool) : monotone (insertionSort yc).
Proof. unfold insertionSort. monotone_tac. Qed.

Lemma binaryInsertionSort_monotone (yc : bool) : monotone (binaryInsertionSort yc).
Proof. unfold binaryInsertionSort. monotone_tac. Qed.

Lemma partition_monotone (low high : Z) (yc : bool) : monotone (partition low high yc).
Proof. unfold partition. monotone_tac. Qed.

Lemma quickSortRecursive_monotone (yc : bool) : forall fuel low high,
  monotone (quickSortRecursive fuel low high yc).
Proof.
  induction fuel as [|fuel IH]; intros low high; cbn [quickSortRecursive]; monotone_tac;
    try apply partition_monotone; apply IH.
Qed.

Lemma quickSort_monotone (yc : bool) : monotone (quickSort yc).
Proof. unfold quickSort. monotone_tac. apply quickSortRecursive_monotone. Qed.

Lemma compare_exchange_monotone (i j : Z) (yc : bool) : monotone (compare_exchange i j yc).
Proof. unfold compare_exchange. monotone_tac. Qed.

Ltac monotone_ce := monotone_tac; try apply compare_exchange_monotone.

Lemma bubbleSort_monotone (yc : bool) : monotone (bubbleSort yc).
Proof. unfold bubbleSort. repeat monotone_ce. Qed.

Lemma cocktailShakerSort_monotone (yc : bool) : monotone (cocktailShakerSort yc).
Proof. unfold cocktailShakerSort. repeat monotone_ce. Qed.

Lemma gnomeSort_monotone (fuel : nat) (yc : bool) : monotone (gnomeSort fuel yc).
Proof. unfold gnomeSort. monotone_tac. Qed.

Lemma combSort_monotone (fuel : nat) (yc : bool) : monotone (combSort fuel yc).
Proof. unfold combSort. repeat monotone_ce. Qed.

Lemma shellSort_monotone (yc : bool) : monotone (shellSort yc).
Proof. unfold shellSort. monotone_tac. Qed.

Lemma heapify_monotone (yc : bool) : forall fuel n i, monotone (heapify fuel n i yc).
Proof.
  induction fuel as [|fuel IH]; intros n i; cbn [heapify]; monotone_tac; apply IH.
Qed.

Lemma heapSort_monotone (yc : bool) : monotone (heapSort yc).
Proof. unfold heapSort. monotone_tac; apply heapify_monotone. Qed.

Lemma oddEvenSort_monotone (fuel : nat) (yc : bool) : monotone (oddEvenSort fuel yc).
Proof. unfold oddEvenSort. repeat monotone_ce. Qed.

Lemma bitonicMerge_monotone (yc : bool) : forall fuel low cnt up,
  monotone (bitonicMerge fuel low cnt up yc).
Proof.
  induction fuel as [|fuel IH]; intros low cnt up; cbn [bitonicMerge]; monotone_tac; apply IH.
Qed.

Lemma bitonicSortRec_monotone (yc : bool) : forall fuel low cnt up,
  monotone (bitonicSortRec fuel low cnt up yc).
Proof.
  induction fuel as [|fuel IH]; intros low cnt up; cbn [bitonicSortRec]; monotone_tac;
    try apply IH; apply bitonicMerge_monotone.
Qed.

Lemma bitonicSort_monotone (up yc : bool) : monotone (bitonicSort up yc).
Proof. unfold bitonicSort. monotone_tac. apply bitonicSortRec_monotone. Qed.

Lemma cycleSort_monotone (fuel : nat) (yc : bool) : monotone (cycleSort fuel yc).
Proof. unfold cycleSort, cycle_scan, cycle_skip, cycle_place. monotone_tac. Qed.

Lemma lsdRadixSort_monotone (yc : bool) : monotone (lsdRadixSort yc).
Proof. unfold lsdRadixSort. monotone_tac. Qed.

(* ================================================================== *)
(** * The counters of the last step *)
(* ================================================================== *)

Lemma ends_terminal_yield_step (sw cmp : option (list Z)) : ends_terminal (yield_step sw cmp).
Proof. intros m _. exists [], (mkStep (arr m) sw cmp (Some (comparisons (stats m))) (Some (swaps (stats m)))). auto. Qed.

Lemma ends_terminal_when_true (p : Prog unit) : ends_terminal p -> ends_terminal (when true p).
Proof. trivial. Qed.

Lemma ends_terminal_bind {A B} (p : Prog A) (f : A -> Prog B) :
  (forall a, ends_terminal (f a)) -> ends_terminal (bind p f).
Proof.
  intros Hf m Hres. rewrite res_bind in Hres. rewrite out_bind, mem_bind.
  destruct (res (p m)) as [a|]; [|contradiction].
  destruct (Hf a (mem (p m)) Hres) as (o & s & Ho & Hs).
  exists (out (p m) ++ o), s. rewrite Ho, app_assoc. auto.
Qed.

Ltac ends_terminal_tac :=
  repeat match goal with
    | |- ends_terminal (bind _ _) => apply ends_terminal_bind; intros ?
    | |- ends_terminal (when true _) => apply ends_terminal_when_true
    | |- ends_terminal (yield_step _ _) => apply ends_terminal_yield_step
    end.

Lemma ends_terminal_synced {A} (p : Prog A) (m : Mem) :
  ends_terminal p -> res (p m) <> None ->
  synced_with (stats m) (out (p m)) (stats (mem (p m))).
Proof.
  intros H Hres. destruct (H m Hres) as (o & s & Ho & Hs).
  unfold synced_with. rewrite Ho, rev_app_distr. exact Hs.
Qed.

(** ** Merge sort has no terminal step: its last step is synced *)

Lemma synced_with_app (s0 s1 s2 : Stats) (o1 o2 : list Step) :
  synced_with s0 o1 s1 -> synced_with s1 o2 s2 -> synced_with s0 (o1 ++ o2) s2.
Proof.
  unfold synced_with. rewrite rev_app_distr.
  destruct (rev o2) as [|s l]; cbn [app]; [intros H ->; exact H | trivial].
Qed.

Lemma synced_bind {A B} (p : Prog A) (f : A -> Prog B) :
  synced p -> (forall a, synced (f a)) -> synced (bind p f).
Proof.
  intros Hp Hf m. rewrite out_bind, mem_bind.
  destruct (res (p m)) as [a|].
  - eapply synced_with_app; [apply Hp | apply Hf].
  - rewrite app_nil_r. apply Hp.
Qed.

Lemma synced_quiet_same {A} (p : Prog A) :
  quiet p -> (forall m, stats (mem (p m)) = stats m) -> synced p.
Proof. intros Hq Hs m. rewrite Hq, Hs. reflexivity. Qed.

Lemma synced_ret {A} (a : A) : synced (ret a).
Proof. intros m. reflexivity. Qed.
Lemma synced_timeout {A} : synced (@timeout A).
Proof. intros m. reflexivity. Qed.
Lemma synced_rd (i : Z) : synced (rd i).
Proof. intros m. reflexivity. Qed.
Lemma synced_wr (i : Z) (v : value) : synced (wr i v).
Proof. intros m. reflexivity. Qed.
Lemma synced_length : synced length_.
Proof. intros m. reflexivity. Qed.
Lemma synced_snapshot : synced snapshot.
Proof. intros m. reflexivity. Qed.

Lemma synced_for {A} (d : Z) (body : Z -> A -> Prog A) :
  (forall i acc, synced (body i acc)) -> forall cnt i acc, synced (for_ cnt i d body acc).
Proof.
  intros Hb. induction cnt as [|cnt IH]; intros i acc; cbn [for_].
  - apply synced_ret.
  - apply synced_bind; auto.
Qed.

Lemma synced_while {A} (cond : A -> Mem -> bool) (body : A -> Prog A) :
  (forall a, synced (body a)) -> forall fuel a, synced (while_ fuel cond body a).
Proof.
  intros Hb. induction fuel as [|fuel IH]; intros a m; rewrite while_eq;
    destruct (cond a m); try reflexivity.
  apply synced_bind; auto.
Qed.

Create HintDb synced.
#[global] Hint Resolve synced_ret synced_timeout synced_rd synced_wr synced_length
  synced_snapshot : synced.

Lemma merge_synced (left mid right : Z) : synced (merge left mid right true).
Proof.
  unfold merge, for_up.
  repeat match goal with
    | |- synced (bind _ _) => apply synced_bind; [|intros ?]
    | |- synced (for_ _ _ _ _ _) => apply synced_for; intros ? ?
    | |- synced (let '(_, _) := ?x in _) => destruct x; cbv beta iota
    | |- synced _ => solve [auto with synced]
    end.
  - apply synced_while. intros [[i j] merged] m.
    cbn. destruct (js_le (get_idx (arr m) i) (get_idx (arr m) j)); reflexivity.
  - cbv zeta. cbn [andb].
    match goal with |- synced (if ?c then _ else _) => destruct c end;
      [intros m; reflexivity | apply synced_ret].
Qed.

Lemma mergeSortRecursive_synced : forall fuel left right,
  synced (mergeSortRecursive fuel left right true).
Proof.
  induction fuel as [|fuel IH]; intros left right; cbn [mergeSortRecursive];
    destruct (left <? right); auto with synced.
  repeat match goal with
    | |- synced (bind _ _) => apply synced_bind; [|intros ?]
    end; auto using merge_synced.
Qed.

Lemma mergeSort_synced : synced (mergeSort true).
Proof.
  unfold mergeSort. apply synced_bind; [auto with synced | intros n].
  apply mergeSortRecursive_synced.
Qed.

(** ** Merge sort with the flag off: same array and comparisons, no swaps
    counted *)

Lemma sbs_bind {A B} (p q : Prog A) (f g : A -> Prog B) :
  same_but_swaps p q -> (forall a, same_but_swaps (f a) (g a)) ->
  same_but_swaps (bind p f) (bind q g).
Proof.
  intros Hp Hf m1 m2 Ha Hc. destruct (Hp m1 m2 Ha Hc) as (Ha1 & Hc1 & Hr1 & Hs1).
  rewrite !mem_bind, !res_bind, <- Hr1.
  destruct (res (p m1)) as [a|]; [|auto].
  destruct (Hf a _ _ Ha1 Hc1) as (Ha2 & Hc2 & Hr2 & Hs2).
  repeat split; auto. congruence.
Qed.

Lemma sbs_pure {A} (p : Prog A) :
  (forall m1 m2, arr m1 = arr m2 -> comparisons (stats m1) = comparisons (stats m2) ->
     arr (mem (p m1)) = arr (mem (p m2)) /\
     comparisons (stats (mem (p m1))) = comparisons (stats (mem (p m2))) /\
     res (p m1) = res (p m2) /\ swaps (stats (mem (p m2))) = swaps (stats m2)) ->
  same_but_swaps p p.
Proof. trivial. Qed.

Lemma sbs_ret {A} (a : A) : same_but_swaps (ret a) (ret a).
Proof. intros m1 m2 Ha Hc. cbn. auto. Qed.
Lemma sbs_timeout {A} : same_but_swaps (@timeout A) timeout.
Proof. intros m1 m2 Ha Hc. cbn. auto. Qed.
Lemma sbs_rd (i : Z) : same_but_swaps (rd i) (rd i).
Proof. intros m1 m2 Ha Hc. cbn. rewrite Ha. auto. Qed.
Lemma sbs_wr (i : Z) (v : value) : same_but_swaps (wr i v) (wr i v).
Proof. intros m1 m2 Ha Hc. cbn. rewrite Ha. auto. Qed.
Lemma sbs_length : same_but_swaps length_ length_.
Proof. intros m1 m2 Ha Hc. cbn. rewrite Ha. auto. Qed.
Lemma sbs_snapshot : same_but_swaps snapshot snapshot.
Proof. intros m1 m2 Ha Hc. cbn. rewrite Ha. auto. Qed.
Lemma sbs_inc_comparisons : same_but_swaps inc_comparisons inc_comparisons.
Proof. intros m1 m2 Ha Hc. cbn. rewrite Ha, Hc. auto. Qed.
Lemma sbs_when_yield (sw cmp : option (list Z)) :
  same_but_swaps (when true (yield_step sw cmp)) (when false (yield_step sw cmp)).
Proof. intros m1 m2 Ha Hc. cbn. auto. Qed.

Lemma sbs_for {A} (d : Z) (body body' : Z -> A -> Prog A) :
  (forall i acc, same_but_swaps (body i acc) (body' i acc)) ->
  forall cnt i acc, same_but_swaps (for_ cnt i d body acc) (for_ cnt i d body' acc).
Proof.
  intros Hb. induction cnt as [|cnt IH]; intros i acc; cbn [for_].
  - apply sbs_ret.
  - apply sbs_bind; auto.
Qed.

(** For a guard that does not read the memory. *)
Lemma sbs_while {A} (cond : A -> Mem -> bool) (body body' : A -> Prog A) :
  (forall a m1 m2, cond a m1 = cond a m2) ->
  (forall a, same_but_swaps (body a) (body' a)) ->
  forall fuel a, same_but_swaps (while_ fuel cond body a) (while_ fuel cond body' a).
Proof.
  intros Hc Hb. induction fuel as [|fuel IH]; intros a m1 m2 Ha Hcmp; rewrite !while_eq;
    rewrite (Hc a m1 m2); destruct (cond a m2); try (cbn; solve [auto]).
  apply sbs_bind; auto.
Qed.

Create HintDb sbs.
#[global] Hint Resolve sbs_ret sbs_timeout sbs_rd sbs_wr sbs_length sbs_snapshot
  sbs_inc_comparisons sbs_when_yield : sbs.

Ltac sbs_tac :=
  unfold for_up;
  repeat match goal with
    | |- same_but_swaps (bind _ _) (bind _ _) => apply sbs_bind; [|intros ?]
    | |- same_but_swaps (for_ _ _ _ _ _) (for_ _ _ _ _ _) => apply sbs_for; intros ? ?
    | |- same_but_swaps (while_ _ _ _ _) (while_ _ _ _ _) =>
        apply sbs_while; [intros [[? ?] ?] ? ?; reflexivity | intros ?]
    | |- same_but_swaps (if ?b then _ else _) (if ?b then _ else _) =>
        destruct b; cbv beta iota
    | |- same_but_swaps (let '(_, _) := ?x in _) _ => destruct x; cbv beta iota
    | |- same_but_swaps _ _ => solve [auto with sbs]
    end.

Lemma merge_same_but_swaps (left mid right : Z) :
  same_but_swaps (merge left mid right true) (merge left mid right false).
Proof.
  unfold merge. sbs_tac.
  cbv zeta. cbn [andb].
  match goal with |- same_but_swaps (if ?c then _ else _) _ => destruct c end;
    [|apply sbs_ret].
  intros m1 m2 Ha Hc. cbn. auto.
Qed.

Lemma mergeSortRecursive_same_but_swaps : forall fuel left right,
  same_but_swaps (mergeSortRecursive fuel left right true)
    (mergeSortRecursive fuel left right false).
Proof.
  induction fuel as [|fuel IH]; intros left right; cbn [mergeSortRecursive];
    destruct (left <? right); auto with sbs.
  repeat match goal with
    | |- same_but_swaps (bind _ _) (bind _ _) => apply sbs_bind; [|intros ?]
    end; auto using merge_same_but_swaps.
Qed.

Lemma mergeSort_same_but_swaps : same_but_swaps (mergeSort true) (mergeSort false).
Proof.
  unfold mergeSort. apply sbs_bind; [auto with sbs | intros n].
  apply mergeSortRecursive_same_but_swaps.
Qed.

(** ** Drivers that end on a terminal step *)

Lemma selectionSort_ends (yc : bool) : ends_terminal (selectionSort yc).
Proof. unfold selectionSort. ends_terminal_tac. Qed.
Lemma insertionSort_ends (yc : bool) : ends_terminal (insertionSort yc).
Proof. unfold insertionSort. ends_terminal_tac. Qed.
Lemma binaryInsertionSort_ends (yc : bool) : ends_terminal (binaryInsertionSort yc).
Proof. unfold binaryInsertionSort. ends_terminal_tac. Qed.
Lemma quickSortRecursive_ends (fuel : nat) (low high : Z) :
  ends_terminal (quickSortRecursive fuel low high true).
Proof. destruct fuel; cbn [quickSortRecursive]; ends_terminal_tac. Qed.
Lemma quickSort_ends : ends_terminal (quickSort true).
Proof. unfold quickSort. ends_terminal_tac. apply quickSortRecursive_ends. Qed.
Lemma bubbleSort_ends : ends_terminal (bubbleSort true).
Proof. unfold bubbleSort. ends_terminal_tac. Qed.
Lemma cocktailShakerSort_ends : ends_terminal (cocktailShakerSort true).
Proof. unfold cocktailShakerSort. ends_terminal_tac. Qed.
Lemma gnomeSort_ends (fuel : nat) : ends_terminal (gnomeSort fuel true).
Proof. unfold gnomeSort. ends_terminal_tac. Qed.
Lemma combSort_ends (fuel : nat) : ends_terminal (combSort fuel true).
Proof. unfold combSort. ends_terminal_tac. Qed.
Lemma shellSort_ends : ends_terminal (shellSort true).
Proof. unfold shellSort. ends_terminal_tac. Qed.
Lemma heapSort_ends : ends_terminal (heapSort true).
Proof. unfold heapSort. ends_terminal_tac. Qed.
Lemma oddEvenSort_ends (fuel : nat) : ends_terminal (oddEvenSort fuel true).
Proof. unfold oddEvenSort. ends_terminal_tac. Qed.
Lemma bitonicSort_ends (up : bool) : ends_terminal (bitonicSort up true).
Proof. unfold bitonicSort. ends_terminal_tac. Qed.
Lemma cycleSort_ends (fuel : nat) : ends_terminal (cycleSort fuel true).
Proof. unfold cycleSort. ends_terminal_tac. Qed.
Lemma lsdRadixSort_ends : ends_terminal (lsdRadixSort true).
Proof. unfold lsdRadixSort. ends_terminal_tac. Qed.

Lemma counters_behave_terminal (p : Prog unit) (a : jsarray) :
  monotone p -> ends_terminal p -> counters_behave p a.
Proof.
  intros Hm He. split; [apply (Hm (mkMem a (mkStats 0 0)))|].
  intros Hc. apply (ends_terminal_synced p (mkMem a (mkStats 0 0)) He Hc).
Qed.

Lemma filtered_final_stats (keep : Step -> bool) (p q : Prog unit) (a : jsarray) :
  filtered keep p q -> final_stats q a = final_stats p a.
Proof. intros H. unfold final_stats, run. destruct (H (mkMem a (mkStats 0 0))) as (_ & -> & _). reflexivity. Qed.

Lemma filtered_none_steps (p q : Prog unit) (a : jsarray) :
  filtered keep_none p q -> steps_of q a = [].
Proof.
  intros H. unfold steps_of, run. destruct (H (mkMem a (mkStats 0 0))) as (-> & _).
  induction (out (p (mkMem a (mkStats 0 0)))); auto.
Qed.

Lemma filtered_steps (keep : Step -> bool) (p q : Prog unit) (a : jsarray) :
  filtered keep p q -> steps_of q a = filter keep (steps_of p a).
Proof. intros H. unfold steps_of, run. destruct (H (mkMem a (mkStats 0 0))) as (-> & _). reflexivity. Qed.

(* ================================================================== *)
(** * Merge sort: the merge phase *)
(* ================================================================== *)

Lemma changed_from_In : forall cnt k a b x,
  In x (changed_from cnt k a b) <->
  k <= x < k + Z.of_nat cnt /\ strict_neq (get_idx a x) (get_idx b x) = true.
Proof.
  induction cnt as [|cnt IH]; intros k a b x; cbn [changed_from].
  - split; [intros [] | lia].
  - rewrite in_app_iff, IH. split.
    + intros [H|H].
      * destruct (strict_neq (get_idx a k) (get_idx b k)) eqn:E; [|destruct H].
        destruct H as [<-|[]]. split; [lia | exact E].
      * split; [lia | tauto].
    + intros [Hr Hx]. destruct (Z.eq_dec x k) as [->|Hne].
      * left. rewrite Hx. left. reflexivity.
      * right. split; [lia | exact Hx].
Qed.

Lemma changed_from_ascending : forall cnt k a b,
  StronglySorted Z.lt (changed_from cnt k a b).
Proof.
  induction cnt as [|cnt IH]; intros k a b; cbn [changed_from]; [constructor|].
  destruct (strict_neq (get_idx a k) (get_idx b k)); cbn [app]; [|apply IH].
  constructor; [apply IH|].
  apply Forall_forall. intros x Hx. apply changed_from_In in Hx. lia.
Qed.

(** What [merge] yields, from any memory and for any range. *)
Lemma merge_emits (left mid right : Z) (m : Mem) :
  wp (merge left mid right true) (fun o _ m' => merge_emission left right m o m') m.
Proof.
  unfold merge. wp_step. wp_step. cbv beta. wp_step.
  apply (wp_while_inv _ _
           (fun o (_ : Z * Z * list value) m' =>
              arr m' = arr m /\ swaps (stats m') = swaps (stats m) /\
              Forall compare_step o /\
              comparisons (stats m') = comparisons (stats m) + Z.of_nat (length o))
           (fun a _ => let '(i, j, _) := a in (mid + 1 - i) + (right + 1 - j))).
  - repeat split; auto. cbn. lia.
  - cbn. lia.
  - intros o [[i j] merged] m1 (Ha & Hs & Ho & Hc) Hcond.
    apply andb_prop in Hcond. destruct Hcond as [Hi Hj].
    apply Z.leb_le in Hi, Hj.
    wp_steps.
    destruct (js_le (get_idx (arr m1) i) (get_idx (arr m1) j)); wp_steps;
      (split; [|lia]); (split; [exact Ha|]); (split; [exact Hs|]);
      (split;
       [ apply Forall_app; split; [exact Ho|];
         apply Forall_cons; [|apply Forall_nil];
         split; [reflexivity | exists i, j; reflexivity]
       | rewrite length_app; cbn [length]; lia ]).
  - intros o [[i j] merged] m1 (Ha & Hs & Ho & Hc) _. cbv beta iota.
    wp_step.
    apply (wp_for_up _ _ _ _ (fun _ o' _ m' => o' = [] /\ m' = m1)); [auto| |].
    { intros k o' acc m' _ [-> ->]. wp_steps. auto. }
    intros o1 merged1 m' [-> ->]. wp_step.
    apply (wp_for_up _ _ _ _ (fun _ o' _ m' => o' = [] /\ m' = m1)); [auto| |].
    { intros k o' acc m' _ [-> ->]. wp_steps. auto. }
    intros o2 merged2 m' [-> ->]. wp_step.
    apply (wp_for_up _ _ _ _ (fun _ o' _ m' => o' = [] /\ stats m' = stats m1)); [auto| |].
    { intros k o' acc m' _ [-> Hst]. wp_steps. auto. }
    intros o3 [] m2 [-> Hst]. wp_step. wp_step. cbv beta zeta. cbn [andb].
    unfold merge_emission.
    destruct (changed_from (Z.to_nat (right + 1 - left)) left (arr m2) (arr m)) as [|c cs] eqn:E.
    + change (0 <? Z.of_nat (length (@nil Z))) with false. cbv iota.
      wp_steps. cbv zeta. rewrite E.
      exists o. rewrite ?app_nil_r, Hst. auto.
    + replace (0 <? Z.of_nat (length (c :: cs))) with true
        by (symmetry; apply Z.ltb_lt; cbn [length]; lia).
      wp_steps. cbv zeta. rewrite E.
      exists o. rewrite ?app_nil_r, ?Hst. cbn [app]. repeat split; auto; try lia.
Qed.

Lemma value_eqb_eq (x y : value) : value_eqb x y = true <-> x = y.
Proof.
  destruct x as [a|], y as [b|]; cbn; split; intros H; try discriminate; try reflexivity.
  - apply Z.eqb_eq in H. congruence.
  - injection H as ->. apply Z.eqb_refl.
Qed.

Lemma strict_neq_true (x y : value) : strict_neq x y = true <-> x <> y.
Proof.
  unfold strict_neq. rewrite negb_true_iff. split.
  - intros H E. apply value_eqb_eq in E. congruence.
  - intros H. destruct (value_eqb x y) eqn:E; [|reflexivity].
    apply value_eqb_eq in E. contradiction.
Qed.

(* ================================================================== *)
(** * Sorting: shared lemmas *)
(* ================================================================== *)

Lemma sorted_on_adjacent (l : list Z) (lo hi : Z) :
  (forall k, lo <= k -> k + 1 < hi -> zth l k <= zth l (k + 1)) -> sorted_on l lo hi.
Proof.
  intros H i j Hi Hij Hj.
  assert (G : forall d : nat, forall j, j = i + Z.of_nat d -> j < hi -> zth l i <= zth l j).
  { induction d as [|d IH]; intros j' -> Hj'.
    - replace (i + Z.of_nat 0) with i by lia. lia.
    - specialize (IH (i + Z.of_nat d) eq_refl ltac:(lia)).
      specialize (H (i + Z.of_nat d) ltac:(lia) ltac:(lia)).
      replace (i + Z.of_nat (S d)) with (i + Z.of_nat d + 1) by lia. lia. }
  apply (G (Z.to_nat (j - i))); lia.
Qed.

(** When the run of a driver leaves an ascending permutation of
    [0 .. n-1] in the array and ends on a step that shows the array, the
    driver sorts. *)
Lemma sorts_of_wp (p : Prog unit) (l : list Z) (n : nat) :
  Permutation l (iota n) ->
  wp p (fun o _ m' => sorted_mem l m' /\ exists o' s, o = o' ++ [s] /\ array s = arr m')
     (mkMem (nums l) (mkStats 0 0)) ->
  sorts p l n.
Proof.
  intros HP (o & m' & [] & Hrun & (l' & Ha & Hp & Hs) & o' & s & -> & Hlast).
  exists o', s, m'. split; [exact Hrun|].
  rewrite Hlast, Ha. f_equal. apply sorted_perm_iota; [|exact Hs].
  eapply Permutation_trans; eassumption.
Qed.

(** The last step of "loops, then the terminal step". *)
Lemma wp_then_terminal {A} (p : Prog A) (sw cmp : option (list Z)) (P : Mem -> Prop) (m : Mem) :
  wp p (fun _ _ m' => P m') m ->
  wp (p ;; when true (yield_step sw cmp))
     (fun o _ m' => P m' /\ exists o' s, o = o' ++ [s] /\ array s = arr m') m.
Proof.
  intros H. apply wp_bind. eapply wp_conseq; [exact H|].
  intros o a m' HP. cbv beta. wp_steps. split; [exact HP|]. eauto.
Qed.

(** ** Moving a hole: shifting elements and writing the key back is
    exchanging the key with its neighbours *)

Lemma hole_move (a : list Z) (h h' key : Z) :
  0 <= h < zlen a -> 0 <= h' < zlen a -> h <> h' ->
  upd (upd a h (zth a h')) h' key = swapz (upd a h key) h h'.
Proof.
  intros Hh Hh' Hne. apply zth_ext.
  - rewrite zlen_swapz, !zlen_upd. reflexivity.
  - rewrite !zlen_upd. intros k Hk.
    rewrite zth_swapz by (rewrite ?zlen_upd; lia).
    rewrite !zth_upd by (rewrite ?zlen_upd; lia).
    destruct (Z.eqb_spec k h'); [rewrite Z.eqb_refl; reflexivity|].
    destruct (Z.eqb_spec k h); [|reflexivity].
    destruct (Z.eqb_spec h' h); [lia | reflexivity].
Qed.

Lemma upd_same (a : list Z) (h : Z) : 0 <= h < zlen a -> upd a h (zth a h) = a.
Proof.
  intros Hh. apply zth_ext; [apply zlen_upd|].
  rewrite zlen_upd. intros k Hk. rewrite zth_upd by lia.
  destruct (Z.eqb_spec k h); congruence.
Qed.

(** ** Inversions *)

Lemma count_lt_bounds (x : Z) (l : list Z) : 0 <= count_lt x l <= zlen l.
Proof.
  unfold zlen. induction l as [|y l IH]; cbn [count_lt length]; [lia|].
  destruct (y <? x); lia.
Qed.

Lemma inversions_bounds (l : list Z) : 0 <= inversions l <= zlen l * zlen l.
Proof.
  unfold zlen. induction l as [|y l IH]; cbn [inversions length]; [lia|].
  pose proof (count_lt_bounds y l) as H. unfold zlen in H. nia.
Qed.

Lemma count_lt_app (x : Z) (p s : list Z) : count_lt x (p ++ s) = count_lt x p + count_lt x s.
Proof. induction p as [|y p IH]; cbn [count_lt app]; [lia | rewrite IH; lia]. Qed.

Lemma inversions_swap_adjacent (p s : list Z) (a b : Z) :
  b < a -> inversions (p ++ b :: a :: s) = inversions (p ++ a :: b :: s) - 1.
Proof.
  intros Hba. induction p as [|y p IH]; cbn [app inversions count_lt].
  - destruct (Z.ltb_spec b a); destruct (Z.ltb_spec a b); lia.
  - rewrite IH, !count_lt_app. cbn [count_lt]. lia.
Qed.

Lemma upd_at_app_here (p s : list Z) (x y : Z) :
  upd_at (p ++ x :: s) (length p) y = p ++ y :: s.
Proof. induction p as [|z p IH]; cbn; [reflexivity | rewrite IH; reflexivity]. Qed.

Lemma nth_app_here (p s : list Z) (x : Z) : nth (length p) (p ++ x :: s) 0 = x.
Proof. induction p as [|z p IH]; cbn; auto. Qed.

Lemma split_adjacent (l : list Z) (i : Z) :
  0 <= i -> i + 1 < zlen l ->
  exists p s, l = p ++ zth l i :: zth l (i + 1) :: s /\ length p = Z.to_nat i.
Proof.
  unfold zlen, zth. intros Hi Hlen.
  exists (firstn (Z.to_nat i) l), (skipn (S (S (Z.to_nat i))) l). split.
  - rewrite (nth_split_at l (Z.to_nat i)) at 1 by lia. f_equal. f_equal.
    replace (Z.to_nat (i + 1)) with (S (Z.to_nat i)) by lia.
    rewrite (nth_split_at (skipn (S (Z.to_nat i)) l) 0) at 1
      by (rewrite length_skipn; lia).
    cbn [firstn app]. f_equal.
    + rewrite nth_skipn. f_equal. lia.
    + rewrite skipn_skipn. f_equal.
  - rewrite length_firstn. lia.
Qed.

Lemma swapz_adjacent (l : list Z) (i : Z) (p s : list Z) (a b : Z) :
  l = p ++ a :: b :: s -> length p = Z.to_nat i -> 0 <= i ->
  swapz l i (i + 1) = p ++ b :: a :: s.
Proof.
  intros -> Hp Hi. unfold swapz, upd, zth.
  replace (Z.to_nat (i + 1)) with (S (length p)) by lia. rewrite <- Hp.
  rewrite nth_app_here.
  replace (nth (S (length p)) (p ++ a :: b :: s) 0) with b.
  2:{ change (p ++ a :: b :: s) with (p ++ [a] ++ b :: s). rewrite app_assoc.
      replace (S (length p)) with (length (p ++ [a])) by (rewrite length_app; cbn; lia).
      rewrite nth_app_here. reflexivity. }
  rewrite upd_at_app_here.
  change (p ++ b :: b :: s) with (p ++ [b] ++ b :: s). rewrite app_assoc.
  replace (S (length p)) with (length (p ++ [b])) by (rewrite length_app; cbn; lia).
  rewrite upd_at_app_here, <- app_assoc. reflexivity.
Qed.

(** Exchanging an adjacent inverted pair removes one inversion. *)
Lemma inversions_swapz_adjacent (l : list Z) (i : Z) :
  0 <= i -> i + 1 < zlen l -> zth l (i + 1) < zth l i ->
  inversions (swapz l i (i + 1)) = inversions l - 1.
Proof.
  intros Hi Hlen Hlt. destruct (split_adjacent l i Hi Hlen) as (p & s & Hl & Hp).
  rewrite (swapz_adjacent l i p s _ _ Hl Hp Hi).
  rewrite Hl at 3. apply inversions_swap_adjacent. exact Hlt.
Qed.

(** ** One compare-and-exchange *)

Lemma wp_compare_exchange (i j : Z) (l : list Z) (m : Mem)
    (Q : list Step -> bool -> Mem -> Prop) :
  arr m = nums l -> 0 <= i < zlen l -> 0 <= j < zlen l ->
  (forall o m', zth l j < zth l i -> arr m' = nums (swapz l i j) -> Q o true m') ->
  (forall o m', zth l i <= zth l j -> arr m' = nums l -> Q o false m') ->
  wp (compare_exchange i j true) Q m.
Proof.
  intros Ha Hi Hj Hswap Hkeep. unfold compare_exchange. wp_steps.
  rewrite Ha, !get_nums by assumption. cbn [js_gt js_lt].
  destruct (Z.ltb_spec (zth l j) (zth l i)); wp_steps.
  - apply Hswap; [assumption|]. apply swap_nums; assumption.
  - apply Hkeep; [assumption | reflexivity].
Qed.

Lemma wp_then_yield {A} (p : Prog A) (sw cmp : option (list Z)) (P : Mem -> Prop) (m : Mem) :
  wp p (fun _ _ m' => P m') m ->
  wp (p ;; yield_step sw cmp)
     (fun o _ m' => P m' /\ exists o' s, o = o' ++ [s] /\ array s = arr m') m.
Proof.
  intros H. apply wp_bind. eapply wp_conseq; [exact H|].
  intros o a m' HP. cbv beta. wp_steps. split; [exact HP|]. eauto.
Qed.

Lemma swapz_same (l : list Z) (i : Z) : 0 <= i < zlen l -> swapz l i i = l.
Proof.
  intros Hi. apply zth_ext; [apply zlen_swapz|].
  rewrite zlen_swapz. intros k Hk. rewrite zth_swapz by lia.
  destruct (Z.eqb_spec k i); congruence.
Qed.

Lemma head_done_sorted (l : list Z) (h n : Z) :
  n - 1 <= h -> head_done l h n -> sorted_on l 0 n.
Proof.
  intros Hh [Hs Hr] i j Hi Hij Hj.
  destruct (Z.lt_ge_cases j h); [apply Hs; lia|].
  destruct (Z.lt_ge_cases i h); [apply Hr; lia|].
  replace j with i by lia. lia.
Qed.

(** Putting a least element of the rest at [h] extends the finished head. *)
Lemma head_done_step (l : list Z) (h n mi : Z) :
  zlen l = n -> 0 <= h -> h <= mi < n ->
  (forall a, h <= a < n -> zth l mi <= zth l a) ->
  head_done l h n -> head_done (swapz l h mi) (h + 1) n.
Proof.
  intros Hn Hh Hmi Hmin [Hs Hr]. split.
  - intros a b Ha Hab Hb. rewrite !zth_swapz by lia.
    destruct (Z.eqb_spec a mi); destruct (Z.eqb_spec b mi);
      destruct (Z.eqb_spec a h); destruct (Z.eqb_spec b h); subst;
      first [lia | apply Hs; lia | apply Hr; lia | apply Hmin; lia].
  - intros a b Ha Hb. rewrite !zth_swapz by lia.
    destruct (Z.eqb_spec a mi); destruct (Z.eqb_spec b mi);
      destruct (Z.eqb_spec a h); destruct (Z.eqb_spec b h); subst;
      first [lia | apply Hs; lia | apply Hr; lia | apply Hmin; lia].
Qed.

Lemma swapz_comm (l : list Z) (i j : Z) :
  0 <= i < zlen l -> 0 <= j < zlen l -> swapz l i j = swapz l j i.
Proof.
  intros Hi Hj. apply zth_ext; [rewrite !zlen_swapz; reflexivity|].
  rewrite zlen_swapz. intros k Hk. rewrite !zth_swapz by lia.
  destruct (Z.eqb_spec k j); destruct (Z.eqb_spec k i); congruence.
Qed.

Lemma sorted_on_swapz_above (l : list Z) (i j h : Z) :
  0 <= i < zlen l -> 0 <= j < zlen l -> h <= i -> h <= j ->
  sorted_on l 0 h -> sorted_on (swapz l i j) 0 h.
Proof.
  intros Hi Hj Hhi Hhj Hs a b Ha Hab Hb. rewrite !zth_swapz by lia.
  destruct (Z.eqb_spec a j); [lia|]. destruct (Z.eqb_spec a i); [lia|].
  destruct (Z.eqb_spec b j); [lia|]. destruct (Z.eqb_spec b i); [lia|].
  apply Hs; lia.
Qed.

Lemma sorted_on_snoc (l : list Z) (h : Z) :
  sorted_on l 0 h -> (1 <= h -> zth l (h - 1) <= zth l h) -> sorted_on l 0 (h + 1).
Proof.
  intros Hs Hle a b Ha Hab Hb.
  destruct (Z.eq_dec b h) as [->|Hne]; [|apply Hs; lia].
  destruct (Z.eq_dec a h) as [->|Hna]; [lia|].
  specialize (Hs a (h - 1) ltac:(lia) ltac:(lia) ltac:(lia)). lia.
Qed.

Lemma ints_nums (l : list Z) : ints (nums l) = l.
Proof. unfold ints, nums. rewrite map_map. apply map_id. Qed.

Lemma wp_then_terminal_after {A} (o0 : list Step) (p : Prog A) (sw cmp : option (list Z))
    (P : Mem -> Prop) (m : Mem) :
  wp p (fun _ _ m' => P m') m ->
  wp (p ;; when true (yield_step sw cmp))
     (fun o _ m' => P m' /\ exists o' s, o0 ++ o = o' ++ [s] /\ array s = arr m') m.
Proof.
  intros H. eapply wp_conseq; [apply wp_then_terminal; exact H|].
  intros o [] m' (HP & o' & s & -> & Hs). split; [exact HP|].
  exists (o0 ++ o'), s. split; [apply app_assoc | exact Hs].
Qed.

Lemma wp_while_exit {A} (fuel : nat) (cond : A -> Mem -> bool) (body : A -> Prog A) (a : A)
    (Q : list Step -> A -> Mem -> Prop) (m : Mem) :
  cond a m = false -> Q [] a m -> wp (while_ fuel cond body a) Q m.
Proof.
  intros Hc HQ. apply (wp_eq _ (ret a)); [rewrite while_eq, Hc; reflexivity|].
  apply wp_ret. exact HQ.
Qed.

(* ================================================================== *)
(** * Bubble sort *)
(* ================================================================== *)

Lemma tail_done_join (l : list Z) (t n : Z) :
  sorted_on l 0 t -> tail_done l t n -> sorted_on l 0 n.
Proof.
  intros Hp [Hs Hr] i j Hi Hij Hj.
  destruct (Z.lt_ge_cases j t); [apply Hp; lia|].
  destruct (Z.lt_ge_cases i t); [apply Hr; lia | apply Hs; lia].
Qed.

Lemma tail_done_sorted (l : list Z) (t n : Z) :
  t <= 1 -> tail_done l t n -> sorted_on l 0 n.
Proof.
  intros Ht H. apply (tail_done_join l t n); [|exact H].
  intros i j Hi Hij Hj. replace j with i by lia. lia.
Qed.

Lemma tail_done_swap (l : list Z) (t n i j : Z) :
  zlen l = n -> 0 <= i < t -> 0 <= j < t -> t <= n ->
  tail_done l t n -> tail_done (swapz l i j) t n.
Proof.
  intros Hn Hi Hj Ht [Hs Hr]. split.
  - intros a b Ha Hab Hb. rewrite !zth_swapz by lia.
    destruct (Z.eqb_spec a j); [lia|]. destruct (Z.eqb_spec a i); [lia|].
    destruct (Z.eqb_spec b j); [lia|]. destruct (Z.eqb_spec b i); [lia|].
    apply Hs; lia.
  - intros a b Ha Hb. rewrite !zth_swapz by lia.
    destruct (Z.eqb_spec b j); [lia|]. destruct (Z.eqb_spec b i); [lia|].
    destruct (Z.eqb_spec a j); [apply Hr; lia|].
    destruct (Z.eqb_spec a i); apply Hr; lia.
Qed.

(** One pass: the greatest element of [0..t-1] is carried to [t-1]; a
    pass without exchange found the positions [0..t-1] in order. *)
Lemma bubble_pass (l l0 : list Z) (t : Z) (m : Mem) :
  arr m = nums l0 -> Permutation l0 l -> 1 <= t <= zlen l -> tail_done l0 t (zlen l) ->
  wp (for_up 0 (t - 1)
        (fun j swapped => b <- compare_exchange j (j + 1) true ;; ret (b || swapped)) false)
     (fun _ swapped m' =>
        exists l1, arr m' = nums l1 /\ Permutation l1 l /\ tail_done l1 (t - 1) (zlen l) /\
                   (swapped = false -> l1 = l0 /\ sorted_on l0 0 t)) m.
Proof.
  intros Ha Hp Ht Htail.
  apply (wp_for_up _ _ _ _
           (fun j _ swapped m' =>
              exists l1, arr m' = nums l1 /\ Permutation l1 l /\ tail_done l1 t (zlen l) /\
                         (forall a, 0 <= a <= j -> zth l1 a <= zth l1 j) /\
                         (swapped = false -> l1 = l0 /\ sorted_on l0 0 (j + 1)))).
  - exists l0. split; [exact Ha|]. split; [exact Hp|]. split; [exact Htail|]. split.
    + intros a Ha0. replace a with 0 by lia. lia.
    + intros _. split; [reflexivity|].
      intros i j Hi Hij Hj. replace j with i by lia. lia.
  - intros j o swapped m1 Hj (l1 & Ha1 & Hp1 & Ht1 & Hmax & Hsw).
    assert (Hlen : zlen l1 = zlen l) by (apply perm_zlen; exact Hp1).
    wp_step.
    apply (wp_compare_exchange j (j + 1) l1); [exact Ha1 | lia | lia | |].
    + intros o1 m2 Hlt Ha2. wp_steps.
      exists (swapz l1 j (j + 1)). split; [exact Ha2|].
      split; [eapply Permutation_trans; [apply swapz_perm; lia | exact Hp1]|].
      split; [apply tail_done_swap; auto; lia|].
      split; [|discriminate].
      intros a Ha0. rewrite !zth_swapz by lia.
      rewrite Z.eqb_refl.
      destruct (Z.eqb_spec a (j + 1)); [lia|].
      destruct (Z.eqb_spec a j); [lia|].
      specialize (Hmax a ltac:(lia)). lia.
    + intros o1 m2 Hle Ha2. wp_steps.
      exists l1. split; [exact Ha2|]. split; [exact Hp1|]. split; [exact Ht1|]. split.
      * intros a Ha0. destruct (Z.eq_dec a (j + 1)); [subst; lia|].
        specialize (Hmax a ltac:(lia)). lia.
      * cbn [orb]. intros ->. destruct (Hsw eq_refl) as [-> Hs].
        split; [reflexivity|].
        apply sorted_on_adjacent. intros k Hk0 Hk1.
        destruct (Z.eq_dec k j); [subst; exact Hle|].
        apply Hs; lia.
  - intros o swapped m1 (l1 & Ha1 & Hp1 & Ht1 & Hmax & Hsw).
    replace (Z.max 0 (t - 1)) with (t - 1) in * by lia.
    assert (Hlen : zlen l1 = zlen l) by (apply perm_zlen; exact Hp1).
    exists l1. split; [exact Ha1|]. split; [exact Hp1|]. split.
    + destruct Ht1 as [Hs Hr]. split.
      * intros a b Ha0 Hab Hb.
        destruct (Z.eq_dec a (t - 1)).
        -- subst a. destruct (Z.eq_dec b (t - 1)); [subst; lia|]. apply Hr; lia.
        -- apply Hs; lia.
      * intros a b Ha0 Hb. destruct (Z.eq_dec b (t - 1)); [subst; apply Hmax; lia|].
        apply Hr; lia.
    + intros E. destruct (Hsw E) as [-> Hs]. split; [reflexivity|].
      replace t with (t - 1 + 1) by lia. exact Hs.
Qed.

Lemma bubbleSort_sorted (l : list Z) (m : Mem) :
  arr m = nums l ->
  wp (bubbleSort true)
     (fun o _ m' => sorted_mem l m' /\ exists o' s, o = o' ++ [s] /\ array s = arr m') m.
Proof.
  intros Ha. unfold bubbleSort. wp_step. wp_step. cbv beta.
  rewrite Ha, len_nums.
  apply wp_then_terminal.
  apply (wp_for_brk _ _ _ _ _
           (fun i _ _ m' =>
              exists l1, arr m' = nums l1 /\ Permutation l1 l /\
                         tail_done l1 (zlen l - i) (zlen l) /\ i <= Z.max 0 (zlen l - 1))).
  - exists l. split; [exact Ha|]. split; [reflexivity|]. split; [|lia]. split.
    + intros i j Hi Hij Hj. lia.
    + intros a b Ha0 Hb. lia.
  - intros k o [] m1 Hk (l1 & Ha1 & Hp1 & Ht1 & Hi).
    replace (0 + Z.of_nat k * 1) with (Z.of_nat k) in * by lia.
    set (i := Z.of_nat k) in *.
    wp_step.
    replace (zlen l - 1 - i) with (zlen l - i - 1) by lia.
    eapply wp_conseq; [apply (bubble_pass l l1 (zlen l - i) m1); auto; lia|].
    intros o1 swapped m2 (l2 & Ha2 & Hp2 & Ht2 & Hsw). cbv beta.
    wp_steps. cbn [fst snd].
    destruct swapped; cbn [negb].
    + exists l2. split; [exact Ha2|]. split; [exact Hp2|]. split; [|lia].
      replace (zlen l - (i + 1)) with (zlen l - i - 1) by lia. exact Ht2.
    + destruct (Hsw eq_refl) as [-> Hs].
      exists l1. split; [exact Ha2|]. split; [exact Hp1|].
      rewrite (perm_zlen _ _ Hp1).
      apply (tail_done_join l1 (zlen l - i)); assumption.
  - intros o [] m1 (l1 & Ha1 & Hp1 & Ht1 & Hi).
    exists l1. split; [exact Ha1|]. split; [exact Hp1|].
    rewrite (perm_zlen _ _ Hp1).
    apply (tail_done_sorted l1 (zlen l - (0 + Z.of_nat (Z.to_nat (zlen l - 1)) * 1)));
      [lia | exact Ht1].
Qed.

(* ================================================================== *)
(** * Selection sort *)
(* ================================================================== *)

(** The scan of [i+1 .. n-1] returns the position of a least element of
    [i .. n-1] and leaves the array alone. *)
Lemma selection_scan (l1 : list Z) (i : Z) (prev : list Z) (m : Mem) :
  arr m = nums l1 -> 0 <= i < zlen l1 ->
  wp (for_up (i + 1) (zlen l1) (fun j minIndex =>
        inc_comparisons ;;
        when true (yield_step (Some prev) (Some [i; j])) ;;
        aj <- rd j ;;
        am <- rd minIndex ;;
        ret (if js_lt aj am then j else minIndex)) i)
     (fun _ mi m' => arr m' = nums l1 /\ i <= mi < zlen l1 /\
                     forall a, i <= a < zlen l1 -> zth l1 mi <= zth l1 a) m.
Proof.
  intros Ha Hi.
  apply (wp_for_up _ _ _ _
           (fun j _ mi m' => arr m' = nums l1 /\ i <= mi < j /\
                             forall a, i <= a < j -> zth l1 mi <= zth l1 a)).
  - split; [exact Ha|]. split; [lia|]. intros a Ha0. replace a with i by lia. lia.
  - intros j o mi m1 Hj (Ha1 & Hmi & Hmin). wp_steps.
    rewrite Ha1, !get_nums by lia. cbn [js_lt].
    split; [reflexivity|].
    destruct (Z.ltb_spec (zth l1 j) (zth l1 mi)).
    + split; [lia|]. intros a Ha0.
      destruct (Z.eq_dec a j); [subst; lia|]. specialize (Hmin a ltac:(lia)). lia.
    + split; [lia|]. intros a Ha0.
      destruct (Z.eq_dec a j); [subst; lia|]. apply Hmin; lia.
  - intros o mi m1 (Ha1 & Hmi & Hmin).
    replace (Z.max (i + 1) (zlen l1)) with (zlen l1) in * by lia.
    split; [exact Ha1|]. split; [lia | exact Hmin].
Qed.

Lemma selectionSort_sorted (l : list Z) (m : Mem) :
  arr m = nums l ->
  wp (selectionSort true)
     (fun o _ m' => sorted_mem l m' /\ exists o' s, o = o' ++ [s] /\ array s = arr m') m.
Proof.
  intros Ha. unfold selectionSort. wp_step. wp_step. cbv beta.
  rewrite Ha, len_nums.
  apply wp_then_yield.
  apply (wp_for_up _ _ _ _
           (fun i _ _ m' =>
              exists l1, arr m' = nums l1 /\ Permutation l1 l /\ head_done l1 i (zlen l))).
  - exists l. split; [exact Ha|]. split; [reflexivity|]. split.
    + intros i j Hi Hij Hj. lia.
    + intros a b Ha0. lia.
  - intros i o prev m1 Hi (l1 & Ha1 & Hp1 & Hd).
    assert (Hlen : zlen l1 = zlen l) by (apply perm_zlen; exact Hp1).
    wp_step. rewrite <- Hlen.
    eapply wp_conseq; [apply (selection_scan l1 i prev m1); [exact Ha1 | lia]|].
    intros o1 mi m2 (Ha2 & Hmi & Hmin). cbv beta.
    pose proof (head_done_step l1 i (zlen l1) mi eq_refl ltac:(lia) Hmi Hmin) as Hstep.
    rewrite <- Hlen in Hd. specialize (Hstep Hd).
    destruct (Z.eqb_spec mi i) as [->|Hne].
    + wp_steps. exists l1. split; [exact Ha2|]. split; [exact Hp1|].
      rewrite swapz_same in Hstep by lia. exact Hstep.
    + wp_steps. exists (swapz l1 i mi). split; [rewrite Ha2; apply swap_nums; lia|].
      split; [|exact Hstep].
      eapply Permutation_trans; [apply swapz_perm; lia | exact Hp1].
  - intros o prev m1 (l1 & Ha1 & Hp1 & Hd).
    exists l1. split; [exact Ha1|]. split; [exact Hp1|].
    rewrite (perm_zlen _ _ Hp1).
    apply (head_done_sorted l1 (Z.max 0 (zlen l - 1))); [lia | exact Hd].
Qed.

(* ================================================================== *)
(** * Insertion sort *)
(* ================================================================== *)

Lemma hole_inv_init (l : list Z) (i : Z) :
  sorted_on l 0 i -> hole_inv l i i (zth l i).
Proof.
  intros Hs. split.
  - intros p q Hp Hpq Hq Hpi Hqi. apply Hs; lia.
  - intros q Hq. lia.
Qed.

Lemma hole_inv_shift (a : list Z) (h i key : Z) :
  0 < h <= i -> i < zlen a -> key < zth a (h - 1) ->
  hole_inv a h i key -> hole_inv (upd a h (zth a (h - 1))) (h - 1) i key.
Proof.
  intros Hh Hi Hk [H1 H2]. split.
  - intros p q Hp Hpq Hq Hph Hqh. rewrite !zth_upd by lia.
    destruct (Z.eqb_spec p h); destruct (Z.eqb_spec q h); subst;
      first [lia | apply H1; lia].
  - intros q Hq. rewrite zth_upd by lia.
    destruct (Z.eqb_spec q h); [lia | apply H2; lia].
Qed.

Lemma hole_inv_close (a : list Z) (h i key : Z) :
  0 <= h <= i -> i < zlen a -> (h = 0 \/ zth a (h - 1) <= key) ->
  hole_inv a h i key -> sorted_on (upd a h key) 0 (i + 1).
Proof.
  intros Hh Hi Hk [H1 H2] p q Hp Hpq Hq. rewrite !zth_upd by lia.
  destruct (Z.eqb_spec p h) as [Ep|Np]; destruct (Z.eqb_spec q h) as [Eq|Nq]; try lia.
  - specialize (H2 q ltac:(lia)). lia.
  - destruct Hk as [Hk|Hk]; [lia|].
    destruct (Z.eq_dec p (h - 1)) as [->|Hne]; [exact Hk|].
    specialize (H1 p (h - 1) ltac:(lia) ltac:(lia) ltac:(lia) ltac:(lia) ltac:(lia)). lia.
  - apply H1; lia.
Qed.

Lemma insertionSort_sorted (l : list Z) (m : Mem) :
  arr m = nums l ->
  wp (insertionSort true)
     (fun o _ m' => sorted_mem l m' /\ exists o' s, o = o' ++ [s] /\ array s = arr m') m.
Proof.
  intros Ha. unfold insertionSort. wp_step. wp_step. cbv beta.
  rewrite Ha, len_nums.
  apply wp_then_yield.
  apply (wp_for_up _ _ _ _
           (fun i _ _ m' =>
              exists l1, arr m' = nums l1 /\ Permutation l1 l /\ sorted_on l1 0 i)).
  - exists l. split; [exact Ha|]. split; [reflexivity|].
    intros i j Hi Hij Hj. replace j with i by lia. lia.
  - intros i o prev m1 Hi (l1 & Ha1 & Hp1 & Hs).
    assert (Hlen : zlen l1 = zlen l) by (apply perm_zlen; exact Hp1).
    wp_step. wp_step. cbv beta. rewrite Ha1, get_nums by lia.
    set (key := zth l1 i).
    wp_step.
    apply (wp_while_inv _ _
             (fun _ '(j, _) m' =>
                exists a, arr m' = nums a /\ zlen a = zlen l /\ -1 <= j < i /\
                          Permutation (upd a (j + 1) key) l /\ hole_inv a (j + 1) i key)
             (fun '(j, _) _ => j + 1)).
    + exists l1. split; [exact Ha1|]. split; [exact Hlen|]. split; [lia|].
      replace (i - 1 + 1) with i by lia. split.
      * unfold key. rewrite upd_same by lia. exact Hp1.
      * apply hole_inv_init. exact Hs.
    + lia.
    + intros o1 [j pr] m2 (a & Ha2 & Hla & Hj & Hpa & Hinv) Hc.
      apply andb_prop in Hc. destruct Hc as [Hj0 Hgt].
      apply Z.geb_le in Hj0.
      rewrite Ha2, get_nums in Hgt by lia. cbn [js_gt js_lt] in Hgt.
      apply Z.ltb_lt in Hgt.
      wp_steps. rewrite Ha2, get_nums by lia.
      split; [|lia].
      replace (j - 1 + 1) with j by lia.
      exists (upd a (j + 1) (zth a j)).
      split; [apply set_nums; lia|]. split; [rewrite zlen_upd; exact Hla|].
      split; [lia|]. split.
      * rewrite hole_move by lia.
        eapply Permutation_trans; [apply swapz_perm; rewrite zlen_upd; lia | exact Hpa].
      * pose proof (hole_inv_shift a (j + 1) i key) as Hsh.
        replace (j + 1 - 1) with j in Hsh by lia.
        apply Hsh; [lia | lia | exact Hgt | exact Hinv].
    + intros o1 [j pr] m2 (a & Ha2 & Hla & Hj & Hpa & Hinv) Hc.
      wp_steps. rewrite Ha2.
      exists (upd a (j + 1) key). split; [apply set_nums; lia|].
      split; [exact Hpa|].
      apply hole_inv_close; try lia; [|exact Hinv].
      destruct (Z.eq_dec j (-1)) as [->|Hne]; [left; reflexivity|right].
      replace (j + 1 - 1) with j by lia.
      apply andb_false_iff in Hc. destruct Hc as [Hc|Hc].
      * rewrite Z.geb_leb in Hc. apply Z.leb_gt in Hc. lia.
      * rewrite Ha2, get_nums in Hc by lia. cbn [js_gt js_lt] in Hc.
        apply Z.ltb_ge in Hc. exact Hc.
  - intros o prev m1 (l1 & Ha1 & Hp1 & Hs).
    exists l1. split; [exact Ha1|]. split; [exact Hp1|].
    rewrite (perm_zlen _ _ Hp1).
    intros i j Hi Hij Hj.
    destruct (Z.le_gt_cases (zlen l) 1).
    + replace j with i by lia. lia.
    + apply Hs; lia.
Qed.

(* ================================================================== *)
(** * Binary insertion sort *)
(* ================================================================== *)

Lemma half_between (lo hi : Z) : lo <= hi -> lo <= (lo + hi) / 2 <= hi.
Proof.
  intros H. pose proof (Z.div_mod (lo + hi) 2 ltac:(lia)).
  pose proof (Z.mod_pos_bound (lo + hi) 2 ltac:(lia)). lia.
Qed.

(** The binary search leaves the array alone and returns the position
    that splits the sorted head at the key. *)
Lemma binary_search (l1 : list Z) (i key : Z) (prev : list Z) (m : Mem) :
  arr m = nums l1 -> 1 <= i < zlen l1 -> sorted_on l1 0 i ->
  wp (while_ (Z.to_nat (i - 1 + 1))
        (fun '(left_, right_, _) _ => left_ <=? right_)
        (fun '(left_, right_, insertIndex) =>
           inc_comparisons ;;
           let mid := (left_ + right_) / 2 in
           when true (yield_step (Some prev) (Some [mid; i])) ;;
           am <- rd mid ;;
           if js_gt am (Num key) then ret (left_, mid - 1, mid)
           else ret (mid + 1, right_, insertIndex))
        (0, i - 1, i))
     (fun _ '(_, _, ins) m' =>
        arr m' = nums l1 /\ 0 <= ins <= i /\
        (forall p, 0 <= p < ins -> zth l1 p <= key) /\
        (forall q, ins <= q < i -> key < zth l1 q)) m.
Proof.
  intros Ha Hi Hs.
  apply (wp_while_inv _ _
           (fun _ '(le, ri, ins) m' =>
              arr m' = nums l1 /\ 0 <= le <= ri + 1 /\ ri < i /\ ins = ri + 1 /\
              (forall p, 0 <= p < le -> zth l1 p <= key) /\
              (forall q, ins <= q < i -> key < zth l1 q))
           (fun '(le, ri, _) _ => ri - le + 1)).
  - split; [exact Ha|]. repeat split; try lia; intros; lia.
  - lia.
  - intros o [[le ri] ins] m1 (Ha1 & Hle & Hri & Hins & Hlo & Hhi) Hc.
    apply Z.leb_le in Hc.
    pose proof (half_between le ri Hc) as Hmid.
    cbv zeta. wp_steps. rewrite Ha1, get_nums by lia. cbn [js_gt js_lt].
    destruct (Z.ltb_spec key (zth l1 ((le + ri) / 2))) as [Hgt|Hle'].
    + wp_steps. split; [|lia]. split; [reflexivity|].
      split; [lia|]. split; [lia|]. split; [lia|]. split; [exact Hlo|].
      intros q Hq. specialize (Hs ((le + ri) / 2) q ltac:(lia) ltac:(lia) ltac:(lia)). lia.
    + wp_steps. split; [|lia]. split; [reflexivity|].
      split; [lia|]. split; [lia|]. split; [lia|]. split; [|exact Hhi].
      intros p Hp. specialize (Hs p ((le + ri) / 2) ltac:(lia) ltac:(lia) ltac:(lia)). lia.
  - intros o [[le ri] ins] m1 (Ha1 & Hle & Hri & Hins & Hlo & Hhi) Hc.
    apply Z.leb_gt in Hc.
    split; [exact Ha1|]. split; [lia|]. split; [|exact Hhi].
    intros p Hp. apply Hlo. lia.
Qed.

(** Shifting [ins .. i-1] one place up moves the hole from [i] to [ins]. *)
Lemma binary_shift (l l1 : list Z) (i ins key : Z) (prev : list Z) (m : Mem) :
  arr m = nums l1 -> 1 <= i < zlen l1 -> sorted_on l1 0 i -> key = zth l1 i ->
  Permutation l1 l -> 0 <= ins <= i ->
  (forall q, ins <= q < i -> key < zth l1 q) ->
  wp (for_down_ge (i - 1) ins (fun k _ =>
        ak <- rd k ;;
        wr (k + 1) ak ;;
        inc_swaps ;;
        ret [k; k + 1]) prev)
     (fun _ _ m' =>
        exists a, arr m' = nums a /\ zlen a = zlen l1 /\
                  Permutation (upd a ins key) l /\ hole_inv a ins i key /\
                  forall p, 0 <= p < ins -> zth a p = zth l1 p) m.
Proof.
  intros Ha Hi Hs Hkey Hp Hins Hhi.
  apply (wp_for_down_ge _ _ _ _
           (fun k _ _ m' =>
              exists a, arr m' = nums a /\ zlen a = zlen l1 /\
                        Permutation (upd a (k + 1) key) l /\ hole_inv a (k + 1) i key /\
                        forall p, 0 <= p < k + 1 -> zth a p = zth l1 p)).
  - exists l1. split; [exact Ha|]. split; [reflexivity|].
    replace (i - 1 + 1) with i by lia. split; [|split].
    + rewrite Hkey, upd_same by lia. exact Hp.
    + rewrite Hkey. apply hole_inv_init. exact Hs.
    + reflexivity.
  - intros k o acc m1 Hk (a & Ha1 & Hla & Hpa & Hinv & Hsame).
    wp_steps. rewrite Ha1, get_nums by lia.
    replace (k - 1 + 1) with k by lia.
    exists (upd a (k + 1) (zth a k)).
    split; [apply set_nums; lia|]. split; [rewrite zlen_upd; exact Hla|]. split; [|split].
    + rewrite hole_move by lia.
      eapply Permutation_trans; [apply swapz_perm; rewrite zlen_upd; lia | exact Hpa].
    + pose proof (hole_inv_shift a (k + 1) i key) as Hsh.
      replace (k + 1 - 1) with k in Hsh by lia.
      apply Hsh; [lia | lia | | exact Hinv].
      rewrite Hsame by lia. apply Hhi. lia.
    + intros p Hp0. rewrite zth_upd by lia.
      destruct (Z.eqb_spec p (k + 1)); [lia|]. apply Hsame. lia.
  - intros o acc m1 (a & Ha1 & Hla & Hpa & Hinv & Hsame).
    replace (Z.min (ins - 1) (i - 1) + 1) with ins in * by lia.
    exists a. auto.
Qed.

Lemma binaryInsertionSort_sorted (l : list Z) (m : Mem) :
  arr m = nums l ->
  wp (binaryInsertionSort true)
     (fun o _ m' => sorted_mem l m' /\ exists o' s, o = o' ++ [s] /\ array s = arr m') m.
Proof.
  intros Ha. unfold binaryInsertionSort. wp_step. wp_step. cbv beta.
  rewrite Ha, len_nums.
  apply wp_then_yield.
  apply (wp_for_up _ _ _ _
           (fun i _ _ m' =>
              exists l1, arr m' = nums l1 /\ Permutation l1 l /\ sorted_on l1 0 i)).
  - exists l. split; [exact Ha|]. split; [reflexivity|].
    intros i j Hi Hij Hj. replace j with i by lia. lia.
  - intros i o prev m1 Hi (l1 & Ha1 & Hp1 & Hs).
    assert (Hlen : zlen l1 = zlen l) by (apply perm_zlen; exact Hp1).
    wp_step. wp_step. cbv beta zeta. rewrite Ha1, get_nums by lia.
    wp_step.
    eapply wp_conseq; [apply (binary_search l1 i (zth l1 i) prev m1); auto; lia|].
    intros o1 [[le ri] ins] m2 (Ha2 & Hins & Hlo & Hhi). cbv beta.
    wp_step.
    eapply wp_conseq;
      [apply (binary_shift l l1 i ins (zth l1 i) prev m2); auto; lia|].
    intros o2 pr m3 (a & Ha3 & Hla & Hpa & Hinv & Hsame). cbv beta.
    wp_steps. rewrite Ha3.
    exists (upd a ins (zth l1 i)). split; [apply set_nums; lia|].
    split; [exact Hpa|].
    apply hole_inv_close; try lia; [|exact Hinv].
    destruct (Z.eq_dec ins 0) as [->|Hne]; [left; reflexivity|right].
    rewrite Hsame by lia. apply Hlo. lia.
  - intros o prev m1 (l1 & Ha1 & Hp1 & Hs).
    exists l1. split; [exact Ha1|]. split; [exact Hp1|].
    rewrite (perm_zlen _ _ Hp1).
    intros i j Hi Hij Hj.
    destruct (Z.le_gt_cases (zlen l) 1).
    + replace j with i by lia. lia.
    + apply Hs; lia.
Qed.

(* ================================================================== *)
(** * Gnome sort *)
(* ================================================================== *)

(** On two elements or more every round either steps forward or removes
    one inversion and steps back. *)
Lemma gnomeSort_sorted (l : list Z) (fuel : nat) (m : Mem) :
  arr m = nums l -> 2 <= zlen l -> (zlen l + 1) ^ 3 <= Z.of_nat fuel ->
  wp (gnomeSort fuel true)
     (fun o _ m' => sorted_mem l m' /\ exists o' s, o = o' ++ [s] /\ array s = arr m') m.
Proof.
  intros Ha Hn Hfuel. unfold gnomeSort.
  apply wp_then_terminal.
  apply (wp_while_inv _ _
           (fun _ index m' =>
              exists a, arr m' = nums a /\ Permutation a l /\ 0 <= index <= zlen l /\
                        sorted_on a 0 index)
           (fun index m' =>
              (zlen l + 1) * inversions (ints (arr m')) + (zlen l - index))).
  - exists l. split; [exact Ha|]. split; [reflexivity|]. split; [lia|].
    intros i j Hi Hij Hj. lia.
  - rewrite Ha, ints_nums.
    pose proof (inversions_bounds l).
    replace ((zlen l + 1) ^ 3) with ((zlen l + 1) * ((zlen l + 1) * (zlen l + 1))) in Hfuel
      by (change 3 with (Z.succ (Z.succ 1)); rewrite !Z.pow_succ_r, Z.pow_1_r by lia; ring).
    nia.
  - intros o index m1 (a & Ha1 & Hp1 & Hidx & Hs) Hc.
    assert (Hlen : zlen a = zlen l) by (apply perm_zlen; exact Hp1).
    rewrite Ha1, len_nums, Hlen in Hc. apply Z.ltb_lt in Hc.
    cbv zeta.
    set (ix := if index =? 0 then index + 1 else index).
    assert (Hix : 1 <= ix < zlen l /\ index <= ix /\ sorted_on a 0 ix).
    { unfold ix. destruct (Z.eqb_spec index 0) as [->|Hne].
      - split; [lia|]. split; [lia|]. intros i j Hi Hij Hj. replace j with i by lia. lia.
      - split; [lia|]. split; [lia | exact Hs]. }
    clearbody ix. destruct Hix as (Hix & Hle & Hsx).
    wp_steps. rewrite Ha1, !get_nums by lia. cbn [js_ge js_le].
    destruct (Z.leb_spec (zth a (ix - 1)) (zth a ix)) as [Hord|Hinv].
    + wp_steps. rewrite !ints_nums.
      split; [|split; [pose proof (inversions_bounds a); nia | lia]].
      exists a. split; [reflexivity|]. split; [exact Hp1|]. split; [lia|].
      apply sorted_on_snoc; auto.
    + wp_steps. rewrite swap_nums, !ints_nums by lia.
      rewrite (swapz_comm a ix (ix - 1)) by lia.
      pose proof (inversions_swapz_adjacent a (ix - 1)) as Hdec.
      replace (ix - 1 + 1) with ix in Hdec by lia.
      specialize (Hdec ltac:(lia) ltac:(lia) Hinv).
      split.
      * exists (swapz a (ix - 1) ix). split; [reflexivity|].
        split; [eapply Permutation_trans; [apply swapz_perm; lia | exact Hp1]|].
        split; [lia|].
        apply sorted_on_swapz_above; try lia.
        intros i j Hi Hij Hj. apply Hsx; lia.
      * rewrite Hdec. pose proof (inversions_bounds (swapz a (ix - 1) ix)) as Hb.
        rewrite Hdec in Hb. nia.
  - intros o index m1 (a & Ha1 & Hp1 & Hidx & Hs) Hc.
    assert (Hlen : zlen a = zlen l) by (apply perm_zlen; exact Hp1).
    rewrite Ha1, len_nums, Hlen in Hc. apply Z.ltb_ge in Hc.
    exists a. split; [exact Ha1|]. split; [exact Hp1|].
    rewrite Hlen. replace (zlen l) with index by lia. exact Hs.
Qed.

(* ================================================================== *)
(** * Odd-even sort and comb sort *)
(* ================================================================== *)

(** One pass of compare-and-exchange over the positions [lo], [lo + d],
    ... at distance [g], as odd-even sort ([d = 2], [g = 1]) and comb sort
    ([d = 1]) run it.  A pass that reports no exchange found every pair
    in order and left the array alone; at distance 1 every exchange
    removes an inversion. *)
Lemma exchange_pass (l a : list Z) (cnt : nat) (lo d g : Z) (s0 : bool) (m : Mem) :
  arr m = nums a -> Permutation a l -> 0 <= lo -> 0 < d -> 1 <= g ->
  (cnt = O \/ lo + (Z.of_nat cnt - 1) * d + g < zlen a) ->
  wp (for_ cnt lo d (fun i sorted =>
        b <- compare_exchange i (i + g) true ;;
        ret (if b then false else sorted)) s0)
     (fun _ s m' =>
        exists a', arr m' = nums a' /\ Permutation a' l /\
          (s = true -> s0 = true /\ a' = a /\
             forall t, 0 <= t < Z.of_nat cnt -> zth a (lo + t * d) <= zth a (lo + t * d + g)) /\
          (g = 1 -> inversions a' <= inversions a /\
             (s = false -> s0 = false \/ inversions a' < inversions a))) m.
Proof.
  intros Ha Hp Hlo Hd Hg Hrange.
  eapply wp_conseq.
  - apply (wp_for_gen d _
             (fun j _ s m' =>
                exists a', arr m' = nums a' /\ Permutation a' l /\
                  (s = true -> s0 = true /\ a' = a /\
                     forall t, 0 <= t -> lo + t * d < j ->
                               zth a (lo + t * d) <= zth a (lo + t * d + g)) /\
                  (g = 1 -> inversions a' <= inversions a /\
                     (s = false -> s0 = false \/ inversions a' < inversions a)))
             cnt lo [] s0 m).
    + exists a. split; [exact Ha|]. split; [exact Hp|]. split.
      * intros ->. split; [reflexivity|]. split; [reflexivity|]. intros t Ht Hlt. nia.
      * intros _. split; [lia|]. intros ->. left. reflexivity.
    + intros k o s m1 Hk (a1 & Ha1 & Hp1 & Htrue & Hinv).
      assert (Hlen : zlen a1 = zlen a).
      { rewrite (perm_zlen _ _ Hp1), (perm_zlen _ _ Hp). reflexivity. }
      assert (Hin : lo + Z.of_nat k * d + g < zlen a).
      { destruct Hrange as [->|Hr]; [lia|]. nia. }
      set (j := lo + Z.of_nat k * d) in *.
      assert (Hj : 0 <= j) by (unfold j; nia).
      wp_step.
      apply (wp_compare_exchange j (j + g) a1); [exact Ha1 | lia | lia | |].
      * intros o1 m2 Hlt Ha2. wp_steps.
        exists (swapz a1 j (j + g)). split; [exact Ha2|].
        split; [eapply Permutation_trans; [apply swapz_perm; lia | exact Hp1]|].
        split; [discriminate|].
        intros ->. specialize (Hinv eq_refl). destruct Hinv as [Hle Hs].
        rewrite inversions_swapz_adjacent by lia.
        split; [lia|]. intros _. right. lia.
      * intros o1 m2 Hle Ha2. wp_steps.
        exists a1. split; [exact Ha2|]. split; [exact Hp1|]. split; [|exact Hinv].
        intros ->. destruct (Htrue eq_refl) as (-> & -> & Hall).
        split; [reflexivity|]. split; [reflexivity|].
        intros t Ht Hlt.
        destruct (Z.eq_dec t (Z.of_nat k)) as [->|Hne]; [exact Hle|].
        apply Hall; [lia|]. unfold j. nia.
  - intros o s m1 (a1 & Ha1 & Hp1 & Htrue & Hinv). cbv beta.
    exists a1. split; [exact Ha1|]. split; [exact Hp1|]. split; [|exact Hinv].
    intros E. destruct (Htrue E) as (-> & -> & Hall).
    split; [reflexivity|]. split; [reflexivity|].
    intros t Ht. apply Hall; [lia | nia].
Qed.

Lemma half_count (n lo t : Z) :
  0 <= t -> lo + 2 * t + 1 < n -> t < Z.of_nat (Z.to_nat ((n - 1 - lo + 1) / 2)).
Proof.
  intros Ht Hlt.
  pose proof (Z.div_mod (n - 1 - lo + 1) 2 ltac:(lia)).
  pose proof (Z.mod_pos_bound (n - 1 - lo + 1) 2 ltac:(lia)). lia.
Qed.

Lemma half_range (n lo : Z) :
  let cnt := Z.to_nat ((n - 1 - lo + 1) / 2) in
  cnt = O \/ lo + (Z.of_nat cnt - 1) * 2 + 1 < n.
Proof.
  cbv zeta.
  pose proof (Z.div_mod (n - 1 - lo + 1) 2 ltac:(lia)).
  pose proof (Z.mod_pos_bound (n - 1 - lo + 1) 2 ltac:(lia)).
  destruct (Z.le_gt_cases ((n - 1 - lo + 1) / 2) 0); [left; lia | right; lia].
Qed.

Lemma oddEvenSort_sorted (l : list Z) (fuel : nat) (m : Mem) :
  arr m = nums l -> 2 * (zlen l * zlen l) + 1 <= Z.of_nat fuel ->
  wp (oddEvenSort fuel true)
     (fun o _ m' => sorted_mem l m' /\ exists o' s, o = o' ++ [s] /\ array s = arr m') m.
Proof.
  intros Ha Hfuel. unfold oddEvenSort. wp_step. wp_step. cbv beta.
  rewrite Ha, len_nums.
  apply wp_then_terminal.
  apply (wp_while_inv _ _
           (fun _ s m' =>
              exists a, arr m' = nums a /\ Permutation a l /\
                        (s = true -> sorted_on a 0 (zlen l)))
           (fun s m' => 2 * inversions (ints (arr m')) + (if s then 0 else 1))).
  - exists l. split; [exact Ha|]. split; [reflexivity | discriminate].
  - rewrite Ha, ints_nums. pose proof (inversions_bounds l). lia.
  - intros o s m1 (a & Ha1 & Hp1 & _) Hc.
    destruct s; [discriminate|]. clear Hc.
    assert (Hlen : zlen a = zlen l) by (apply perm_zlen; exact Hp1).
    rewrite Ha1, ints_nums.
    wp_step. unfold for_up2.
    eapply wp_conseq.
    { apply (exchange_pass l a _ 1 2 1 true m1 Ha1 Hp1); try lia.
      rewrite Hlen. apply half_range. }
    intros o1 s1 m2 (a1 & Ha2 & Hp2 & Ht1 & Hi1). cbv beta.
    specialize (Hi1 eq_refl). destruct Hi1 as [Hle1 Hlt1].
    eapply wp_conseq.
    { apply (exchange_pass l a1 _ 0 2 1 s1 m2 Ha2 Hp2); try lia.
      rewrite (perm_zlen _ _ Hp2). apply half_range. }
    intros o2 s2 m3 (a2 & Ha3 & Hp3 & Ht2 & Hi2). cbv beta.
    specialize (Hi2 eq_refl). destruct Hi2 as [Hle2 Hlt2].
    rewrite Ha3, ints_nums.
    pose proof (inversions_bounds a2).
    split.
    + exists a2. split; [reflexivity|]. split; [exact Hp3|].
      intros ->. destruct (Ht2 eq_refl) as (-> & -> & Heven).
      destruct (Ht1 eq_refl) as (_ & -> & Hodd).
      rewrite <- Hlen. apply sorted_on_adjacent. intros k Hk0 Hk1.
      destruct (Z.Even_or_Odd k) as [[t ->]|[t ->]].
      * specialize (Heven t). replace (0 + t * 2) with (2 * t) in Heven by lia.
        apply Heven. split; [lia|]. apply half_count; lia.
      * specialize (Hodd t). replace (1 + t * 2) with (2 * t + 1) in Hodd by lia.
        apply Hodd. split; [lia|]. apply half_count; lia.
    + destruct s2; [lia|].
      destruct (Hlt2 eq_refl) as [->|Hlt]; [|lia].
      destruct (Hlt1 eq_refl) as [Hf|Hlt]; [discriminate | lia].
  - intros o s m1 (a & Ha1 & Hp1 & Hs) Hc.
    destruct s; [|discriminate].
    exists a. split; [exact Ha1|]. split; [exact Hp1|].
    rewrite (perm_zlen _ _ Hp1). apply Hs. reflexivity.
Qed.

Lemma shrink_bounds (gap : Z) : 0 <= gap -> 0 <= shrink gap <= gap /\ (1 <= gap -> shrink gap < gap).
Proof.
  intros Hg. unfold shrink.
  pose proof (Z.div_mod (gap * 10) 13 ltac:(lia)).
  pose proof (Z.mod_pos_bound (gap * 10) 13 ltac:(lia)). lia.
Qed.

(** The gap shrinks until it is 1; from then on every pass with an
    exchange removes an inversion, and a pass without one ends the loop. *)
Lemma combSort_sorted (l : list Z) (fuel : nat) (m : Mem) :
  arr m = nums l ->
  (zlen l + 1) * (2 * (zlen l * zlen l) + 2) <= Z.of_nat fuel ->
  wp (combSort fuel true)
     (fun o _ m' => sorted_mem l m' /\ exists o' s, o = o' ++ [s] /\ array s = arr m') m.
Proof.
  intros Ha Hfuel. unfold combSort. wp_step. wp_step. cbv beta.
  rewrite Ha, len_nums.
  apply wp_then_terminal.
  set (n := zlen l) in *.
  set (K := 2 * (n * n) + 2) in *.
  assert (Hn : 0 <= n) by (unfold n, zlen; lia).
  apply (wp_while_inv _ _
           (fun _ '(gap, s) m' =>
              exists a, arr m' = nums a /\ Permutation a l /\ 0 <= gap <= Z.max 1 n /\
                        (s = true -> gap = 1 /\ sorted_on a 0 n))
           (fun '(gap, s) m' =>
              Z.max 0 (gap - 1) * K + 2 * inversions (ints (arr m')) + (if s then 0 else 1))).
  - exists l. split; [exact Ha|]. split; [reflexivity|]. split; [lia | discriminate].
  - rewrite Ha, ints_nums. pose proof (inversions_bounds l). fold n in H. unfold K in *. nia.
  - intros o [gap s] m1 (a & Ha1 & Hp1 & Hgap & _) Hc.
    destruct s; [discriminate|]. clear Hc.
    assert (Hlen : zlen a = n) by (apply perm_zlen; exact Hp1).
    rewrite Ha1, ints_nums.
    pose proof (inversions_bounds a) as Hia. rewrite Hlen in Hia.
    destruct (shrink_bounds gap ltac:(lia)) as [Hs0 Hs1].
    assert (HK : 0 <= Z.max 0 (gap - 1) * K) by (unfold K; nia).
    cbv zeta.
    destruct (Z.leb_spec (shrink gap) 1) as [Hsmall|Hbig].
    + wp_step. unfold for_up.
      eapply wp_conseq.
      { apply (exchange_pass l a _ 0 1 1 true m1 Ha1 Hp1); try lia. }
      intros o1 s1 m2 (a1 & Ha2 & Hp2 & Ht1 & Hi1). cbv beta.
      specialize (Hi1 eq_refl). destruct Hi1 as [Hle1 Hlt1].
      wp_steps. rewrite Ha2, ints_nums.
      pose proof (inversions_bounds a1).
      split.
      * exists a1. split; [reflexivity|]. split; [exact Hp2|]. split; [lia|].
        intros ->. destruct (Ht1 eq_refl) as (_ & -> & Hadj).
        split; [reflexivity|].
        apply sorted_on_adjacent. intros k Hk0 Hk1.
        specialize (Hadj k). replace (0 + k * 1) with k in Hadj by lia.
        apply Hadj. lia.
      * destruct s1; [lia|].
        destruct (Hlt1 eq_refl) as [Hf|Hlt]; [discriminate | lia].
    + wp_step. unfold for_up.
      eapply wp_conseq.
      { apply (exchange_pass l a _ 0 1 (shrink gap) false m1 Ha1 Hp1); try lia. }
      intros o1 s1 m2 (a1 & Ha2 & Hp2 & Ht1 & _). cbv beta.
      destruct s1; [destruct (Ht1 eq_refl) as [Hf _]; discriminate|].
      wp_steps. rewrite Ha2, ints_nums.
      pose proof (inversions_bounds a1) as Hia1.
      rewrite (perm_zlen _ _ Hp2) in Hia1. fold n in Hia1.
      split.
      * exists a1. split; [reflexivity|]. split; [exact Hp2|]. split; [lia | discriminate].
      * specialize (Hs1 ltac:(lia)). unfold K. nia.
  - intros o [gap s] m1 (a & Ha1 & Hp1 & Hgap & Hs) Hc.
    destruct s; [|discriminate].
    exists a. split; [exact Ha1|]. split; [exact Hp1|].
    rewrite (perm_zlen _ _ Hp1). apply Hs. reflexivity.
Qed.

(* ================================================================== *)
(** * Cocktail shaker sort *)
(* ================================================================== *)

Lemma head_done_swap (l : list Z) (h n i j : Z) :
  zlen l = n -> 0 <= h -> h <= i < n -> h <= j < n ->
  head_done l h n -> head_done (swapz l i j) h n.
Proof.
  intros Hn Hh Hi Hj [Hs Hr]. split.
  - intros a b Ha Hab Hb. rewrite !zth_swapz by lia.
    destruct (Z.eqb_spec a j); [lia|]. destruct (Z.eqb_spec a i); [lia|].
    destruct (Z.eqb_spec b j); [lia|]. destruct (Z.eqb_spec b i); [lia|].
    apply Hs; lia.
  - intros a b Ha Hb. rewrite !zth_swapz by lia.
    destruct (Z.eqb_spec a j); [lia|]. destruct (Z.eqb_spec a i); [lia|].
    destruct (Z.eqb_spec b j); [apply Hr; lia|].
    destruct (Z.eqb_spec b i); apply Hr; lia.
Qed.

Lemma three_parts_sorted (l : list Z) (s t n : Z) :
  head_done l s n -> sorted_on l s t -> tail_done l t n -> sorted_on l 0 n.
Proof.
  intros [Hhs Hhr] Hm [Hts Htr] i j Hi Hij Hj.
  destruct (Z.lt_ge_cases i s).
  - destruct (Z.lt_ge_cases j s); [apply Hhs; lia | apply Hhr; lia].
  - destruct (Z.lt_ge_cases j t); [apply Hm; lia|].
    destruct (Z.lt_ge_cases i t); [apply Htr; lia | apply Hts; lia].
Qed.

(** The forward pass over the window [s .. e] carries its greatest
    element to [e]. *)
Lemma cocktail_up (l a : list Z) (s e : Z) (m : Mem) :
  arr m = nums a -> Permutation a l -> 0 <= s <= e -> e < zlen l ->
  head_done a s (zlen l) -> tail_done a (e + 1) (zlen l) ->
  wp (for_up s e (fun i swapped =>
        b <- compare_exchange i (i + 1) true ;; ret (b || swapped)) false)
     (fun _ swapped m' =>
        exists a', arr m' = nums a' /\ Permutation a' l /\
                   head_done a' s (zlen l) /\ tail_done a' e (zlen l) /\
                   (swapped = false -> a' = a /\ sorted_on a s (e + 1))) m.
Proof.
  intros Ha Hp Hse He Hhd Htl.
  apply (wp_for_up _ _ _ _
           (fun j _ swapped m' =>
              exists a', arr m' = nums a' /\ Permutation a' l /\
                         head_done a' s (zlen l) /\ tail_done a' (e + 1) (zlen l) /\
                         (forall k, s <= k <= j -> zth a' k <= zth a' j) /\
                         (swapped = false -> a' = a /\ sorted_on a s (j + 1)))).
  - exists a. split; [exact Ha|]. split; [exact Hp|]. split; [exact Hhd|].
    split; [exact Htl|]. split.
    + intros k Hk. replace k with s by lia. lia.
    + intros _. split; [reflexivity|]. intros i j Hi Hij Hj. replace j with i by lia. lia.
  - intros j o swapped m1 Hj (a1 & Ha1 & Hp1 & Hhd1 & Htl1 & Hmax & Hsw).
    assert (Hlen : zlen a1 = zlen l) by (apply perm_zlen; exact Hp1).
    wp_step.
    apply (wp_compare_exchange j (j + 1) a1); [exact Ha1 | lia | lia | |].
    + intros o1 m2 Hlt Ha2. wp_steps.
      exists (swapz a1 j (j + 1)). split; [exact Ha2|].
      split; [eapply Permutation_trans; [apply swapz_perm; lia | exact Hp1]|].
      split; [apply head_done_swap; auto; lia|].
      split; [apply tail_done_swap; auto; lia|].
      split; [|discriminate].
      intros k Hk. rewrite !zth_swapz by lia.
      rewrite Z.eqb_refl.
      destruct (Z.eqb_spec k (j + 1)); [lia|].
      destruct (Z.eqb_spec k j); [lia|].
      specialize (Hmax k ltac:(lia)). lia.
    + intros o1 m2 Hle Ha2. wp_steps.
      exists a1. split; [exact Ha2|]. split; [exact Hp1|]. split; [exact Hhd1|].
      split; [exact Htl1|]. split.
      * intros k Hk. destruct (Z.eq_dec k (j + 1)) as [->|Hne]; [lia|].
        specialize (Hmax k ltac:(lia)). lia.
      * cbn [orb]. intros ->. destruct (Hsw eq_refl) as [-> Hs].
        split; [reflexivity|].
        apply sorted_on_adjacent. intros k Hk0 Hk1.
        destruct (Z.eq_dec k j) as [->|Hne]; [exact Hle|].
        apply Hs; lia.
  - intros o swapped m1 (a1 & Ha1 & Hp1 & Hhd1 & Htl1 & Hmax & Hsw).
    replace (Z.max s e) with e in * by lia.
    exists a1. split; [exact Ha1|]. split; [exact Hp1|]. split; [exact Hhd1|].
    split; [|exact Hsw].
    destruct Htl1 as [Hts Htr]. destruct Hhd1 as [Hhs Hhr]. split.
    + intros x y Hx Hxy Hy.
      destruct (Z.eq_dec x e) as [->|Hne]; [|apply Hts; lia].
      destruct (Z.eq_dec y e) as [->|Hny]; [lia | apply Htr; lia].
    + intros x y Hx Hy.
      destruct (Z.eq_dec y e) as [->|Hny]; [|apply Htr; lia].
      destruct (Z.lt_ge_cases x s); [apply Hhr; lia | apply Hmax; lia].
Qed.

(** The backward pass over the window [s .. e] carries its least element
    to [s]. *)
Lemma cocktail_down (l a : list Z) (s e : Z) (m : Mem) :
  arr m = nums a -> Permutation a l -> 0 <= s <= e -> e < zlen l ->
  head_done a s (zlen l) -> tail_done a (e + 1) (zlen l) ->
  wp (for_down_gt e s (fun i swapped =>
        b <- compare_exchange (i - 1) i true ;; ret (b || swapped)) false)
     (fun _ swapped m' =>
        exists a', arr m' = nums a' /\ Permutation a' l /\
                   head_done a' (s + 1) (zlen l) /\ tail_done a' (e + 1) (zlen l) /\
                   (swapped = false -> a' = a /\ sorted_on a s (e + 1))) m.
Proof.
  intros Ha Hp Hse He Hhd Htl.
  apply (wp_for_down_gt _ _ _ _
           (fun j _ swapped m' =>
              exists a', arr m' = nums a' /\ Permutation a' l /\
                         head_done a' s (zlen l) /\ tail_done a' (e + 1) (zlen l) /\
                         (forall k, j <= k <= e -> zth a' j <= zth a' k) /\
                         (swapped = false -> a' = a /\ sorted_on a j (e + 1)))).
  - exists a. split; [exact Ha|]. split; [exact Hp|]. split; [exact Hhd|].
    split; [exact Htl|]. split.
    + intros k Hk. replace k with e by lia. lia.
    + intros _. split; [reflexivity|]. intros i j Hi Hij Hj. replace j with i by lia. lia.
  - intros j o swapped m1 Hj (a1 & Ha1 & Hp1 & Hhd1 & Htl1 & Hmin & Hsw).
    assert (Hlen : zlen a1 = zlen l) by (apply perm_zlen; exact Hp1).
    wp_step.
    apply (wp_compare_exchange (j - 1) j a1); [exact Ha1 | lia | lia | |].
    + intros o1 m2 Hlt Ha2. wp_steps.
      exists (swapz a1 (j - 1) j). split; [exact Ha2|].
      split; [eapply Permutation_trans; [apply swapz_perm; lia | exact Hp1]|].
      split; [apply head_done_swap; auto; lia|].
      split; [apply tail_done_swap; auto; lia|].
      split; [|discriminate].
      intros k Hk. rewrite !zth_swapz by lia.
      destruct (Z.eqb_spec (j - 1) j); [lia|]. rewrite Z.eqb_refl.
      destruct (Z.eqb_spec k j); [lia|].
      destruct (Z.eqb_spec k (j - 1)); [lia|].
      specialize (Hmin k ltac:(lia)). lia.
    + intros o1 m2 Hle Ha2. wp_steps.
      exists a1. split; [exact Ha2|]. split; [exact Hp1|]. split; [exact Hhd1|].
      split; [exact Htl1|]. split.
      * intros k Hk. destruct (Z.eq_dec k (j - 1)) as [->|Hne]; [lia|].
        specialize (Hmin k ltac:(lia)). lia.
      * cbn [orb]. intros ->. destruct (Hsw eq_refl) as [-> Hs].
        split; [reflexivity|].
        apply sorted_on_adjacent. intros k Hk0 Hk1.
        destruct (Z.eq_dec k (j - 1)) as [->|Hne].
        -- replace (j - 1 + 1) with j by lia. exact Hle.
        -- apply Hs; lia.
  - intros o swapped m1 (a1 & Ha1 & Hp1 & Hhd1 & Htl1 & Hmin & Hsw).
    replace (Z.min s e) with s in * by lia.
    exists a1. split; [exact Ha1|]. split; [exact Hp1|]. split; [|split; [exact Htl1 | exact Hsw]].
    destruct Htl1 as [Hts Htr]. destruct Hhd1 as [Hhs Hhr]. split.
    + intros x y Hx Hxy Hy.
      destruct (Z.eq_dec y s) as [->|Hne]; [|apply Hhs; lia].
      destruct (Z.eq_dec x s) as [->|Hnx]; [lia | apply Hhr; lia].
    + intros x y Hx Hy.
      destruct (Z.eq_dec x s) as [->|Hnx]; [|apply Hhr; lia].
      destruct (Z.le_gt_cases y e); [apply Hmin; lia | apply Htr; lia].
Qed.

Lemma cocktailShakerSort_sorted (l : list Z) (m : Mem) :
  arr m = nums l ->
  wp (cocktailShakerSort true)
     (fun o _ m' => sorted_mem l m' /\ exists o' s, o = o' ++ [s] /\ array s = arr m') m.
Proof.
  intros Ha. unfold cocktailShakerSort. wp_step. wp_step. cbv beta.
  rewrite Ha, len_nums.
  apply wp_then_terminal.
  set (n := zlen l) in *.
  assert (Hn : 0 <= n) by (unfold n, zlen; lia).
  apply (wp_while_inv _ _
           (fun _ '(s, e, broke) m' =>
              exists a, arr m' = nums a /\ Permutation a l /\
                        0 <= s /\ e < n /\ s <= e + 1 /\
                        head_done a s n /\ tail_done a (e + 1) n /\
                        (broke = true -> sorted_on a 0 n))
           (fun '(s, e, broke) _ => if broke then 0 else Z.max 0 (e - s))).
  - exists l. split; [exact Ha|]. split; [reflexivity|].
    split; [lia|]. split; [lia|]. split; [lia|]. split; [|split; [|discriminate]].
    + split; [intros i j Hi Hij Hj; lia | intros x y Hx Hy; lia].
    + split; [intros i j Hi Hij Hj; lia | intros x y Hx Hy; lia].
  - lia.
  - intros o [[s e] broke] m1 (a & Ha1 & Hp1 & Hs & He & Hse & Hhd & Htl & _) Hc.
    apply andb_prop in Hc. destruct Hc as [Hlt Hb]. apply Z.ltb_lt in Hlt.
    destruct broke; [discriminate|]. clear Hb.
    wp_step.
    eapply wp_conseq; [apply (cocktail_up l a s e m1); auto; lia|].
    intros o1 sw1 m2 (a1 & Ha2 & Hp2 & Hhd1 & Htl1 & Hsw1). cbv beta.
    destruct sw1; cbn [negb].
    + cbv zeta. wp_step.
      eapply wp_conseq.
      { apply (cocktail_down l a1 s (e - 1) m2); auto; try lia.
        replace (e - 1 + 1) with e by lia. exact Htl1. }
      intros o2 sw2 m3 (a2 & Ha3 & Hp3 & Hhd2 & Htl2 & Hsw2). cbv beta.
      replace (e - 1 + 1) with e in * by lia.
      destruct sw2; cbn [negb].
      * wp_steps. split; [|lia].
        exists a2. split; [exact Ha3|]. split; [exact Hp3|].
        split; [lia|]. split; [lia|]. split; [lia|].
        replace (e - 1 + 1) with e by lia.
        split; [exact Hhd2|]. split; [exact Htl2 | discriminate].
      * wp_steps. split; [|lia].
        destruct (Hsw2 eq_refl) as [-> Hmid].
        exists a1. split; [exact Ha3|]. split; [exact Hp2|].
        split; [lia|]. split; [lia|]. split; [lia|].
        replace (e - 1 + 1) with e by lia.
        split; [exact Hhd1|]. split; [exact Htl1|]. intros _.
        apply (three_parts_sorted a1 s e); assumption.
    + wp_steps. split; [|lia].
      destruct (Hsw1 eq_refl) as [-> Hmid].
      exists a. split; [exact Ha2|]. split; [exact Hp1|].
      split; [lia|]. split; [lia|]. split; [lia|].
      split; [exact Hhd|]. split; [exact Htl|]. intros _.
      apply (three_parts_sorted a s (e + 1)); assumption.
  - intros o [[s e] broke] m1 (a & Ha1 & Hp1 & Hs & He & Hse & Hhd & Htl & Hbr) Hc.
    exists a. split; [exact Ha1|]. split; [exact Hp1|].
    rewrite (perm_zlen _ _ Hp1). fold n.
    destruct broke; [apply Hbr; reflexivity|].
    rewrite andb_true_r in Hc. apply Z.ltb_ge in Hc.
    apply (three_parts_sorted a s (e + 1)); [exact Hhd | | exact Htl].
    intros i j Hi Hij Hj. replace j with i by lia. lia.
Qed.

(* ================================================================== *)
(** * Quick sort *)
(* ================================================================== *)

Lemma window_kept_refl (a : list Z) (lo hi : Z) : window_kept a a lo hi.
Proof.
  split; [reflexivity|]. split; [reflexivity|]. intros k Hk. exists k. auto.
Qed.

Lemma window_kept_trans (a b c : list Z) (lo hi : Z) :
  0 <= lo -> window_kept a b lo hi -> window_kept b c lo hi -> window_kept a c lo hi.
Proof.
  intros Hlo (L1 & O1 & I1) (L2 & O2 & I2). split; [congruence|]. split.
  - intros k Hk0 Hk. rewrite O2, O1 by assumption. reflexivity.
  - intros k Hk. destruct (I2 k Hk) as (k1 & Hk1 & E1).
    destruct (I1 k1 Hk1) as (k2 & Hk2 & E2). exists k2. split; [exact Hk2 | congruence].
Qed.

Lemma window_kept_widen (a b : list Z) (lo hi lo' hi' : Z) :
  0 <= lo' <= lo -> hi <= hi' -> window_kept a b lo hi -> window_kept a b lo' hi'.
Proof.
  intros Hlo Hhi (L & O & I). split; [exact L|]. split.
  - intros k Hk0 Hk. apply O; lia.
  - intros k Hk. destruct (Z.lt_ge_cases k lo) as [Hl|Hl].
    + exists k. split; [lia|]. apply O; lia.
    + destruct (Z.lt_ge_cases hi k) as [Hh|Hh].
      * exists k. split; [lia|]. apply O; lia.
      * destruct (I k ltac:(lia)) as (k' & Hk' & E). exists k'. split; [lia | exact E].
Qed.

Lemma window_kept_swap (a : list Z) (lo hi i j : Z) :
  0 <= lo -> hi < zlen a -> lo <= i <= hi -> lo <= j <= hi ->
  window_kept a (swapz a i j) lo hi.
Proof.
  intros Hlo Hhi Hi Hj. split; [apply zlen_swapz|]. split.
  - intros k Hk0 Hk. rewrite zth_swapz by lia.
    destruct (Z.eqb_spec k j); [lia|]. destruct (Z.eqb_spec k i); [lia|]. reflexivity.
  - intros k Hk. rewrite zth_swapz by lia.
    destruct (Z.eqb_spec k j); [exists i; split; [lia | reflexivity]|].
    destruct (Z.eqb_spec k i); [exists j; split; [lia | reflexivity]|].
    exists k. split; [lia | reflexivity].
Qed.

(** Lomuto partition: the pivot ends at the returned position, nothing
    greater before it and nothing smaller or equal after it. *)
Lemma partition_spec (a : list Z) (low high : Z) (m : Mem) :
  arr m = nums a -> 0 <= low < high -> high < zlen a ->
  wp (partition low high true)
     (fun _ pi m' =>
        exists a', arr m' = nums a' /\ Permutation a' a /\ window_kept a a' low high /\
                   low <= pi <= high /\
                   (forall k, low <= k < pi -> zth a' k <= zth a' pi) /\
                   (forall k, pi < k <= high -> zth a' pi < zth a' k)) m.
Proof.
  intros Ha Hlow Hhigh. unfold partition.
  wp_step. wp_step. cbv beta. rewrite Ha, get_nums by lia.
  set (pivot := zth a high).
  wp_step.
  apply (wp_for_up _ _ _ _
           (fun j _ i m' =>
              exists a', arr m' = nums a' /\ Permutation a' a /\ window_kept a a' low high /\
                         low - 1 <= i < j /\ zth a' high = pivot /\
                         (forall k, low <= k <= i -> zth a' k <= pivot) /\
                         (forall k, i < k < j -> pivot < zth a' k))).
  - exists a. split; [exact Ha|]. split; [reflexivity|].
    split; [apply window_kept_refl|]. split; [lia|]. split; [reflexivity|].
    split; intros k Hk; lia.
  - intros j o i m1 Hj (a1 & Ha1 & Hp1 & Hw1 & Hi & Hpv & Hle & Hgt).
    assert (Hlen : zlen a1 = zlen a) by (apply perm_zlen; exact Hp1).
    wp_steps. rewrite Ha1, get_nums by lia. cbn [js_le].
    destruct (Z.leb_spec (zth a1 j) pivot) as [Hsmall|Hbig].
    + wp_steps. rewrite swap_nums by lia.
      exists (swapz a1 (i + 1) j). split; [reflexivity|].
      split; [eapply Permutation_trans; [apply swapz_perm; lia | exact Hp1]|].
      split.
      { eapply window_kept_trans; [lia | exact Hw1|].
        apply window_kept_swap; lia. }
      split; [lia|]. split; [|split].
      * rewrite zth_swapz by lia.
        destruct (Z.eqb_spec high j); [lia|]. destruct (Z.eqb_spec high (i + 1)); [lia|].
        exact Hpv.
      * intros k Hk. rewrite zth_swapz by lia.
        destruct (Z.eqb_spec k j) as [->|Hkj].
        -- destruct (Z.eq_dec (i + 1) j) as [<-|Hne]; [exact Hsmall | lia].
        -- destruct (Z.eqb_spec k (i + 1)); [exact Hsmall | apply Hle; lia].
      * intros k Hk. rewrite zth_swapz by lia.
        destruct (Z.eqb_spec k j) as [->|Hkj]; [apply Hgt; lia|].
        destruct (Z.eqb_spec k (i + 1)); [lia | apply Hgt; lia].
    + wp_steps.
      exists a1. split; [reflexivity|]. split; [exact Hp1|]. split; [exact Hw1|].
      split; [lia|]. split; [exact Hpv|]. split; [exact Hle|].
      intros k Hk. destruct (Z.eq_dec k j) as [->|Hne]; [exact Hbig | apply Hgt; lia].
  - intros o i m1 (a1 & Ha1 & Hp1 & Hw1 & Hi & Hpv & Hle & Hgt).
    replace (Z.max low high) with high in * by lia.
    assert (Hlen : zlen a1 = zlen a) by (apply perm_zlen; exact Hp1).
    wp_steps. rewrite Ha1, swap_nums by lia.
    exists (swapz a1 (i + 1) high). split; [reflexivity|].
    split; [eapply Permutation_trans; [apply swapz_perm; lia | exact Hp1]|].
    split.
    { eapply window_kept_trans; [lia | exact Hw1|].
      apply window_kept_swap; lia. }
    split; [lia|]. split.
    + intros k Hk. rewrite !zth_swapz by lia.
      destruct (Z.eqb_spec k high); [lia|]. destruct (Z.eqb_spec k (i + 1)); [lia|].
      destruct (Z.eqb_spec (i + 1) high) as [E|NE].
      * rewrite E, Hpv. apply Hle. lia.
      * rewrite Z.eqb_refl, Hpv. apply Hle. lia.
    + intros k Hk. rewrite !zth_swapz by lia.
      destruct (Z.eqb_spec (i + 1) high) as [E|NE]; [lia|].
      rewrite Z.eqb_refl, Hpv.
      destruct (Z.eqb_spec k high); [apply Hgt; lia|].
      destruct (Z.eqb_spec k (i + 1)); [lia | apply Hgt; lia].
Qed.

Lemma quickSortRecursive_sorted (fuel : nat) :
  forall (low high : Z) (a : list Z) (m : Mem),
    arr m = nums a -> 0 <= low -> high < zlen a -> high - low <= Z.of_nat fuel ->
    wp (quickSortRecursive fuel low high true)
       (fun o _ m' =>
          (exists a', arr m' = nums a' /\ Permutation a' a /\ window_kept a a' low high /\
                      sorted_on a' low (high + 1)) /\
          exists o' s, o = o' ++ [s] /\ array s = arr m') m.
Proof.
  induction fuel as [|fuel IH]; intros low high a m Ha Hlow Hhigh Hfuel;
    cbn [quickSortRecursive]; apply wp_then_terminal.
  - destruct (Z.ltb_spec low high); [lia|]. wp_steps.
    exists a. split; [exact Ha|]. split; [reflexivity|]. split; [apply window_kept_refl|].
    intros i j Hi Hij Hj. replace j with i by lia. lia.
  - destruct (Z.ltb_spec low high) as [Hlt|Hge].
    + wp_step.
      eapply wp_conseq; [apply (partition_spec a low high m Ha); lia|].
      intros o1 pi m1 (a1 & Ha1 & Hp1 & Hw1 & Hpi & Hle & Hgt). cbv beta.
      assert (Hlen1 : zlen a1 = zlen a) by (apply perm_zlen; exact Hp1).
      wp_step.
      eapply wp_conseq; [apply (IH low (pi - 1) a1 m1 Ha1); lia|].
      intros o2 [] m2 [(a2 & Ha2 & Hp2 & Hw2 & Hs2) _]. cbv beta.
      assert (Hlen2 : zlen a2 = zlen a) by (rewrite (perm_zlen _ _ Hp2); exact Hlen1).
      eapply wp_conseq; [apply (IH (pi + 1) high a2 m2 Ha2); lia|].
      intros o3 [] m3 [(a3 & Ha3 & Hp3 & Hw3 & Hs3) _]. cbv beta.
      exists a3. split; [exact Ha3|].
      split; [eapply Permutation_trans; [exact Hp3|];
              eapply Permutation_trans; [exact Hp2 | exact Hp1]|].
      split.
      { eapply window_kept_trans; [lia | exact Hw1|].
        eapply window_kept_trans; [lia| |].
        - apply (window_kept_widen a1 a2 low (pi - 1)); [lia | lia | exact Hw2].
        - apply (window_kept_widen a2 a3 (pi + 1) high); [lia | lia | exact Hw3]. }
      destruct Hw2 as (_ & O2 & I2). destruct Hw3 as (_ & O3 & I3).
      assert (Epi : zth a3 pi = zth a1 pi).
      { rewrite O3, O2 by lia. reflexivity. }
      assert (Elo : forall k, low <= k < pi -> zth a3 k = zth a2 k /\ zth a3 k <= zth a1 pi).
      { intros k Hk. rewrite O3 by lia. split; [reflexivity|].
        destruct (I2 k ltac:(lia)) as (k' & Hk' & ->). apply Hle. lia. }
      assert (Ehi : forall k, pi < k <= high -> zth a1 pi < zth a3 k).
      { intros k Hk. destruct (I3 k ltac:(lia)) as (k' & Hk' & ->).
        rewrite O2 by lia. apply Hgt. lia. }
      intros x y Hx Hxy Hy.
      destruct (Z.lt_trichotomy y pi) as [Hy1|[->|Hy1]].
      * destruct (Elo x ltac:(lia)) as [-> _]. destruct (Elo y ltac:(lia)) as [-> _].
        apply Hs2; lia.
      * destruct (Z.eq_dec x pi) as [->|Hne]; [lia|].
        rewrite Epi. apply Elo. lia.
      * destruct (Z.lt_trichotomy x pi) as [Hx1|[->|Hx1]].
        -- destruct (Elo x ltac:(lia)) as [_ H1]. specialize (Ehi y ltac:(lia)). lia.
        -- rewrite Epi. specialize (Ehi y ltac:(lia)). lia.
        -- apply Hs3; lia.
    + wp_steps.
      exists a. split; [exact Ha|]. split; [reflexivity|]. split; [apply window_kept_refl|].
      intros i j Hi Hij Hj. replace j with i by lia. lia.
Qed.

Lemma quickSort_sorted (l : list Z) (m : Mem) :
  arr m = nums l ->
  wp (quickSort true)
     (fun o _ m' => sorted_mem l m' /\ exists o' s, o = o' ++ [s] /\ array s = arr m') m.
Proof.
  intros Ha. unfold quickSort. wp_step. wp_step. cbv beta.
  rewrite Ha, len_nums.
  eapply wp_conseq; [apply (quickSortRecursive_sorted _ 0 (zlen l - 1) l m Ha); lia|].
  intros o [] m1 [(a1 & Ha1 & Hp1 & _ & Hs) Hlast]. cbv beta.
  split; [|exact Hlast].
  exists a1. split; [exact Ha1|]. split; [exact Hp1|].
  rewrite (perm_zlen _ _ Hp1). replace (zlen l) with (zlen l - 1 + 1) by lia. exact Hs.
Qed.

(* ================================================================== *)
(** * Shell sort *)
(* ================================================================== *)

(** One gapped insertion: a permutation always, and with gap 1 the
    insertion of insertion sort. *)
Lemma shell_insert (l a : list Z) (gap i : Z) (m : Mem) :
  arr m = nums a -> Permutation a l -> 1 <= gap <= i -> i < zlen l ->
  (gap = 1 -> sorted_on a 0 i) ->
  wp (temp <- rd i ;;
      j <- while_ (Z.to_nat i)
             (fun j m => (j >=? gap) && js_gt (get_idx (arr m) (j - gap)) temp)
             (fun j =>
                inc_comparisons ;;
                when true (yield_step (Some []) (Some [j; j - gap])) ;;
                a <- rd (j - gap) ;;
                wr j a ;;
                inc_swaps ;;
                when true (yield_step (Some [j; j - gap]) (Some [])) ;;
                ret (j - gap))
             i ;;
      wr j temp ;;
      when (true && negb (j =? i)) (yield_step (Some [j]) (Some [])))
     (fun _ _ m' =>
        exists a', arr m' = nums a' /\ Permutation a' l /\
                   (gap = 1 -> sorted_on a' 0 (i + 1))) m.
Proof.
  intros Ha Hp Hgap Hi Hs.
  assert (Hlen : zlen a = zlen l) by (apply perm_zlen; exact Hp).
  wp_step. wp_step. cbv beta. rewrite Ha, get_nums by lia.
  set (key := zth a i).
  wp_step.
  apply (wp_while_inv _ _
           (fun _ j m' =>
              exists b, arr m' = nums b /\ zlen b = zlen l /\ 0 <= j <= i /\
                        Permutation (upd b j key) l /\ (gap = 1 -> hole_inv b j i key))
           (fun j _ => j)).
  - exists a. split; [exact Ha|]. split; [exact Hlen|]. split; [lia|]. split.
    + unfold key. rewrite upd_same by lia. exact Hp.
    + intros Hg. apply hole_inv_init. apply Hs. exact Hg.
  - lia.
  - intros o j m1 (b & Hb & Hlb & Hj & Hpb & Hinv) Hc.
    apply andb_prop in Hc. destruct Hc as [Hjg Hgt]. apply Z.geb_le in Hjg.
    rewrite Hb, get_nums in Hgt by lia. cbn [js_gt js_lt] in Hgt. apply Z.ltb_lt in Hgt.
    wp_steps. rewrite Hb, get_nums by lia.
    split; [|lia].
    exists (upd b j (zth b (j - gap))).
    split; [apply set_nums; lia|]. split; [rewrite zlen_upd; exact Hlb|].
    split; [lia|]. split.
    + rewrite hole_move by lia.
      eapply Permutation_trans; [apply swapz_perm; rewrite zlen_upd; lia | exact Hpb].
    + intros ->. apply hole_inv_shift; [lia | lia | exact Hgt | apply Hinv; reflexivity].
  - intros o j m1 (b & Hb & Hlb & Hj & Hpb & Hinv) Hc.
    wp_step. wp_step. cbv beta. cbn [arr stats].
    apply wp_when; intros _.
    + wp_steps. rewrite Hb.
      exists (upd b j key). split; [apply set_nums; lia|]. split; [exact Hpb|].
      intros ->. apply hole_inv_close; [lia | lia | | apply Hinv; reflexivity].
      destruct (Z.eq_dec j 0) as [->|Hne]; [left; reflexivity | right].
      apply andb_false_iff in Hc. destruct Hc as [Hc|Hc].
      * rewrite Z.geb_leb in Hc. apply Z.leb_gt in Hc. lia.
      * rewrite Hb, get_nums in Hc by lia. cbn [js_gt js_lt] in Hc.
        apply Z.ltb_ge in Hc. exact Hc.
    + cbn [arr]. rewrite Hb.
      exists (upd b j key). split; [apply set_nums; lia|]. split; [exact Hpb|].
      intros ->. apply hole_inv_close; [lia | lia | | apply Hinv; reflexivity].
      destruct (Z.eq_dec j 0) as [->|Hne]; [left; reflexivity | right].
      apply andb_false_iff in Hc. destruct Hc as [Hc|Hc].
      * rewrite Z.geb_leb in Hc. apply Z.leb_gt in Hc. lia.
      * rewrite Hb, get_nums in Hc by lia. cbn [js_gt js_lt] in Hc.
        apply Z.ltb_ge in Hc. exact Hc.
Qed.

Lemma shellSort_sorted (l : list Z) (m : Mem) :
  arr m = nums l ->
  wp (shellSort true)
     (fun o _ m' => sorted_mem l m' /\ exists o' s, o = o' ++ [s] /\ array s = arr m') m.
Proof.
  intros Ha. unfold shellSort. wp_step. wp_step. cbv beta.
  rewrite Ha, len_nums.
  apply wp_then_terminal.
  set (n := zlen l) in *.
  assert (Hn : 0 <= n) by (unfold n, zlen; lia).
  assert (Hhalf : forall g, 0 <= g -> 0 <= g / 2 /\ (1 <= g -> g / 2 < g) /\ (g / 2 = 0 -> g <= 1)).
  { intros g Hg. pose proof (Z.div_mod g 2 ltac:(lia)).
    pose proof (Z.mod_pos_bound g 2 ltac:(lia)). lia. }
  apply (wp_while_inv _ _
           (fun _ gap m' =>
              exists a, arr m' = nums a /\ Permutation a l /\ 0 <= gap /\
                        (gap = 0 -> sorted_on a 0 n))
           (fun gap _ => gap)).
  - exists l. split; [exact Ha|]. split; [reflexivity|].
    destruct (Hhalf n Hn) as (H0 & H1 & H2). split; [exact H0|].
    intros E. specialize (H2 E). intros i j Hi Hij Hj. replace j with i by lia. lia.
  - destruct (Hhalf n Hn) as (H0 & H1 & H2). lia.
  - intros o gap m1 (a & Ha1 & Hp1 & Hg0 & _) Hc.
    rewrite Z.gtb_ltb in Hc. apply Z.ltb_lt in Hc.
    destruct (Hhalf gap Hg0) as (H0 & H1 & H2).
    wp_step.
    apply (wp_for_up _ _ _ _
             (fun i _ _ m' =>
                exists a', arr m' = nums a' /\ Permutation a' l /\
                           (gap = 1 -> sorted_on a' 0 i))).
    + exists a. split; [exact Ha1|]. split; [exact Hp1|].
      intros ->. intros i j Hi Hij Hj. replace j with i by lia. lia.
    + intros i o1 [] m2 Hi (a1 & Ha2 & Hp2 & Hs).
      apply (shell_insert l a1 gap i m2 Ha2 Hp2); [lia | lia | exact Hs].
    + intros o1 [] m2 (a1 & Ha2 & Hp2 & Hs). wp_steps.
      split; [|lia].
      exists a1. split; [exact Ha2|]. split; [exact Hp2|]. split; [lia|].
      intros E. assert (gap = 1) as -> by lia.
      intros i j Hi Hij Hj.
      destruct (Z.le_gt_cases n 1); [replace j with i by lia; lia|].
      apply Hs; [reflexivity | lia | lia | lia].
  - intros o gap m1 (a & Ha1 & Hp1 & Hg0 & Hs) Hc.
    rewrite Z.gtb_ltb in Hc. apply Z.ltb_ge in Hc.
    exists a. split; [exact Ha1|]. split; [exact Hp1|].
    rewrite (perm_zlen _ _ Hp1). apply Hs. lia.
Qed.

(* ================================================================== *)
(** * Heap sort *)
(* ================================================================== *)

(** The choice of [largest] among a node and its children. *)
Lemma heap_largest (a : list Z) (n i : Z) :
  0 <= i < n -> n <= zlen a ->
  let left_ := 2 * i + 1 in
  let right_ := 2 * i + 2 in
  let al := get_idx (nums a) left_ in
  let ai := get_idx (nums a) i in
  let largest := if (left_ <? n) && js_gt al ai then left_ else i in
  let ar := get_idx (nums a) right_ in
  let ag := get_idx (nums a) largest in
  let largest := if (right_ <? n) && js_gt ar ag then right_ else largest in
  (largest = i \/ (largest = 2 * i + 1 \/ largest = 2 * i + 2) /\ largest < n /\
                  zth a i < zth a largest) /\
  zth a i <= zth a largest /\
  (2 * i + 1 < n -> zth a (2 * i + 1) <= zth a largest) /\
  (2 * i + 2 < n -> zth a (2 * i + 2) <= zth a largest).
Proof.
  intros Hi Hn. cbv zeta.
  destruct (Z.ltb_spec (2 * i + 1) n) as [HL|HL]; cbn [andb].
  - rewrite (get_nums a (2 * i + 1)), (get_nums a i) by lia. cbn [js_gt js_lt].
    destruct (Z.ltb_spec (zth a i) (zth a (2 * i + 1))) as [H1|H1].
    + destruct (Z.ltb_spec (2 * i + 2) n) as [HR|HR]; cbn [andb].
      * rewrite (get_nums a (2 * i + 2)), (get_nums a (2 * i + 1)) by lia. cbn [js_gt js_lt].
        destruct (Z.ltb_spec (zth a (2 * i + 1)) (zth a (2 * i + 2))) as [H2|H2];
          (split; [right; lia|]); lia.
      * (split; [right; lia|]); lia.
    + destruct (Z.ltb_spec (2 * i + 2) n) as [HR|HR]; cbn [andb].
      * rewrite (get_nums a (2 * i + 2)), (get_nums a i) by lia. cbn [js_gt js_lt].
        destruct (Z.ltb_spec (zth a i) (zth a (2 * i + 2))) as [H2|H2].
        -- (split; [right; lia|]); lia.
        -- (split; [left; reflexivity|]); lia.
      * (split; [left; reflexivity|]); lia.
  - destruct (Z.ltb_spec (2 * i + 2) n) as [HR|HR]; cbn [andb]; [lia|].
    (split; [left; reflexivity|]); lia.
Qed.

(** Sifting down at [i] restores the heap order below [lo]. *)
Lemma heapify_spec (fuel : nat) :
  forall (n i lo : Z) (a : list Z) (m : Mem),
    arr m = nums a -> 0 <= lo <= i -> i < n -> n <= zlen a -> n - i <= Z.of_nat fuel ->
    heap_but a n lo i ->
    wp (heapify fuel n i true)
       (fun _ _ m' =>
          exists a', arr m' = nums a' /\ Permutation a' a /\ window_kept a a' i (n - 1) /\
                     heap_ok a' n lo) m.
Proof.
  induction fuel as [|fuel IH]; intros n i lo a m Ha Hlo Hi Hn Hfuel [Hbut Hgrand]; [lia|].
  cbn [heapify]. cbv zeta. wp_steps. rewrite Ha.
  pose proof (heap_largest a n i ltac:(lia) Hn) as Hlg. cbv zeta in Hlg.
  match goal with
  | |- wp (if ?x =? i then _ else _) _ _ => set (lg := x) in *
  end.
  clearbody lg. destruct Hlg as (Hcase & Hge & HL & HR).
  destruct (Z.eqb_spec lg i) as [->|Hne].
  - wp_steps. exists a. split; [exact Ha|]. split; [reflexivity|].
    split; [apply window_kept_refl|].
    intros k c Hk Hc Hkc.
    destruct (Z.eq_dec k i) as [->|Hki]; [|apply Hbut; assumption].
    destruct Hkc as [->| ->]; [apply HL | apply HR]; exact Hc.
  - destruct Hcase as [Hc|(Hchild & Hlt & Hgt)]; [contradiction|].
    wp_steps. rewrite Ha, swap_nums by lia.
    eapply wp_conseq.
    { apply (IH n lg lo (swapz a i lg)); [reflexivity | lia | lia | | lia |].
      - rewrite zlen_swapz. exact Hn.
      - split.
        + intros k c Hk Hkl Hc Hkc. rewrite !zth_swapz by lia.
          destruct (Z.eqb_spec c lg) as [Ec|Nc].
          * assert (k = i) as -> by lia.
            destruct (Z.eqb_spec i lg); [lia|]. rewrite Z.eqb_refl. exact Hge.
          * destruct (Z.eqb_spec c i) as [Ei|Ni].
            -- subst c. destruct (Z.eqb_spec k lg); [lia|].
               destruct (Z.eqb_spec k i); [lia|].
               apply (Hgrand k lg); [lia | exact Hkc | exact Hchild | exact Hlt].
            -- destruct (Z.eqb_spec k lg); [lia|].
               destruct (Z.eqb_spec k i) as [->|Nk].
               ++ destruct Hkc as [->| ->]; [apply HL | apply HR]; exact Hc.
               ++ apply Hbut; assumption.
        + intros p c Hp Hpl Hcl Hc.
          assert (p = i) as -> by lia.
          rewrite !zth_swapz by lia.
          destruct (Z.eqb_spec c lg); [lia|]. destruct (Z.eqb_spec c i); [lia|].
          destruct (Z.eqb_spec i lg); [lia|]. rewrite Z.eqb_refl.
          specialize (Hbut lg c ltac:(lia) Hne Hc Hcl). lia. }
    intros o [] m1 (a2 & Ha2 & Hp2 & Hw2 & Hok). cbv beta.
    exists a2. split; [exact Ha2|].
    split; [eapply Permutation_trans; [exact Hp2 | apply swapz_perm; lia]|].
    split; [|exact Hok].
    eapply window_kept_trans; [lia | apply (window_kept_swap a i (n - 1) i lg); lia|].
    apply (window_kept_widen _ _ lg (n - 1)); [lia | lia | exact Hw2].
Qed.

Lemma heap_root_max (a : list Z) (n : Z) :
  heap_ok a n 0 -> forall k, 0 <= k < n -> zth a k <= zth a 0.
Proof.
  intros Hok.
  assert (G : forall d : nat, forall k, 0 <= k <= Z.of_nat d -> k < n -> zth a k <= zth a 0).
  { induction d as [|d IHd]; intros k Hk Hkn.
    - replace k with 0 by lia. lia.
    - destruct (Z.eq_dec k 0) as [->|Hne]; [lia|].
      pose proof (Z.div_mod (k - 1) 2 ltac:(lia)) as Hdm.
      pose proof (Z.mod_pos_bound (k - 1) 2 ltac:(lia)) as Hmb.
      set (p := (k - 1) / 2) in *.
      specialize (IHd p ltac:(lia) ltac:(lia)).
      specialize (Hok p k ltac:(lia) Hkn ltac:(lia)). lia. }
  intros k Hk. apply (G (Z.to_nat k)); lia.
Qed.

Lemma tail_done_window (a a' : list Z) (t n : Z) :
  0 <= t -> tail_done a t n -> window_kept a a' 0 (t - 1) -> tail_done a' t n.
Proof.
  intros Ht [Hs Hr] (L & O & I). split.
  - intros x y Hx Hxy Hy. rewrite !O by lia. apply Hs; lia.
  - intros x y Hx Hy. rewrite (O y) by lia.
    destruct (I x ltac:(lia)) as (x' & Hx' & ->). apply Hr; lia.
Qed.

Lemma heapSort_sorted (l : list Z) (m : Mem) :
  arr m = nums l ->
  wp (heapSort true)
     (fun o _ m' => sorted_mem l m' /\ exists o' s, o = o' ++ [s] /\ array s = arr m') m.
Proof.
  intros Ha. unfold heapSort. wp_step. wp_step. cbv beta.
  rewrite Ha, len_nums.
  set (n := zlen l) in *.
  assert (Hn : 0 <= n) by (unfold n, zlen; lia).
  assert (Hhalf : 2 * (n / 2) <= n < 2 * (n / 2) + 2).
  { pose proof (Z.div_mod n 2 ltac:(lia)). pose proof (Z.mod_pos_bound n 2 ltac:(lia)). lia. }
  wp_step.
  apply (wp_for_down_ge _ _ _ _
           (fun i _ _ m' =>
              exists a, arr m' = nums a /\ Permutation a l /\ heap_ok a n (i + 1))).
  - exists l. split; [exact Ha|]. split; [reflexivity|].
    intros k c Hk Hc Hkc. lia.
  - intros i o [] m1 Hi (a & Ha1 & Hp1 & Hok).
    assert (Hlen : zlen a = n) by (apply perm_zlen; exact Hp1).
    eapply wp_conseq.
    { apply (heapify_spec _ n i i a m1 Ha1); try lia.
      split.
      - intros k c Hk Hki Hc Hkc. apply Hok; [lia | exact Hc | exact Hkc].
      - intros p c Hp Hpi. lia. }
    intros o1 [] m2 (a2 & Ha2 & Hp2 & _ & Hok2). cbv beta.
    exists a2. split; [exact Ha2|].
    split; [eapply Permutation_trans; [exact Hp2 | exact Hp1]|].
    replace (i - 1 + 1) with i by lia. exact Hok2.
  - intros o [] m1 (a & Ha1 & Hp1 & Hok).
    replace (Z.min (0 - 1) (n / 2 - 1) + 1) with 0 in Hok by lia.
    cbn [app]. apply wp_then_terminal_after.
    apply (wp_for_down_gt _ _ _ _
             (fun i _ _ m' =>
                exists a, arr m' = nums a /\ Permutation a l /\
                          heap_ok a (i + 1) 0 /\ tail_done a (i + 1) n)).
    + exists a. split; [exact Ha1|]. split; [exact Hp1|].
      replace (n - 1 + 1) with n by lia. split; [exact Hok|].
      split; [intros x y Hx Hxy Hy; lia | intros x y Hx Hy; lia].
    + intros i o1 [] m2 Hi (a1 & Ha2 & Hp2 & Hok1 & Htl1).
      assert (Hlen : zlen a1 = n) by (apply perm_zlen; exact Hp2).
      pose proof (heap_root_max a1 (i + 1) Hok1) as Hmax.
      destruct Htl1 as [Hts Htr].
      wp_steps. rewrite Ha2, swap_nums by lia.
      eapply wp_conseq.
      { apply (heapify_spec _ i 0 0 (swapz a1 0 i)); [reflexivity | lia | lia | | lia |].
        - rewrite zlen_swapz. lia.
        - split.
          + intros k c Hk Hk0 Hc Hkc. rewrite !zth_swapz by lia.
            destruct (Z.eqb_spec c i); [lia|]. destruct (Z.eqb_spec c 0); [lia|].
            destruct (Z.eqb_spec k i); [lia|]. destruct (Z.eqb_spec k 0); [lia|].
            apply Hok1; [lia | lia | exact Hkc].
          + intros p c Hp Hp0. lia. }
      intros o2 [] m3 (a2 & Ha3 & Hp3 & Hw3 & Hok3). cbv beta.
      exists a2. split; [exact Ha3|].
      split.
      { eapply Permutation_trans; [exact Hp3|].
        eapply Permutation_trans; [apply swapz_perm; lia | exact Hp2]. }
      replace (i - 1 + 1) with i by lia. split; [exact Hok3|].
      apply (tail_done_window (swapz a1 0 i)); [lia| |exact Hw3].
      split.
      * intros x y Hx Hxy Hy. rewrite !zth_swapz by lia.
        destruct (Z.eqb_spec y i) as [->|Hyi].
        -- assert (x = i) as -> by lia. rewrite Z.eqb_refl. lia.
        -- destruct (Z.eqb_spec y 0); [lia|].
           destruct (Z.eqb_spec x i) as [->|Hxi]; [apply Htr; lia|].
           destruct (Z.eqb_spec x 0); [lia|]. apply Hts; lia.
      * intros x y Hx Hy. rewrite !zth_swapz by lia.
        destruct (Z.eqb_spec x i); [lia|].
        destruct (Z.eqb_spec y i) as [->|Hyi].
        -- destruct (Z.eqb_spec x 0); [apply Hmax; lia | apply Hmax; lia].
        -- destruct (Z.eqb_spec y 0); [lia|].
           destruct (Z.eqb_spec x 0); apply Htr; lia.
    + intros o1 [] m2 (a1 & Ha2 & Hp2 & Hok1 & Htl1).
      exists a1. split; [exact Ha2|]. split; [exact Hp2|].
      rewrite (perm_zlen _ _ Hp2). fold n.
      apply (tail_done_sorted a1 (Z.min 0 (n - 1) + 1)); [lia | exact Htl1].
Qed.

(* ================================================================== *)
(** * Merge sort *)
(* ================================================================== *)

Lemma zlen_app (p q : list Z) : zlen (p ++ q) = zlen p + zlen q.
Proof. unfold zlen. rewrite length_app. lia. Qed.

Lemma zth_app (p q : list Z) (t : Z) :
  0 <= t -> zth (p ++ q) t = if t <? zlen p then zth p t else zth q (t - zlen p).
Proof.
  unfold zth, zlen. intros Ht. destruct (Z.ltb_spec t (Z.of_nat (length p))).
  - apply app_nth1. lia.
  - rewrite app_nth2 by lia. f_equal. lia.
Qed.

Lemma zlen_sub (a : list Z) (x y : Z) :
  0 <= x <= y -> y <= zlen a -> zlen (sub a x y) = y - x.
Proof.
  unfold zlen, sub. intros Hx Hy. rewrite length_firstn, length_skipn. lia.
Qed.

Lemma zth_sub (a : list Z) (x y t : Z) :
  0 <= x -> 0 <= t < y - x -> zth (sub a x y) t = zth a (x + t).
Proof.
  unfold zth, sub. intros Hx Ht. rewrite nth_firstn, nth_skipn.
  destruct (Nat.ltb_spec (Z.to_nat t) (Z.to_nat (y - x))); [|lia].
  f_equal. lia.
Qed.

Lemma sub_nil (a : list Z) (x : Z) : sub a x x = [].
Proof. unfold sub. replace (x - x) with 0 by lia. reflexivity. Qed.

Lemma sub_snoc (a : list Z) (x y : Z) :
  0 <= x <= y -> y < zlen a -> sub a x (y + 1) = sub a x y ++ [zth a y].
Proof.
  intros Hx Hy. apply zth_ext.
  - rewrite zlen_app, !zlen_sub by lia. unfold zlen. cbn [length]. lia.
  - rewrite zlen_sub by lia. intros t Ht.
    rewrite zth_app, zlen_sub by lia. rewrite zth_sub by lia.
    destruct (Z.ltb_spec t (y - x)).
    + rewrite zth_sub by lia. reflexivity.
    + replace (t - (y - x)) with 0 by lia. replace (x + t) with y by lia. reflexivity.
Qed.

Lemma sub_app (a : list Z) (x y z : Z) :
  0 <= x <= y -> y <= z -> z <= zlen a -> sub a x z = sub a x y ++ sub a y z.
Proof.
  intros Hx Hy Hz. apply zth_ext.
  - rewrite zlen_app, !zlen_sub by lia. lia.
  - rewrite zlen_sub by lia. intros t Ht.
    rewrite zth_app, zlen_sub by lia. rewrite zth_sub by lia.
    destruct (Z.ltb_spec t (y - x)).
    + rewrite zth_sub by lia. reflexivity.
    + rewrite zth_sub by lia. f_equal. lia.
Qed.

Lemma sub_all (a : list Z) : sub a 0 (zlen a) = a.
Proof.
  apply zth_ext.
  - rewrite zlen_sub; unfold zlen; lia.
  - rewrite zlen_sub by (unfold zlen; lia). intros t Ht.
    rewrite zth_sub by lia. f_equal.
Qed.

Lemma nums_snoc (l : list Z) (x : Z) : nums l ++ [Num x] = nums (l ++ [x]).
Proof. unfold nums. rewrite map_app. reflexivity. Qed.

Lemma zth_snoc (mz : list Z) (x t : Z) :
  0 <= t <= zlen mz -> zth (mz ++ [x]) t = if t <? zlen mz then zth mz t else x.
Proof.
  intros Ht. rewrite zth_app by lia. destruct (Z.ltb_spec t (zlen mz)); [reflexivity|].
  replace (t - zlen mz) with 0 by lia. reflexivity.
Qed.

Lemma sorted_on_snoc_list (mz : list Z) (x : Z) :
  sorted_on mz 0 (zlen mz) -> (forall t, 0 <= t < zlen mz -> zth mz t <= x) ->
  sorted_on (mz ++ [x]) 0 (zlen (mz ++ [x])).
Proof.
  intros Hs Hx p q Hp Hpq Hq. rewrite zlen_app in Hq. change (zlen [x]) with 1 in Hq.
  rewrite !zth_snoc by lia.
  destruct (Z.ltb_spec p (zlen mz)); destruct (Z.ltb_spec q (zlen mz)); try lia.
  - apply Hs; lia.
  - apply Hx; lia.
Qed.

Lemma merge_inv_init (a : list Z) (left mid right : Z) :
  left <= mid -> mid < right -> merge_inv a left mid right left (mid + 1) [].
Proof.
  intros H1 H2. split; [lia|]. split; [lia|]. split; [unfold zlen; cbn; lia|].
  split; [rewrite !sub_nil; constructor|].
  split; [intros p q Hp Hpq Hq; unfold zlen in Hq; cbn in Hq; lia|].
  intros t Ht. unfold zlen in Ht. cbn in Ht. lia.
Qed.

Lemma merge_inv_left (a : list Z) (left mid right i j : Z) (mz : list Z) :
  0 <= left -> right < zlen a -> mid < right ->
  sorted_on a left (mid + 1) ->
  merge_inv a left mid right i j mz -> i <= mid ->
  (j <= right -> zth a i <= zth a j) ->
  merge_inv a left mid right (i + 1) j (mz ++ [zth a i]).
Proof.
  intros Hl Hr Hm Hsl (Hi & Hj & Hlen & Hp & Hs & Hb) Him Hij.
  split; [lia|]. split; [lia|].
  split; [rewrite zlen_app; change (zlen [zth a i]) with 1; lia|].
  split.
  { rewrite sub_snoc by lia. rewrite <- app_assoc. cbn [app].
    eapply Permutation_trans; [|apply Permutation_middle].
    eapply Permutation_trans; [apply Permutation_sym, Permutation_cons_append|].
    apply perm_skip. exact Hp. }
  split.
  { apply sorted_on_snoc_list; [exact Hs|]. intros t Ht. apply Hb; assumption. }
  intros t Ht. rewrite zlen_app in Ht. change (zlen [zth a i]) with 1 in Ht.
  rewrite zth_snoc by lia.
  destruct (Z.ltb_spec t (zlen mz)).
  - destruct (Hb t ltac:(lia)) as [B1 B2]. split.
    + intros Hi1. specialize (B1 Him).
      specialize (Hsl i (i + 1) ltac:(lia) ltac:(lia) ltac:(lia)). lia.
    + exact B2.
  - split.
    + intros Hi1. apply Hsl; lia.
    + exact Hij.
Qed.

Lemma merge_inv_right (a : list Z) (left mid right i j : Z) (mz : list Z) :
  0 <= left <= mid -> right < zlen a ->
  sorted_on a (mid + 1) (right + 1) ->
  merge_inv a left mid right i j mz -> j <= right ->
  (i <= mid -> zth a j <= zth a i) ->
  merge_inv a left mid right i (j + 1) (mz ++ [zth a j]).
Proof.
  intros Hl Hr Hsr (Hi & Hj & Hlen & Hp & Hs & Hb) Hjr Hji.
  split; [lia|]. split; [lia|].
  split; [rewrite zlen_app; change (zlen [zth a j]) with 1; lia|].
  split.
  { rewrite (sub_snoc a (mid + 1) j) by lia. rewrite app_assoc.
    apply Permutation_app_tail. exact Hp. }
  split.
  { apply sorted_on_snoc_list; [exact Hs|]. intros t Ht. apply Hb; assumption. }
  intros t Ht. rewrite zlen_app in Ht. change (zlen [zth a j]) with 1 in Ht.
  rewrite zth_snoc by lia.
  destruct (Z.ltb_spec t (zlen mz)).
  - destruct (Hb t ltac:(lia)) as [B1 B2]. split.
    + exact B1.
    + intros Hj1. specialize (B2 Hjr).
      specialize (Hsr j (j + 1) ltac:(lia) ltac:(lia) ltac:(lia)). lia.
  - split.
    + exact Hji.
    + intros Hj1. apply Hsr; lia.
Qed.

(** Writing the merged run back gives a permutation that is in order on
    the window and unchanged outside. *)
Lemma merge_result (a a' mz : list Z) (left mid right : Z) :
  0 <= left <= mid -> mid < right -> right < zlen a ->
  merge_inv a left mid right (mid + 1) (right + 1) mz ->
  zlen a' = zlen a ->
  (forall t, 0 <= t < zlen a ->
     zth a' t = if (left <=? t) && (t <=? right) then zth mz (t - left) else zth a t) ->
  Permutation a' a /\ frame a a' left right /\ sorted_on a' left (right + 1).
Proof.
  intros Hl Hm Hr (_ & _ & Hlen & Hp & Hs & _) Hla Hpt.
  rewrite <- sub_app in Hp by lia.
  split; [|split].
  - assert (Ea : a = sub a 0 left ++ sub a left (right + 1) ++ sub a (right + 1) (zlen a)).
    { rewrite <- !sub_app by lia. symmetry. apply sub_all. }
    assert (Ea' : a' = sub a 0 left ++ mz ++ sub a (right + 1) (zlen a)).
    { apply zth_ext.
      - rewrite !zlen_app, !zlen_sub by lia. lia.
      - rewrite Hla. intros t Ht. rewrite Hpt by lia.
        rewrite zth_app, zlen_sub by lia.
        destruct (Z.leb_spec left t); destruct (Z.ltb_spec t (left - 0)); try lia; cbn [andb].
        + rewrite zth_app by lia.
          destruct (Z.leb_spec t right); destruct (Z.ltb_spec (t - (left - 0)) (zlen mz));
            try lia.
          * f_equal. lia.
          * rewrite zth_sub by lia. f_equal. lia.
        + rewrite zth_sub by lia. f_equal. }
    apply (Permutation_trans
             (l' := sub a 0 left ++ sub a left (right + 1) ++ sub a (right + 1) (zlen a))).
    + rewrite Ea'. apply Permutation_app_head, Permutation_app_tail. exact Hp.
    + rewrite <- Ea. reflexivity.
  - split; [exact Hla|]. intros k Hk0 Hk.
    destruct (Z.lt_ge_cases k (zlen a)) as [Hin|Hout].
    + rewrite Hpt by lia.
      destruct (Z.leb_spec left k); destruct (Z.leb_spec k right); try lia; reflexivity.
    + unfold zth. rewrite !nth_overflow; [reflexivity | |]; unfold zlen in *; lia.
  - intros p q Hp0 Hpq Hq. rewrite !Hpt by lia.
    destruct (Z.leb_spec left p); [|lia]. destruct (Z.leb_spec p right); [|lia].
    destruct (Z.leb_spec left q); [|lia]. destruct (Z.leb_spec q right); [|lia].
    cbn [andb]. apply Hs; lia.
Qed.

Lemma unchanged_eq (a b : list Z) (left right : Z) :
  0 <= left -> right < zlen a -> frame a b left right ->
  changed_from (Z.to_nat (right + 1 - left)) left (nums b) (nums a) = [] -> b = a.
Proof.
  intros Hl Hr [Hlen Hout] Hch. apply zth_ext; [exact Hlen|].
  rewrite Hlen. intros t Ht.
  destruct (Z.lt_ge_cases t left); [apply Hout; lia|].
  destruct (Z.lt_ge_cases right t); [apply Hout; lia|].
  destruct (strict_neq (get_idx (nums b) t) (get_idx (nums a) t)) eqn:E.
  - assert (Hin : In t (changed_from (Z.to_nat (right + 1 - left)) left (nums b) (nums a))).
    { apply changed_from_In. split; [lia | exact E]. }
    rewrite Hch in Hin. destruct Hin.
  - unfold strict_neq in E. apply negb_false_iff in E. apply value_eqb_eq in E.
    rewrite !get_nums in E by lia. congruence.
Qed.

Lemma shows_last_of_all (o : list Step) (a : jsarray) (m : Mem) :
  o <> [] -> Forall (fun s => array s = a) o -> arr m = a -> shows_last o m.
Proof.
  intros Hne Hall Ha. destruct (exists_last Hne) as (o' & s & ->).
  exists o', s. split; [reflexivity|].
  apply Forall_app in Hall. destruct Hall as [_ Hs].
  inversion Hs; subst. congruence.
Qed.

(** [merge] on two adjacent sorted runs. *)
Lemma merge_sorted (a : list Z) (left mid right : Z) (m : Mem) :
  arr m = nums a -> 0 <= left <= mid -> mid < right -> right < zlen a ->
  sorted_on a left (mid + 1) -> sorted_on a (mid + 1) (right + 1) ->
  wp (merge left mid right true)
     (fun o _ m' =>
        exists a', arr m' = nums a' /\ Permutation a' a /\ frame a a' left right /\
                   sorted_on a' left (right + 1) /\ shows_last o m') m.
Proof.
  intros Ha Hl Hm Hr Hsl Hsr. unfold merge.
  wp_step. wp_step. cbv beta. wp_step.
  apply (wp_while_inv _ _
           (fun o '(i, j, merged) m' =>
              arr m' = nums a /\ Forall (fun s => array s = nums a) o /\
              (o = [] -> i = left /\ j = mid + 1) /\
              exists mz, merged = nums mz /\ merge_inv a left mid right i j mz)
           (fun '(i, j, _) _ => (mid + 1 - i) + (right + 1 - j))).
  - split; [exact Ha|]. split; [constructor|]. split; [auto|].
    exists []. split; [reflexivity|]. apply merge_inv_init; lia.
  - lia.
  - intros o [[i j] merged] m1 (Ha1 & Ho & Hol & mz & -> & Hinv) Hc.
    apply andb_prop in Hc. destruct Hc as [Hi Hj]. apply Z.leb_le in Hi, Hj.
    pose proof Hinv as (Bi & Bj & _).
    wp_steps. rewrite Ha1, !get_nums by lia. cbn [js_le].
    destruct (Z.leb_spec (zth a i) (zth a j)) as [Hle|Hgt]; wp_steps.
    + split; [|lia]. split; [reflexivity|].
      split; [apply Forall_app; split; [exact Ho | constructor; [reflexivity | constructor]]|].
      split; [intros E; apply app_eq_nil in E; destruct E; discriminate|].
      exists (mz ++ [zth a i]). split; [apply nums_snoc|].
      apply merge_inv_left; auto; lia.
    + split; [|lia]. split; [reflexivity|].
      split; [apply Forall_app; split; [exact Ho | constructor; [reflexivity | constructor]]|].
      split; [intros E; apply app_eq_nil in E; destruct E; discriminate|].
      exists (mz ++ [zth a j]). split; [apply nums_snoc|].
      apply merge_inv_right; auto; lia.
  - intros o [[i j] merged] m1 (Ha1 & Ho & Hol & mz & -> & Hinv) Hc.
    cbv beta iota.
    pose proof Hinv as (Bi & Bj & _).
    assert (Hone : o <> []).
    { intros E. destruct (Hol E) as [-> ->].
      apply andb_false_iff in Hc. destruct Hc as [Hc|Hc]; apply Z.leb_gt in Hc; lia. }
    assert (Hside : i <= mid -> j = right + 1).
    { intros Hi. apply andb_false_iff in Hc. destruct Hc as [Hc|Hc]; apply Z.leb_gt in Hc; lia. }
    wp_step.
    apply (wp_for_up _ _ _ _
             (fun i' o' mg m' =>
                o' = [] /\ m' = m1 /\
                exists mz', mg = nums mz' /\ merge_inv a left mid right i' j mz')).
    { split; [reflexivity|]. split; [reflexivity|]. exists mz. auto. }
    { intros i' o' mg m' Hi' (-> & -> & mz' & -> & Hinv').
      wp_steps. rewrite Ha1, get_nums by lia.
      split; [reflexivity|]. split; [reflexivity|].
      exists (mz' ++ [zth a i']). split; [apply nums_snoc|].
      apply merge_inv_left; auto; lia. }
    intros o1 mg1 m' (-> & -> & mz1 & -> & Hinv1).
    replace (Z.max i (mid + 1)) with (mid + 1) in Hinv1 by lia.
    wp_step.
    apply (wp_for_up _ _ _ _
             (fun j' o' mg m' =>
                o' = [] /\ m' = m1 /\
                exists mz', mg = nums mz' /\ merge_inv a left mid right (mid + 1) j' mz')).
    { split; [reflexivity|]. split; [reflexivity|]. exists mz1. auto. }
    { intros j' o' mg m' Hj' (-> & -> & mz' & -> & Hinv').
      wp_steps. rewrite Ha1, get_nums by lia.
      split; [reflexivity|]. split; [reflexivity|].
      exists (mz' ++ [zth a j']). split; [apply nums_snoc|].
      apply merge_inv_right; auto; lia. }
    intros o2 mg2 m' (-> & -> & mz2 & -> & Hinv2).
    replace (Z.max j (right + 1)) with (right + 1) in Hinv2 by lia.
    pose proof Hinv2 as (_ & _ & Hlen2 & _).
    wp_step.
    apply (wp_for_up _ _ _ _
             (fun k o' _ m' =>
                o' = [] /\ stats m' = stats m1 /\
                exists b, arr m' = nums b /\ zlen b = zlen a /\
                          forall t, 0 <= t < zlen a ->
                            zth b t = if (left <=? t) && (t <? k)
                                      then zth mz2 (t - left) else zth a t)).
    { split; [reflexivity|]. split; [reflexivity|].
      exists a. split; [exact Ha1|]. split; [reflexivity|].
      intros t Ht. destruct (Z.leb_spec left t); destruct (Z.ltb_spec t left); try lia;
        reflexivity. }
    { intros k o' [] m' Hk (-> & Hst & b & Hb & Hlb & Hpt).
      wp_steps. rewrite get_nums by lia. rewrite Hb, set_nums by lia.
      split; [reflexivity|]. split; [exact Hst|].
      exists (upd b k (zth mz2 (k - left))).
      split; [reflexivity|]. split; [rewrite zlen_upd; exact Hlb|].
      intros t Ht. rewrite zth_upd by lia.
      destruct (Z.eqb_spec t k) as [->|Hne].
      - destruct (Z.leb_spec left k); destruct (Z.ltb_spec k (k + 1)); try lia. reflexivity.
      - rewrite Hpt by lia.
        destruct (Z.leb_spec left t); destruct (Z.ltb_spec t k);
          destruct (Z.ltb_spec t (k + 1)); try lia; reflexivity. }
    intros o3 [] m2 (-> & Hst & b & Hb & Hlb & Hpt).
    replace (Z.max left (right + 1)) with (right + 1) in Hpt by lia.
    destruct (merge_result a b mz2 left mid right Hl Hm Hr Hinv2 Hlb) as (Hpb & Hfb & Hsb).
    { intros t Ht. rewrite Hpt by lia.
      destruct (Z.leb_spec left t); destruct (Z.ltb_spec t (right + 1));
        destruct (Z.leb_spec t right); try lia; reflexivity. }
    wp_step. wp_step. cbv beta zeta. cbn [andb].
    rewrite Hb, Ha.
    destruct (changed_from (Z.to_nat (right + 1 - left)) left (nums b) (nums a)) as [|c cs] eqn:E.
    + change (0 <? Z.of_nat (length (@nil Z))) with false. cbv iota.
      wp_steps. rewrite ?app_nil_r.
      exists b. split; [exact Hb|]. split; [exact Hpb|]. split; [exact Hfb|].
      split; [exact Hsb|].
      apply (shows_last_of_all o (nums a)); [exact Hone | exact Ho|].
      rewrite Hb. f_equal. apply (unchanged_eq a b left right); auto; lia.
    + replace (0 <? Z.of_nat (length (c :: cs))) with true
        by (symmetry; apply Z.ltb_lt; cbn [length]; lia).
      wp_steps. rewrite ?app_nil_r.
      exists b. split; [exact Hb|]. split; [exact Hpb|]. split; [exact Hfb|].
      split; [exact Hsb|].
      eexists _, _. split; [reflexivity | reflexivity].
Qed.

Lemma shows_last_app (o1 o2 : list Step) (m : Mem) :
  shows_last o2 m -> shows_last (o1 ++ o2) m.
Proof.
  intros (o' & s & -> & Hs). exists (o1 ++ o'), s. split; [apply app_assoc | exact Hs].
Qed.

Lemma frame_refl (a : list Z) (lo hi : Z) : frame a a lo hi.
Proof. split; reflexivity. Qed.

Lemma frame_trans (a b c : list Z) (lo hi lo' hi' : Z) :
  lo <= lo' -> hi' <= hi -> frame a b lo hi -> frame b c lo' hi' -> frame a c lo hi.
Proof.
  intros Hlo Hhi [L1 O1] [L2 O2]. split; [congruence|].
  intros k Hk0 Hk. rewrite O2, O1 by lia. reflexivity.
Qed.

Lemma mergeSortRecursive_sorted (fuel : nat) :
  forall (left right : Z) (a : list Z) (m : Mem),
    arr m = nums a -> 0 <= left -> right < zlen a -> right - left <= Z.of_nat fuel ->
    wp (mergeSortRecursive fuel left right true)
       (fun o _ m' =>
          exists a', arr m' = nums a' /\ Permutation a' a /\ frame a a' left right /\
                     sorted_on a' left (right + 1) /\ (left < right -> shows_last o m')) m.
Proof.
  induction fuel as [|fuel IH]; intros left right a m Ha Hl Hr Hfuel;
    cbn [mergeSortRecursive].
  - destruct (Z.ltb_spec left right); [lia|]. wp_steps.
    exists a. split; [exact Ha|]. split; [reflexivity|]. split; [apply frame_refl|].
    split; [|lia]. intros i j Hi Hij Hj. replace j with i by lia. lia.
  - destruct (Z.ltb_spec left right) as [Hlt|Hge].
    + cbv zeta.
      pose proof (Z.div_mod (left + right) 2 ltac:(lia)) as Hdm.
      pose proof (Z.mod_pos_bound (left + right) 2 ltac:(lia)) as Hmb.
      set (mid := (left + right) / 2) in *.
      wp_step.
      eapply wp_conseq; [apply (IH left mid a m Ha); lia|].
      intros o1 [] m1 (a1 & Ha1 & Hp1 & Hf1 & Hs1 & _). cbv beta.
      pose proof Hf1 as [Hlen1 Hout1].
      wp_step.
      eapply wp_conseq; [apply (IH (mid + 1) right a1 m1 Ha1); lia|].
      intros o2 [] m2 (a2 & Ha2 & Hp2 & Hf2 & Hs2 & _). cbv beta.
      pose proof Hf2 as [Hlen2 Hout2].
      eapply wp_conseq.
      { apply (merge_sorted a2 left mid right m2 Ha2); try lia; [|exact Hs2].
        intros x y Hx Hxy Hy. rewrite !Hout2 by lia. apply Hs1; lia. }
      intros o3 [] m3 (a3 & Ha3 & Hp3 & Hf3 & Hs3 & Hlast). cbv beta.
      exists a3. split; [exact Ha3|].
      split.
      { eapply Permutation_trans; [exact Hp3|].
        eapply Permutation_trans; [exact Hp2 | exact Hp1]. }
      split.
      { apply (frame_trans a a2 a3 left right left right); [lia | lia | | exact Hf3].
        apply (frame_trans a a1 a2 left right (mid + 1) right); [lia | lia | | exact Hf2].
        destruct Hf1 as [L O]. split; [exact L|]. intros k Hk0 Hk. apply O; lia. }
      split; [exact Hs3|].
      intros _. rewrite app_assoc. apply shows_last_app. exact Hlast.
    + wp_steps.
      exists a. split; [exact Ha|]. split; [reflexivity|]. split; [apply frame_refl|].
      split; [|lia]. intros i j Hi Hij Hj. replace j with i by lia. lia.
Qed.

(** On two elements or more; on fewer [mergeSort] yields nothing. *)
Lemma mergeSort_sorted (l : list Z) (m : Mem) :
  arr m = nums l -> 2 <= zlen l ->
  wp (mergeSort true)
     (fun o _ m' => sorted_mem l m' /\ exists o' s, o = o' ++ [s] /\ array s = arr m') m.
Proof.
  intros Ha Hn. unfold mergeSort. wp_step. wp_step. cbv beta.
  rewrite Ha, len_nums.
  eapply wp_conseq; [apply (mergeSortRecursive_sorted _ 0 (zlen l - 1) l m Ha); lia|].
  intros o [] m1 (a1 & Ha1 & Hp1 & _ & Hs & Hlast). cbv beta. cbn [app].
  split; [|apply Hlast; lia].
  exists a1. split; [exact Ha1|]. split; [exact Hp1|].
  rewrite (perm_zlen _ _ Hp1). replace (zlen l) with (zlen l - 1 + 1) by lia. exact Hs.
Qed.

(* ================================================================== *)
(** * Cycle sort *)
(* ================================================================== *)

Lemma count_lt_perm (x : Z) (l l' : list Z) :
  Permutation l l' -> count_lt x l = count_lt x l'.
Proof.
  induction 1; cbn [count_lt]; lia.
Qed.

Lemma iota_S (n : nat) : iota (S n) = iota n ++ [Z.of_nat n].
Proof. unfold iota. rewrite seq_S, map_app. reflexivity. Qed.

Lemma count_lt_iota (x : Z) (n : nat) :
  0 <= x -> count_lt x (iota n) = Z.min x (Z.of_nat n).
Proof.
  intros Hx. induction n as [|n IH]; [cbn; lia|].
  rewrite iota_S, count_lt_app, IH. cbn [count_lt].
  destruct (Z.ltb_spec (Z.of_nat n) x); lia.
Qed.

Lemma zth_iota (n : nat) (k : Z) : 0 <= k < Z.of_nat n -> zth (iota n) k = k.
Proof.
  intros Hk. unfold zth, iota.
  rewrite (nth_indep _ 0 (Z.of_nat 0)) by (rewrite length_map, length_seq; lia).
  rewrite map_nth, seq_nth by lia. lia.
Qed.

Lemma iota_NoDup (n : nat) : NoDup (iota n).
Proof.
  unfold iota. apply Injective_map_NoDup; [|apply seq_NoDup].
  intros x y H. lia.
Qed.

Lemma perm_iota_range (b : list Z) (n : nat) (k : Z) :
  Permutation b (iota n) -> 0 <= k < zlen b -> 0 <= zth b k < Z.of_nat n.
Proof.
  intros Hp Hk. unfold zlen in Hk.
  assert (Hin : In (zth b k) (iota n)).
  { apply (Permutation_in _ Hp). apply nth_In. lia. }
  apply in_map_iff in Hin. destruct Hin as (x & <- & Hx). apply in_seq in Hx. lia.
Qed.

Lemma perm_iota_inj (b : list Z) (n : nat) (i j : Z) :
  Permutation b (iota n) -> 0 <= i < zlen b -> 0 <= j < zlen b ->
  zth b i = zth b j -> i = j.
Proof.
  intros Hp Hi Hj E. unfold zlen in *.
  assert (Hnd : NoDup b) by (apply (Permutation_NoDup (Permutation_sym Hp)), iota_NoDup).
  pose proof (proj1 (NoDup_nth b 0) Hnd (Z.to_nat i) (Z.to_nat j) ltac:(lia) ltac:(lia) E).
  lia.
Qed.

(** With the positions before [c] final, the position the scan computes
    for [item] is [item] itself. *)
Lemma cycle_pos (n : nat) (a : list Z) (item c : Z) :
  zlen a = Z.of_nat n -> 0 <= c < Z.of_nat n -> cycle_inv n a item c ->
  c <= item < Z.of_nat n /\ c + count_lt item (sub a (c + 1) (Z.of_nat n)) = item.
Proof.
  intros Hlen Hc [Hp Hfix].
  set (b := upd a c item) in *.
  assert (Hlb : zlen b = Z.of_nat n) by (unfold b; rewrite zlen_upd; exact Hlen).
  assert (Hbc : zth b c = item) by (unfold b; apply zth_upd_same; lia).
  assert (Hbk : forall k, 0 <= k < c -> zth b k = k).
  { intros k Hk. unfold b. rewrite zth_upd_other by lia. apply Hfix. exact Hk. }
  pose proof (perm_iota_range b n c Hp ltac:(lia)) as Hrange. rewrite Hbc in Hrange.
  assert (Hge : c <= item).
  { destruct (Z.le_gt_cases c item) as [H|H]; [exact H|].
    assert (item = c); [|lia].
    apply (perm_iota_inj b n item c Hp); [lia | lia|].
    rewrite Hbk, Hbc by lia. reflexivity. }
  split; [lia|].
  assert (Eb : b = iota (Z.to_nat c) ++ [item] ++ sub a (c + 1) (Z.of_nat n)).
  { apply zth_ext.
    - rewrite !zlen_app, zlen_iota, zlen_sub by lia. change (zlen [item]) with 1. lia.
    - rewrite Hlb. intros t Ht.
      rewrite zth_app, zlen_iota by lia.
      destruct (Z.ltb_spec t (Z.of_nat (Z.to_nat c))).
      + rewrite zth_iota by lia. apply Hbk. lia.
      + rewrite zth_app by lia. change (zlen [item]) with 1.
        destruct (Z.ltb_spec (t - Z.of_nat (Z.to_nat c)) 1).
        * replace (t - Z.of_nat (Z.to_nat c)) with 0 by lia.
          replace t with c by lia. exact Hbc.
        * rewrite zth_sub by lia. unfold b. rewrite zth_upd_other by lia. f_equal. lia. }
  pose proof (count_lt_perm item _ _ Hp) as Hcount.
  rewrite count_lt_iota in Hcount by lia.
  rewrite Eb, !count_lt_app, count_lt_iota in Hcount by lia.
  cbn [count_lt] in Hcount. rewrite Z.ltb_irrefl in Hcount. lia.
Qed.

Lemma cycle_inv_start (n : nat) (a : list Z) (c : Z) :
  0 <= c < zlen a -> Permutation a (iota n) -> (forall k, 0 <= k < c -> zth a k = k) ->
  cycle_inv n a (zth a c) c.
Proof.
  intros Hc Hp Hfix. split; [|exact Hfix]. rewrite upd_same by lia. exact Hp.
Qed.

(** What [item] displaces is not [item]. *)
Lemma cycle_distinct (n : nat) (a : list Z) (item c : Z) :
  zlen a = Z.of_nat n -> 0 <= c < Z.of_nat n -> cycle_inv n a item c ->
  item <> c -> zth a item <> item.
Proof.
  intros Hlen Hc Hinv Hne E.
  destruct (cycle_pos n a item c Hlen Hc Hinv) as [Hr _].
  destruct Hinv as [Hp _].
  apply Hne. apply (perm_iota_inj (upd a c item) n item c Hp).
  - rewrite zlen_upd. lia.
  - rewrite zlen_upd. lia.
  - rewrite zth_upd_same, zth_upd_other by lia. exact E.
Qed.

Lemma cycle_inv_place (n : nat) (a : list Z) (item c : Z) :
  zlen a = Z.of_nat n -> 0 <= c < Z.of_nat n -> cycle_inv n a item c -> item <> c ->
  cycle_inv n (upd a item item) (zth a item) c.
Proof.
  intros Hlen Hc Hinv Hne.
  destruct (cycle_pos n a item c Hlen Hc Hinv) as [Hr _].
  destruct Hinv as [Hp Hfix]. split.
  - assert (E : upd (upd a item item) c (zth a item) = swapz (upd a c item) c item).
    { apply zth_ext; [rewrite zlen_swapz, !zlen_upd; reflexivity|].
      rewrite !zlen_upd. intros t Ht.
      rewrite zth_swapz by (rewrite ?zlen_upd; lia).
      rewrite !zth_upd by (rewrite ?zlen_upd; lia).
      destruct (Z.eqb_spec t c) as [->|Ntc].
      - destruct (Z.eqb_spec c item); [lia|].
        destruct (Z.eqb_spec item c); [lia | reflexivity].
      - destruct (Z.eqb_spec t item) as [->|Nti]; [|reflexivity].
        rewrite Z.eqb_refl. reflexivity. }
    rewrite E. eapply Permutation_trans; [apply swapz_perm; rewrite zlen_upd; lia | exact Hp].
  - intros k Hk. rewrite zth_upd_other by lia. apply Hfix. exact Hk.
Qed.

Lemma cycle_inv_close (n : nat) (a : list Z) (c : Z) :
  zlen a = Z.of_nat n -> 0 <= c < Z.of_nat n -> cycle_inv n a c c ->
  Permutation (upd a c c) (iota n) /\ forall k, 0 <= k < c + 1 -> zth (upd a c c) k = k.
Proof.
  intros Hlen Hc [Hp Hfix]. split; [exact Hp|].
  intros k Hk. rewrite zth_upd by lia.
  destruct (Z.eqb_spec k c); [lia | apply Hfix; lia].
Qed.

Lemma misplaced_bounds : forall l k, 0 <= misplaced k l <= zlen l.
Proof.
  unfold zlen. induction l as [|x l IH]; intros k; cbn [misplaced length]; [lia|].
  specialize (IH (k + 1)). destruct (x =? k); lia.
Qed.

Lemma misplaced_upd_at : forall l i k x,
  (i < length l)%nat -> nth i l 0 <> k + Z.of_nat i -> x = k + Z.of_nat i ->
  misplaced k (upd_at l i x) = misplaced k l - 1.
Proof.
  induction l as [|y l IH]; intros i k x Hi Hy Hx; [cbn in Hi; lia|].
  destruct i as [|i]; cbn [upd_at misplaced nth] in *.
  - destruct (Z.eqb_spec x k); [|lia]. destruct (Z.eqb_spec y k); lia.
  - rewrite (IH i (k + 1) x); [lia | cbn in Hi; lia | |]; lia.
Qed.

Lemma misplaced_place (a : list Z) (v : Z) :
  0 <= v < zlen a -> zth a v <> v -> misplaced 0 (upd a v v) = misplaced 0 a - 1.
Proof.
  unfold zlen, zth, upd. intros Hv Hne.
  apply misplaced_upd_at; lia.
Qed.

Lemma cycle_scan_spec (a : list Z) (c item : Z) (m : Mem) :
  arr m = nums a -> 0 <= c < zlen a ->
  wp (cycle_scan c (zlen a) (Num item) true)
     (fun _ pos m' =>
        arr m' = nums a /\ pos = c + count_lt item (sub a (c + 1) (zlen a))) m.
Proof.
  intros Ha Hc. unfold cycle_scan.
  apply (wp_for_up _ _ _ _
           (fun i _ pos m' =>
              arr m' = nums a /\ pos = c + count_lt item (sub a (c + 1) i))).
  - split; [exact Ha|]. rewrite sub_nil. cbn [count_lt]. lia.
  - intros i o pos m1 Hi (Ha1 & ->). cbv zeta. wp_steps.
    rewrite Ha1, get_nums by lia. cbn [js_lt].
    split; [reflexivity|].
    rewrite sub_snoc, count_lt_app by lia. cbn [count_lt].
    destruct (zth a i <? item); lia.
  - intros o pos m1 (Ha1 & ->).
    replace (Z.max (c + 1) (zlen a)) with (zlen a) by lia. auto.
Qed.

(** Every round of the inner loop puts one more element at its place. *)
Lemma cycleSort_sorted (l : list Z) (n fuel : nat) (m : Mem) :
  arr m = nums l -> Permutation l (iota n) -> (n <= fuel)%nat ->
  wp (cycleSort fuel true)
     (fun o _ m' => sorted_mem l m' /\ exists o' s, o = o' ++ [s] /\ array s = arr m') m.
Proof.
  intros Ha Hp Hfuel.
  assert (Hln : zlen l = Z.of_nat n) by (rewrite (perm_zlen _ _ Hp); apply zlen_iota).
  unfold cycleSort. wp_step. wp_step. cbv beta.
  rewrite Ha, len_nums, Hln.
  apply wp_then_terminal.
  apply (wp_for_up _ _ _ _
           (fun c _ _ m' =>
              exists a, arr m' = nums a /\ Permutation a (iota n) /\
                        forall k, 0 <= k < c -> zth a k = k)).
  - exists l. split; [exact Ha|]. split; [exact Hp|]. intros k Hk. lia.
  - intros c o [] m1 Hc (a & Ha1 & Hp1 & Hfix).
    assert (Hlen : zlen a = Z.of_nat n) by (rewrite (perm_zlen _ _ Hp1); apply zlen_iota).
    wp_step. wp_step. cbv beta. rewrite Ha1, get_nums by lia.
    pose proof (cycle_inv_start n a c ltac:(lia) Hp1 Hfix) as Hinv0.
    destruct (cycle_pos n a (zth a c) c Hlen ltac:(lia) Hinv0) as [Hr0 Hpos0].
    set (v := zth a c) in *.
    wp_step. rewrite <- Hlen.
    eapply wp_conseq; [apply (cycle_scan_spec a c v m1 Ha1); lia|].
    intros o1 pos m2 (Ha2 & ->). cbv beta. rewrite Hlen, Hpos0.
    destruct (Z.eqb_spec v c) as [Evc|Nvc].
    + wp_steps. exists a. split; [exact Ha2|]. split; [exact Hp1|].
      intros k Hk. destruct (Z.eq_dec k c) as [->|Hne]; [exact Evc | apply Hfix; lia].
    + pose proof (cycle_distinct n a v c Hlen ltac:(lia) Hinv0 Nvc) as Hd0.
      wp_step. unfold cycle_skip at 1.
      apply wp_while_exit.
      { rewrite Ha2, get_nums by lia. cbn [strict_eq value_eqb].
        apply Z.eqb_neq. congruence. }
      cbv beta. destruct (Z.eqb_spec v c) as [|_]; [contradiction|]. cbn [negb].
      wp_step. unfold cycle_place at 1. wp_steps.
      rewrite Ha2, get_nums, set_nums by lia.
      apply (wp_while_inv _ _
               (fun _ '(pos, item) m' =>
                  exists a' v', arr m' = nums a' /\ item = Num v' /\ zlen a' = Z.of_nat n /\
                    ((pos <> c /\ cycle_inv n a' v' c /\ zth a' c <> c) \/
                     (pos = c /\ Permutation a' (iota n) /\
                      forall k, 0 <= k < c + 1 -> zth a' k = k)))
               (fun _ m' => misplaced 0 (ints (arr m')))).
      * exists (upd a v v), (zth a v). split; [reflexivity|]. split; [reflexivity|].
        split; [rewrite zlen_upd; exact Hlen|]. left. split; [exact Nvc|].
        split; [apply cycle_inv_place; auto; lia|].
        rewrite zth_upd_other by lia. fold v. exact Nvc.
      * cbn [arr]. rewrite ints_nums.
        pose proof (misplaced_bounds (upd a v v) 0) as Hb. rewrite zlen_upd in Hb. lia.
      * intros o2 [pos item] m3 (a' & v' & Ha3 & -> & Hlen' & Hst) Hcond.
        apply negb_true_iff in Hcond. apply Z.eqb_neq in Hcond.
        destruct Hst as [(_ & Hinv & Hc')|(Hpc & _)]; [|contradiction].
        destruct (cycle_pos n a' v' c Hlen' ltac:(lia) Hinv) as [Hr Hpos].
        assert (Hd : zth a' v' <> v').
        { destruct (Z.eq_dec v' c) as [->|Hne]; [exact Hc'|].
          apply (cycle_distinct n a' v' c); auto; lia. }
        wp_step. rewrite <- Hlen'.
        eapply wp_conseq; [apply (cycle_scan_spec a' c v' m3 Ha3); lia|].
        intros o3 pos' m4 (Ha4 & ->). cbv beta. rewrite Hlen', Hpos.
        wp_step. unfold cycle_skip.
        apply wp_while_exit.
        { rewrite Ha4, get_nums by lia. cbn [strict_eq value_eqb].
          apply Z.eqb_neq. congruence. }
        cbv beta. wp_step. wp_step. cbv beta.
        rewrite Ha4, get_nums by lia. unfold strict_neq. cbn [value_eqb].
        destruct (Z.eqb_spec v' (zth a' v')) as [E|_]; [congruence|]. cbn [negb].
        unfold cycle_place. wp_steps.
        rewrite Ha4, Ha3, get_nums, set_nums, !ints_nums by lia.
        split.
        -- exists (upd a' v' v'), (zth a' v'). split; [reflexivity|]. split; [reflexivity|].
           split; [rewrite zlen_upd; exact Hlen'|].
           destruct (Z.eq_dec v' c) as [->|Hne].
           ++ right. split; [reflexivity|]. apply cycle_inv_close; auto; lia.
           ++ left. split; [exact Hne|]. split; [apply cycle_inv_place; auto; lia|].
              rewrite zth_upd_other by lia. exact Hc'.
        -- rewrite misplaced_place by lia.
           pose proof (misplaced_bounds (upd a' v' v') 0) as Hb.
           rewrite misplaced_place in Hb by lia. lia.
      * intros o2 [pos item] m3 (a' & v' & Ha3 & -> & Hlen' & Hst) Hcond.
        apply negb_false_iff in Hcond. apply Z.eqb_eq in Hcond.
        destruct Hst as [(Hpc & _)|(_ & Hp' & Hfix')]; [contradiction|].
        wp_steps. exists a'. auto.
  - intros o [] m1 (a & Ha1 & Hp1 & Hfix).
    assert (Hlen : zlen a = Z.of_nat n) by (rewrite (perm_zlen _ _ Hp1); apply zlen_iota).
    exists a. split; [exact Ha1|].
    split; [eapply Permutation_trans; [exact Hp1 | apply Permutation_sym; exact Hp]|].
    assert (Hall : forall k, 0 <= k < zlen a -> zth a k = k).
    { intros k Hk. destruct (Z.lt_ge_cases k (Z.max 0 (Z.of_nat n - 1))) as [H|H].
      - apply Hfix. lia.
      - assert (k = Z.of_nat n - 1) as -> by lia.
        assert (Hfix' : forall j, 0 <= j < Z.of_nat n - 1 -> zth a j = j)
          by (intros j Hj; apply Hfix; lia).
        pose proof (cycle_inv_start n a (Z.of_nat n - 1) ltac:(lia) Hp1 Hfix') as Hi.
        destruct (cycle_pos n a (zth a (Z.of_nat n - 1)) (Z.of_nat n - 1) Hlen ltac:(lia) Hi)
          as [Hr _]. lia. }
    intros x y Hx Hxy Hy. rewrite !Hall by lia. lia.
Qed.

(* ================================================================== *)
(** * LSD radix sort *)
(* ================================================================== *)

Lemma countn_bounds (f : nat -> bool) (i : nat) : 0 <= countn f i <= Z.of_nat i.
Proof. induction i as [|i IH]; cbn [countn]; [lia|]. destruct (f i); lia. Qed.

Lemma countn_mono (f : nat -> bool) (i j : nat) : (i <= j)%nat -> countn f i <= countn f j.
Proof.
  induction 1 as [|j Hle IH]; [lia|]. cbn [countn]. destruct (f j); lia.
Qed.

Lemma countn_strict (f : nat -> bool) (i j : nat) :
  (i < j)%nat -> f i = true -> countn f i < countn f j.
Proof.
  intros Hlt Hf. pose proof (countn_mono f (S i) j Hlt) as H.
  cbn [countn] in H. rewrite Hf in H. lia.
Qed.

Lemma countn_lt_eq_le (a : list Z) (exp d d' : Z) (n : nat) :
  d < d' -> countn (ltd a exp d) n + countn (eqd a exp d) n <= countn (ltd a exp d') n.
Proof.
  intros Hd. induction n as [|n IH]; cbn [countn]; [lia|]. unfold ltd, eqd in *.
  destruct (Z.ltb_spec (dg exp (zth a (Z.of_nat n))) d);
    destruct (Z.eqb_spec (dg exp (zth a (Z.of_nat n))) d);
    destruct (Z.ltb_spec (dg exp (zth a (Z.of_nat n))) d'); lia.
Qed.

Lemma countn_lt_eq_all (a : list Z) (exp d : Z) (n : nat) :
  countn (ltd a exp d) n + countn (eqd a exp d) n <= Z.of_nat n.
Proof.
  induction n as [|n IH]; cbn [countn]; [lia|]. unfold ltd, eqd in *.
  destruct (Z.ltb_spec (dg exp (zth a (Z.of_nat n))) d);
    destruct (Z.eqb_spec (dg exp (zth a (Z.of_nat n))) d); lia.
Qed.

Lemma countn_lt_succ (a : list Z) (exp d : Z) (n : nat) :
  countn (eqd a exp d) n + countn (ltd a exp d) n = countn (ltd a exp (d + 1)) n.
Proof.
  induction n as [|n IH]; cbn [countn]; [lia|]. unfold ltd, eqd in *.
  destruct (Z.ltb_spec (dg exp (zth a (Z.of_nat n))) d);
    destruct (Z.eqb_spec (dg exp (zth a (Z.of_nat n))) d);
    destruct (Z.ltb_spec (dg exp (zth a (Z.of_nat n))) (d + 1)); lia.
Qed.

Lemma dg_range (exp x : Z) : 0 < exp -> 0 <= x -> 0 <= dg exp x < 10.
Proof.
  intros He Hx. unfold dg.
  rewrite Z.rem_mod_nonneg by (try apply Z.div_pos; lia).
  apply Z.mod_pos_bound. lia.
Qed.

Lemma zth_nonneg (a : list Z) (k : Z) : Forall (fun x => 0 <= x) a -> 0 <= zth a k.
Proof.
  intros Hall. unfold zth.
  destruct (Nat.lt_ge_cases (Z.to_nat k) (length a)) as [H|H].
  - rewrite Forall_forall in Hall. apply Hall. apply nth_In. exact H.
  - rewrite nth_overflow by lia. lia.
Qed.

Lemma countn_lt_zero (a : list Z) (exp : Z) (n : nat) :
  0 < exp -> Forall (fun x => 0 <= x) a -> countn (ltd a exp 0) n = 0.
Proof.
  intros He Hall. induction n as [|n IH]; cbn [countn]; [lia|]. unfold ltd in *.
  pose proof (dg_range exp (zth a (Z.of_nat n)) He (zth_nonneg a _ Hall)).
  destruct (Z.ltb_spec (dg exp (zth a (Z.of_nat n))) 0); lia.
Qed.

Lemma bucket_pos_range (a : list Z) (exp : Z) (j : nat) :
  (j < length a)%nat -> 0 <= bucket_pos a exp j < zlen a.
Proof.
  intros Hj. unfold bucket_pos, zlen. cbv zeta.
  set (d := dg exp (zth a (Z.of_nat j))).
  pose proof (countn_bounds (ltd a exp d) (length a)).
  pose proof (countn_bounds (eqd a exp d) j).
  pose proof (countn_strict (eqd a exp d) j (length a) Hj) as Hs.
  pose proof (countn_lt_eq_all a exp d (length a)).
  assert (eqd a exp d j = true) by (unfold eqd, d; apply Z.eqb_refl).
  specialize (Hs H2). lia.
Qed.

Lemma bucket_pos_order (a : list Z) (exp : Z) (i j : nat) :
  (i < length a)%nat -> (j < length a)%nat ->
  dg exp (zth a (Z.of_nat i)) < dg exp (zth a (Z.of_nat j)) \/
  (dg exp (zth a (Z.of_nat i)) = dg exp (zth a (Z.of_nat j)) /\ (i < j)%nat) ->
  bucket_pos a exp i < bucket_pos a exp j.
Proof.
  intros Hi Hj Hord. unfold bucket_pos. cbv zeta.
  set (di := dg exp (zth a (Z.of_nat i))) in *.
  set (dj := dg exp (zth a (Z.of_nat j))) in *.
  assert (Ei : eqd a exp di i = true) by (unfold eqd, di; apply Z.eqb_refl).
  destruct Hord as [Hlt|[Heq Hlt]].
  - pose proof (countn_strict (eqd a exp di) i (length a) Hi Ei).
    pose proof (countn_lt_eq_le a exp di dj (length a) Hlt).
    pose proof (countn_bounds (eqd a exp dj) j). lia.
  - rewrite <- Heq.
    pose proof (countn_strict (eqd a exp di) i j Hlt Ei). lia.
Qed.

Lemma bucket_pos_inj (a : list Z) (exp : Z) (i j : nat) :
  (i < length a)%nat -> (j < length a)%nat ->
  bucket_pos a exp i = bucket_pos a exp j -> i = j.
Proof.
  intros Hi Hj E.
  destruct (Z.lt_trichotomy (dg exp (zth a (Z.of_nat i))) (dg exp (zth a (Z.of_nat j))))
    as [H|[H|H]].
  - pose proof (bucket_pos_order a exp i j Hi Hj (or_introl H)). lia.
  - destruct (Nat.lt_trichotomy i j) as [L|[L|L]]; [|exact L|].
    + pose proof (bucket_pos_order a exp i j Hi Hj (or_intror (conj H L))). lia.
    + pose proof (bucket_pos_order a exp j i Hj Hi (or_intror (conj (eq_sym H) L))). lia.
  - pose proof (bucket_pos_order a exp j i Hj Hi (or_introl H)). lia.
Qed.

Lemma bucket_pos_le (a : list Z) (exp : Z) (i j : nat) :
  (i < length a)%nat -> (j < length a)%nat ->
  bucket_pos a exp i <= bucket_pos a exp j ->
  dg exp (zth a (Z.of_nat i)) < dg exp (zth a (Z.of_nat j)) \/
  (dg exp (zth a (Z.of_nat i)) = dg exp (zth a (Z.of_nat j)) /\ (i <= j)%nat).
Proof.
  intros Hi Hj Hle.
  destruct (Z.lt_trichotomy (dg exp (zth a (Z.of_nat i))) (dg exp (zth a (Z.of_nat j))))
    as [H|[H|H]].
  - left. exact H.
  - right. split; [exact H|].
    destruct (Nat.le_gt_cases i j) as [L|L]; [exact L|].
    pose proof (bucket_pos_order a exp j i Hj Hi (or_intror (conj (eq_sym H) L))). lia.
  - pose proof (bucket_pos_order a exp j i Hj Hi (or_introl H)). lia.
Qed.

Lemma bucket_pos_surj (a : list Z) (exp : Z) (p : Z) :
  0 <= p < zlen a -> exists i, (i < length a)%nat /\ bucket_pos a exp i = p.
Proof.
  intros Hp. unfold zlen in Hp.
  assert (HF : bFun (length a) (fun k => Z.to_nat (bucket_pos a exp k))).
  { intros x Hx. pose proof (bucket_pos_range a exp x Hx). unfold zlen in *. lia. }
  assert (HI : bInjective (length a) (fun k => Z.to_nat (bucket_pos a exp k))).
  { intros x y Hx Hy E. apply (bucket_pos_inj a exp); auto.
    pose proof (bucket_pos_range a exp x Hx). pose proof (bucket_pos_range a exp y Hy). lia. }
  apply (bInjective_bSurjective HF) in HI.
  destruct (HI (Z.to_nat p) ltac:(lia)) as (i & Hi & E).
  exists i. split; [exact Hi|].
  pose proof (bucket_pos_range a exp i Hi). lia.
Qed.

(** One stable pass on the digit at [exp] sorts by the digits up to it. *)
Lemma radix_pass_result (a oz : list Z) (exp : Z) :
  0 < exp -> Forall (fun x => 0 <= x) a -> zlen oz = zlen a ->
  (forall j, (j < length a)%nat -> zth oz (bucket_pos a exp j) = zth a (Z.of_nat j)) ->
  sorted_by (fun x => x mod exp) a ->
  Permutation oz a /\ sorted_by (fun x => x mod (exp * 10)) oz.
Proof.
  intros He Hall Hlen Hput Hs. split.
  - apply (perm_by_index oz a (fun x => bucket_pos a exp (Z.to_nat x))).
    + symmetry. exact Hlen.
    + intros x Hx. rewrite Hlen in *. apply bucket_pos_range. unfold zlen in Hx. lia.
    + intros x y Hx Hy E. rewrite Hlen in *. unfold zlen in *.
      apply bucket_pos_inj in E; lia.
    + intros x Hx. rewrite Hlen in *. unfold zlen in *.
      rewrite Hput by lia. f_equal. lia.
  - intros p q Hp Hpq Hq. rewrite Hlen in Hq.
    destruct (bucket_pos_surj a exp p ltac:(lia)) as (i & Hi & <-).
    destruct (bucket_pos_surj a exp q ltac:(lia)) as (j & Hj & <-).
    rewrite !Hput by assumption. cbv beta.
    pose proof (zth_nonneg a (Z.of_nat i) Hall) as Hxi.
    pose proof (zth_nonneg a (Z.of_nat j) Hall) as Hxj.
    set (x := zth a (Z.of_nat i)) in *. set (y := zth a (Z.of_nat j)) in *.
    rewrite !Z.rem_mul_r by lia.
    pose proof (dg_range exp x He Hxi) as Hdx. pose proof (dg_range exp y He Hxj) as Hdy.
    unfold dg in *. rewrite Z.rem_mod_nonneg in * by (try apply Z.div_pos; lia).
    pose proof (Z.mod_pos_bound x exp He). pose proof (Z.mod_pos_bound y exp He).
    destruct (bucket_pos_le a exp i j Hi Hj Hpq) as [Hlt|[Heq Hle]].
    + fold x y in Hlt. unfold dg in Hlt.
      rewrite !Z.rem_mod_nonneg in Hlt by (try apply Z.div_pos; lia). nia.
    + fold x y in Heq. unfold dg in Heq.
      rewrite !Z.rem_mod_nonneg in Heq by (try apply Z.div_pos; lia).
      rewrite Heq.
      specialize (Hs (Z.of_nat i) (Z.of_nat j) ltac:(lia) ltac:(lia)
                     ltac:(unfold zlen; lia)).
      cbv beta in Hs. fold x y in Hs. lia.
Qed.

Lemma length_upd_nat : forall l i x, length (upd_nat l i x) = length l.
Proof.
  induction l as [|y l IH]; intros [|i] x; cbn [upd_nat length]; auto.
Qed.

Lemma nth_upd_nat : forall l i j x,
  (i < length l)%nat -> nth j (upd_nat l i x) 0 = if (j =? i)%nat then x else nth j l 0.
Proof.
  induction l as [|y l IH]; intros [|i] [|j] x Hi; cbn [upd_nat nth length] in *;
    try lia; try reflexivity.
  rewrite IH by lia. reflexivity.
Qed.

Lemma digit_of_num (exp z : Z) :
  0 < exp -> 0 <= z -> digit_of (Num z) exp = Some (Z.to_nat (dg exp z)).
Proof.
  intros He Hz. pose proof (dg_range exp z He Hz) as Hr. unfold digit_of, dg in *.
  cbv zeta.
  destruct (Z.leb_spec 0 (Z.rem (z / exp) 10)); [|lia].
  destruct (Z.ltb_spec (Z.rem (z / exp) 10) 10); [|lia]. reflexivity.
Qed.

(** The first loop counts the elements of every digit. *)
Lemma radix_count (a : list Z) (exp : Z) (m : Mem) :
  arr m = nums a -> 0 < exp -> Forall (fun x => 0 <= x) a ->
  wp (for_up 0 (zlen a) (fun i count =>
        ai <- rd i ;;
        yield_step (Some []) (Some [i]) ;;
        ret (match digit_of ai exp with
             | Some d => upd_nat count d (nth d count 0 + 1)
             | None => count
             end)) (repeat 0 10))
     (fun _ count m' =>
        arr m' = nums a /\ length count = 10%nat /\
        forall d, (d < 10)%nat ->
                  nth d count 0 = countn (eqd a exp (Z.of_nat d)) (length a)) m.
Proof.
  intros Ha He Hall.
  apply (wp_for_up _ _ _ _
           (fun i _ count m' =>
              arr m' = nums a /\ length count = 10%nat /\
              forall d, (d < 10)%nat ->
                        nth d count 0 = countn (eqd a exp (Z.of_nat d)) (Z.to_nat i))).
  - split; [exact Ha|]. split; [reflexivity|].
    intros d Hd. cbn [Z.to_nat countn].
    do 10 (destruct d as [|d]; [reflexivity|]). lia.
  - intros i o count m1 Hi (Ha1 & Hlc & Hc).
    wp_steps. rewrite Ha1, get_nums by lia.
    pose proof (zth_nonneg a i Hall) as Hx.
    rewrite digit_of_num by assumption.
    pose proof (dg_range exp (zth a i) He Hx) as Hr.
    split; [reflexivity|]. split; [rewrite length_upd_nat; exact Hlc|].
    intros d Hd. rewrite nth_upd_nat by lia.
    replace (Z.to_nat (i + 1)) with (S (Z.to_nat i)) by lia. cbn [countn].
    unfold eqd at 2. rewrite Z2Nat.id by lia.
    destruct (Nat.eqb_spec d (Z.to_nat (dg exp (zth a i)))) as [->|Hne].
    + rewrite Hc by lia. rewrite Z2Nat.id by lia. rewrite Z.eqb_refl. reflexivity.
    + rewrite Hc by lia.
      destruct (Z.eqb_spec (dg exp (zth a i)) (Z.of_nat d)); [lia|]. lia.
  - intros o count m1 (Ha1 & Hlc & Hc).
    replace (Z.to_nat (Z.max 0 (zlen a))) with (length a) in Hc by (unfold zlen; lia).
    auto.
Qed.

(** The second loop turns the counts into running totals. *)
Lemma radix_totals (a : list Z) (exp : Z) (count : list Z) (m : Mem) :
  0 < exp -> Forall (fun x => 0 <= x) a -> length count = 10%nat ->
  (forall d, (d < 10)%nat -> nth d count 0 = countn (eqd a exp (Z.of_nat d)) (length a)) ->
  wp (for_up 1 10 (fun i count =>
        let count := upd_nat count (Z.to_nat i)
                       (nth (Z.to_nat i) count 0 + nth (Z.to_nat (i - 1)) count 0) in
        yield_step (Some []) (Some []) ;;
        ret count) count)
     (fun _ count' m' =>
        arr m' = arr m /\ length count' = 10%nat /\
        forall d, (d < 10)%nat ->
                  nth d count' 0 = countn (ltd a exp (Z.of_nat d + 1)) (length a)) m.
Proof.
  intros He Hall Hlc Hc.
  apply (wp_for_up _ _ _ _
           (fun i _ count' m' =>
              arr m' = arr m /\ length count' = 10%nat /\
              forall d, (d < 10)%nat ->
                nth d count' 0 =
                  if Z.of_nat d <? i then countn (ltd a exp (Z.of_nat d + 1)) (length a)
                  else countn (eqd a exp (Z.of_nat d)) (length a))).
  - split; [reflexivity|]. split; [exact Hlc|].
    intros d Hd. rewrite Hc by exact Hd.
    destruct (Z.ltb_spec (Z.of_nat d) 1); [|reflexivity].
    assert (d = O) as -> by lia.
    rewrite <- countn_lt_succ. rewrite countn_lt_zero by assumption. cbn. lia.
  - intros i o count' m1 Hi (Ha1 & Hlc' & Hc').
    cbv zeta. wp_steps.
    split; [exact Ha1|]. split; [rewrite length_upd_nat; exact Hlc'|].
    intros d Hd. rewrite nth_upd_nat by lia.
    destruct (Nat.eqb_spec d (Z.to_nat i)) as [->|Hne].
    + rewrite !Hc' by lia.
      destruct (Z.ltb_spec (Z.of_nat (Z.to_nat i)) i); [lia|].
      destruct (Z.ltb_spec (Z.of_nat (Z.to_nat (i - 1))) i); [|lia].
      destruct (Z.ltb_spec (Z.of_nat (Z.to_nat i)) (i + 1)); [|lia].
      rewrite <- (countn_lt_succ a exp (Z.of_nat (Z.to_nat i))).
      replace (Z.of_nat (Z.to_nat (i - 1)) + 1) with (Z.of_nat (Z.to_nat i)) by lia.
      reflexivity.
    + rewrite Hc' by lia.
      destruct (Z.ltb_spec (Z.of_nat d) i); destruct (Z.ltb_spec (Z.of_nat d) (i + 1));
        try lia; reflexivity.
  - intros o count' m1 (Ha1 & Hlc' & Hc').
    split; [exact Ha1|]. split; [exact Hlc'|].
    intros d Hd. rewrite Hc' by exact Hd.
    destruct (Z.ltb_spec (Z.of_nat d) (Z.max 1 10)); [reflexivity | lia].
Qed.

Lemma nums_repeat (n : nat) : repeat (Num 0) n = nums (repeat 0 n).
Proof. unfold nums. induction n as [|n IH]; cbn; [reflexivity | rewrite IH; reflexivity]. Qed.

(** The third loop puts every element at its bucket position. *)
Lemma radix_place (a : list Z) (exp : Z) (count : list Z) (m : Mem) :
  arr m = nums a -> 0 < exp -> Forall (fun x => 0 <= x) a -> length count = 10%nat ->
  (forall d, (d < 10)%nat ->
             nth d count 0 = countn (ltd a exp (Z.of_nat d + 1)) (length a)) ->
  wp (for_down_ge (zlen a - 1) 0 (fun i '(count, output) =>
        ai <- rd i ;;
        let co := match digit_of ai exp with
                  | Some d =>
                      let c := nth d count 0 - 1 in
                      (upd_nat count d c, set_idx output c ai)
                  | None => (count, output)
                  end in
        yield_step (Some []) (Some [i]) ;;
        ret co) (count, repeat (Num 0) (Z.to_nat (zlen a))))
     (fun _ co m' =>
        arr m' = nums a /\
        exists oz, snd co = nums oz /\ zlen oz = zlen a /\
          forall j, (j < length a)%nat -> zth oz (bucket_pos a exp j) = zth a (Z.of_nat j)) m.
Proof.
  intros Ha He Hall Hlc Hc.
  apply (wp_for_down_ge _ _ _ _
           (fun i _ co m' =>
              arr m' = nums a /\ length (fst co) = 10%nat /\
              (forall d, (d < 10)%nat ->
                 nth d (fst co) 0 = countn (ltd a exp (Z.of_nat d)) (length a)
                                    + countn (eqd a exp (Z.of_nat d)) (Z.to_nat (i + 1))) /\
              exists oz, snd co = nums oz /\ zlen oz = zlen a /\
                forall j, (j < length a)%nat -> i < Z.of_nat j ->
                          zth oz (bucket_pos a exp j) = zth a (Z.of_nat j))).
  - cbn [fst snd]. split; [exact Ha|]. split; [exact Hlc|]. split.
    + intros d Hd. rewrite Hc by exact Hd.
      replace (Z.to_nat (zlen a - 1 + 1)) with (length a) by (unfold zlen; lia).
      rewrite <- countn_lt_succ. lia.
    + exists (repeat 0 (Z.to_nat (zlen a))). split; [apply nums_repeat|].
      split; [unfold zlen; rewrite repeat_length; lia|].
      intros j Hj Hij. unfold zlen in Hij. lia.
  - intros i o [cnt out] m1 Hi (Ha1 & Hlc1 & Hc1 & oz & Eo & Hlo & Hput).
    cbn [fst snd] in *. subst out.
    wp_step. wp_step. cbv beta. rewrite Ha1, get_nums by lia.
    pose proof (zth_nonneg a i Hall) as Hx.
    rewrite digit_of_num by assumption.
    pose proof (dg_range exp (zth a i) He Hx) as Hr.
    cbv zeta. wp_steps. cbn [fst snd].
    assert (Hi' : (Z.to_nat i < length a)%nat) by (unfold zlen in Hi; lia).
    assert (Epos : nth (Z.to_nat (dg exp (zth a i))) cnt 0 - 1 = bucket_pos a exp (Z.to_nat i)).
    { rewrite Hc1 by lia. unfold bucket_pos. cbv zeta.
      rewrite !Z2Nat.id by lia.
      replace (Z.to_nat (i + 1)) with (S (Z.to_nat i)) by lia. cbn [countn].
      unfold eqd at 2. rewrite Z2Nat.id by lia. rewrite Z.eqb_refl. lia. }
    pose proof (bucket_pos_range a exp (Z.to_nat i) Hi') as Hrange.
    rewrite Epos.
    split; [exact Ha1|]. split; [rewrite length_upd_nat; exact Hlc1|]. split.
    + intros d Hd. rewrite nth_upd_nat by lia.
      replace (Z.to_nat (i - 1 + 1)) with (Z.to_nat i) by lia.
      destruct (Nat.eqb_spec d (Z.to_nat (dg exp (zth a i)))) as [->|Hne].
      * unfold bucket_pos. cbv zeta. rewrite !Z2Nat.id by lia. reflexivity.
      * rewrite Hc1 by lia.
        replace (Z.to_nat (i + 1)) with (S (Z.to_nat i)) by lia. cbn [countn].
        unfold eqd at 2. rewrite Z2Nat.id by lia.
        destruct (Z.eqb_spec (dg exp (zth a i)) (Z.of_nat d)); [lia|]. lia.
    + exists (upd oz (bucket_pos a exp (Z.to_nat i)) (zth a i)).
      split; [apply set_nums; lia|]. split; [rewrite zlen_upd; exact Hlo|].
      intros j Hj Hij. rewrite zth_upd by (pose proof (bucket_pos_range a exp j Hj); lia).
      destruct (Z.eqb_spec (bucket_pos a exp j) (bucket_pos a exp (Z.to_nat i))) as [E|NE].
      * apply bucket_pos_inj in E; [|assumption|assumption]. subst j.
        rewrite Z2Nat.id by lia. reflexivity.
      * apply Hput; [exact Hj|].
        destruct (Z.eq_dec (Z.of_nat j) i) as [E|NE']; [|lia].
        exfalso. apply NE. f_equal. lia.
  - intros o [cnt out] m1 (Ha1 & Hlc1 & Hc1 & oz & Eo & Hlo & Hput).
    split; [exact Ha1|]. exists oz. split; [exact Eo|]. split; [exact Hlo|].
    intros j Hj. apply Hput; [exact Hj|]. unfold zlen. lia.
Qed.

(** The fourth loop copies the output over the array. *)
Lemma radix_copy (a oz : list Z) (m : Mem) :
  arr m = nums a -> zlen oz = zlen a ->
  wp (for_up 0 (zlen a) (fun i _ =>
        wr i (get_idx (nums oz) i) ;;
        inc_swaps ;;
        when true (yield_step (Some [i]) (Some []))) tt)
     (fun _ _ m' => arr m' = nums oz) m.
Proof.
  intros Ha Hlo.
  apply (wp_for_up _ _ _ _
           (fun i _ _ m' =>
              exists b, arr m' = nums b /\ zlen b = zlen a /\
                        forall t, 0 <= t < zlen a ->
                                  zth b t = if t <? i then zth oz t else zth a t)).
  - exists a. split; [exact Ha|]. split; [reflexivity|].
    intros t Ht. destruct (Z.ltb_spec t 0); [lia | reflexivity].
  - intros i o [] m1 Hi (b & Hb & Hlb & Hpt).
    wp_steps. rewrite get_nums by lia. rewrite Hb, set_nums by lia.
    exists (upd b i (zth oz i)). split; [reflexivity|]. split; [rewrite zlen_upd; exact Hlb|].
    intros t Ht. rewrite zth_upd by lia.
    destruct (Z.eqb_spec t i) as [->|Hne].
    + destruct (Z.ltb_spec i (i + 1)); [reflexivity | lia].
    + rewrite Hpt by lia.
      destruct (Z.ltb_spec t i); destruct (Z.ltb_spec t (i + 1)); try lia; reflexivity.
  - intros o [] m1 (b & Hb & Hlb & Hpt).
    rewrite Hb. f_equal. apply zth_ext; [lia|].
    rewrite Hlb. intros t Ht. rewrite Hpt by lia.
    destruct (Z.ltb_spec t (Z.max 0 (zlen a))); [reflexivity | lia].
Qed.

Lemma max_num_cons (x : Z) (l : list Z) :
  max_num (nums (x :: l)) =
    match l with
    | [] => Some x
    | _ :: _ => match max_num (nums l) with Some y => Some (Z.max x y) | None => None end
    end.
Proof. destruct l; reflexivity. Qed.

Lemma max_num_nums (l : list Z) :
  match max_num (nums l) with
  | Some mx => Forall (fun x => x <= mx) l /\ In mx l
  | None => l = []
  end.
Proof.
  induction l as [|x l IH]; [reflexivity|].
  rewrite max_num_cons. destruct l as [|y l'].
  - split; [constructor; [lia | constructor] | left; reflexivity].
  - destruct (max_num (nums (y :: l'))) as [mx|]; [|discriminate].
    destruct IH as [Hall Hin]. split.
    + constructor; [lia|]. eapply Forall_impl; [|exact Hall]. cbv beta. intros z Hz. lia.
    + destruct (Z.max_spec x mx) as [[_ ->]|[_ ->]]; [right; exact Hin | left; reflexivity].
Qed.

Lemma div_small_lt (mx exp : Z) : 0 <= mx -> 0 < exp -> mx / exp <= 0 -> mx < exp.
Proof.
  intros Hm He Hq. pose proof (Z.div_mod mx exp ltac:(lia)).
  pose proof (Z.mod_pos_bound mx exp He). pose proof (Z.div_pos mx exp Hm He). nia.
Qed.

Lemma digits_decrease (q : Z) :
  0 < q -> 0 <= (if q / 10 >? 0 then Z.log2 (q / 10) + 1 else 0) < Z.log2 q + 1.
Proof.
  intros Hq. pose proof (Z.log2_nonneg q). pose proof (Z.log2_nonneg (q / 10)).
  rewrite Z.gtb_ltb. destruct (Z.ltb_spec 0 (q / 10)) as [H1|H1]; [|lia].
  split; [lia|].
  pose proof (Z.div_mod q 10 ltac:(lia)). pose proof (Z.mod_pos_bound q 10 ltac:(lia)).
  pose proof (Z.log2_le_mono (2 * (q / 10)) q ltac:(lia)) as Hm.
  rewrite Z.log2_double in Hm by lia. lia.
Qed.

Lemma lsdRadixSort_sorted (l : list Z) (m : Mem) :
  arr m = nums l -> Forall (fun x => 0 <= x) l ->
  wp (lsdRadixSort true)
     (fun o _ m' => sorted_mem l m' /\ exists o' s, o = o' ++ [s] /\ array s = arr m') m.
Proof.
  intros Ha Hall. unfold lsdRadixSort.
  wp_step. wp_step. cbv beta. wp_step. wp_step. cbv beta zeta.
  rewrite Ha, len_nums. cbn [app].
  apply wp_then_terminal.
  pose proof (max_num_nums l) as Hmax.
  destruct (max_num (nums l)) as [mx|].
  - destruct Hmax as [Hle Hin].
    assert (Hmx : 0 <= mx) by (rewrite Forall_forall in Hall; apply Hall; exact Hin).
    apply (wp_while_inv _ _
             (fun _ exp m' =>
                0 < exp /\
                exists a, arr m' = nums a /\ Permutation a l /\
                          sorted_by (fun x => x mod exp) a)
             (fun exp _ => if mx / exp >? 0 then Z.log2 (mx / exp) + 1 else 0)).
    + split; [lia|]. exists l. split; [exact Ha|]. split; [reflexivity|].
      intros p q Hp Hpq Hq. cbv beta. rewrite !Z.mod_1_r. lia.
    + rewrite Z.div_1_r. pose proof (Z.log2_nonneg mx). destruct (mx >? 0); lia.
    + intros o exp m1 (He & a & Ha1 & Hp1 & Hs) Hc.
      rewrite Hc. rewrite Z.gtb_ltb in Hc. apply Z.ltb_lt in Hc.
      assert (Hlen : zlen a = zlen l) by (apply perm_zlen; exact Hp1).
      assert (Hall1 : Forall (fun x => 0 <= x) a).
      { rewrite Forall_forall in *. intros x Hx. apply Hall.
        apply (Permutation_in _ Hp1). exact Hx. }
      rewrite <- Hlen.
      wp_step.
      eapply wp_conseq; [apply (radix_count a exp m1 Ha1 He Hall1)|].
      intros o1 count1 m2 (Ha2 & Hlc1 & Hc1). cbv beta.
      wp_step.
      eapply wp_conseq; [apply (radix_totals a exp count1 m2 He Hall1 Hlc1 Hc1)|].
      intros o2 count2 m3 (Ha3 & Hlc2 & Hc2). cbv beta.
      rewrite Ha2 in Ha3.
      wp_step.
      eapply wp_conseq; [apply (radix_place a exp count2 m3 Ha3 He Hall1 Hlc2 Hc2)|].
      intros o3 [cnt out] m4 (Ha4 & oz & Eo & Hlo & Hput). cbv beta.
      cbn [snd] in *. subst out.
      wp_step.
      eapply wp_conseq; [apply (radix_copy a oz m4 Ha4 Hlo)|].
      intros o4 [] m5 Ha5. cbv beta. wp_steps.
      destruct (radix_pass_result a oz exp He Hall1 Hlo Hput Hs) as [Hpo Hso].
      split.
      * split; [lia|]. exists oz. split; [exact Ha5|].
        split; [eapply Permutation_trans; [exact Hpo | exact Hp1] | exact Hso].
      * rewrite <- Z.div_div by lia. apply digits_decrease. exact Hc.
    + intros o exp m1 (He & a & Ha1 & Hp1 & Hs) Hc.
      rewrite Z.gtb_ltb in Hc. apply Z.ltb_ge in Hc.
      pose proof (div_small_lt mx exp Hmx He Hc) as Hsmall.
      exists a. split; [exact Ha1|]. split; [exact Hp1|].
      intros p q Hp Hpq Hq.
      assert (Hb : forall k, 0 <= k < zlen a -> 0 <= zth a k < exp).
      { intros k Hk. assert (Hin' : In (zth a k) l).
        { apply (Permutation_in _ Hp1). apply nth_In. unfold zlen in Hk. lia. }
        rewrite Forall_forall in Hall, Hle.
        specialize (Hall _ Hin'). specialize (Hle _ Hin'). lia. }
      specialize (Hs p q Hp Hpq Hq). cbv beta in Hs.
      rewrite !Z.mod_small in Hs by (apply Hb; lia). exact Hs.
  - subst l. apply wp_while_exit; [reflexivity|].
    exists []. split; [exact Ha|]. split; [reflexivity|].
    intros p q Hp Hpq Hq. unfold zlen in Hq. cbn in Hq. lia.
Qed.

(* ================================================================== *)
(** * Bitonic sort *)
(* ================================================================== *)

(** ** The half-cleaner on 0-1 sequences *)

Ltac bool_cases H i m b :=
  let H1 := fresh in let H2 := fresh in
  pose proof (H i ltac:(lia)) as H1; pose proof (H (i + m) ltac:(lia)) as H2;
  cbv beta in H1, H2;
  destruct (b i); destruct (b (i + m)); cbn [andb orb negb] in *;
  (split; [intros ?|intros ?]);
  first [ lia | reflexivity
        | exfalso; first [ discriminate
                         | (assert (true = true) by reflexivity); intuition lia
                         | intuition (lia || discriminate) ] ].

Lemma half_clean01 (b b1 : Z -> bool) (lo m : Z) :
  0 <= m ->
  (forall i, lo <= i < lo + m -> b1 i = b i && b (i + m)) ->
  (forall i, lo <= i < lo + m -> b1 (i + m) = b i || b (i + m)) ->
  bitonic01 b lo (2 * m) ->
  bitonic01 b1 lo m /\ bitonic01 b1 (lo + m) m /\
  ((forall i, lo <= i < lo + m -> b1 i = false) \/
   (forall i, lo + m <= i < lo + 2 * m -> b1 i = true)).
Proof.
  intros Hm Hand Hor [(p & q & Hpq & Hq & Hb)|(p & q & Hpq & Hq & Hb)].
  - destruct (Z.lt_ge_cases p (q - m)) as [Hbig|Hsmall].
    + split; [|split].
      * left. exists p, (q - m). split; [lia|]. split; [lia|].
        intros i Hi. rewrite Hand by lia. bool_cases Hb i m b.
      * left. exists (lo + m), (lo + 2 * m). split; [lia|]. split; [lia|].
        intros j Hj. replace j with (j - m + m) by lia. rewrite Hor by lia.
        bool_cases Hb (j - m) m b.
      * right. intros j Hj. replace j with (j - m + m) by lia. rewrite Hor by lia.
        pose proof (Hb (j - m) ltac:(lia)) as H1. pose proof (Hb (j - m + m) ltac:(lia)) as H2.
        destruct (b (j - m)); destruct (b (j - m + m)); cbn [orb]; try reflexivity.
        exfalso. assert (~ (p <= j - m < q)) by (intros X; apply H1 in X; discriminate).
        assert (~ (p <= j - m + m < q)) by (intros X; apply H2 in X; discriminate). lia.
    + split; [|split].
      * left. exists lo, lo. split; [lia|]. split; [lia|].
        intros i Hi. rewrite Hand by lia. bool_cases Hb i m b.
      * destruct (Z.le_gt_cases q (lo + m)) as [Hq1|Hq1].
        -- left. exists (p + m), (q + m). split; [lia|]. split; [lia|].
           intros j Hj. replace j with (j - m + m) at 1 by lia. rewrite Hor by lia.
           bool_cases Hb (j - m) m b.
        -- destruct (Z.le_gt_cases (lo + m) p) as [Hp1|Hp1].
           ++ left. exists p, q. split; [lia|]. split; [lia|].
              intros j Hj. replace j with (j - m + m) at 1 by lia. rewrite Hor by lia.
              bool_cases Hb (j - m) m b.
           ++ right. exists q, (p + m). split; [lia|]. split; [lia|].
              intros j Hj. cbv beta. replace j with (j - m + m) at 1 by lia.
              rewrite Hor by lia. bool_cases Hb (j - m) m b.
      * left. intros i Hi. rewrite Hand by lia.
        pose proof (Hb i ltac:(lia)) as H1. pose proof (Hb (i + m) ltac:(lia)) as H2.
        destruct (b i); destruct (b (i + m)); cbn [andb]; try reflexivity.
        exfalso. assert (p <= i < q) by (apply H1; reflexivity).
        assert (p <= i + m < q) by (apply H2; reflexivity). lia.
  - destruct (Z.lt_ge_cases (p + m) q) as [Hbig|Hsmall].
    + split; [|split].
      * left. exists lo, lo. split; [lia|]. split; [lia|].
        intros i Hi. rewrite Hand by lia. bool_cases Hb i m b.
      * right. exists (p + m), q. split; [lia|]. split; [lia|].
        intros j Hj. cbv beta. replace j with (j - m + m) at 1 by lia.
        rewrite Hor by lia. bool_cases Hb (j - m) m b.
      * left. intros i Hi. rewrite Hand by lia.
        pose proof (Hb i ltac:(lia)) as H1. pose proof (Hb (i + m) ltac:(lia)) as H2.
        cbv beta in H1, H2.
        destruct (b i); destruct (b (i + m)); cbn [andb negb] in *; try reflexivity.
        exfalso. assert (~ (p <= i < q)) by (intros X; apply H1 in X; discriminate).
        assert (~ (p <= i + m < q)) by (intros X; apply H2 in X; discriminate). lia.
    + split; [|split].
      * destruct (Z.le_gt_cases q (lo + m)) as [Hq1|Hq1].
        -- right. exists p, q. split; [lia|]. split; [lia|].
           intros i Hi. cbv beta. rewrite Hand by lia. bool_cases Hb i m b.
        -- destruct (Z.le_gt_cases (lo + m) p) as [Hp1|Hp1].
           ++ right. exists (p - m), (q - m). split; [lia|]. split; [lia|].
              intros i Hi. cbv beta. rewrite Hand by lia. bool_cases Hb i m b.
           ++ left. exists (q - m), p. split; [lia|]. split; [lia|].
              intros i Hi. rewrite Hand by lia. bool_cases Hb i m b.
      * left. exists (lo + m), (lo + 2 * m). split; [lia|]. split; [lia|].
        intros j Hj. replace j with (j - m + m) at 1 by lia. rewrite Hor by lia.
        bool_cases Hb (j - m) m b.
      * right. intros j Hj. replace j with (j - m + m) by lia. rewrite Hor by lia.
        pose proof (Hb (j - m) ltac:(lia)) as H1. pose proof (Hb (j - m + m) ltac:(lia)) as H2.
        cbv beta in H1, H2.
        destruct (b (j - m)); destruct (b (j - m + m)); cbn [orb negb] in *; try reflexivity.
        exfalso. assert (p <= j - m < q) by (apply H1; reflexivity).
        assert (p <= j - m + m < q) by (apply H2; reflexivity). lia.
Qed.

(** ** Thresholds and windows of values *)

Lemma thr_cmp (up : bool) (t v : Z) : thr up t v = true <-> cmp up t v.
Proof. destruct up; unfold thr, cmp; [apply Z.leb_le | apply Z.leb_le]. Qed.

Lemma cmp_refl (up : bool) (x : Z) : cmp up x x.
Proof. destruct up; unfold cmp; lia. Qed.

Lemma thr_pair (up : bool) (t x y x' y' : Z) :
  (x' = x /\ y' = y) \/ (x' = y /\ y' = x) -> cmp up x' y' ->
  thr up t x' = thr up t x && thr up t y /\ thr up t y' = thr up t x || thr up t y.
Proof.
  intros H Hc. destruct up; unfold thr, cmp in *;
    destruct (Z.leb_spec t x); destruct (Z.leb_spec t y);
    destruct (Z.leb_spec t x'); destruct (Z.leb_spec t y');
    destruct (Z.leb_spec x t); destruct (Z.leb_spec y t);
    destruct (Z.leb_spec x' t); destruct (Z.leb_spec y' t);
    cbn [andb orb]; split; try reflexivity; exfalso; lia.
Qed.

Lemma ones_block_ext (b b' : Z -> bool) (lo n : Z) :
  (forall i, lo <= i < lo + n -> b i = b' i) -> ones_block b lo n -> ones_block b' lo n.
Proof.
  intros He (p & q & Hpq & Hq & Hb). exists p, q. split; [exact Hpq|]. split; [exact Hq|].
  intros i Hi. rewrite <- He by exact Hi. apply Hb. exact Hi.
Qed.

Lemma bitonic01_ext (b b' : Z -> bool) (lo n : Z) :
  (forall i, lo <= i < lo + n -> b i = b' i) -> bitonic01 b lo n -> bitonic01 b' lo n.
Proof.
  intros He [H|H]; [left | right].
  - apply (ones_block_ext b); assumption.
  - apply (ones_block_ext (fun i => negb (b i))); [|exact H].
    intros i Hi. cbv beta. rewrite He by exact Hi. reflexivity.
Qed.

Lemma bitonic01_neg (b : Z -> bool) (lo n : Z) :
  bitonic01 b lo n -> bitonic01 (fun i => negb (b i)) lo n.
Proof.
  intros [H|H]; [right | left; exact H].
  apply (ones_block_ext b); [|exact H].
  intros i Hi. cbv beta. rewrite negb_involutive. reflexivity.
Qed.

Lemma bitonic_ext (up : bool) (a a' : list Z) (lo n : Z) :
  (forall i, lo <= i < lo + n -> zth a' i = zth a i) ->
  bitonic up a lo n -> bitonic up a' lo n.
Proof.
  intros He Hb t. apply (bitonic01_ext (fun i => thr up t (zth a i))); [|apply Hb].
  intros i Hi. cbv beta. rewrite He by exact Hi. reflexivity.
Qed.

Lemma bitonic_flip (up : bool) (a : list Z) (lo n : Z) :
  bitonic up a lo n -> bitonic (negb up) a lo n.
Proof.
  intros Hb t.
  apply (bitonic01_ext
           (fun i => negb (thr up (if up then t + 1 else t - 1) (zth a i)))).
  - intros i Hi. cbv beta. destruct up; unfold thr; cbn [negb].
    + destruct (Z.leb_spec (t + 1) (zth a i)); destruct (Z.leb_spec (zth a i) t);
        cbn [negb]; try reflexivity; lia.
    + destruct (Z.leb_spec (zth a i) (t - 1)); destruct (Z.leb_spec t (zth a i));
        cbn [negb]; try reflexivity; lia.
  - apply bitonic01_neg. apply Hb.
Qed.

(** The half-cleaner on a bitonic window leaves two bitonic halves, the
    first wholly before the second. *)
Lemma half_clean (up : bool) (a a1 : list Z) (lo m : Z) :
  0 <= m -> cleaned up a a1 lo m -> bitonic up a lo (2 * m) ->
  bitonic up a1 lo m /\ bitonic up a1 (lo + m) m /\
  forall x y, lo <= x < lo + m -> lo + m <= y < lo + 2 * m -> cmp up (zth a1 x) (zth a1 y).
Proof.
  intros Hm Hcl Hb.
  assert (H01 : forall t,
             bitonic01 (fun i => thr up t (zth a1 i)) lo m /\
             bitonic01 (fun i => thr up t (zth a1 i)) (lo + m) m /\
             ((forall i, lo <= i < lo + m -> thr up t (zth a1 i) = false) \/
              (forall i, lo + m <= i < lo + 2 * m -> thr up t (zth a1 i) = true))).
  { intros t.
    apply (half_clean01 (fun i => thr up t (zth a i)) (fun i => thr up t (zth a1 i)) lo m Hm).
    - intros i Hi. cbv beta. destruct (Hcl i Hi) as [Hpair Hc].
      apply (thr_pair up t _ _ _ _ Hpair Hc).
    - intros i Hi. cbv beta. destruct (Hcl i Hi) as [Hpair Hc].
      apply (thr_pair up t _ _ _ _ Hpair Hc).
    - apply Hb. }
  split; [intros t; apply H01|]. split; [intros t; apply H01|].
  intros x y Hx Hy.
  destruct (H01 (zth a1 x)) as (_ & _ & [Hz|Ho]).
  - specialize (Hz x Hx).
    assert (thr up (zth a1 x) (zth a1 x) = true) by (apply thr_cmp, cmp_refl).
    congruence.
  - apply thr_cmp. apply Ho. exact Hy.
Qed.

Lemma asc_threshold (a : list Z) (lo t : Z) (n : nat) :
  sorted_dir true a lo (Z.of_nat n) ->
  exists p, lo <= p <= lo + Z.of_nat n /\
            forall i, lo <= i < lo + Z.of_nat n -> ((t <=? zth a i) = true <-> p <= i).
Proof.
  induction n as [|n IH]; intros Hs.
  - exists lo. split; [lia|]. intros i Hi. lia.
  - destruct IH as (p & Hp & Hi).
    { intros x y Hx Hxy Hy. apply Hs; lia. }
    destruct (Z.leb_spec t (zth a (lo + Z.of_nat n))) as [Hge|Hlt].
    + exists p. split; [lia|]. intros i Hi'.
      destruct (Z.eq_dec i (lo + Z.of_nat n)) as [->|Hne].
      * split; [lia|]. intros _. apply Z.leb_le. exact Hge.
      * apply Hi. lia.
    + exists (lo + Z.of_nat (S n)). split; [lia|]. intros i Hi'.
      split; [|lia]. intros Hti. apply Z.leb_le in Hti.
      pose proof (Hs i (lo + Z.of_nat n) ltac:(lia) ltac:(lia) ltac:(lia)) as Hle.
      cbn [cmp] in Hle. lia.
Qed.

Lemma desc_threshold (a : list Z) (lo t : Z) (n : nat) :
  sorted_dir false a lo (Z.of_nat n) ->
  exists q, lo <= q <= lo + Z.of_nat n /\
            forall i, lo <= i < lo + Z.of_nat n -> ((t <=? zth a i) = true <-> i < q).
Proof.
  induction n as [|n IH]; intros Hs.
  - exists lo. split; [lia|]. intros i Hi. lia.
  - destruct IH as (q & Hq & Hi).
    { intros x y Hx Hxy Hy. apply Hs; lia. }
    destruct (Z.leb_spec t (zth a (lo + Z.of_nat n))) as [Hge|Hlt].
    + exists (lo + Z.of_nat (S n)). split; [lia|]. intros i Hi'.
      split; [lia|]. intros _. apply Z.leb_le.
      pose proof (Hs i (lo + Z.of_nat n) ltac:(lia) ltac:(lia) ltac:(lia)) as Hle.
      cbn [cmp] in Hle. lia.
    + exists q. split; [lia|]. intros i Hi'.
      destruct (Z.eq_dec i (lo + Z.of_nat n)) as [->|Hne].
      * split; [intros Hti; apply Z.leb_le in Hti; lia|].
        intros Hq'. exfalso.
        destruct (Z.eq_dec q lo) as [->|Hql]; [lia|].
        assert (Hin : lo <= q - 1 < lo + Z.of_nat n) by lia.
        pose proof (proj2 (Hi (q - 1) Hin) ltac:(lia)) as Hq1. apply Z.leb_le in Hq1.
        pose proof (Hs (q - 1) (lo + Z.of_nat n) ltac:(lia) ltac:(lia) ltac:(lia)) as Hle.
        cbn [cmp] in Hle. lia.
      * apply Hi. lia.
Qed.

(** An ascending run followed by a descending one is bitonic. *)
Lemma asc_desc_bitonic (a : list Z) (lo m : Z) :
  0 <= m -> sorted_dir true a lo m -> sorted_dir false a (lo + m) m ->
  bitonic true a lo (2 * m).
Proof.
  intros Hm Ha Hd t. left.
  assert (Ha' : sorted_dir true a lo (Z.of_nat (Z.to_nat m)))
    by (rewrite Z2Nat.id by exact Hm; exact Ha).
  assert (Hd' : sorted_dir false a (lo + m) (Z.of_nat (Z.to_nat m)))
    by (rewrite Z2Nat.id by exact Hm; exact Hd).
  destruct (asc_threshold a lo t _ Ha') as (p & Hp & Hpi).
  destruct (desc_threshold a (lo + m) t _ Hd') as (q & Hq & Hqi).
  rewrite Z2Nat.id in Hp, Hpi, Hq, Hqi by exact Hm.
  destruct (Z.eq_dec q (lo + m)) as [Eq|Nq].
  - exists p, (lo + m). split; [lia|]. split; [lia|].
    intros i Hi. cbn [thr].
    destruct (Z.lt_ge_cases i (lo + m)) as [H1|H1].
    + rewrite Hpi by lia. lia.
    + rewrite Hqi by lia. lia.
  - exists (Z.min p (lo + m)), q. split; [lia|]. split; [lia|].
    intros i Hi. cbn [thr].
    destruct (Z.lt_ge_cases i (lo + m)) as [H1|H1].
    + rewrite Hpi by lia. lia.
    + rewrite Hqi by lia. lia.
Qed.

Lemma pow2_S (k : nat) : pow2 (S k) = 2 * pow2 k.
Proof. unfold pow2. rewrite Nat2Z.inj_succ, Z.pow_succ_r by lia. reflexivity. Qed.

Lemma pow2_pos (k : nat) : 1 <= pow2 k.
Proof. unfold pow2. pose proof (Z.pow_pos_nonneg 2 (Z.of_nat k) ltac:(lia) ltac:(lia)). lia. Qed.

Lemma pow2_half (k : nat) : pow2 (S k) / 2 = pow2 k.
Proof. rewrite pow2_S, Z.mul_comm. apply Z.div_mul. lia. Qed.

Lemma pow2_gt (k : nat) : Z.of_nat k < pow2 k.
Proof. unfold pow2. apply Z.pow_gt_lin_r; lia. Qed.

Lemma sorted_dir_join (up : bool) (a : list Z) (lo m : Z) :
  sorted_dir up a lo m -> sorted_dir up a (lo + m) m ->
  (forall x y, lo <= x < lo + m -> lo + m <= y < lo + 2 * m -> cmp up (zth a x) (zth a y)) ->
  sorted_dir up a lo (2 * m).
Proof.
  intros H1 H2 Hx x y Hlo Hxy Hy.
  destruct (Z.lt_ge_cases y (lo + m)); [apply H1; lia|].
  destruct (Z.lt_ge_cases x (lo + m)); [apply Hx; lia | apply H2; lia].
Qed.

(** ** The program *)

Lemma bitonic_clean (up : bool) (a : list Z) (lo m : Z) (mem : Mem) :
  arr mem = nums a -> 0 <= lo -> 0 <= m -> lo + 2 * m <= zlen a ->
  wp (for_up lo (lo + m) (fun i _ =>
        inc_comparisons ;;
        when true (yield_step (Some []) (Some [i; i + m])) ;;
        a <- rd i ;;
        b <- rd (i + m) ;;
        if Bool.eqb (js_gt a b) up then
          swap i (i + m) ;;
          inc_swaps ;;
          when true (yield_step (Some [i; i + m]) (Some []))
        else ret tt) tt)
     (fun _ _ m' =>
        exists a1, arr m' = nums a1 /\ Permutation a1 a /\
                   window_kept a a1 lo (lo + 2 * m - 1) /\ cleaned up a a1 lo m) mem.
Proof.
  intros Ha Hlo Hm Hlen.
  apply (wp_for_up _ _ _ _
           (fun i _ _ m' =>
              exists a1, arr m' = nums a1 /\ Permutation a1 a /\
                window_kept a a1 lo (lo + 2 * m - 1) /\
                (forall k, lo <= k < i ->
                   ((zth a1 k = zth a k /\ zth a1 (k + m) = zth a (k + m)) \/
                    (zth a1 k = zth a (k + m) /\ zth a1 (k + m) = zth a k)) /\
                   cmp up (zth a1 k) (zth a1 (k + m))) /\
                (forall k, i <= k < lo + m ->
                   zth a1 k = zth a k /\ zth a1 (k + m) = zth a (k + m)))).
  - exists a. split; [exact Ha|]. split; [reflexivity|]. split; [apply window_kept_refl|].
    split; [intros k Hk; lia | intros k Hk; auto].
  - intros i o [] m1 Hi (a1 & Ha1 & Hp1 & Hw1 & Hdone & Htodo).
    assert (Hl1 : zlen a1 = zlen a) by (apply perm_zlen; exact Hp1).
    destruct (Htodo i ltac:(lia)) as [Ex Ey].
    wp_steps. rewrite Ha1, !get_nums by lia. cbn [js_gt js_lt].
    destruct (Bool.eqb (zth a1 (i + m) <? zth a1 i) up) eqn:Esw.
    + wp_steps. rewrite swap_nums by lia.
      exists (swapz a1 i (i + m)). split; [reflexivity|].
      split; [eapply Permutation_trans; [apply swapz_perm; lia | exact Hp1]|].
      split.
      { eapply window_kept_trans; [lia | exact Hw1|].
        apply window_kept_swap; lia. }
      split.
      * intros k Hk. rewrite !zth_swapz by lia.
        destruct (Z.eq_dec k i) as [->|Hne].
        -- destruct (Z.eqb_spec i (i + m)) as [E|NE].
           ++ assert (m = 0) by lia. lia.
           ++ rewrite !Z.eqb_refl. split; [right; split; congruence|].
              apply eqb_prop in Esw. subst up. unfold cmp.
              destruct (Z.ltb_spec (zth a1 (i + m)) (zth a1 i)); lia.
        -- destruct (Z.eqb_spec k (i + m)); [lia|]. destruct (Z.eqb_spec k i); [lia|].
           destruct (Z.eqb_spec (k + m) (i + m)); [lia|].
           destruct (Z.eqb_spec (k + m) i); [lia|].
           apply Hdone. lia.
      * intros k Hk. rewrite !zth_swapz by lia.
        destruct (Z.eqb_spec k (i + m)); [lia|]. destruct (Z.eqb_spec k i); [lia|].
        destruct (Z.eqb_spec (k + m) (i + m)); [lia|].
        destruct (Z.eqb_spec (k + m) i); [lia|].
        apply Htodo. lia.
    + wp_steps.
      exists a1. split; [reflexivity|]. split; [exact Hp1|]. split; [exact Hw1|].
      split.
      * intros k Hk. destruct (Z.eq_dec k i) as [->|Hne]; [|apply Hdone; lia].
        split; [left; split; assumption|].
        apply eqb_false_iff in Esw. unfold cmp.
        destruct up; destruct (Z.ltb_spec (zth a1 (i + m)) (zth a1 i)); try lia; congruence.
      * intros k Hk. apply Htodo. lia.
  - intros o [] m1 (a1 & Ha1 & Hp1 & Hw1 & Hdone & _).
    replace (Z.max lo (lo + m)) with (lo + m) in Hdone by lia.
    exists a1. split; [exact Ha1|]. split; [exact Hp1|]. split; [exact Hw1|]. exact Hdone.
Qed.

Lemma bitonicMerge_spec (k : nat) :
  forall (fuel : nat) (lo : Z) (up : bool) (a : list Z) (m : Mem),
    (k <= fuel)%nat -> arr m = nums a -> 0 <= lo -> lo + pow2 k <= zlen a ->
    bitonic up a lo (pow2 k) ->
    wp (bitonicMerge fuel lo (pow2 k) up true)
       (fun _ _ m' =>
          exists a', arr m' = nums a' /\ Permutation a' a /\
                     window_kept a a' lo (lo + pow2 k - 1) /\
                     sorted_dir up a' lo (pow2 k)) m.
Proof.
  induction k as [|k IH]; intros fuel lo up a m Hfuel Ha Hlo Hlen Hb.
  - change (pow2 0) with 1 in *. destruct fuel; cbn [bitonicMerge];
      change (1 <=? 1) with true; cbv iota; wp_steps;
      (exists a; split; [exact Ha|]; split; [reflexivity|]; split; [apply window_kept_refl|];
       intros x y Hx Hxy Hy; replace y with x by lia; apply cmp_refl).
  - destruct fuel as [|fuel]; [lia|].
    pose proof (pow2_pos k) as Hpos. pose proof (pow2_S k) as HS.
    cbn [bitonicMerge].
    destruct (Z.leb_spec (pow2 (S k)) 1) as [Hle|_]; [lia|].
    cbv zeta. rewrite pow2_half.
    wp_step.
    eapply wp_conseq; [apply (bitonic_clean up a lo (pow2 k) m Ha); lia|].
    intros o1 [] m1 (a1 & Ha1 & Hp1 & Hw1 & Hcl). cbv beta.
    assert (Hl1 : zlen a1 = zlen a) by (apply perm_zlen; exact Hp1).
    rewrite HS in Hb.
    destruct (half_clean up a a1 lo (pow2 k) ltac:(lia) Hcl Hb) as (Hb1 & Hb2 & Hcross).
    wp_step.
    eapply wp_conseq; [apply (IH fuel lo up a1 m1); [lia | exact Ha1 | lia | lia | exact Hb1]|].
    intros o2 [] m2 (a2 & Ha2 & Hp2 & Hw2 & Hs2). cbv beta.
    assert (Hl2 : zlen a2 = zlen a) by (rewrite (perm_zlen _ _ Hp2); exact Hl1).
    pose proof Hw2 as (_ & O2 & I2).
    eapply wp_conseq.
    { apply (IH fuel (lo + pow2 k) up a2 m2); [lia | exact Ha2 | lia | lia|].
      apply (bitonic_ext up a1); [|exact Hb2]. intros i Hi. apply O2; lia. }
    intros o3 [] m3 (a3 & Ha3 & Hp3 & Hw3 & Hs3). cbv beta.
    pose proof Hw3 as (_ & O3 & I3).
    exists a3. split; [exact Ha3|].
    split.
    { eapply Permutation_trans; [exact Hp3|].
      eapply Permutation_trans; [exact Hp2 | exact Hp1]. }
    split.
    { rewrite HS.
      eapply window_kept_trans; [lia | exact Hw1|].
      eapply window_kept_trans; [lia| |].
      - apply (window_kept_widen a1 a2 lo (lo + pow2 k - 1)); [lia | lia | exact Hw2].
      - apply (window_kept_widen a2 a3 (lo + pow2 k) (lo + pow2 k + pow2 k - 1));
          [lia | lia | exact Hw3]. }
    rewrite HS. apply sorted_dir_join.
    + intros x y Hx Hxy Hy. rewrite !O3 by lia. apply Hs2; lia.
    + exact Hs3.
    + intros x y Hx Hy. rewrite (O3 x) by lia.
      destruct (I2 x ltac:(lia)) as (x' & Hx' & ->).
      destruct (I3 y ltac:(lia)) as (y' & Hy' & ->).
      rewrite (O2 y') by lia. apply Hcross; lia.
Qed.

Lemma bitonicSortRec_spec (k : nat) :
  forall (fuel : nat) (lo : Z) (up : bool) (a : list Z) (m : Mem),
    (k <= fuel)%nat -> arr m = nums a -> 0 <= lo -> lo + pow2 k <= zlen a ->
    wp (bitonicSortRec fuel lo (pow2 k) up true)
       (fun _ _ m' =>
          exists a', arr m' = nums a' /\ Permutation a' a /\
                     window_kept a a' lo (lo + pow2 k - 1) /\
                     sorted_dir up a' lo (pow2 k)) m.
Proof.
  induction k as [|k IH]; intros fuel lo up a m Hfuel Ha Hlo Hlen.
  - change (pow2 0) with 1 in *. destruct fuel; cbn [bitonicSortRec];
      change (1 <=? 1) with true; cbv iota; wp_steps;
      (exists a; split; [exact Ha|]; split; [reflexivity|]; split; [apply window_kept_refl|];
       intros x y Hx Hxy Hy; replace y with x by lia; apply cmp_refl).
  - destruct fuel as [|fuel]; [lia|].
    pose proof (pow2_pos k) as Hpos. pose proof (pow2_S k) as HS.
    cbn [bitonicSortRec].
    destruct (Z.leb_spec (pow2 (S k)) 1) as [Hle|_]; [lia|].
    cbv zeta. rewrite pow2_half.
    wp_step.
    eapply wp_conseq; [apply (IH fuel lo true a m); [lia | exact Ha | lia | lia]|].
    intros o1 [] m1 (a1 & Ha1 & Hp1 & Hw1 & Hs1). cbv beta.
    assert (Hl1 : zlen a1 = zlen a) by (apply perm_zlen; exact Hp1).
    wp_step.
    eapply wp_conseq;
      [apply (IH fuel (lo + pow2 k) false a1 m1); [lia | exact Ha1 | lia | lia]|].
    intros o2 [] m2 (a2 & Ha2 & Hp2 & Hw2 & Hs2). cbv beta.
    assert (Hl2 : zlen a2 = zlen a) by (rewrite (perm_zlen _ _ Hp2); exact Hl1).
    pose proof Hw2 as (_ & O2 & I2).
    assert (Hbit : bitonic up a2 lo (pow2 (S k))).
    { assert (Ht : bitonic true a2 lo (pow2 (S k))).
      { rewrite HS. apply asc_desc_bitonic; [lia| |exact Hs2].
        intros x y Hx Hxy Hy. rewrite !O2 by lia. apply Hs1; lia. }
      destruct up; [exact Ht | apply (bitonic_flip true); exact Ht]. }
    eapply wp_conseq.
    { apply (bitonicMerge_spec (S k) _ lo up a2 m2); [|exact Ha2 | lia | lia | exact Hbit].
      pose proof (pow2_gt (S k)). lia. }
    intros o3 [] m3 (a3 & Ha3 & Hp3 & Hw3 & Hs3). cbv beta.
    exists a3. split; [exact Ha3|].
    split.
    { eapply Permutation_trans; [exact Hp3|].
      eapply Permutation_trans; [exact Hp2 | exact Hp1]. }
    split; [|exact Hs3].
    rewrite HS in *.
    eapply window_kept_trans; [lia| |exact Hw3].
    eapply window_kept_trans; [lia| |].
    + apply (window_kept_widen a a1 lo (lo + pow2 k - 1)); [lia | lia | exact Hw1].
    + apply (window_kept_widen a1 a2 (lo + pow2 k) (lo + pow2 k + pow2 k - 1));
        [lia | lia | exact Hw2].
Qed.

(** On a power of two. *)
Lemma bitonicSort_sorted (l : list Z) (k : nat) (m : Mem) :
  arr m = nums l -> zlen l = pow2 k ->
  wp (bitonicSort true true)
     (fun o _ m' => sorted_mem l m' /\ exists o' s, o = o' ++ [s] /\ array s = arr m') m.
Proof.
  intros Ha Hlen. unfold bitonicSort. wp_step. wp_step. cbv beta.
  rewrite Ha, len_nums, Hlen.
  apply wp_then_terminal.
  eapply wp_conseq.
  { apply (bitonicSortRec_spec k _ 0 true l m); [|exact Ha | lia | lia].
    pose proof (pow2_gt k). lia. }
  intros o [] m1 (a1 & Ha1 & Hp1 & _ & Hs). cbv beta.
  exists a1. split; [exact Ha1|]. split; [exact Hp1|].
  rewrite (perm_zlen _ _ Hp1), Hlen.
  intros x y Hx Hxy Hy. apply (Hs x y); lia.
Qed.

(* ================================================================== *)
(** * Sorting arrays of arbitrary integers *)
(* ================================================================== *)

Lemma StronglySorted_by_index (R : Z -> Z -> Prop) : forall l,
  (forall i j, 0 <= i -> i < j -> j < zlen l -> R (zth l i) (zth l j)) ->
  StronglySorted R l.
Proof.
  induction l as [|x l IH]; intros H; constructor.
  - apply IH. intros i j Hi Hij Hj.
    specialize (H (i + 1) (j + 1)). unfold zth, zlen in *.
    replace (Z.to_nat (i + 1)) with (S (Z.to_nat i)) in H by lia.
    replace (Z.to_nat (j + 1)) with (S (Z.to_nat j)) in H by lia.
    cbn [nth] in H. apply H; cbn [length]; lia.
  - apply Forall_forall. intros y Hy.
    destruct (In_nth l y 0 Hy) as [n [Hn Hnth]].
    specialize (H 0 (Z.of_nat (S n))). unfold zth, zlen in H.
    rewrite Nat2Z.id in H. cbn [nth Z.to_nat] in H. rewrite Hnth in H.
    apply H; cbn [length]; lia.
Qed.

Lemma sorts_ints_of_wp (p : Prog unit) (l : list Z) :
  wp p (fun o _ m' => sorted_mem l m' /\ exists o' s, o = o' ++ [s] /\ array s = arr m')
     (mkMem (nums l) (mkStats 0 0)) ->
  sorts_ints p l.
Proof.
  intros (o & m' & [] & Hrun & (l' & Ha & Hp & Hs) & o' & s & -> & Hlast).
  exists o', s, m', l'. split; [exact Hrun|]. split; [exact Ha|].
  split; [rewrite Hlast; exact Ha|]. split; [exact Hp|].
  apply sorted_on_StronglySorted. exact Hs.
Qed.

Lemma sorts_ints_at (p : Prog unit) (l : list Z) :
  (forall m, arr m = nums l ->
     wp p (fun o _ m' => sorted_mem l m' /\ exists o' s, o = o' ++ [s] /\ array s = arr m') m) ->
  sorts_ints p l.
Proof. intros H. apply sorts_ints_of_wp. apply H. reflexivity. Qed.

(** [bitonicSort] in either direction, on a power of two. *)
Lemma bitonicSort_dir (up : bool) (l : list Z) (k : nat) :
  zlen l = pow2 k -> sorts_ints_dir up (bitonicSort up true) l.
Proof.
  intros Hlen.
  assert (W : wp (bitonicSort up true)
                (fun o _ m' =>
                   (exists a', arr m' = nums a' /\ Permutation a' l /\
                               sorted_dir up a' 0 (pow2 k)) /\
                   exists o' s, o = o' ++ [s] /\ array s = arr m')
                (mkMem (nums l) (mkStats 0 0))).
  { unfold bitonicSort. wp_step. wp_step. cbv beta. cbn [arr].
    rewrite len_nums, Hlen.
    apply wp_then_terminal.
    eapply wp_conseq.
    { apply (bitonicSortRec_spec k _ 0 up l); [|reflexivity | lia | lia].
      pose proof (pow2_gt k). lia. }
    intros o [] m1 (a1 & Ha1 & Hp1 & _ & Hs). cbv beta.
    exists a1. auto. }
  destruct W as (o & m' & [] & Hrun & (a' & Ha & Hp & Hs) & o' & s & -> & Hlast).
  exists o', s, m', a'. split; [exact Hrun|]. split; [exact Ha|].
  split; [rewrite Hlast; exact Ha|]. split; [exact Hp|].
  apply StronglySorted_by_index. intros i j Hi Hij Hj.
  rewrite (perm_zlen _ _ Hp), Hlen in Hj.
  specialize (Hs i j ltac:(lia) ltac:(lia) ltac:(lia)).
  destruct up; cbn [cmp] in Hs; lia.
Qed.

(** ** Gnome sort on one element *)

(** The three arrays the loop moves between. *)
Lemma gnome_single_round (x : Z) (yc : bool) (fuel : nat) :
  forall m, arr m = [Num x] \/ arr m = [Undefined; Num x] \/ arr m = [Num x; Undefined] ->
    res (gnomeSort fuel yc m) = None /\
    length (out (gnomeSort fuel yc m)) = (if yc then 2 * fuel else 0)%nat.
Proof.
  unfold gnomeSort. intros m Hm. rewrite res_bind, out_bind.
  match goal with |- match res (?w m) with _ => _ end = None /\ _ =>
    assert (Hw : res (w m) = None /\
                 length (out (w m)) = (if yc then 2 * fuel else 0)%nat);
      [|destruct Hw as [Hw1 Hw2]; rewrite Hw1, app_nil_r; auto] end.
  revert m Hm. induction fuel as [|fuel IH]; intros [a st] Hm; cbn [arr] in Hm;
    rewrite while_eq.
  - destruct Hm as [->|[->| ->]]; destruct yc; split; reflexivity.
  - destruct Hm as [->|[->| ->]];
      cbn [arr len length Z.of_nat Z.ltb Z.compare Pos.of_succ_nat Pos.succ];
      rewrite res_bind, out_bind;
      match goal with |- match res (?b ?m0) with _ => _ end = None /\ _ =>
        assert (Ha : arr (mem (b m0)) = [Undefined; Num x] \/
                     arr (mem (b m0)) = [Num x; Undefined])
          by (destruct st; destruct yc; cbn; auto);
        assert (Hr : res (b m0) = Some 0) by (destruct st; destruct yc; reflexivity);
        assert (Ho : length (out (b m0)) = (if yc then 2 else 0)%nat)
          by (destruct st; destruct yc; reflexivity);
        rewrite Hr, length_app, Ho;
        destruct (IH (mem (b m0))) as [I1 I2]; [tauto|];
        rewrite I1, I2; split; [reflexivity | destruct yc; lia]
      end.
Qed.
(* ================================================================== *)
(** * Counting exchanges: inversions *)
(* ================================================================== *)

Lemma count_lt_least (x : Z) (l : list Z) : Forall (Z.le x) l -> count_lt x l = 0.
Proof.
  induction 1 as [|y l Hy _ IH]; cbn [count_lt]; [reflexivity|].
  destruct (Z.ltb_spec y x); lia.
Qed.

Lemma inversions_StronglySorted (l : list Z) : StronglySorted Z.le l -> inversions l = 0.
Proof.
  induction 1 as [|x l _ IH Hx]; cbn [inversions]; [reflexivity|].
  rewrite count_lt_least by exact Hx. lia.
Qed.

Lemma inversions_sorted (l : list Z) : sorted_on l 0 (zlen l) -> inversions l = 0.
Proof. intros H. apply inversions_StronglySorted, sorted_on_StronglySorted, H. Qed.

(** ** Rules *)

Lemma pays_same {A} (p : Prog A) :
  (forall m, arr (mem (p m)) = arr m /\ swaps (stats (mem (p m))) = swaps (stats m)) ->
  pays_inversions p.
Proof.
  intros H m l Ha. destruct (H m) as [H1 H2]. exists l.
  split; [rewrite H1; exact Ha | rewrite H2; reflexivity].
Qed.

Lemma pays_ret {A} (a : A) : pays_inversions (ret a).
Proof. apply pays_same. intros m. split; reflexivity. Qed.
Lemma pays_timeout {A} : pays_inversions (@timeout A).
Proof. apply pays_same. intros m. split; reflexivity. Qed.
Lemma pays_rd (i : Z) : pays_inversions (rd i).
Proof. apply pays_same. intros m. split; reflexivity. Qed.
Lemma pays_length : pays_inversions length_.
Proof. apply pays_same. intros m. split; reflexivity. Qed.
Lemma pays_inc_comparisons : pays_inversions inc_comparisons.
Proof. apply pays_same. intros m. split; reflexivity. Qed.
Lemma pays_yield_step (sw cmp : option (list Z)) : pays_inversions (yield_step sw cmp).
Proof. apply pays_same. intros m. split; reflexivity. Qed.
Lemma pays_when (b : bool) (p : Prog unit) : pays_inversions p -> pays_inversions (when b p).
Proof. destruct b; [trivial | intros _; apply pays_ret]. Qed.

Lemma pays_bind {A B} (p : Prog A) (f : A -> Prog B) :
  pays_inversions p -> (forall a, pays_inversions (f a)) -> pays_inversions (bind p f).
Proof.
  intros Hp Hf m l Ha. destruct (Hp m l Ha) as (l1 & Ha1 & E1).
  rewrite mem_bind. destruct (res (p m)) as [a|].
  - destruct (Hf a (mem (p m)) l1 Ha1) as (l2 & Ha2 & E2). exists l2.
    split; [exact Ha2 | lia].
  - exists l1. auto.
Qed.

Lemma pays_for {A} (d : Z) (body : Z -> A -> Prog A) :
  (forall i acc, pays_inversions (body i acc)) ->
  forall cnt i acc, pays_inversions (for_ cnt i d body acc).
Proof.
  intros Hb. induction cnt as [|cnt IH]; intros i acc; cbn [for_].
  - apply pays_ret.
  - apply pays_bind; auto.
Qed.

Lemma pays_for_brk {A} (d : Z) (body : Z -> A -> Prog (bool * A)) :
  (forall i acc, pays_inversions (body i acc)) ->
  forall cnt i acc, pays_inversions (for_brk cnt i d body acc).
Proof.
  intros Hb. induction cnt as [|cnt IH]; intros i acc; cbn [for_brk].
  - apply pays_ret.
  - apply pays_bind; auto. intros [[] a]; cbn [fst snd]; [apply pays_ret | apply IH].
Qed.

Lemma pays_while {A} (cond : A -> Mem -> bool) (body : A -> Prog A) :
  (forall a, pays_inversions (body a)) ->
  forall fuel a, pays_inversions (while_ fuel cond body a).
Proof.
  intros Hb. induction fuel as [|fuel IH]; intros a m l Ha; rewrite while_eq;
    destruct (cond a m).
  - exists l. auto.
  - exists l. auto.
  - apply pays_bind; auto.
  - exists l. auto.
Qed.

Lemma get_nums_Num (l : list Z) (k z : Z) :
  get_idx (nums l) k = Num z -> 0 <= k < zlen l /\ z = zth l k.
Proof.
  intros H. destruct (Z.lt_ge_cases k 0) as [Hk|Hk].
  - unfold get_idx in H. destruct (Z.ltb_spec k 0); [discriminate | lia].
  - destruct (Z.lt_ge_cases k (zlen l)) as [Hk'|Hk'].
    + rewrite get_nums in H by lia. injection H as <-. split; [lia | reflexivity].
    + rewrite get_oob in H by (rewrite len_nums; lia). discriminate.
Qed.

Lemma js_gt_nums (l : list Z) (i j : Z) :
  js_gt (get_idx (nums l) i) (get_idx (nums l) j) = true ->
  0 <= i < zlen l /\ 0 <= j < zlen l /\ zth l j < zth l i.
Proof.
  unfold js_gt, js_lt. intros H.
  destruct (get_idx (nums l) j) as [zj|] eqn:Ej; [|discriminate].
  destruct (get_idx (nums l) i) as [zi|] eqn:Ei; [|discriminate].
  apply get_nums_Num in Ej, Ei. apply Z.ltb_lt in H. lia.
Qed.

(** One compare-and-exchange of neighbours, wherever it is aimed: outside
    the array one of the two reads is [undefined] and nothing happens. *)
Lemma pays_compare_exchange (i : Z) (yc : bool) :
  pays_inversions (compare_exchange i (i + 1) yc).
Proof.
  intros [a st] l Ha. cbn [arr] in Ha. subst a.
  destruct (js_gt (get_idx (nums l) i) (get_idx (nums l) (i + 1))) eqn:E.
  - destruct (js_gt_nums _ _ _ E) as (Hi & Hj & Hlt).
    exists (swapz l i (i + 1)). split.
    + destruct yc; unfold compare_exchange, bind; cbn; rewrite E; cbn;
        apply swap_nums; lia.
    + rewrite inversions_swapz_adjacent by lia.
      destruct yc; unfold compare_exchange, bind; cbn; rewrite E; cbn; lia.
  - exists l.
    destruct yc; unfold compare_exchange, bind; cbn; rewrite E; cbn; auto.
Qed.

Lemma pays_compare_exchange_down (i : Z) (yc : bool) :
  pays_inversions (compare_exchange (i - 1) i yc).
Proof.
  pose proof (pays_compare_exchange (i - 1) yc) as H.
  replace (i - 1 + 1) with i in H by lia. exact H.
Qed.

Create HintDb pays.
#[global] Hint Resolve pays_ret pays_timeout pays_rd pays_length pays_inc_comparisons
  pays_yield_step pays_compare_exchange pays_compare_exchange_down : pays.

Ltac pays_tac :=
  unfold for_up, for_down_gt, for_down_ge, for_up2;
  repeat match goal with
    | |- pays_inversions (bind _ _) => apply pays_bind; [|intros ?]
    | |- pays_inversions (for_ _ _ _ _ _) => apply pays_for; intros ? ?
    | |- pays_inversions (for_brk _ _ _ _ _) => apply pays_for_brk; intros ? ?
    | |- pays_inversions (while_ _ _ _ _) => apply pays_while; intros ?
    | |- pays_inversions (when _ _) => apply pays_when
    | |- pays_inversions (if ?b then _ else _) => destruct b; cbv beta iota
    | |- pays_inversions (let '(_, _) := ?x in _) => destruct x; cbv beta iota
    | |- pays_inversions _ => solve [auto with pays]
    end.

Lemma bubbleSort_pays (yc : bool) : pays_inversions (bubbleSort yc).
Proof. unfold bubbleSort. pays_tac. Qed.

Lemma cocktailShakerSort_pays (yc : bool) : pays_inversions (cocktailShakerSort yc).
Proof.
  unfold cocktailShakerSort. pays_tac. Qed.

Lemma oddEvenSort_pays (fuel : nat) (yc : bool) : pays_inversions (oddEvenSort fuel yc).
Proof. unfold oddEvenSort. pays_tac. Qed.

Lemma wp_and {A} (p : Prog A) (Q Q' : list Step -> A -> Mem -> Prop) (m : Mem) :
  wp p Q m -> wp p Q' m -> wp p (fun o a m' => Q o a m' /\ Q' o a m') m.
Proof.
  intros (o & m1 & a & H & HQ) (o' & m1' & a' & H' & HQ').
  rewrite H in H'. injection H' as <- <- <-. exists o, m1, a. auto.
Qed.

Lemma last_counters_snoc (p : Prog unit) (a : jsarray) (o : list Step) (s : Step) :
  steps_of p a = o ++ [s] -> last_counters p a = counters s.
Proof. unfold last_counters. intros ->. rewrite rev_unit. reflexivity. Qed.

(** A driver that sorts, pays one inversion per exchange and ends on a
    step with its counters has exchanged as often as the input has
    inversions. *)
Lemma swaps_are_inversions (p : Prog unit) (l : list Z) :
  pays_inversions p -> sorts_ints p l -> ends_terminal p ->
  swaps (final_stats p (nums l)) = inversions l /\
  exists c, last_counters p (nums l) = Some (c, inversions l).
Proof.
  intros Hpay (o & s & m' & l' & Hrun & Ha & _ & _ & Hs) Hend.
  assert (E : swaps (final_stats p (nums l)) = inversions l).
  { destruct (Hpay (mkMem (nums l) (mkStats 0 0)) l eq_refl) as (l2 & Ha2 & E2).
    unfold final_stats. unfold run in *. rewrite Hrun in *. cbn [mem fst snd] in *.
    rewrite Ha in Ha2. apply nums_inj in Ha2. subst l2.
    rewrite inversions_StronglySorted in E2 by exact Hs. cbn [stats swaps] in E2. lia. }
  split; [exact E|].
  destruct (Hend (mkMem (nums l) (mkStats 0 0))) as (o2 & s2 & Ho & Hc).
  { fold (run p (nums l)). rewrite Hrun. discriminate. }
  exists (comparisons (final_stats p (nums l))).
  rewrite (last_counters_snoc p (nums l) o2 s2 Ho), <- E. exact Hc.
Qed.

(** ** Gnome sort *)

Lemma gnomeSort_pays (l : list Z) (fuel : nat) (m : Mem) :
  arr m = nums l -> 2 <= zlen l -> (zlen l + 1) ^ 3 <= Z.of_nat fuel ->
  wp (gnomeSort fuel true)
     (fun _ _ m' => exists a, arr m' = nums a /\
                      swaps (stats m') + inversions a = swaps (stats m) + inversions l) m.
Proof.
  intros Ha Hn Hfuel. unfold gnomeSort.
  apply wp_bind.
  apply (wp_while_inv _ _
           (fun _ index m' =>
              exists a, arr m' = nums a /\ zlen a = zlen l /\ 0 <= index <= zlen l /\
                        swaps (stats m') + inversions a = swaps (stats m) + inversions l)
           (fun index m' =>
              (zlen l + 1) * inversions (ints (arr m')) + (zlen l - index))).
  - exists l. split; [exact Ha|]. split; [reflexivity|]. split; lia.
  - rewrite Ha, ints_nums.
    pose proof (inversions_bounds l).
    replace ((zlen l + 1) ^ 3) with ((zlen l + 1) * ((zlen l + 1) * (zlen l + 1))) in Hfuel
      by (change 3 with (Z.succ (Z.succ 1)); rewrite !Z.pow_succ_r, Z.pow_1_r by lia; ring).
    nia.
  - intros o index m1 (a & Ha1 & Hlen & Hidx & Hsw) Hc.
    rewrite Ha1, len_nums, Hlen in Hc. apply Z.ltb_lt in Hc.
    cbv zeta.
    set (ix := if index =? 0 then index + 1 else index).
    assert (Hix : 1 <= ix < zlen l /\ index <= ix).
    { unfold ix. destruct (Z.eqb_spec index 0) as [->|Hne]; lia. }
    clearbody ix. destruct Hix as (Hix & Hle).
    wp_steps. rewrite Ha1, !get_nums by lia. cbn [js_ge js_le].
    destruct (Z.leb_spec (zth a (ix - 1)) (zth a ix)) as [Hord|Hinv].
    + wp_steps. rewrite !ints_nums.
      split; [|split; [pose proof (inversions_bounds a); nia | lia]].
      exists a. split; [reflexivity|]. split; [exact Hlen|]. split; [lia | exact Hsw].
    + wp_steps. rewrite swap_nums, !ints_nums by lia.
      rewrite (swapz_comm a ix (ix - 1)) by lia.
      pose proof (inversions_swapz_adjacent a (ix - 1)) as Hdec.
      replace (ix - 1 + 1) with ix in Hdec by lia.
      specialize (Hdec ltac:(lia) ltac:(lia) Hinv).
      split.
      * exists (swapz a (ix - 1) ix). split; [reflexivity|].
        split; [rewrite zlen_swapz; exact Hlen|]. split; [lia|]. rewrite Hdec. lia.
      * rewrite Hdec. pose proof (inversions_bounds (swapz a (ix - 1) ix)) as Hb.
        rewrite Hdec in Hb. nia.
  - intros o index m1 (a & Ha1 & Hlen & Hidx & Hsw) Hc. cbv beta.
    wp_steps. exists a. auto.
Qed.

Lemma gnomeSort_swaps (l : list Z) (fuel : nat) :
  2 <= zlen l -> (zlen l + 1) ^ 3 <= Z.of_nat fuel ->
  swaps (final_stats (gnomeSort fuel true) (nums l)) = inversions l.
Proof.
  intros Hn Hf.
  pose proof (wp_and _ _ _ _
                (gnomeSort_sorted l fuel (mkMem (nums l) (mkStats 0 0)) eq_refl Hn Hf)
                (gnomeSort_pays l fuel (mkMem (nums l) (mkStats 0 0)) eq_refl Hn Hf)) as W.
  destruct W as (o & m' & [] & Hrun & ((l1 & Ha1 & _ & Hs) & _) & (a & Ha & E)).
  unfold final_stats, run. rewrite Hrun. cbn [mem fst snd].
  rewrite Ha1 in Ha. apply nums_inj in Ha. subst a.
  rewrite inversions_sorted in E by exact Hs. cbn [stats swaps] in E. lia.
Qed.

(** ** Insertion sort *)

(** Every shift moves the key past one greater element: it counts one
    comparison and one exchange and removes one inversion. *)
Lemma insertionSort_pays (l : list Z) (m : Mem) :
  arr m = nums l ->
  wp (insertionSort true)
     (fun o _ m' =>
        exists a, arr m' = nums a /\
          swaps (stats m') + inversions a = swaps (stats m) + inversions l /\
          comparisons (stats m') - comparisons (stats m) = swaps (stats m') - swaps (stats m) /\
          Z.of_nat (length o)
            = swaps (stats m') - swaps (stats m) + Z.max 0 (zlen l - 1) + 1) m.
Proof.
  intros Ha. unfold insertionSort. wp_step. wp_step. cbv beta.
  rewrite Ha, len_nums.
  wp_step.
  apply (wp_for_up _ _ _ _
           (fun i o _ m' =>
              exists l1, arr m' = nums l1 /\ zlen l1 = zlen l /\
                swaps (stats m') + inversions l1 = swaps (stats m) + inversions l /\
                comparisons (stats m') - comparisons (stats m)
                  = swaps (stats m') - swaps (stats m) /\
                Z.of_nat (length o) = swaps (stats m') - swaps (stats m) + (i - 1))).
  - exists l. split; [exact Ha|]. split; [reflexivity|]. cbn [length Z.of_nat]. split; lia.
  - intros i o prev m1 Hi (l1 & Ha1 & Hlen & Hsw & Hcs & Hno).
    wp_step. wp_step. cbv beta. rewrite Ha1, get_nums by lia.
    set (key := zth l1 i).
    wp_step.
    apply (wp_while_inv _ _
             (fun o1 '(j, _) m' =>
                exists a, arr m' = nums a /\ zlen a = zlen l /\ -1 <= j < i /\
                  swaps (stats m') + inversions (upd a (j + 1) key)
                    = swaps (stats m) + inversions l /\
                  comparisons (stats m') - comparisons (stats m)
                    = swaps (stats m') - swaps (stats m) /\
                  Z.of_nat (length o1) = swaps (stats m') - swaps (stats m1))
             (fun '(j, _) _ => j + 1)).
    + exists l1. split; [exact Ha1|]. split; [exact Hlen|]. split; [lia|].
      replace (i - 1 + 1) with i by lia.
      unfold key. rewrite upd_same by lia. cbn [length Z.of_nat].
      split; [exact Hsw|]. split; [exact Hcs | lia].
    + lia.
    + intros o1 [j pr] m2 (a & Ha2 & Hla & Hj & Hsw2 & Hcs2 & Hno2) Hc.
      apply andb_prop in Hc. destruct Hc as [Hj0 Hgt].
      apply Z.geb_le in Hj0.
      rewrite Ha2, get_nums in Hgt by lia. cbn [js_gt js_lt] in Hgt.
      apply Z.ltb_lt in Hgt.
      wp_steps. rewrite Ha2, get_nums by lia.
      split; [|lia].
      replace (j - 1 + 1) with j by lia.
      exists (upd a (j + 1) (zth a j)).
      split; [apply set_nums; lia|]. split; [rewrite zlen_upd; exact Hla|].
      split; [lia|]. split; [|split; [lia | rewrite length_app; cbn [length]; lia]].
      rewrite hole_move by lia.
      rewrite swapz_comm by (rewrite zlen_upd; lia).
      rewrite inversions_swapz_adjacent; [lia | lia | rewrite zlen_upd; lia|].
      rewrite zth_upd_same by lia. rewrite zth_upd_other by lia. exact Hgt.
    + intros o1 [j pr] m2 (a & Ha2 & Hla & Hj & Hsw2 & Hcs2 & Hno2) Hc.
      wp_steps. rewrite Ha2.
      exists (upd a (j + 1) key). split; [apply set_nums; lia|].
      split; [rewrite zlen_upd; exact Hla|]. split; [exact Hsw2|]. split; [exact Hcs2|].
      rewrite !length_app. cbn [length]. lia.
  - intros o prev m1 (l1 & Ha1 & Hlen & Hsw & Hcs & Hno). cbv beta.
    wp_steps. exists l1. split; [exact Ha1|]. split; [exact Hsw|]. split; [exact Hcs|].
    rewrite length_app. cbn [length]. lia.
Qed.

Lemma insertionSort_counts (l : list Z) :
  comparisons (final_stats (insertionSort true) (nums l)) = inversions l /\
  swaps (final_stats (insertionSort true) (nums l)) = inversions l /\
  Z.of_nat (length (steps_of (insertionSort true) (nums l)))
    = inversions l + Z.max 0 (zlen l - 1) + 1.
Proof.
  pose proof (wp_and _ _ _ _
                (insertionSort_sorted l (mkMem (nums l) (mkStats 0 0)) eq_refl)
                (insertionSort_pays l (mkMem (nums l) (mkStats 0 0)) eq_refl)) as W.
  destruct W as (o & m' & [] & Hrun & ((l1 & Ha1 & _ & Hs) & _) & (a & Ha & E & E2 & E3)).
  unfold final_stats, steps_of, run. rewrite Hrun. cbn [mem out fst snd].
  rewrite Ha1 in Ha. apply nums_inj in Ha. subst a.
  rewrite inversions_sorted in E by exact Hs. cbn [stats swaps comparisons] in E, E2, E3. lia.
Qed.

(** ** Selection sort *)

(** The scans compare every pair of positions once, whatever the array
    holds; each round exchanges at most once. *)
Lemma selectionSort_counts (yc : bool) (m : Mem) :
  wp (selectionSort yc)
     (fun o _ m' =>
        len (arr m') = len (arr m) /\
        2 * (comparisons (stats m') - comparisons (stats m))
          = len (arr m) * (len (arr m) - 1) /\
        swaps (stats m) <= swaps (stats m') <= swaps (stats m) + Z.max 0 (len (arr m) - 1) /\
        Z.of_nat (length o)
          = (if yc then comparisons (stats m') - comparisons (stats m) else 0)
            + (swaps (stats m') - swaps (stats m)) + 1) m.
Proof.
  unfold selectionSort. wp_step. wp_step. cbv beta.
  set (n := len (arr m)).
  assert (Hn : 0 <= n) by (unfold n, len; lia).
  wp_step.
  apply (wp_for_up _ _ _ _
           (fun i o _ m' =>
              len (arr m') = n /\
              2 * (comparisons (stats m') - comparisons (stats m)) = i * (2 * n - i - 1) /\
              swaps (stats m) <= swaps (stats m') <= swaps (stats m) + i /\
              Z.of_nat (length o)
                = (if yc then comparisons (stats m') - comparisons (stats m) else 0)
                  + (swaps (stats m') - swaps (stats m)))).
  - split; [reflexivity|]. cbn [length Z.of_nat]. destruct yc; lia.
  - intros i o prev m1 Hi (Hlen & Hc & Hs & Hno).
    wp_step.
    apply (wp_for_up _ _ _ _
             (fun j o1 mi m' =>
                len (arr m') = n /\ i <= mi < n /\
                comparisons (stats m') = comparisons (stats m1) + (j - (i + 1)) /\
                swaps (stats m') = swaps (stats m1) /\
                Z.of_nat (length o1) = if yc then j - (i + 1) else 0)).
    + split; [exact Hlen|]. split; [lia|]. cbn [length Z.of_nat]. destruct yc; lia.
    + intros j o1 mi m2 Hj (Hlen2 & Hmi & Hc2 & Hs2 & Hno2).
      wp_step. wp_step. wp_step.
      apply wp_when; [intros ->; wp_step | intros ->]; wp_steps;
        (split; [exact Hlen2|]); (split; [destruct (js_lt _ _); lia|]);
        rewrite ?length_app, ?app_nil_r; cbn [length]; lia.
    + intros o1 mi m2 (Hlen2 & Hmi & Hc2 & Hs2 & Hno2). cbv beta.
      replace (Z.max (i + 1) n) with n in Hc2, Hno2 by lia.
      destruct (Z.eqb_spec mi i) as [->|Hne].
      * wp_steps. split; [exact Hlen2|]. rewrite ?length_app, ?app_nil_r. cbn [length].
        split; [nia|]. split; [lia|]. destruct yc; lia.
      * wp_steps. rewrite ?length_app. cbn [length].
        split; [|split; [nia|split; [lia | destruct yc; lia]]].
        rewrite <- Hlen2. unfold swap_idx, len.
        unfold set_idx. destruct (Z.ltb_spec i 0); [lia|]. destruct (Z.ltb_spec mi 0); [lia|].
        rewrite !length_set_nat. unfold len in Hlen2. lia.
  - intros o prev m1 (Hlen & Hc & Hs & Hno). cbv beta. wp_steps.
    split; [exact Hlen|]. rewrite length_app. cbn [length].
    destruct (Z.le_gt_cases n 1).
    + replace (Z.max 0 (n - 1)) with 0 in * by lia. split; [nia|]. split; [lia|]. destruct yc; lia.
    + replace (Z.max 0 (n - 1)) with (n - 1) in * by lia.
      split; [nia|]. split; [lia|]. destruct yc; lia.
Qed.

(** ** Bubble sort on an array already in order *)

Lemma bubbleSort_best (l : list Z) (m : Mem) :
  arr m = nums l -> sorted_on l 0 (zlen l) ->
  wp (bubbleSort true)
     (fun o _ m' =>
        arr m' = nums l /\
        comparisons (stats m') = comparisons (stats m) + Z.max 0 (zlen l - 1) /\
        swaps (stats m') = swaps (stats m) /\
        Z.of_nat (length o) = Z.max 0 (zlen l - 1) + 1 /\
        Forall (fun s => array s = nums l) o) m.
Proof.
  intros Ha Hs. unfold bubbleSort. wp_step. wp_step. cbv beta.
  rewrite Ha, len_nums. set (n := zlen l) in *.
  wp_step. eapply wp_conseq.
  apply (wp_for_brk _ _ _ _ _
           (fun i o _ m' => i = 0 /\ o = [] /\ m' = m)
           (fun o _ m' =>
              arr m' = nums l /\
              comparisons (stats m') = comparisons (stats m) + Z.max 0 (n - 1) /\
              swaps (stats m') = swaps (stats m) /\
              Z.of_nat (length o) = Z.max 0 (n - 1) /\
              Forall (fun s => array s = nums l) o)).
  - auto.
  - intros k o [] m1 Hk (Hk0 & -> & ->).
    assert (k = 0%nat) by lia. subst k. cbn [Z.of_nat]. replace (0 + 0 * 1) with 0 by lia.
    wp_step.
    apply (wp_for_up _ _ _ _
             (fun j o swapped m' =>
                swapped = false /\ arr m' = nums l /\
                comparisons (stats m') = comparisons (stats m) + j /\
                swaps (stats m') = swaps (stats m) /\
                Z.of_nat (length o) = j /\
                Forall (fun s => array s = nums l) o)).
    + split; [reflexivity|]. split; [exact Ha|]. split; [lia|]. split; [lia|].
      split; [reflexivity | constructor].
    + intros j o swapped m1 Hj (-> & Ha1 & Hc & Hw & Hlen & Hall).
      wp_step. unfold compare_exchange. wp_steps.
      rewrite Ha1, !get_nums by (fold n; lia). cbn [js_gt js_lt].
      specialize (Hs j (j + 1) ltac:(lia) ltac:(lia) ltac:(fold n; lia)).
      destruct (Z.ltb_spec (zth l (j + 1)) (zth l j)); [lia|].
      wp_steps. split; [reflexivity|]. split; [reflexivity|]. split; [lia|].
      split; [exact Hw|]. split; [rewrite length_app; cbn [length]; lia|].
      apply Forall_app. split; [exact Hall|]. repeat constructor.
    + intros o swapped m1 (-> & Ha1 & Hc & Hw & Hlen & Hall). cbv beta.
      wp_steps. cbn [fst snd negb].
      replace (Z.max 0 (n - 1 - 0)) with (Z.max 0 (n - 1)) in * by lia.
      rewrite app_nil_r. auto.
  - intros o [] m1 (Hk0 & -> & ->).
    split; [exact Ha|]. cbn [length Z.of_nat]. split; [lia|]. split; [lia|].
    split; [lia | constructor].
  - intros o [] m1 (Ha1 & Hc & Hw & Hlen & Hall). cbv beta. wp_steps.
    split; [exact Ha1|]. split; [exact Hc|]. split; [exact Hw|].
    split; [rewrite length_app; cbn [length]; lia|].
    apply Forall_app. split; [exact Hall|]. repeat constructor. exact Ha1.
Qed.

Lemma last_counters_final (p : Prog unit) (a : jsarray) :
  ends_terminal p -> completes p a ->
  last_counters p a = Some (comparisons (final_stats p a), swaps (final_stats p a)).
Proof.
  intros Hend Hc. destruct (Hend (mkMem a (mkStats 0 0)) Hc) as (o & s & Ho & Hs).
  rewrite (last_counters_snoc p a o s Ho). exact Hs.
Qed.

Lemma sorts_ints_completes (p : Prog unit) (l : list Z) :
  sorts_ints p l -> completes p (nums l).
Proof. intros (o & s & m' & l' & Hrun & _). unfold completes. rewrite Hrun. discriminate. Qed.

Lemma counts_swaps_of (p : Prog unit) (l : list Z) (k : Z) :
  ends_terminal p -> sorts_ints p l -> swaps (final_stats p (nums l)) = k ->
  counts_swaps p (nums l) k.
Proof.
  intros Hend Hs E. split; [exact E|].
  exists (comparisons (final_stats p (nums l))).
  rewrite (last_counters_final p (nums l) Hend (sorts_ints_completes p l Hs)), E. reflexivity.
Qed.

Lemma StronglySorted_sorted_on : forall l, StronglySorted Z.le l -> sorted_on l 0 (zlen l).
Proof.
  induction 1 as [|x l _ IH Hx]; intros i j Hi Hij Hj.
  - unfold zlen in Hj. cbn in Hj. lia.
  - unfold zlen in Hj. cbn [length] in Hj. unfold zth.
    destruct (Z.eq_dec i 0) as [->|Hi0].
    + destruct (Z.eq_dec j 0) as [->|Hj0]; [lia|].
      replace (Z.to_nat j) with (S (Z.to_nat (j - 1))) by lia. cbn [Z.to_nat nth].
      rewrite Forall_forall in Hx. apply Hx. apply nth_In. lia.
    + replace (Z.to_nat i) with (S (Z.to_nat (i - 1))) by lia.
      replace (Z.to_nat j) with (S (Z.to_nat (j - 1))) by lia. cbn [nth].
      apply IH; unfold zlen; lia.
Qed.

Lemma inversions_max (l : list Z) : 2 * inversions l <= zlen l * (zlen l - 1).
Proof.
  unfold zlen. induction l as [|x l IH]; cbn [inversions length]; [lia|].
  pose proof (count_lt_bounds x l) as H. unfold zlen in H. nia.
Qed.
(* ================================================================== *)
(** * Shuffle and accent *)
(* ================================================================== *)

Lemma downfrom_S (hi : Z) (cnt : nat) :
  downfrom hi (S cnt) = downfrom hi cnt ++ [hi - Z.of_nat cnt].
Proof. unfold downfrom. rewrite seq_S, map_app. reflexivity. Qed.

(** Fisher-Yates: every round exchanges position [i] with a position
    [pick i] at or below it and yields the array. *)
Lemma shuffleGenerator_spec (pick : Z -> Z) (l : list Z) (m : Mem) :
  arr m = nums l ->
  (forall i, 1 <= i < zlen l -> 0 <= pick i <= i) ->
  wp (shuffleGenerator pick)
     (fun o _ m' =>
        (exists l', arr m' = nums l' /\ Permutation l' l) /\
        stats m' = stats m /\
        map compareIndexes o
          = map (fun i => Some [i; pick i]) (downfrom (zlen l - 1) (Z.to_nat (zlen l - 1))) /\
        Forall (fun s => swappedIndexes s = None /\ counters s = None /\ shows_perm l s) o /\
        (o = [] \/ exists o' s, o = o' ++ [s] /\ array s = arr m')) m.
Proof.
  intros Ha Hpick. unfold shuffleGenerator. wp_step. wp_step. cbv beta.
  rewrite Ha, len_nums. set (n := zlen l) in *.
  apply (wp_for_down_gt _ _ _ _
           (fun i o _ m' =>
              (exists l', arr m' = nums l' /\ Permutation l' l) /\
              stats m' = stats m /\
              map compareIndexes o
                = map (fun i => Some [i; pick i]) (downfrom (n - 1) (Z.to_nat (n - 1 - i))) /\
              Forall (fun s => swappedIndexes s = None /\ counters s = None /\ shows_perm l s) o /\
              (o = [] \/ exists o' s, o = o' ++ [s] /\ array s = arr m'))).
  - split; [exists l; split; [exact Ha | reflexivity]|]. split; [reflexivity|].
    replace (n - 1 - (n - 1)) with 0 by lia. split; [reflexivity|].
    split; [constructor | left; reflexivity].
  - intros i o [] m1 Hi ((l1 & Ha1 & Hp1) & Hst & Hmap & Hall & _).
    assert (Hlen : zlen l1 = n) by (apply perm_zlen; exact Hp1).
    specialize (Hpick i ltac:(lia)).
    cbv zeta. wp_steps. rewrite Ha1, swap_nums by lia.
    assert (Hp2 : Permutation (swapz l1 i (pick i)) l).
    { eapply Permutation_trans; [apply swapz_perm; lia | exact Hp1]. }
    split; [exists (swapz l1 i (pick i)); split; [reflexivity | exact Hp2]|].
    split; [exact Hst|]. split; [|split].
    + replace (Z.to_nat (n - 1 - (i - 1))) with (S (Z.to_nat (n - 1 - i))) by lia.
      rewrite downfrom_S, !map_app, Hmap. cbn [map compareIndexes].
      replace (n - 1 - Z.of_nat (Z.to_nat (n - 1 - i))) with i by lia. reflexivity.
    + apply Forall_app. split; [exact Hall|]. constructor; [|constructor].
      split; [reflexivity|]. split; [reflexivity|].
      exists (swapz l1 i (pick i)). split; [reflexivity | exact Hp2].
    + right. eexists _, _. split; reflexivity.
  - intros o [] m1 (H1 & H2 & H3 & H4 & H5). cbn [app].
    split; [exact H1|]. split; [exact H2|]. split; [|split; assumption].
    rewrite H3. f_equal. f_equal. lia.
Qed.

(** The accent pass: one step per position, in order, then a closing
    step; the array is only read. *)
Lemma accentGenerator_spec (m : Mem) :
  wp accentGenerator
     (fun o _ m' =>
        m' = m /\
        o = map (fun i => mkStep (arr m) (Some [i]) None None None) (iota (length (arr m)))
              ++ [mkStep (arr m) None None None None]) m.
Proof.
  unfold accentGenerator. wp_step. wp_step. cbv beta. wp_step.
  apply (wp_for_up _ _ _ _
           (fun i o _ m' =>
              m' = m /\ 0 <= i /\
              o = map (fun i => mkStep (arr m) (Some [i]) None None None) (iota (Z.to_nat i)))).
  - split; [reflexivity|]. split; [lia | reflexivity].
  - intros i o [] m1 Hi (-> & _ & ->). wp_steps.
    split; [reflexivity|]. split; [lia|].
    replace (Z.to_nat (i + 1)) with (S (Z.to_nat i)) by lia.
    rewrite iota_S, map_app. cbn [map]. rewrite Z2Nat.id by lia. reflexivity.
  - intros o [] m1 (-> & _ & ->). cbv beta. wp_steps.
    split; [reflexivity|].
    replace (Z.to_nat (Z.max 0 (len (arr m)))) with (length (arr m)) by (unfold len; lia).
    reflexivity.
Qed.
(* ================================================================== *)
(** * Merge sort: how many steps *)
(* ================================================================== *)

(** One merge of [left .. right] examines at most [right - left] pairs:
    each comparison moves one element into [merged], and the loop stops
    while one is still to move. *)
Lemma merge_steps (left mid right : Z) (m : Mem) :
  left <= mid -> mid < right ->
  wp (merge left mid right true)
     (fun o _ m' =>
        Z.of_nat (length o) <= right - left + 1 /\
        comparisons (stats m') - comparisons (stats m) <= right - left) m.
Proof.
  intros Hlm Hmr. unfold merge. wp_step. wp_step. cbv beta. wp_step.
  apply (wp_while_inv _ _
           (fun o '(i, j, _) m' =>
              left <= i <= mid + 1 /\ mid + 1 <= j <= right + 1 /\ (i <= mid \/ j <= right) /\
              Z.of_nat (length o) = (i - left) + (j - (mid + 1)) /\
              comparisons (stats m') = comparisons (stats m) + Z.of_nat (length o))
           (fun a _ => let '(i, j, _) := a in (mid + 1 - i) + (right + 1 - j))).
  - cbn [length Z.of_nat]. lia.
  - lia.
  - intros o [[i j] merged] m1 (Hi & Hj & Hor & Hlen & Hc) Hcond.
    apply andb_prop in Hcond. destruct Hcond as [Hi' Hj'].
    apply Z.leb_le in Hi', Hj'.
    wp_steps.
    destruct (js_le (get_idx (arr m1) i) (get_idx (arr m1) j)); wp_steps;
      rewrite length_app; cbn [length]; lia.
  - intros o [[i j] merged] m1 (Hi & Hj & Hor & Hlen & Hc) _. cbv beta iota.
    wp_step.
    apply (wp_for_up _ _ _ _ (fun _ o' _ m' => o' = [] /\ m' = m1)); [auto| |].
    { intros k o' acc m' _ [-> ->]. wp_steps. auto. }
    intros o1 merged1 m' [-> ->]. wp_step.
    apply (wp_for_up _ _ _ _ (fun _ o' _ m' => o' = [] /\ m' = m1)); [auto| |].
    { intros k o' acc m' _ [-> ->]. wp_steps. auto. }
    intros o2 merged2 m' [-> ->]. wp_step.
    apply (wp_for_up _ _ _ _ (fun _ o' _ m' => o' = [] /\ stats m' = stats m1)); [auto| |].
    { intros k o' acc m' _ [-> Hst]. wp_steps. auto. }
    intros o3 [] m2 [-> Hst]. wp_step. wp_step. cbv beta zeta. cbn [andb].
    destruct (0 <? Z.of_nat (length (changed_from (Z.to_nat (right + 1 - left)) left
                                       (arr m2) (arr m)))).
    + wp_steps. rewrite ?app_nil_r, ?length_app, Hst. cbn [length]. lia.
    + wp_steps. rewrite ?app_nil_r, ?length_app, Hst. cbn [length]. lia.
Qed.

(** A range of at most [2^d] positions is split [d] times at most. *)
Lemma mergeSortRecursive_steps (d : nat) :
  forall (fuel : nat) (left right : Z) (m : Mem),
    left <= right -> right - left + 1 <= 2 ^ Z.of_nat d -> right - left <= Z.of_nat fuel ->
    wp (mergeSortRecursive fuel left right true)
       (fun o _ m' =>
          Z.of_nat (length o) <= (right - left + 1) * Z.of_nat d /\
          comparisons (stats m') - comparisons (stats m)
            <= (right - left + 1) * Z.of_nat d) m.
Proof.
  induction d as [|d IH]; intros fuel left right m Hlr Hsz Hfuel.
  - change (2 ^ Z.of_nat 0) with 1 in Hsz.
    destruct fuel; cbn [mergeSortRecursive];
      (destruct (Z.ltb_spec left right); [lia|]); wp_steps; cbn [length Z.of_nat]; lia.
  - destruct fuel as [|fuel]; cbn [mergeSortRecursive];
      (destruct (Z.ltb_spec left right) as [Hlt|Hge]);
      try lia; try (wp_steps; cbn [length]; nia).
    cbv zeta.
    pose proof (Z.div_mod (left + right) 2 ltac:(lia)) as Hdm.
    pose proof (Z.mod_pos_bound (left + right) 2 ltac:(lia)) as Hmb.
    set (mid := (left + right) / 2) in *.
    rewrite Nat2Z.inj_succ, Z.pow_succ_r in Hsz by lia.
    wp_step.
    eapply wp_conseq; [apply (IH fuel left mid m); lia|].
    intros o1 [] m1 (Ho1 & Hc1). cbv beta.
    wp_step.
    eapply wp_conseq; [apply (IH fuel (mid + 1) right m1); lia|].
    intros o2 [] m2 (Ho2 & Hc2). cbv beta.
    eapply wp_conseq; [apply (merge_steps left mid right m2); lia|].
    intros o3 [] m3 (Ho3 & Hc3). cbv beta.
    rewrite !length_app. nia.
Qed.

Lemma mergeSort_steps (d : nat) (m : Mem) :
  len (arr m) <= 2 ^ Z.of_nat d ->
  wp (mergeSort true)
     (fun o _ m' =>
        Z.of_nat (length o) <= len (arr m) * Z.of_nat d /\
        comparisons (stats m') - comparisons (stats m) <= len (arr m) * Z.of_nat d) m.
Proof.
  intros Hsz. unfold mergeSort. wp_step. wp_step. cbv beta.
  set (n := len (arr m)) in *. cbn [app].
  destruct (Z.eq_dec n 0) as [Hn0|Hn0].
  - replace (Z.to_nat (n - 1)) with O by lia. cbn [mergeSortRecursive].
    destruct (Z.ltb_spec 0 (n - 1)); [lia|]. wp_steps. cbn [length Z.of_nat]. lia.
  - assert (0 <= n) by (unfold n, len; lia).
    eapply wp_conseq; [apply (mergeSortRecursive_steps d _ 0 (n - 1) m); lia|].
    intros o [] m1 (Ho & Hc). cbv beta.
    replace (n - 1 - 0 + 1) with n in * by lia. auto.
Qed.
(* ================================================================== *)
(** * Cycle sort: how many writes *)
(* ================================================================== *)

Lemma misplaced_iota_from (n s : nat) :
  misplaced (Z.of_nat s) (map Z.of_nat (seq s n)) = 0.
Proof.
  revert s. induction n as [|n IH]; intros s; cbn [seq map misplaced]; [reflexivity|].
  rewrite Z.eqb_refl. replace (Z.of_nat s + 1) with (Z.of_nat (S s)) by lia.
  rewrite IH. reflexivity.
Qed.

Lemma misplaced_iota (n : nat) : misplaced 0 (iota n) = 0.
Proof. apply (misplaced_iota_from n 0). Qed.

(** The scan only reads. *)
Lemma cycle_scan_keeps (a : list Z) (c item : Z) (m : Mem) :
  arr m = nums a -> 0 <= c < zlen a ->
  wp (cycle_scan c (zlen a) (Num item) true)
     (fun _ pos m' =>
        arr m' = nums a /\ pos = c + count_lt item (sub a (c + 1) (zlen a)) /\
        swaps (stats m') = swaps (stats m)) m.
Proof.
  intros Ha Hc.
  assert (W : wp (cycle_scan c (zlen a) (Num item) true)
                (fun _ _ m' => swaps (stats m') = swaps (stats m)) m).
  { unfold cycle_scan.
    apply (wp_for_up _ _ _ _ (fun _ _ _ m' => swaps (stats m') = swaps (stats m)));
      [reflexivity | | auto].
    intros i o pos m1 _ H. cbv zeta. wp_steps. exact H. }
  eapply wp_conseq; [apply (wp_and _ _ _ _ (cycle_scan_spec a c item m Ha Hc) W)|].
  intros o pos m' ((H1 & H2) & H3). auto.
Qed.

(** Every write puts an element at its final place, which held something
    else: it takes one from the positions that do not hold their index. *)
Lemma cycleSort_pays (l : list Z) (n fuel : nat) (m : Mem) :
  arr m = nums l -> Permutation l (iota n) -> (n <= fuel)%nat ->
  wp (cycleSort fuel true)
     (fun _ _ m' =>
        exists a, arr m' = nums a /\
          swaps (stats m') + misplaced 0 a = swaps (stats m) + misplaced 0 l) m.
Proof.
  intros Ha Hp Hfuel.
  assert (Hln : zlen l = Z.of_nat n) by (rewrite (perm_zlen _ _ Hp); apply zlen_iota).
  unfold cycleSort. wp_step. wp_step. cbv beta.
  rewrite Ha, len_nums, Hln.
  wp_step.
  apply (wp_for_up _ _ _ _
           (fun c _ _ m' =>
              exists a, arr m' = nums a /\ Permutation a (iota n) /\
                        (forall k, 0 <= k < c -> zth a k = k) /\
                        swaps (stats m') + misplaced 0 a = swaps (stats m) + misplaced 0 l)).
  - exists l. split; [exact Ha|]. split; [exact Hp|]. split; [intros k Hk; lia | reflexivity].
  - intros c o [] m1 Hc (a & Ha1 & Hp1 & Hfix & Hsw).
    assert (Hlen : zlen a = Z.of_nat n) by (rewrite (perm_zlen _ _ Hp1); apply zlen_iota).
    wp_step. wp_step. cbv beta. rewrite Ha1, get_nums by lia.
    pose proof (cycle_inv_start n a c ltac:(lia) Hp1 Hfix) as Hinv0.
    destruct (cycle_pos n a (zth a c) c Hlen ltac:(lia) Hinv0) as [Hr0 Hpos0].
    set (v := zth a c) in *.
    wp_step. rewrite <- Hlen.
    eapply wp_conseq; [apply (cycle_scan_keeps a c v m1 Ha1); lia|].
    intros o1 pos m2 (Ha2 & -> & Hsw2). cbv beta. rewrite Hlen, Hpos0.
    destruct (Z.eqb_spec v c) as [Evc|Nvc].
    + wp_steps. exists a. split; [exact Ha2|]. split; [exact Hp1|].
      split; [|lia].
      intros k Hk. destruct (Z.eq_dec k c) as [->|Hne]; [exact Evc | apply Hfix; lia].
    + pose proof (cycle_distinct n a v c Hlen ltac:(lia) Hinv0 Nvc) as Hd0.
      wp_step. unfold cycle_skip at 1.
      apply wp_while_exit.
      { rewrite Ha2, get_nums by lia. cbn [strict_eq value_eqb].
        apply Z.eqb_neq. congruence. }
      cbv beta. destruct (Z.eqb_spec v c) as [|_]; [contradiction|]. cbn [negb].
      wp_step. unfold cycle_place at 1. wp_steps.
      rewrite Ha2, get_nums, set_nums by lia.
      apply (wp_while_inv _ _
               (fun _ '(pos, item) m' =>
                  exists a' v', arr m' = nums a' /\ item = Num v' /\ zlen a' = Z.of_nat n /\
                    swaps (stats m') + misplaced 0 a' = swaps (stats m) + misplaced 0 l /\
                    ((pos <> c /\ cycle_inv n a' v' c /\ zth a' c <> c) \/
                     (pos = c /\ Permutation a' (iota n) /\
                      forall k, 0 <= k < c + 1 -> zth a' k = k)))
               (fun _ m' => misplaced 0 (ints (arr m')))).
      * exists (upd a v v), (zth a v). split; [reflexivity|]. split; [reflexivity|].
        split; [rewrite zlen_upd; exact Hlen|].
        split; [cbn [stats swaps]; rewrite misplaced_place by lia; lia|].
        left. split; [exact Nvc|].
        split; [apply cycle_inv_place; auto; lia|].
        rewrite zth_upd_other by lia. fold v. exact Nvc.
      * cbn [arr]. rewrite ints_nums.
        pose proof (misplaced_bounds (upd a v v) 0) as Hb. rewrite zlen_upd in Hb. lia.
      * intros o2 [pos item] m3 (a' & v' & Ha3 & -> & Hlen' & Hsw3 & Hst) Hcond.
        apply negb_true_iff in Hcond. apply Z.eqb_neq in Hcond.
        destruct Hst as [(_ & Hinv & Hc')|(Hpc & _)]; [|contradiction].
        destruct (cycle_pos n a' v' c Hlen' ltac:(lia) Hinv) as [Hr Hpos].
        assert (Hd : zth a' v' <> v').
        { destruct (Z.eq_dec v' c) as [->|Hne]; [exact Hc'|].
          apply (cycle_distinct n a' v' c); auto; lia. }
        wp_step. rewrite <- Hlen'.
        eapply wp_conseq; [apply (cycle_scan_keeps a' c v' m3 Ha3); lia|].
        intros o3 pos' m4 (Ha4 & -> & Hsw4). cbv beta. rewrite Hlen', Hpos.
        wp_step. unfold cycle_skip.
        apply wp_while_exit.
        { rewrite Ha4, get_nums by lia. cbn [strict_eq value_eqb].
          apply Z.eqb_neq. congruence. }
        cbv beta. wp_step. wp_step. cbv beta.
        rewrite Ha4, get_nums by lia. unfold strict_neq. cbn [value_eqb].
        destruct (Z.eqb_spec v' (zth a' v')) as [E|_]; [congruence|]. cbn [negb].
        unfold cycle_place. wp_steps.
        rewrite Ha4, Ha3, get_nums, set_nums, !ints_nums by lia.
        split.
        -- exists (upd a' v' v'), (zth a' v'). split; [reflexivity|]. split; [reflexivity|].
           split; [rewrite zlen_upd; exact Hlen'|].
           split; [rewrite misplaced_place by lia; lia|].
           destruct (Z.eq_dec v' c) as [->|Hne].
           ++ right. split; [reflexivity|]. apply cycle_inv_close; auto; lia.
           ++ left. split; [exact Hne|]. split; [apply cycle_inv_place; auto; lia|].
              rewrite zth_upd_other by lia. exact Hc'.
        -- rewrite misplaced_place by lia.
           pose proof (misplaced_bounds (upd a' v' v') 0) as Hb.
           rewrite misplaced_place in Hb by lia. lia.
      * intros o2 [pos item] m3 (a' & v' & Ha3 & -> & Hlen' & Hsw3 & Hst) Hcond.
        apply negb_false_iff in Hcond. apply Z.eqb_eq in Hcond.
        destruct Hst as [(Hpc & _)|(_ & Hp' & Hfix')]; [contradiction|].
        wp_steps. exists a'. auto.
  - intros o [] m1 (a & Ha1 & Hp1 & Hfix & Hsw). cbv beta. wp_steps.
    exists a. auto.
Qed.

Lemma cycleSort_swaps (l : list Z) (n fuel : nat) :
  Permutation l (iota n) -> (n <= fuel)%nat ->
  swaps (final_stats (cycleSort fuel true) (nums l)) = misplaced 0 l.
Proof.
  intros Hp Hf.
  pose proof (wp_and _ _ _ _
                (cycleSort_sorted l n fuel (mkMem (nums l) (mkStats 0 0)) eq_refl Hp Hf)
                (cycleSort_pays l n fuel (mkMem (nums l) (mkStats 0 0)) eq_refl Hp Hf)) as W.
  destruct W as (o & m' & [] & Hrun & ((l1 & Ha1 & Hp1 & Hs) & _) & (a & Ha & E)).
  unfold final_stats, run. rewrite Hrun. cbn [mem fst snd].
  rewrite Ha1 in Ha. apply nums_inj in Ha. subst a.
  assert (l1 = iota n).
  { apply sorted_perm_iota; [|exact Hs]. eapply Permutation_trans; eassumption. }
  subst l1. rewrite misplaced_iota in E. cbn [stats swaps] in E. lia.
Qed.
(* ================================================================== *)
(** * Steps that can be presented *)
(* ================================================================== *)

(** What the drivers of the page yield on an order of strips stays an
    order of strips, and the positions they sound are positions of the
    array: every such step can be drawn and sounded. *)

Lemma order_of_nums (l : list Z) :
  Forall (fun z => 0 <= z < zlen l) l -> order_of (zlen l) (nums l).
Proof. intros H. exists l. auto. Qed.

Lemma order_of_len (n : Z) (a : jsarray) : order_of n a -> len a = n.
Proof. intros (l & -> & Hl & _). rewrite len_nums. exact Hl. Qed.

Lemma order_of_perm (l l' : list Z) :
  Forall (fun z => 0 <= z < zlen l) l -> Permutation l' l -> order_of (zlen l) (nums l').
Proof.
  intros Hall Hp. exists l'. split; [reflexivity|]. split; [apply perm_zlen; exact Hp|].
  apply Forall_forall. intros z Hz. rewrite Forall_forall in Hall.
  apply Hall. apply (Permutation_in _ Hp). exact Hz.
Qed.

Lemma order_of_drawable (context : Context) (n : Z) (a : jsarray) :
  order_of n a -> n <= canvas_width context -> 1 <= canvas_height context ->
  drawable Available context a = true.
Proof.
  intros H Hw Hh. pose proof (order_of_len n a H) as Hlen.
  destruct H as (l & -> & Hl & Hall).
  apply drawable_indexes; [lia | exact Hh|].
  rewrite Hlen. apply nums_strip_index. exact Hall.
Qed.

Lemma positions_audible (duration n : Z) (indexes : list Z) :
  0 <= duration -> Forall (fun i => 0 <= i < n) indexes -> audible duration n indexes = true.
Proof.
  intros Hd Hall. unfold audible. destruct indexes as [|i rest]; [reflexivity|].
  assert (Hn : 1 <= n) by (inversion Hall; subst; lia).
  apply andb_true_intro. split; [apply andb_true_intro; split|].
  - apply negb_true_iff. apply Z.eqb_neq. lia.
  - apply Z.leb_le. exact Hd.
  - apply forallb_forall. intros x Hx. rewrite Forall_forall in Hall.
    specialize (Hall x Hx). unfold safe_index.
    assert (0 < 2 ^ 53) by (apply Z.pow_pos_nonneg; lia).
    apply andb_true_intro. split; [apply Z.leb_le | apply Z.leb_le]; nia.
Qed.

(** A plain step can be presented on a canvas wide enough, for a
    duration that is not negative. *)
Lemma plain_showable (context : Context) (duration n : Z) (s : Step) :
  n <= canvas_width context -> 1 <= canvas_height context -> 0 <= duration ->
  plain_step n s -> showable Available context duration n s = true.
Proof.
  intros Hw Hh Hd [Ho Hi]. unfold showable. apply andb_true_intro. split.
  - apply (order_of_drawable context n); assumption.
  - apply positions_audible; assumption.
Qed.

Lemma plain_mk (n : Z) (a : jsarray) (sw cmp : option (list Z)) (c w : option Z) :
  order_of n a ->
  Forall (fun i => 0 <= i < n)
    (match cmp with
     | Some (x :: xs) => x :: xs
     | _ => match sw with Some l => l | None => [] end
     end) ->
  plain_step n (mkStep a sw cmp c w).
Proof.
  intros Ha Hi. split; [exact Ha|].
  unfold enqueue. cbn [swappedIndexes compareIndexes q_soundIndexes].
  destruct cmp as [[|x xs]|]; exact Hi.
Qed.

Lemma Forall_snoc {A} (P : A -> Prop) (l : list A) (x : A) :
  Forall P l -> P x -> Forall P (l ++ [x]).
Proof. intros Hl Hx. apply Forall_app. split; [exact Hl | constructor; [exact Hx | constructor]]. Qed.

Lemma swapz_range (l : list Z) (i j n : Z) :
  0 <= i < zlen l -> 0 <= j < zlen l ->
  Forall (fun z => 0 <= z < n) l -> Forall (fun z => 0 <= z < n) (swapz l i j).
Proof.
  intros Hi Hj Hall. apply Forall_forall. intros z Hz. rewrite Forall_forall in Hall.
  apply Hall. apply (Permutation_in _ (swapz_perm l i j Hi Hj)). exact Hz.
Qed.

Lemma zth_range (l : list Z) (i n : Z) :
  0 <= i < zlen l -> Forall (fun z => 0 <= z < n) l -> 0 <= zth l i < n.
Proof.
  intros Hi Hall. rewrite Forall_forall in Hall. apply Hall.
  unfold zth. apply nth_In. unfold zlen in Hi. lia.
Qed.

Lemma upd_range (l : list Z) (i x n : Z) :
  0 <= x < n -> Forall (fun z => 0 <= z < n) l -> Forall (fun z => 0 <= z < n) (upd l i x).
Proof.
  intros Hx Hall. unfold upd. generalize (Z.to_nat i) as k.
  induction Hall as [|y l Hy Hl IH]; intros k; [destruct k; constructor|].
  destruct k; cbn [upd_at]; constructor; auto.
Qed.

(** ** Selection sort *)

Lemma selectionSort_plain (l : list Z) (m : Mem) :
  arr m = nums l -> Forall (fun z => 0 <= z < zlen l) l ->
  wp (selectionSort true)
     (fun o _ m' => Forall (plain_step (zlen l)) o /\ order_of (zlen l) (arr m')) m.
Proof.
  intros Ha Hall. set (n := zlen l) in *.
  unfold selectionSort. wp_step. wp_step. cbv beta.
  rewrite Ha, len_nums. fold n. wp_step.
  apply (wp_for_up _ _ _ _
           (fun i o prev m' =>
              Forall (plain_step n) o /\ Forall (fun x => 0 <= x < n) prev /\
              exists l1, arr m' = nums l1 /\ zlen l1 = n /\ Forall (fun z => 0 <= z < n) l1)).
  - split; [constructor|]. split; [constructor|]. exists l. auto.
  - intros i o prev m1 Hi (Ho & Hprev & l1 & Ha1 & Hlen & Hall1).
    wp_step.
    apply (wp_for_up _ _ _ _
             (fun j o' mi m' =>
                arr m' = nums l1 /\ i <= mi < n /\ Forall (plain_step n) o')).
    + split; [exact Ha1|]. split; [lia | constructor].
    + intros j o' mi m2 Hj (Ha2 & Hmi & Ho'). wp_steps.
      rewrite Ha2, !get_nums by lia. cbn [js_lt].
      split; [reflexivity|]. split; [destruct (zth l1 j <? zth l1 mi); lia|].
      apply Forall_snoc; [exact Ho'|]. apply plain_mk.
      * exists l1. auto.
      * repeat constructor; lia.
    + intros o' mi m2 (Ha2 & Hmi & Ho'). cbv beta.
      destruct (Z.eqb_spec mi i) as [->|Hne].
      * wp_steps. rewrite app_nil_r.
        split; [apply Forall_app; split; assumption|]. split; [exact Hprev|].
        exists l1. auto.
      * wp_steps. rewrite Ha2, swap_nums by lia.
        split; [|split].
        -- rewrite app_assoc. apply Forall_snoc; [apply Forall_app; split; assumption|].
           apply plain_mk.
           ++ exists (swapz l1 i mi). split; [reflexivity|].
              split; [rewrite zlen_swapz; exact Hlen|]. apply swapz_range; auto; lia.
           ++ repeat constructor; lia.
        -- repeat constructor; lia.
        -- exists (swapz l1 i mi). split; [reflexivity|].
           split; [rewrite zlen_swapz; exact Hlen|]. apply swapz_range; auto; lia.
  - intros o prev m1 (Ho & _ & l1 & Ha1 & Hlen & Hall1). cbv beta. wp_steps.
    split; [|exists l1; auto].
    apply Forall_snoc; [exact Ho|]. apply plain_mk; [exists l1; auto | constructor].
Qed.

(** ** Insertion sort *)

Lemma insertionSort_plain (l : list Z) (m : Mem) :
  arr m = nums l -> Forall (fun z => 0 <= z < zlen l) l ->
  wp (insertionSort true)
     (fun o _ m' => Forall (plain_step (zlen l)) o /\ order_of (zlen l) (arr m')) m.
Proof.
  intros Ha Hall. set (n := zlen l) in *.
  unfold insertionSort. wp_step. wp_step. cbv beta.
  rewrite Ha, len_nums. fold n. wp_step.
  apply (wp_for_up _ _ _ _
           (fun i o prev m' =>
              Forall (plain_step n) o /\ Forall (fun x => 0 <= x < n) prev /\
              exists l1, arr m' = nums l1 /\ zlen l1 = n /\ Forall (fun z => 0 <= z < n) l1)).
  - split; [constructor|]. split; [constructor|]. exists l. auto.
  - intros i o prev m1 Hi (Ho & Hprev & l1 & Ha1 & Hlen & Hall1).
    wp_step. wp_step. cbv beta. rewrite Ha1, get_nums by lia.
    pose proof (zth_range l1 i n ltac:(lia) Hall1) as Hkey.
    set (key := zth l1 i) in *.
    wp_step.
    apply (wp_while_inv _ _
             (fun o' '(j, pr) m' =>
                Forall (plain_step n) o' /\ Forall (fun x => 0 <= x < n) pr /\ -1 <= j < i /\
                exists a, arr m' = nums a /\ zlen a = n /\ Forall (fun z => 0 <= z < n) a)
             (fun '(j, _) _ => j + 1)).
    + split; [constructor|]. split; [exact Hprev|]. split; [lia|]. exists l1. auto.
    + lia.
    + intros o1 [j pr] m2 (Ho1 & Hpr & Hj & a & Ha2 & Hla & Halla) Hc.
      apply andb_prop in Hc. destruct Hc as [Hj0 _]. apply Z.geb_le in Hj0.
      wp_steps. rewrite Ha2, get_nums by lia.
      split; [|lia]. split; [|split; [|split]].
      * apply Forall_snoc; [exact Ho1|]. apply plain_mk; [exists a; auto|].
        repeat constructor; lia.
      * repeat constructor; lia.
      * lia.
      * exists (upd a (j + 1) (zth a j)).
        split; [apply set_nums; lia|]. split; [rewrite zlen_upd; exact Hla|].
        apply upd_range; [apply zth_range; [lia | exact Halla] | exact Halla].
    + intros o1 [j pr] m2 (Ho1 & Hpr & Hj & a & Ha2 & Hla & Halla) _.
      wp_steps. rewrite Ha2, set_nums by lia.
      assert (Hnew : order_of n (nums (upd a (j + 1) key))).
      { exists (upd a (j + 1) key). split; [reflexivity|].
        split; [rewrite zlen_upd; exact Hla|]. apply upd_range; assumption. }
      split; [|split; [exact Hpr|]].
      * rewrite app_assoc. apply Forall_snoc; [apply Forall_app; split; assumption|].
        apply plain_mk; [exact Hnew | exact Hpr].
      * destruct Hnew as (b & Hb & Hlb & Hallb). exists b. auto.
  - intros o prev m1 (Ho & _ & l1 & Ha1 & Hlen & Hall1). cbv beta. wp_steps.
    split; [|exists l1; auto].
    apply Forall_snoc; [exact Ho|]. apply plain_mk; [exists l1; auto | constructor].
Qed.

(** ** Merge sort *)

Lemma merge_plain (a : list Z) (left mid right : Z) (m : Mem) :
  arr m = nums a -> Forall (fun z => 0 <= z < zlen a) a ->
  0 <= left <= mid -> mid < right -> right < zlen a ->
  wp (merge left mid right true)
     (fun o _ m' =>
        Forall (plain_step (zlen a)) o /\
        exists a', arr m' = nums a' /\ zlen a' = zlen a /\
                   Forall (fun z => 0 <= z < zlen a) a') m.
Proof.
  intros Ha Hall Hl Hm Hr. set (n := zlen a) in *. unfold merge.
  wp_step. wp_step. cbv beta. wp_step.
  apply (wp_while_inv _ _
           (fun o '(i, j, merged) m' =>
              arr m' = nums a /\ Forall (plain_step n) o /\
              left <= i <= mid + 1 /\ mid + 1 <= j <= right + 1 /\
              exists mz, merged = nums mz /\ zlen mz = (i - left) + (j - (mid + 1)) /\
                         Forall (fun z => 0 <= z < n) mz)
           (fun '(i, j, _) _ => (mid + 1 - i) + (right + 1 - j))).
  - split; [exact Ha|]. split; [constructor|].
    split; [lia|]. split; [lia|]. exists []. split; [reflexivity|].
    split; [unfold zlen; cbn; lia | constructor].
  - lia.
  - intros o [[i j] merged] m1 (Ha1 & Ho & Hi & Hj & mz & -> & Hlz & Hallz) Hc.
    apply andb_prop in Hc. destruct Hc as [Hi' Hj']. apply Z.leb_le in Hi', Hj'.
    wp_steps. rewrite Ha1, !get_nums by lia. cbn [js_le].
    assert (Hstep : Forall (plain_step n)
              (o ++ [mkStep (nums a) (Some []) (Some [i; j])
                       (Some (comparisons (stats m1) + 1)) (Some (swaps (stats m1)))])).
    { apply Forall_snoc; [exact Ho|]. apply plain_mk; [exists a; auto|].
      repeat constructor; lia. }
    destruct (zth a i <=? zth a j); wp_steps.
    + split; [|lia]. split; [reflexivity|]. split; [exact Hstep|].
      split; [lia|]. split; [lia|].
      exists (mz ++ [zth a i]). split; [apply nums_snoc|].
      split; [rewrite zlen_app; unfold zlen at 2; cbn [length]; lia|].
      apply Forall_snoc; [exact Hallz | apply zth_range; [lia | exact Hall]].
    + split; [|lia]. split; [reflexivity|]. split; [exact Hstep|].
      split; [lia|]. split; [lia|].
      exists (mz ++ [zth a j]). split; [apply nums_snoc|].
      split; [rewrite zlen_app; unfold zlen at 2; cbn [length]; lia|].
      apply Forall_snoc; [exact Hallz | apply zth_range; [lia | exact Hall]].
  - intros o [[i j] merged] m1 (Ha1 & Ho & Hi & Hj & mz & -> & Hlz & Hallz) Hc.
    cbv beta iota.
    assert (Hside : i = mid + 1 \/ j = right + 1).
    { apply andb_false_iff in Hc. destruct Hc as [Hc|Hc]; apply Z.leb_gt in Hc; lia. }
    wp_step.
    apply (wp_for_up _ _ _ _
             (fun i' o' mg m' =>
                o' = [] /\ m' = m1 /\
                exists mz', mg = nums mz' /\ zlen mz' = (i' - left) + (j - (mid + 1)) /\
                            Forall (fun z => 0 <= z < n) mz')).
    { split; [reflexivity|]. split; [reflexivity|]. exists mz. auto. }
    { intros i' o' mg m' Hi' (-> & -> & mz' & -> & Hlz' & Hallz').
      wp_steps. rewrite Ha1, get_nums by lia.
      split; [reflexivity|]. split; [reflexivity|].
      exists (mz' ++ [zth a i']). split; [apply nums_snoc|].
      split; [rewrite zlen_app; unfold zlen at 2; cbn [length]; lia|].
      apply Forall_snoc; [exact Hallz' | apply zth_range; [lia | exact Hall]]. }
    intros o1 mg1 m' (-> & -> & mz1 & -> & Hlz1 & Hallz1).
    replace (Z.max i (mid + 1)) with (mid + 1) in Hlz1 by lia.
    wp_step.
    apply (wp_for_up _ _ _ _
             (fun j' o' mg m' =>
                o' = [] /\ m' = m1 /\
                exists mz', mg = nums mz' /\ zlen mz' = (mid + 1 - left) + (j' - (mid + 1)) /\
                            Forall (fun z => 0 <= z < n) mz')).
    { split; [reflexivity|]. split; [reflexivity|]. exists mz1. auto. }
    { intros j' o' mg m' Hj' (-> & -> & mz' & -> & Hlz' & Hallz').
      wp_steps. rewrite Ha1, get_nums by lia.
      split; [reflexivity|]. split; [reflexivity|].
      exists (mz' ++ [zth a j']). split; [apply nums_snoc|].
      split; [rewrite zlen_app; unfold zlen at 2; cbn [length]; lia|].
      apply Forall_snoc; [exact Hallz' | apply zth_range; [lia | exact Hall]]. }
    intros o2 mg2 m' (-> & -> & mz2 & -> & Hlz2 & Hallz2).
    replace (Z.max j (right + 1)) with (right + 1) in Hlz2 by lia.
    wp_step.
    apply (wp_for_up _ _ _ _
             (fun k o' _ m' =>
                o' = [] /\ stats m' = stats m1 /\
                exists b, arr m' = nums b /\ zlen b = n /\ Forall (fun z => 0 <= z < n) b)).
    { split; [reflexivity|]. split; [reflexivity|]. exists a. auto. }
    { intros k o' [] m' Hk (-> & Hst & b & Hb & Hlb & Hallb).
      wp_steps. rewrite get_nums by lia. rewrite Hb, set_nums by lia.
      split; [reflexivity|]. split; [exact Hst|].
      exists (upd b k (zth mz2 (k - left))).
      split; [reflexivity|]. split; [rewrite zlen_upd; exact Hlb|].
      apply upd_range; [apply zth_range; [lia | exact Hallz2] | exact Hallb]. }
    intros o3 [] m2 (-> & Hst & b & Hb & Hlb & Hallb).
    wp_step. wp_step. cbv beta zeta. cbn [andb].
    rewrite ?app_nil_r.
    destruct (changed_from (Z.to_nat (right + 1 - left)) left (arr m2) (arr m)) as [|c cs] eqn:E.
    + change (0 <? Z.of_nat (length (@nil Z))) with false. cbv iota.
      wp_steps. rewrite ?app_nil_r. split; [exact Ho|]. exists b. auto.
    + replace (0 <? Z.of_nat (length (c :: cs))) with true
        by (symmetry; apply Z.ltb_lt; cbn [length]; lia).
      wp_steps. rewrite ?app_nil_r. split; [|exists b; auto].
      apply Forall_snoc; [exact Ho|]. apply plain_mk; [exists b; auto|].
      rewrite <- E. apply Forall_forall. intros x Hx.
      apply changed_from_In in Hx. lia.
Qed.

Lemma mergeSortRecursive_plain (fuel : nat) :
  forall (left right : Z) (a : list Z) (m : Mem),
    arr m = nums a -> Forall (fun z => 0 <= z < zlen a) a ->
    0 <= left -> right < zlen a -> right - left <= Z.of_nat fuel ->
    wp (mergeSortRecursive fuel left right true)
       (fun o _ m' =>
          Forall (plain_step (zlen a)) o /\
          exists a', arr m' = nums a' /\ zlen a' = zlen a /\
                     Forall (fun z => 0 <= z < zlen a) a') m.
Proof.
  induction fuel as [|fuel IH]; intros left right a m Ha Hall Hl Hr Hfuel;
    cbn [mergeSortRecursive].
  - destruct (Z.ltb_spec left right); [lia|]. wp_steps.
    split; [constructor | exists a; auto].
  - destruct (Z.ltb_spec left right) as [Hlt|Hge].
    + cbv zeta.
      pose proof (Z.div_mod (left + right) 2 ltac:(lia)) as Hdm.
      pose proof (Z.mod_pos_bound (left + right) 2 ltac:(lia)) as Hmb.
      set (mid := (left + right) / 2) in *.
      wp_step.
      eapply wp_conseq; [apply (IH left mid a m Ha Hall); lia|].
      intros o1 [] m1 (Ho1 & a1 & Ha1 & Hl1 & Hall1). cbv beta.
      wp_step. rewrite <- Hl1 in Hall1.
      eapply wp_conseq; [apply (IH (mid + 1) right a1 m1 Ha1 Hall1); lia|].
      intros o2 [] m2 (Ho2 & a2 & Ha2 & Hl2 & Hall2). cbv beta.
      rewrite <- Hl2 in Hall2.
      eapply wp_conseq; [apply (merge_plain a2 left mid right m2 Ha2 Hall2); lia|].
      intros o3 [] m3 (Ho3 & a3 & Ha3 & Hl3 & Hall3). cbv beta.
      rewrite Hl2, Hl1 in *.
      split; [repeat (apply Forall_app; split); assumption|].
      exists a3. split; [exact Ha3|]. split; [lia | exact Hall3].
    + wp_steps. split; [constructor | exists a; auto].
Qed.

Lemma mergeSort_plain (l : list Z) (m : Mem) :
  arr m = nums l -> Forall (fun z => 0 <= z < zlen l) l ->
  wp (mergeSort true)
     (fun o _ m' => Forall (plain_step (zlen l)) o /\ order_of (zlen l) (arr m')) m.
Proof.
  intros Ha Hall. unfold mergeSort. wp_step. wp_step. cbv beta.
  rewrite Ha, len_nums.
  eapply wp_conseq; [apply (mergeSortRecursive_plain _ 0 (zlen l - 1) l m Ha Hall); lia|].
  intros o [] m1 (Ho & a1 & Ha1 & Hl1 & Hall1). cbv beta. cbn [app].
  split; [exact Ho|]. exists a1. auto.
Qed.

(** ** Shuffle and accent *)

Lemma shuffleGenerator_plain (pick : Z -> Z) (l : list Z) (m : Mem) :
  arr m = nums l -> Forall (fun z => 0 <= z < zlen l) l ->
  (forall i, 1 <= i < zlen l -> 0 <= pick i <= i) ->
  wp (shuffleGenerator pick)
     (fun o _ m' => Forall (plain_step (zlen l)) o /\ order_of (zlen l) (arr m')) m.
Proof.
  intros Ha Hall Hpick. set (n := zlen l) in *.
  unfold shuffleGenerator. wp_step. wp_step. cbv beta.
  rewrite Ha, len_nums. fold n.
  apply (wp_for_down_gt _ _ _ _
           (fun i o _ m' =>
              Forall (plain_step n) o /\
              exists l1, arr m' = nums l1 /\ zlen l1 = n /\ Forall (fun z => 0 <= z < n) l1)).
  - split; [constructor | exists l; auto].
  - intros i o [] m1 Hi (Ho & l1 & Ha1 & Hlen & Hall1).
    specialize (Hpick i ltac:(lia)).
    cbv zeta. wp_steps. rewrite Ha1, swap_nums by lia.
    assert (Hnew : order_of n (nums (swapz l1 i (pick i)))).
    { exists (swapz l1 i (pick i)). split; [reflexivity|].
      split; [rewrite zlen_swapz; exact Hlen|]. apply swapz_range; auto; lia. }
    split.
    + apply Forall_snoc; [exact Ho|]. apply plain_mk; [exact Hnew|].
      repeat constructor; lia.
    + destruct Hnew as (b & Hb & Hlb & Hallb). exists b. auto.
  - intros o [] m1 (Ho & l1 & Ha1 & Hlen & Hall1). cbn [app].
    split; [exact Ho | exists l1; auto].
Qed.

Lemma accentGenerator_plain (l : list Z) (m : Mem) :
  arr m = nums l -> Forall (fun z => 0 <= z < zlen l) l ->
  wp accentGenerator
     (fun o _ m' => Forall (plain_step (zlen l)) o /\ order_of (zlen l) (arr m')) m.
Proof.
  intros Ha Hall.
  eapply wp_conseq; [apply accentGenerator_spec|].
  intros o [] m' (-> & ->). cbv beta. rewrite Ha.
  assert (Ho : order_of (zlen l) (nums l)) by (apply order_of_nums; exact Hall).
  split; [|exact Ho].
  apply Forall_app. split.
  - apply Forall_forall. intros s Hs. apply in_map_iff in Hs.
    destruct Hs as (i & <- & Hi). apply plain_mk; [exact Ho|].
    unfold iota in Hi. apply in_map_iff in Hi. destruct Hi as (k & <- & Hk).
    apply in_seq in Hk. unfold nums in Hk. rewrite length_map in Hk.
    repeat constructor; unfold zlen; lia.
  - constructor; [|constructor]. apply plain_mk; [exact Ho | constructor].
Qed.
(* ================================================================== *)
(** * Playing a generator *)
(* ================================================================== *)

Lemma drawn_app (e1 e2 : list Event) : drawn (e1 ++ e2) = drawn e1 ++ drawn e2.
Proof. unfold drawn. apply flat_map_app. Qed.


Lemma last_In {A} : forall (l : list A) (d : A), In (last l d) (d :: l).
Proof.
  induction l as [|x l IH]; intros d; [left; reflexivity|].
  rewrite last_cons_default. right. apply IH.
Qed.

Lemma In_firstn {A} (n : nat) (l : list A) (x : A) : In x (firstn n l) -> In x l.
Proof. intros H. rewrite <- (firstn_skipn n l). apply in_or_app. left. exact H. Qed.

Lemma In_skipn {A} (n : nat) (l : list A) (x : A) : In x (skipn n l) -> In x l.
Proof. intros H. rewrite <- (firstn_skipn n l). apply in_or_app. right. exact H. Qed.

(** Every frame draws the array of one of the queued steps. *)
Lemma drawn_frames (k : jsnum) (duration n : Z) : forall fuel queue,
  at_least_one k = true -> (length queue <= fuel)%nat ->
  Forall (fun a => exists e, In e queue /\ a = q_array e)
    (drawn (flat_map (frame_events duration n) (chunks fuel k queue))).
Proof.
  induction fuel as [|fuel IH]; intros queue Hk Hlen.
  - destruct queue; [constructor | simpl in Hlen; lia].
  - destruct queue as [|e queue]; [constructor|].
    cbn [chunks length]. rewrite frame_len_cons by assumption.
    set (c := take_count k 1 (length queue)).
    cbn [firstn skipn flat_map frame_events]. rewrite drawn_app.
    apply Forall_app. split.
    + cbn. constructor; [|constructor].
      exists (last (firstn c queue) e). split; [|reflexivity].
      destruct (last_In (firstn c queue) e) as [<-|H]; [left; reflexivity|].
      right. apply (In_firstn c). exact H.
    + assert (Hs : (length (skipn c queue) <= fuel)%nat).
      { rewrite length_skipn. simpl in Hlen. lia. }
      specialize (IH (skipn c queue) Hk Hs).
      eapply Forall_impl; [|exact IH].
      intros a (e' & He' & ->). exists e'. split; [|reflexivity].
      right. apply (In_skipn c). exact He'.
Qed.



(** The frames of a presentation that takes steps are not empty. *)
Lemma chunks_nonempty (k : jsnum) : forall fuel queue,
  at_least_one k = true -> Forall (fun g => g <> []) (chunks fuel k queue).
Proof.
  induction fuel as [|fuel IH]; intros queue Hk.
  - destruct queue; constructor.
  - destruct queue as [|e queue]; [constructor|].
    cbn [chunks length]. rewrite frame_len_cons by assumption.
    cbn [firstn]. constructor; [discriminate | apply IH; exact Hk].
Qed.

(** Each frame sounds the sound set of its first entry. *)
Lemma sounded_frames (duration n : Z) : forall groups : list (list QueueEntry),
  Forall (fun g => g <> []) groups ->
  sounded (flat_map (frame_events duration n) groups) = map frame_sound groups.
Proof.
  induction 1 as [|g groups Hg _ IH]; [reflexivity|].
  destruct g as [|e rest]; [contradiction|].
  cbn [flat_map frame_events map frame_sound app]. unfold sounded in *.
  cbn [flat_map app]. rewrite IH. reflexivity.
Qed.

(** Steps that can each be presented make frames that can. *)
Lemma presentable_chunks (image : Image) (context : Context) (k : jsnum) (duration n : Z) :
  forall fuel queue,
  at_least_one k = true ->
  Forall (fun e => drawable image context (q_array e) = true /\
                   audible duration n (q_soundIndexes e) = true) queue ->
  forallb (presentable image context duration n) (chunks fuel k queue) = true.
Proof.
  induction fuel as [|fuel IH]; intros queue Hk Hall.
  - destruct queue; reflexivity.
  - destruct queue as [|e queue]; [reflexivity|].
    cbn [chunks length]. rewrite frame_len_cons by assumption.
    set (c := take_count k 1 (length queue)).
    cbn [firstn skipn forallb presentable].
    rewrite Forall_forall in Hall.
    apply andb_true_intro. split; [apply andb_true_intro; split|].
    + assert (Hin : In (last (firstn c queue) e) (e :: queue)).
      { destruct (last_In (firstn c queue) e) as [<-|H]; [left; reflexivity|].
        right. apply (In_firstn c). exact H. }
      apply (Hall _ Hin).
    + apply (Hall e). left. reflexivity.
    + apply IH; [exact Hk|]. apply Forall_forall. intros x Hx.
      apply Hall. right. apply (In_skipn c). exact Hx.
Qed.

Lemma showable_queue (image : Image) (context : Context) (duration n : Z)
    (steps : list Step) :
  Forall (fun s => showable image context duration n s = true) steps ->
  Forall (fun e => drawable image context (q_array e) = true /\
                   audible duration n (q_soundIndexes e) = true) (map enqueue steps).
Proof.
  intros H. apply Forall_forall. intros e He. apply in_map_iff in He.
  destruct He as (s & <- & Hs). rewrite Forall_forall in H.
  specialize (H s Hs). unfold showable in H. apply andb_true_iff in H. exact H.
Qed.

(** What the drain settles on: the array object when nothing was
    yielded, else the array of a step. *)
Lemma settle_cases (u : jsarray) (steps : list Step) :
  (steps = [] /\ settle u steps = u) \/
  (exists s, In s steps /\ settle u steps = array s).
Proof.
  destruct steps as [|x steps]; [left; split; reflexivity|].
  right. exists (last steps x). split; [|reflexivity].
  destruct (last_In steps x) as [<-|H]; [left; reflexivity | right; exact H].
Qed.

(** [animateSort] on a program run that returns, or that yields more
    than the cap, when frames take steps and every step consumed can be
    presented. *)
Lemma animateSort_iterator_of (image : Image) (context : Context) (arr_ : jsarray)
    (interval frameDuration : Z) (generator : Generator) (yieldCompare : option bool)
    (r : list Step * Mem * option unit) :
  let k := numStepsPerFrame frameDuration interval in
  let duration := Z.max frameDuration interval in
  let steps := firstn safetyCap (out r) in
  let queue := map enqueue steps in
  generator arr_ yieldCompare = iterator_of r ->
  res r <> None \/ (safetyCap < length (out r))%nat ->
  at_least_one k = true ->
  Forall (fun s => showable image context duration (len arr_) s = true) steps ->
  drawable image context (settle (arr (mem r)) steps) = true ->
  animateSort image context arr_ interval frameDuration generator yieldCompare =
    (flat_map (frame_events duration (len arr_)) (chunks (length queue) k queue)
       ++ [Draw (settle (arr (mem r)) steps) []],
     Returned (settle (arr (mem r)) steps)).
Proof.
  intros k duration steps queue Hg Hres Hk Hall Hfinal.
  apply animateSort_frames.
  - rewrite Hg. apply drain_iterator_of. exact Hres.
  - left. exact Hk.
  - apply presentable_chunks; [exact Hk|]. apply showable_queue. exact Hall.
  - exact Hfinal.
Qed.

(** The arrays drawn by frames are arrays of queued steps. *)
Lemma drawn_steps (k : jsnum) (duration n : Z) (steps : list Step) (P : jsarray -> Prop) :
  at_least_one k = true ->
  Forall (fun s => P (array s)) steps ->
  Forall P (drawn (flat_map (frame_events duration n)
                     (chunks (length (map enqueue steps)) k (map enqueue steps)))).
Proof.
  intros Hk Hall.
  eapply Forall_impl; [|apply drawn_frames; [exact Hk | apply le_n]].
  intros a (e & He & ->). apply in_map_iff in He. destruct He as (s & <- & Hs).
  rewrite Forall_forall in Hall. apply (Hall s Hs).
Qed.

(** A run known through [wp]. *)
Lemma wp_run (p : Prog unit) (a : jsarray) (Q : list Step -> unit -> Mem -> Prop) :
  wp p Q (mkMem a (mkStats 0 0)) ->
  res (run p a) <> None /\ Q (out (run p a)) tt (mem (run p a)).
Proof.
  intros (o & m' & [] & Hrun & HQ). unfold run. rewrite Hrun.
  split; [discriminate | exact HQ].
Qed.

(** Playing a run whose steps are plain, on a canvas wide enough: every
    frame is presented, and what is drawn are orders of the strips. *)
Lemma play_plain (context : Context) (arr_ : jsarray) (interval frameDuration : Z)
    (generator : Generator) (yieldCompare : option bool) (r : list Step * Mem * option unit) :
  let n := len arr_ in
  let k := numStepsPerFrame frameDuration interval in
  let duration := Z.max frameDuration interval in
  let steps := firstn safetyCap (out r) in
  let queue := map enqueue steps in
  let frames := flat_map (frame_events duration n) (chunks (length queue) k queue) in
  generator arr_ yieldCompare = iterator_of r ->
  res r <> None \/ (safetyCap < length (out r))%nat ->
  Forall (plain_step n) (out r) -> order_of n (arr (mem r)) ->
  n <= canvas_width context -> 1 <= canvas_height context ->
  at_least_one k = true -> 0 <= duration ->
  animateSort Available context arr_ interval frameDuration generator yieldCompare =
    (frames ++ [Draw (settle (arr (mem r)) steps) []], Returned (settle (arr (mem r)) steps)) /\
  order_of n (settle (arr (mem r)) steps) /\
  Forall (order_of n) (drawn frames).
Proof.
  intros n k duration steps queue frames Hg Hres Hall Hend Hw Hh Hk Hd.
  assert (Hsteps : Forall (plain_step n) steps).
  { apply Forall_forall. intros s Hs. apply In_firstn in Hs.
    rewrite Forall_forall in Hall. apply Hall. exact Hs. }
  assert (Hset : order_of n (settle (arr (mem r)) steps)).
  { destruct (settle_cases (arr (mem r)) steps) as [[_ ->]|(s & Hs & ->)]; [exact Hend|].
    rewrite Forall_forall in Hsteps. apply (Hsteps s Hs). }
  split; [|split; [exact Hset|]].
  - apply animateSort_iterator_of; try assumption.
    + fold steps. eapply Forall_impl; [|exact Hsteps].
      intros s Hs. apply plain_showable; assumption.
    + apply (order_of_drawable context n); assumption.
  - apply drawn_steps; [exact Hk|].
    eapply Forall_impl; [|exact Hsteps]. intros s [Hs _]. exact Hs.
Qed.

(** The drain of a driver that returns, or that yields more than the cap. *)
Lemma drain_generator_of (driver : bool -> Prog unit) (flag : bool) (a : jsarray) :
  completes (driver flag) a \/ (safetyCap < length (steps_of (driver flag) a))%nat ->
  drain (generator_of driver a (Some flag)) =
    Some (map enqueue (firstn safetyCap (steps_of (driver flag) a)),
          settle (final_array (driver flag) a) (firstn safetyCap (steps_of (driver flag) a))).
Proof. intros H. apply (drain_iterator_of (run (driver flag) a)). exact H. Qed.

Lemma drain_generator_of_unflagged (body : Prog unit) (yc : option bool) (a : jsarray) :
  completes body a \/ (safetyCap < length (steps_of body a))%nat ->
  drain (generator_of_unflagged body a yc) =
    Some (map enqueue (firstn safetyCap (steps_of body a)),
          settle (final_array body a) (firstn safetyCap (steps_of body a))).
Proof. intros H. apply (drain_iterator_of (run body a)). exact H. Qed.
(* ================================================================== *)
(** * Shuffle, sort and accent, played *)
(* ================================================================== *)

Lemma identity_order_iota (n : Z) : identity_order n = nums (iota (Z.to_nat n)).
Proof. unfold identity_order, nums, iota. rewrite map_map. reflexivity. Qed.

Lemma iota_range (n : nat) : Forall (fun z => 0 <= z < zlen (iota n)) (iota n).
Proof. rewrite zlen_iota. apply perm_iota_bounds. reflexivity. Qed.

Lemma perm_range (l l' : list Z) :
  Permutation l' l -> Forall (fun z => 0 <= z < zlen l) l ->
  Forall (fun z => 0 <= z < zlen l') l'.
Proof.
  intros Hp Hall. rewrite (perm_zlen _ _ Hp). apply Forall_forall. intros z Hz.
  rewrite Forall_forall in Hall. apply Hall. apply (Permutation_in _ Hp). exact Hz.
Qed.

Lemma play_shuffle (context : Context) (l : list Z) (pick : Z -> Z)
    (interval frameDuration : Z) (yc : option bool) :
  Forall (fun z => 0 <= z < zlen l) l ->
  zlen l <= canvas_width context -> 1 <= canvas_height context ->
  (forall i, 1 <= i < zlen l -> 0 <= pick i <= i) ->
  at_least_one (numStepsPerFrame frameDuration interval) = true ->
  0 <= Z.max frameDuration interval ->
  exists frames l',
    animateSort Available context (nums l) interval frameDuration
      (generator_of_unflagged (shuffleGenerator pick)) yc
      = (frames ++ [Draw (nums l') []], Returned (nums l')) /\
    Permutation l' l /\
    Forall (fun a => exists ls, a = nums ls /\ Permutation ls l) (drawn frames).
Proof.
  intros Hall Hw Hh Hpick Hk Hd.
  set (r := run (shuffleGenerator pick) (nums l)).
  destruct (wp_run _ _ _ (shuffleGenerator_plain pick l (mkMem (nums l) (mkStats 0 0)) eq_refl Hall Hpick))
    as (Hres & Hplain & Hend). fold r in Hres, Hplain, Hend.
  destruct (wp_run _ _ _ (shuffleGenerator_spec pick l (mkMem (nums l) (mkStats 0 0)) eq_refl Hpick))
    as (_ & (l1 & Ha1 & Hp1) & _ & _ & Hperm & _). fold r in Ha1, Hperm.
  assert (Hsteps : Forall (fun s => exists ls, array s = nums ls /\ Permutation ls l) (out r)).
  { eapply Forall_impl; [|exact Hperm]. intros s (_ & _ & H). exact H. }
  destruct (play_plain context (nums l) interval frameDuration
              (generator_of_unflagged (shuffleGenerator pick)) yc r eq_refl (or_introl Hres))
    as (E & _ & _); try assumption; try (rewrite len_nums; assumption).
  set (steps := firstn safetyCap (out r)) in *.
  assert (Hset : exists l', settle (arr (mem r)) steps = nums l' /\ Permutation l' l).
  { destruct (settle_cases (arr (mem r)) steps) as [[_ ->]|(s & Hs & ->)].
    - exists l1. auto.
    - apply In_firstn in Hs. rewrite Forall_forall in Hsteps.
      destruct (Hsteps s Hs) as (ls & E' & Hp). exists ls. auto. }
  destruct Hset as (l' & Hset & Hp').
  eexists _, l'. split; [|split; [exact Hp'|]].
  - rewrite E, Hset. reflexivity.
  - apply drawn_steps; [exact Hk|].
    apply Forall_forall. intros s Hs. apply In_firstn in Hs.
    rewrite Forall_forall in Hsteps. destruct (Hsteps s Hs) as (ls & E' & Hp).
    exists ls. auto.
Qed.

Lemma play_accent (context : Context) (a : jsarray) (interval frameDuration : Z)
    (yc : option bool) :
  drawable Available context a = true ->
  at_least_one (numStepsPerFrame frameDuration interval) = true ->
  0 <= Z.max frameDuration interval ->
  exists frames,
    animateSort Available context a interval frameDuration
      (generator_of_unflagged accentGenerator) yc
      = (frames ++ [Draw a []], Returned a) /\
    Forall (eq a) (drawn frames).
Proof.
  intros Hdraw Hk Hd.
  set (r := run accentGenerator a).
  destruct (wp_run _ _ _ (accentGenerator_spec (mkMem a (mkStats 0 0))))
    as (Hres & Hm & Ho). fold r in Hres, Hm, Ho. cbn [arr] in Ho.
  assert (Hsteps : Forall (fun s => array s = a) (out r)).
  { rewrite Ho. apply Forall_app. split; [|repeat constructor].
    apply Forall_forall. intros s Hs. apply in_map_iff in Hs.
    destruct Hs as (i & <- & _). reflexivity. }
  assert (Hshow : Forall (fun s => showable Available context
                                     (Z.max frameDuration interval) (len a) s = true)
                    (firstn safetyCap (out r))).
  { apply Forall_forall. intros s Hs. apply In_firstn in Hs. rewrite Ho in Hs.
    unfold showable. apply in_app_or in Hs. destruct Hs as [Hs|[<-|[]]].
    - apply in_map_iff in Hs. destruct Hs as (i & <- & Hi).
      cbn [array]. rewrite Hdraw. cbn [andb].
      apply positions_audible; [exact Hd|].
      unfold iota in Hi. apply in_map_iff in Hi. destruct Hi as (k & <- & Hk').
      apply in_seq in Hk'. repeat constructor; unfold len; lia.
    - cbn [array]. rewrite Hdraw. reflexivity. }
  assert (Hset : settle (arr (mem r)) (firstn safetyCap (out r)) = a).
  { destruct (settle_cases (arr (mem r)) (firstn safetyCap (out r)))
      as [[_ ->]|(s & Hs & ->)]; [rewrite Hm; reflexivity|].
    apply In_firstn in Hs. rewrite Forall_forall in Hsteps. apply Hsteps. exact Hs. }
  eexists. split.
  - rewrite (animateSort_iterator_of Available context a interval frameDuration
               (generator_of_unflagged accentGenerator) yc r eq_refl (or_introl Hres) Hk Hshow).
    + rewrite Hset. reflexivity.
    + rewrite Hset. exact Hdraw.
  - eapply Forall_impl; [|apply drawn_steps; [exact Hk|]].
    + intros a' H. symmetry. exact H.
    + apply Forall_forall. intros s Hs. apply In_firstn in Hs.
      rewrite Forall_forall in Hsteps. apply Hsteps. exact Hs.
Qed.

(** A driver that sorts within the cap and yields plain steps, played:
    [animateSort] returns the array in order. *)
Lemma play_sorted (context : Context) (D : bool -> Prog unit) (l : list Z)
    (interval frameDuration : Z) :
  zlen l <= canvas_width context -> 1 <= canvas_height context ->
  at_least_one (numStepsPerFrame frameDuration interval) = true ->
  0 <= Z.max frameDuration interval ->
  wp (D true) (fun o _ m' => Forall (plain_step (zlen l)) o /\ order_of (zlen l) (arr m'))
     (mkMem (nums l) (mkStats 0 0)) ->
  sorts_ints (D true) l ->
  (length (steps_of (D true) (nums l)) <= safetyCap)%nat ->
  exists frames l',
    animateSort Available context (nums l) interval frameDuration (generator_of D) (Some true)
      = (frames ++ [Draw (nums l') []], Returned (nums l')) /\
    Permutation l' l /\ StronglySorted Z.le l'.
Proof.
  intros Hw Hh Hk Hd Hplain (o & s & m' & l' & Hrun & _ & Hs & Hp & Hsorted) Hcap.
  set (r := run (D true) (nums l)) in *.
  destruct (wp_run _ _ _ Hplain) as (Hres & Hsteps & Hend). fold r in Hres, Hsteps, Hend.
  assert (Hout : out r = o ++ [s]) by (rewrite Hrun; reflexivity).
  destruct (play_plain context (nums l) interval frameDuration (generator_of D) (Some true)
              r eq_refl (or_introl Hres))
    as (E & _ & _); try assumption; try (rewrite len_nums; assumption).
  eexists _, l'. split; [|split; assumption].
  rewrite E. unfold steps_of in Hcap. fold r in Hcap.
  rewrite firstn_all2 by exact Hcap.
  rewrite Hout, settle_app, Hs. reflexivity.
Qed.

(** ** How many steps the three sorts of the page yield *)

Lemma mergeSort_within_cap (a : jsarray) :
  len a <= 4096 -> (length (steps_of (mergeSort true) a) <= safetyCap)%nat.
Proof.
  intros Hn.
  destruct (mergeSort_steps 12 (mkMem a (mkStats 0 0))) as (o & m' & [] & Hrun & Ho & _).
  { exact Hn. }
  unfold steps_of, run. rewrite Hrun. cbn [out fst arr] in *.
  unfold safetyCap. assert (0 <= len a) by (unfold len; lia). lia.
Qed.

Lemma selectionSort_within_cap (a : jsarray) :
  len a <= 399 -> (length (steps_of (selectionSort true) a) <= safetyCap)%nat.
Proof.
  intros Hn.
  destruct (selectionSort_counts true (mkMem a (mkStats 0 0)))
    as (o & m' & [] & Hrun & _ & Hc & Hs & Ho).
  unfold steps_of, run. rewrite Hrun. cbn [out fst arr stats comparisons swaps] in *.
  unfold safetyCap. assert (0 <= len a) by (unfold len; lia). nia.
Qed.

Lemma insertionSort_within_cap (l : list Z) :
  zlen l <= 399 -> (length (steps_of (insertionSort true) (nums l)) <= safetyCap)%nat.
Proof.
  intros Hn. destruct (insertionSort_counts l) as (_ & _ & Ho).
  pose proof (inversions_max l). unfold safetyCap.
  assert (0 <= zlen l) by (unfold zlen; lia). nia.
Qed.

(** Merge sort leaves an array of at most one element alone, without a
    step. *)
Lemma mergeSort_short (a : jsarray) (yc : bool) :
  (length a <= 1)%nat -> run (mergeSort yc) a = ([], mkMem a (mkStats 0 0), Some tt).
Proof.
  intros H. destruct a as [|x [|y a]]; [reflexivity | reflexivity | simpl in H; lia].
Qed.

(** The sort phase of a round restores the order. *)
Lemma play_sort_phase (context : Context) (D : bool -> Prog unit) (l : list Z) (n : nat)
    (interval frameDuration : Z) :
  Z.of_nat n <= canvas_width context -> 1 <= canvas_height context ->
  at_least_one (numStepsPerFrame frameDuration interval) = true ->
  0 <= Z.max frameDuration interval ->
  Permutation l (iota n) ->
  round_ready D l n ->
  exists frames,
    animateSort Available context (nums l) interval frameDuration (generator_of D) (Some true)
      = (frames ++ [Draw (nums (iota n)) []], Returned (nums (iota n))).
Proof.
  intros Hw Hh Hk Hd Hp [(Hs & Hcap & Hplain)|[Hrun Hn]].
  - assert (Hlen : zlen l = Z.of_nat n) by (rewrite (perm_zlen _ _ Hp); apply zlen_iota).
    destruct (play_sorted context D l interval frameDuration ltac:(lia) Hh Hk Hd Hplain Hs Hcap)
      as (frames & l' & E & Hp' & Hs').
    assert (l' = iota n).
    { apply StronglySorted_perm_eq; [exact Hs' | apply iota_StronglySorted|].
      eapply Permutation_trans; eassumption. }
    subst l'. exists frames. exact E.
  - exists [].
    assert (l = iota n).
    { destruct n as [|[|n]]; [|  |lia].
      - apply Permutation_nil. symmetry. exact Hp.
      - apply Permutation_length_1_inv. symmetry. exact Hp. }
    subst l.
    assert (Hdraw : drawable Available context (nums (iota n)) = true)
      by (apply (drawable_perm context (iota n) n); [reflexivity | exact Hw | exact Hh]).
    destruct (drawable_draws _ Available context [] Hdraw) as (picture & Hpic).
    unfold animateSort, drain, generator_of. cbn [it_next it_start iterator_of].
    rewrite Hrun. cbn [out res mem arr fst snd length present app]. rewrite Hpic. reflexivity.
Qed.

(** ** A round of [execute] *)

Lemma execute_round_restores (context : Context) (pick : Z -> Z)
    (frameDuration slowInterval fastInterval slowN fastN : Z)
    (isEfficient : bool) (D : bool -> Prog unit) :
  let n := if isEfficient then slowN else fastN in
  0 <= canvas_width context -> n <= canvas_width context -> 1 <= canvas_height context ->
  0 <= frameDuration ->
  at_least_one (numStepsPerFrame frameDuration slowInterval) = true ->
  at_least_one (numStepsPerFrame frameDuration fastInterval) = true ->
  (forall i, 1 <= i -> 0 <= pick i <= i) ->
  (forall l, Permutation l (iota (Z.to_nat n)) -> round_ready D l (Z.to_nat n)) ->
  exists events,
    execute_round Available context pick frameDuration slowInterval fastInterval slowN fastN
      isEfficient (generator_of D)
    = (events ++ [Draw (identity_order n) []; Sleep 2000], Completed).
Proof.
  intros n Hw0 Hw Hh Hfd Hslow Hfast Hpick Hsort.
  unfold execute_round. fold n. rewrite identity_order_iota.
  set (k := Z.to_nat n) in *.
  assert (Hk : Z.of_nat k <= canvas_width context).
  { unfold k. destruct (Z.le_gt_cases 0 n); [rewrite Z2Nat.id by lia; lia|].
    replace (Z.to_nat n) with O by lia. cbn. lia. }
  assert (Hk' : zlen (iota k) <= canvas_width context) by (rewrite zlen_iota; exact Hk).
  destruct (play_shuffle context (iota k) pick slowInterval frameDuration None)
    as (fr1 & l1 & E1 & Hp1 & _);
    [apply iota_range | exact Hk' | exact Hh | intros i Hi; apply Hpick; lia
     | exact Hslow | lia |].
  rewrite E1.
  set (interval := if isEfficient then slowInterval else fastInterval).
  assert (Hint : at_least_one (numStepsPerFrame frameDuration interval) = true)
    by (unfold interval; destruct isEfficient; assumption).
  destruct (play_sort_phase context D l1 k interval frameDuration Hk Hh Hint ltac:(lia)
              Hp1 (Hsort l1 Hp1)) as (fr2 & E2).
  rewrite E2.
  destruct (play_accent context (nums (iota k)) fastInterval frameDuration (Some true))
    as (fr3 & E3 & _);
    [apply (drawable_perm context (iota k) k); [reflexivity | exact Hk | exact Hh]
     | exact Hfast | lia |].
  rewrite E3.
  exists ((fr1 ++ [Draw (nums l1) []]) ++ [Sleep 1000]
            ++ (fr2 ++ [Draw (nums (iota k)) []]) ++ fr3).
  f_equal. repeat rewrite <- app_assoc. reflexivity.
Qed.

Lemma mergeSort_round_ok (n : Z) (l : list Z) :
  n <= 4096 -> Permutation l (iota (Z.to_nat n)) -> round_ready mergeSort l (Z.to_nat n).
Proof.
  intros Hn Hp.
  assert (Hlen : zlen l = Z.of_nat (Z.to_nat n))
    by (rewrite (perm_zlen _ _ Hp); apply zlen_iota).
  destruct (Z.le_gt_cases n 1) as [Hsmall|Hbig].
  - right. split; [|lia]. apply mergeSort_short.
    unfold nums. rewrite length_map. unfold zlen in Hlen. lia.
  - left. split; [|split].
    + apply sorts_ints_at. intros m Ha. apply mergeSort_sorted; [exact Ha | lia].
    + apply mergeSort_within_cap. rewrite len_nums. lia.
    + apply mergeSort_plain; [reflexivity|].
      apply (perm_range (iota (Z.to_nat n))); [exact Hp | apply iota_range].
Qed.

Lemma selectionSort_round_ok (n : Z) (l : list Z) :
  n <= 399 -> Permutation l (iota (Z.to_nat n)) -> round_ready selectionSort l (Z.to_nat n).
Proof.
  intros Hn Hp.
  assert (Hlen : zlen l = Z.of_nat (Z.to_nat n))
    by (rewrite (perm_zlen _ _ Hp); apply zlen_iota).
  left. split; [|split].
  - apply sorts_ints_at. intros m Ha. apply selectionSort_sorted; exact Ha.
  - apply selectionSort_within_cap. rewrite len_nums. lia.
  - apply selectionSort_plain; [reflexivity|].
    apply (perm_range (iota (Z.to_nat n))); [exact Hp | apply iota_range].
Qed.

Lemma insertionSort_round_ok (n : Z) (l : list Z) :
  n <= 399 -> Permutation l (iota (Z.to_nat n)) -> round_ready insertionSort l (Z.to_nat n).
Proof.
  intros Hn Hp.
  assert (Hlen : zlen l = Z.of_nat (Z.to_nat n))
    by (rewrite (perm_zlen _ _ Hp); apply zlen_iota).
  left. split; [|split].
  - apply sorts_ints_at. intros m Ha. apply insertionSort_sorted; exact Ha.
  - apply insertionSort_within_cap. lia.
  - apply insertionSort_plain; [reflexivity|].
    apply (perm_range (iota (Z.to_nat n))); [exact Hp | apply iota_range].
Qed.
(* ================================================================== *)
(** * The helpers of the drivers, and the flag *)
(* ================================================================== *)

Lemma wp_filtered {A} (keep : Step -> bool) (p q : Prog A) (Q : A -> Mem -> Prop) (m : Mem) :
  filtered keep p q ->
  wp p (fun _ a m' => Q a m') m -> wp q (fun _ a m' => Q a m') m.
Proof.
  intros Hf (o & m' & a & Hrun & HQ). destruct (Hf m) as (_ & Hm & Hr).
  rewrite Hrun in Hm, Hr. cbn [mem res fst snd] in Hm, Hr.
  exists (out (q m)), m', a. split; [|exact HQ].
  rewrite (triple_eta (q m)), Hm, Hr. reflexivity.
Qed.

Lemma filtered_same_result (keep : Step -> bool) (D : bool -> Prog unit) (a : jsarray) :
  filtered keep (D true) (D false) -> same_result D a.
Proof.
  intros Hf. destruct (Hf (mkMem a (mkStats 0 0))) as (_ & Hm & Hr).
  unfold same_result, final_array, completes, run. rewrite Hm, Hr. split; [reflexivity | tauto].
Qed.

Lemma mergeSort_same_result (a : jsarray) : same_result mergeSort a.
Proof.
  destruct (mergeSort_same_but_swaps (mkMem a (mkStats 0 0)) (mkMem a (mkStats 0 0))
              eq_refl eq_refl) as (Ha & _ & Hr & _).
  unfold same_result, final_array, completes, run. rewrite Ha, Hr. split; [reflexivity | tauto].
Qed.

(** When only the node [i] may be out of order, its subtrees being heaps. *)
Lemma heap_ok_heap_but (a : list Z) (n i : Z) :
  0 <= i -> heap_ok a n (i + 1) -> heap_but a n i i.
Proof.
  intros Hi H. split.
  - intros k c Hk Hne Hc Hchild. apply (H k c); [lia | exact Hc | exact Hchild].
  - intros p c Hp Hpar. lia.
Qed.
(* ================================================================== *)
(** * Quick sort on an array already in order *)
(* ================================================================== *)

(** On an ascending window the pivot is a greatest element: every
    element is exchanged with itself and the pivot stays where it is. *)
Lemma partition_ascending (a : list Z) (low high : Z) (m : Mem) :
  arr m = nums a -> 0 <= low < high -> high < zlen a -> sorted_on a low (high + 1) ->
  wp (partition low high true)
     (fun _ pi m' =>
        pi = high /\ arr m' = nums a /\
        comparisons (stats m') = comparisons (stats m) + (high - low) /\
        swaps (stats m') = swaps (stats m) + (high - low) + 1) m.
Proof.
  intros Ha Hlow Hhigh Hs. unfold partition.
  wp_step. wp_step. cbv beta. rewrite Ha, get_nums by lia.
  wp_step.
  apply (wp_for_up _ _ _ _
           (fun j _ i m' =>
              i = j - 1 /\ arr m' = nums a /\
              comparisons (stats m') = comparisons (stats m) + (j - low) /\
              swaps (stats m') = swaps (stats m) + (j - low))).
  - split; [lia|]. split; [exact Ha|]. split; lia.
  - intros j o i m1 Hj (-> & Ha1 & Hc & Hw).
    wp_steps. rewrite Ha1, get_nums by lia. cbn [js_le].
    specialize (Hs j high ltac:(lia) ltac:(lia) ltac:(lia)).
    destruct (Z.leb_spec (zth a j) (zth a high)); [|lia].
    wp_steps. replace (j - 1 + 1) with j by lia.
    rewrite swap_nums, swapz_same by lia.
    split; [lia|]. split; [reflexivity|]. split; lia.
  - intros o i m1 (-> & Ha1 & Hc & Hw). cbv beta.
    replace (Z.max low high) with high in * by lia.
    wp_steps. replace (high - 1 + 1) with high by lia.
    rewrite Ha1, swap_nums, swapz_same by lia.
    split; [reflexivity|]. split; [reflexivity|]. split; lia.
Qed.

(** Each level of the recursion takes the last element off the window. *)
Lemma quickSortRecursive_ascending (fuel : nat) :
  forall (low high : Z) (a : list Z) (m : Mem),
    arr m = nums a -> 0 <= low -> high < zlen a -> high - low <= Z.of_nat fuel ->
    sorted_on a low (high + 1) ->
    wp (quickSortRecursive fuel low high true)
       (fun _ _ m' =>
          let d := Z.max 0 (high - low) in
          arr m' = nums a /\
          2 * (comparisons (stats m') - comparisons (stats m)) = d * (d + 1) /\
          2 * (swaps (stats m') - swaps (stats m)) = d * (d + 1) + 2 * d) m.
Proof.
  induction fuel as [|fuel IH]; intros low high a m Ha Hlow Hhigh Hfuel Hs;
    cbn [quickSortRecursive]; wp_step.
  - destruct (Z.ltb_spec low high); [lia|]. wp_steps. cbv zeta.
    replace (Z.max 0 (high - low)) with 0 by lia. split; [exact Ha|]. lia.
  - destruct (Z.ltb_spec low high) as [Hlt|Hge].
    + wp_step.
      eapply wp_conseq; [apply (partition_ascending a low high m Ha); [lia | lia | exact Hs]|].
      intros o1 pi m1 (-> & Ha1 & Hc1 & Hw1). cbv beta.
      wp_step.
      eapply wp_conseq.
      { apply (IH low (high - 1) a m1 Ha1); try lia.
        intros x y Hx Hxy Hy. apply Hs; lia. }
      intros o2 [] m2 (Ha2 & Hc2 & Hw2). cbv beta.
      eapply wp_conseq.
      { apply (IH (high + 1) high a m2 Ha2); try lia.
        intros x y Hx Hxy Hy. lia. }
      intros o3 [] m3 (Ha3 & Hc3 & Hw3). cbv beta. wp_steps. cbv zeta in *.
      replace (Z.max 0 (high - (high + 1))) with 0 in * by lia.
      replace (Z.max 0 (high - 1 - low)) with (high - low - 1) in * by lia.
      replace (Z.max 0 (high - low)) with (high - low) by lia.
      split; [exact Ha3|]. split; nia.
    + wp_steps. cbv zeta.
      replace (Z.max 0 (high - low)) with 0 by lia. split; [exact Ha|]. lia.
Qed.

Lemma quickSort_ascending (l : list Z) (m : Mem) :
  arr m = nums l -> sorted_on l 0 (zlen l) ->
  wp (quickSort true)
     (fun _ _ m' =>
        let d := Z.max 0 (zlen l - 1) in
        arr m' = nums l /\
        2 * (comparisons (stats m') - comparisons (stats m)) = d * (d + 1) /\
        2 * (swaps (stats m') - swaps (stats m)) = d * (d + 1) + 2 * d) m.
Proof.
  intros Ha Hs. unfold quickSort. wp_step. wp_step. cbv beta.
  rewrite Ha, len_nums.
  eapply wp_conseq.
  { apply (quickSortRecursive_ascending _ 0 (zlen l - 1) l m Ha); try lia.
    replace (zlen l - 1 + 1) with (zlen l) by lia. exact Hs. }
  intros o [] m1 H. cbv beta zeta in *.
  replace (zlen l - 1 - 0) with (zlen l - 1) in H by lia. exact H.
Qed.

(** ** One frame for everything, when the interval is zero *)

Lemma chunks_all (fuel : nat) (queue : list QueueEntry) :
  queue <> [] -> chunks (S fuel) PosInf queue = [queue].
Proof.
  intros Hne. destruct queue as [|e queue]; [contradiction|].
  cbn [chunks]. unfold frame_len, take_count.
  rewrite firstn_all, skipn_all. destruct fuel; reflexivity.
Qed.
(* ================================================================== *)
(** * Properties of the playback scheduler *)
(* ================================================================== *)

(** C4, as the spec words it, fails: with [frameDuration = 0] and
    [interval = 10] the scheduler computes 0 steps per frame, not the
    clamped value 1, and presents no frame at all: the call is
    rejected. *)
Lemma stepsPerFrame_not_clamped :
  numStepsPerFrame 0 10 = Fin 0 /\ spec_stepsPerFrame 0 10 = 1 /\
  numStepsPerFrame 0 10 <> Fin (spec_stepsPerFrame 0 10) /\
  animateSort Available (mkContext 1280 720) (nums [1; 0]) 10 0
    (generator_of bubbleSort) (Some true) = ([], Rejected).
Proof.
  split; [reflexivity|]. split; [reflexivity|]. split; [discriminate|].
  apply (animateSort_throws _ _ _ _ _ _ _
           (map enqueue (firstn safetyCap (steps_of (bubbleSort true) (nums [1; 0]))))
           (settle (final_array (bubbleSort true) (nums [1; 0]))
              (firstn safetyCap (steps_of (bubbleSort true) (nums [1; 0]))))).
  - apply drain_generator_of. left. vm_compute. discriminate.
  - reflexivity.
  - vm_compute. discriminate.
Qed.

(** C4 (amended): [animateSort] computes the steps per frame as
    [ceil(frameDuration / interval)], without a lower clamp.  When that
    value [z] is at least 1 and the drain has ended on the queue
    [queue], the presentation loop cuts the queue, in order, into
    consecutive groups of exactly [z] steps each, except a possibly
    smaller (non-empty) last group, and, when each group can be
    presented and the array settled on can be drawn, [animateSort]
    presents one frame per group, then that array, and returns it.
    With [interval = 10] and [frameDuration = 35] the value is 4, and
    ten queued steps give frames of 4, 4 and 2 steps. *)
Theorem frames_partition_queue
    (image : Image) (context : Context) (arr_ : jsarray) (interval frameDuration : Z)
    (generator : Generator) (yieldCompare : option bool)
    (queue : list QueueEntry) (finalArray : jsarray) :
  let z := - ((- frameDuration) / interval) in
  let duration := Z.max frameDuration interval in
  let groups := chunks (length queue) (Fin z) queue in
  interval <> 0 ->
  1 <= z ->
  drain (generator arr_ yieldCompare) = Some (queue, finalArray) ->
  forallb (presentable image context duration (len arr_)) groups = true ->
  drawable image context finalArray = true ->
  numStepsPerFrame frameDuration interval = Fin z /\
  animateSort image context arr_ interval frameDuration generator yieldCompare =
    (flat_map (frame_events duration (len arr_)) groups ++ [Draw finalArray []],
     Returned finalArray) /\
  concat groups = queue /\
  Forall (fun g => length g = Z.to_nat z) (removelast groups) /\
  Forall (fun g => (1 <= length g <= Z.to_nat z)%nat) groups /\
  numStepsPerFrame 35 10 = Fin 4 /\
  (length queue = 10%nat -> map (@length QueueEntry) (chunks 10 (Fin 4) queue) = [4; 4; 2]%nat).
Proof.
  intros z duration groups Hi Hz Hdrain Hok Hfinal.
  assert (Hnum : numStepsPerFrame frameDuration interval = Fin z).
  { unfold numStepsPerFrame. destruct (Z.eqb_spec interval 0); [contradiction | reflexivity]. }
  assert (Hk : at_least_one (Fin z) = true) by (apply Z.leb_le; exact Hz).
  split; [exact Hnum|].
  split.
  { pose proof (animateSort_frames image context arr_ interval frameDuration generator
                  yieldCompare queue finalArray) as H.
    cbv zeta in H. rewrite Hnum in H. apply H; auto. }
  split; [apply chunks_concat; auto|].
  destruct (chunks_sizes z (length queue) queue Hz (le_n _)) as [H1 H2].
  repeat split; try assumption.
  intros Hlen.
  do 10 (destruct queue as [|? queue]; [discriminate Hlen|]).
  destruct queue; [reflexivity | discriminate Hlen].
Qed.

Lemma frames_partition_queue_witness :
  let context := mkContext 1280 720 in
  let a := nums [0; 1; 2; 3; 4; 5; 6; 7; 8] in
  let queue := map enqueue (steps_of accentGenerator a) in
  (10 <> 0 /\ 1 <= - ((- 35) / 10) /\
   drain (generator_of_unflagged accentGenerator a None) = Some (queue, a) /\
   forallb (presentable Available context (Z.max 35 10) (len a))
     (chunks (length queue) (Fin (- ((- 35) / 10))) queue) = true /\
   drawable Available context a = true) /\
  animateSort Available context a 10 35 (generator_of_unflagged accentGenerator) None =
    (flat_map (frame_events (Z.max 35 10) (len a))
       (chunks (length queue) (Fin (- ((- 35) / 10))) queue) ++ [Draw a []],
     Returned a) /\
  map (@length QueueEntry) (chunks (length queue) (Fin (- ((- 35) / 10))) queue)
    = [4; 4; 2]%nat.
Proof.
  intros context a queue.
  assert (H1 : 10 <> 0) by discriminate.
  assert (H2 : 1 <= - ((- 35) / 10)) by (vm_compute; discriminate).
  assert (H3 : drain (generator_of_unflagged accentGenerator a None) = Some (queue, a)).
  { rewrite drain_generator_of_unflagged by (left; vm_compute; discriminate).
    vm_compute. reflexivity. }
  assert (H4 : forallb (presentable Available context (Z.max 35 10) (len a))
                 (chunks (length queue) (Fin (- ((- 35) / 10))) queue) = true)
    by (vm_compute; reflexivity).
  assert (H5 : drawable Available context a = true) by (vm_compute; reflexivity).
  split; [auto|].
  split.
  - exact (proj1 (proj2 (frames_partition_queue Available context a 10 35
                           (generator_of_unflagged accentGenerator) None queue a
                           H1 H2 H3 H4 H5))).
  - vm_compute. reflexivity.
Defined.

(** C7: the sound indexes of a frame are the sound indexes of the first
    step folded into it, each once (the scheduler collects them in a
    [Set]): that step's [compareIndexes] when they are not empty, else its
    [swappedIndexes]; later steps of the frame add nothing.  So, when
    frames take at least one step, the drain has ended and every frame
    can be presented, the tones [animateSort] plays are, frame by frame,
    those of the first step of each group of the queue.  A frame built
    from a compare step [1,2] and a swap step [3] sounds [1,2]. *)
Theorem frame_sound_from_first_step
    (image : Image) (context : Context) (arr_ : jsarray) (interval frameDuration : Z)
    (generator : Generator) (yieldCompare : option bool)
    (queue : list QueueEntry) (finalArray : jsarray) :
  let k := numStepsPerFrame frameDuration interval in
  let duration := Z.max frameDuration interval in
  let groups := chunks (length queue) k queue in
  at_least_one k = true ->
  drain (generator arr_ yieldCompare) = Some (queue, finalArray) ->
  (forall e rest,
     combinedSoundIndexes (fst (fill_frame k 0 (mkFrame None [] []) (e :: rest)))
       = sound_set e) /\
  (forall e, NoDup (sound_set e) /\ forall y, In y (sound_set e) <-> In y (q_soundIndexes e)) /\
  (forall result,
     q_soundIndexes (enqueue result) =
       match compareIndexes result with
       | Some (c :: cs) => c :: cs
       | _ => match swappedIndexes result with Some l => l | None => [] end
       end) /\
  (forallb (presentable image context duration (len arr_)) groups = true ->
   drawable image context finalArray = true ->
   animateSort image context arr_ interval frameDuration generator yieldCompare =
     (flat_map (frame_events duration (len arr_)) groups ++ [Draw finalArray []],
      Returned finalArray) /\
   sounded (fst (animateSort image context arr_ interval frameDuration generator yieldCompare))
     = map frame_sound groups) /\
  (forall a1 a2 c w,
     fill_frame (Fin 2) 0 (mkFrame None [] [])
       [enqueue (mkStep a1 None (Some [1; 2]) c w); enqueue (mkStep a2 (Some [3]) None c w)] =
       (mkFrame (Some a2)
          [mkColored [1; 2] Red; mkColored [] Green; mkColored [] Red; mkColored [3] Green]
          [1; 2], [])).
Proof.
  intros k duration groups Hk Hdrain.
  split.
  { intros e rest. rewrite fill_frame_first by exact Hk. reflexivity. }
  split; [apply sound_set_spec|].
  split.
  { intros [a sw [[|c cs]|] cc cw]; reflexivity. }
  split; [|reflexivity].
  intros Hok Hfinal.
  pose proof (animateSort_frames image context arr_ interval frameDuration generator
                yieldCompare queue finalArray Hdrain (or_introl Hk) Hok Hfinal) as E.
  split; [exact E|].
  rewrite E. cbn [fst]. unfold sounded. rewrite flat_map_app. cbn [flat_map app].
  rewrite app_nil_r. apply (sounded_frames duration (len arr_)).
  apply chunks_nonempty. exact Hk.
Qed.

Lemma frame_sound_from_first_step_witness :
  let context := mkContext 1280 720 in
  let queue := map enqueue (steps_of (bubbleSort true) (nums [1; 0])) in
  (at_least_one (numStepsPerFrame 35 10) = true /\
   drain (generator_of bubbleSort (nums [1; 0]) (Some true)) = Some (queue, nums [0; 1])) /\
  sounded (fst (animateSort Available context (nums [1; 0]) 10 35
                  (generator_of bubbleSort) (Some true))) = [[0; 1]].
Proof.
  intros context queue.
  assert (H1 : at_least_one (numStepsPerFrame 35 10) = true) by reflexivity.
  assert (H2 : drain (generator_of bubbleSort (nums [1; 0]) (Some true))
               = Some (queue, nums [0; 1])).
  { rewrite drain_generator_of by (left; vm_compute; discriminate).
    vm_compute. reflexivity. }
  split; [auto|].
  destruct (frame_sound_from_first_step Available context (nums [1; 0]) 10 35
              (generator_of bubbleSort) (Some true) queue (nums [0; 1]) H1 H2)
    as (_ & _ & _ & H & _).
  destruct H as [_ ->]; vm_compute; reflexivity.
Defined.

(** C9, as stated, fails: with [frameDuration = 0] and [interval = 10] the
    presentation loop does not run forever; its first iteration hands an
    undefined order to [rearrangeImage], which throws, and the call is
    rejected, whatever the picture and the canvas. *)
Lemma zero_steps_per_frame_throws :
  numStepsPerFrame 0 10 = Fin 0 /\
  steps_of (bubbleSort true) (nums [1; 0]) <> [] /\
  (forall image context,
     animateSort image context (nums [1; 0]) 10 0 (generator_of bubbleSort) (Some true)
       = ([], Rejected)) /\
  (forall image context,
     snd (animateSort image context (nums [1; 0]) 10 0 (generator_of bubbleSort) (Some true))
       <> Stuck).
Proof.
  assert (H : forall image context,
     animateSort image context (nums [1; 0]) 10 0 (generator_of bubbleSort) (Some true)
       = ([], Rejected)).
  { intros image context.
    apply (animateSort_throws _ _ _ _ _ _ _
             (map enqueue (firstn safetyCap (steps_of (bubbleSort true) (nums [1; 0]))))
             (settle (final_array (bubbleSort true) (nums [1; 0]))
                (firstn safetyCap (steps_of (bubbleSort true) (nums [1; 0]))))).
    - apply drain_generator_of. left. vm_compute. discriminate.
    - reflexivity.
    - vm_compute. discriminate. }
  split; [reflexivity|]. split; [vm_compute; discriminate|].
  split; [exact H|]. intros image context. rewrite H. discriminate.
Qed.

(** C9 (amended): once the drain has ended on a queue, when the computed
    steps per frame is below 1 (or is [NaN]) and the queue is not empty,
    the inner loop removes no entry from it and the first presentation
    fails in [rearrangeImage] on the undefined order, so [animateSort] is
    rejected without presenting anything.  So [animateSort] returns only
    if the steps per frame is at least 1 or no step was drained; and
    then it does return, provided each frame can be presented and the
    array settled on can be drawn. *)
Theorem presentation_runs_iff_frames_take_steps
    (image : Image) (context : Context) (arr_ : jsarray) (interval frameDuration : Z)
    (generator : Generator) (yieldCompare : option bool)
    (queue : list QueueEntry) (finalArray : jsarray) :
  let k := numStepsPerFrame frameDuration interval in
  let duration := Z.max frameDuration interval in
  let groups := chunks (length queue) k queue in
  drain (generator arr_ yieldCompare) = Some (queue, finalArray) ->
  (at_least_one k = false -> queue <> [] ->
     fill_frame k 0 (mkFrame None [] []) queue = (mkFrame None [] [], queue) /\
     animateSort image context arr_ interval frameDuration generator yieldCompare
       = ([], Rejected)) /\
  ((exists events final,
      animateSort image context arr_ interval frameDuration generator yieldCompare
        = (events, Returned final)) ->
   at_least_one k = true \/ queue = []) /\
  (at_least_one k = true \/ queue = [] ->
   forallb (presentable image context duration (len arr_)) groups = true ->
   drawable image context finalArray = true ->
   animateSort image context arr_ interval frameDuration generator yieldCompare
     = (flat_map (frame_events duration (len arr_)) groups ++ [Draw finalArray []],
        Returned finalArray)).
Proof.
  intros k duration groups Hdrain.
  assert (Hthrow : at_least_one k = false -> queue <> [] ->
            animateSort image context arr_ interval frameDuration generator yieldCompare
              = ([], Rejected)).
  { intros Hk Hq. apply (animateSort_throws _ _ _ _ _ _ _ queue finalArray); assumption. }
  split; [|split].
  - intros Hk Hq. split; [apply fill_frame_none; exact Hk | apply Hthrow; assumption].
  - intros (events & final & H).
    destruct (at_least_one k) eqn:Hk; [left; reflexivity|].
    destruct queue as [|e q]; [right; reflexivity|].
    rewrite Hthrow in H; [discriminate H | reflexivity | discriminate].
  - intros H Hok Hfinal. apply animateSort_frames; assumption.
Qed.

Lemma presentation_runs_iff_frames_take_steps_witness :
  let queue := map enqueue (steps_of (bubbleSort true) (nums [1; 0])) in
  drain (generator_of bubbleSort (nums [1; 0]) (Some true)) = Some (queue, nums [0; 1]) /\
  at_least_one (numStepsPerFrame 0 10) = false /\
  animateSort Available (mkContext 1280 720) (nums [1; 0]) 10 0
    (generator_of bubbleSort) (Some true) = ([], Rejected).
Proof.
  intros queue.
  assert (H : drain (generator_of bubbleSort (nums [1; 0]) (Some true))
              = Some (queue, nums [0; 1])).
  { rewrite drain_generator_of by (left; vm_compute; discriminate).
    vm_compute. reflexivity. }
  split; [exact H|]. split; [reflexivity|].
  refine (proj2 (proj1 (presentation_runs_iff_frames_take_steps Available
            (mkContext 1280 720) (nums [1; 0]) 10 0 (generator_of bubbleSort) (Some true)
            queue (nums [0; 1]) H) eq_refl _)).
  vm_compute. discriminate.
Defined.

(** C10, as stated, fails.  shuffleGenerator on the one-element array
    [5] yields no step, and the closing presentation of [5] throws in
    [drawImage] (there is no strip 5): [animateSort] is rejected, where
    the claim has it present the array and return it.  And a generator
    that yields nothing may still have rearranged the array it was
    handed: with merge sort and the flag off [animateSort] presents and
    returns [0,1] for the input [1,0]. *)
Lemma final_presentation_can_throw :
  (steps_of (shuffleGenerator (fun i => i)) [Num 5] = [] /\
   animateSort Available (mkContext 1280 720) [Num 5] 10 35
     (generator_of_unflagged (shuffleGenerator (fun i => i))) None = ([], Rejected)) /\
  (steps_of (mergeSort false) (nums [1; 0]) = [] /\
   animateSort Available (mkContext 1280 720) (nums [1; 0]) 10 35
     (generator_of mergeSort) (Some false) = ([Draw (nums [0; 1]) []], Returned (nums [0; 1])) /\
   nums [0; 1] <> nums [1; 0]).
Proof.
  split; [split; reflexivity|].
  split; [reflexivity|]. split; [reflexivity | discriminate].
Qed.

Lemma animateSort_done (image : Image) (context : Context) (arr_ : jsarray)
    (interval frameDuration : Z) (generator : Generator) (yieldCompare : option bool)
    (underlying : jsarray) :
  first_answer (generator arr_ yieldCompare) = Done underlying ->
  animateSort image context arr_ interval frameDuration generator yieldCompare =
    if drawable image context underlying
    then ([Draw underlying []], Returned underlying)
    else ([], Rejected).
Proof.
  unfold first_answer. intros Hd. unfold animateSort, drain. rewrite Hd.
  cbn [length present app].
  destruct (drawable image context underlying) eqn:E.
  - destruct (drawable_draws underlying image context [] E) as (picture & ->). reflexivity.
  - rewrite (not_drawable_throws underlying image context [] E). reflexivity.
Qed.

(** C10 (amended): when the generator ends without yielding a step,
    [animateSort] presents no frame and plays no tone; it then presents
    once, without highlights, the array object as the generator left
    it, and returns it, provided that array can be drawn; if it cannot,
    the presentation throws and [animateSort] is rejected.  A driver
    that returns without a step leaves its final array there, and
    [shuffleGenerator] on an array of length 0 or 1 leaves the input,
    element for element. *)
Theorem animateSort_without_steps
    (image : Image) (context : Context) (arr_ : jsarray) (interval frameDuration : Z)
    (generator : Generator) (yieldCompare : option bool) (underlying : jsarray) :
  first_answer (generator arr_ yieldCompare) = Done underlying ->
  (drawable image context underlying = true ->
   animateSort image context arr_ interval frameDuration generator yieldCompare =
     ([Draw underlying []], Returned underlying)) /\
  (drawable image context underlying = false ->
   animateSort image context arr_ interval frameDuration generator yieldCompare =
     ([], Rejected)) /\
  (forall driver flag,
     steps_of (driver flag) arr_ = [] -> completes (driver flag) arr_ ->
     first_answer (generator_of driver arr_ (Some flag))
       = Done (final_array (driver flag) arr_)) /\
  (forall pick,
     (length arr_ <= 1)%nat ->
     first_answer (generator_of_unflagged (shuffleGenerator pick) arr_ yieldCompare)
       = Done arr_).
Proof.
  intros Hdone.
  pose proof (animateSort_done image context arr_ interval frameDuration generator
                yieldCompare underlying Hdone) as E.
  split; [intros Hd; rewrite E, Hd; reflexivity|].
  split; [intros Hd; rewrite E, Hd; reflexivity|].
  split.
  - intros driver flag Hsteps Hc. unfold first_answer, generator_of.
    cbn [it_next it_start iterator_of]. fold (steps_of (driver flag) arr_).
    rewrite Hsteps. unfold completes in Hc.
    destruct (res (run (driver flag) arr_)); [reflexivity | contradiction Hc; reflexivity].
  - intros pick Hlen. unfold first_answer, generator_of_unflagged.
    destruct arr_ as [|x [|y l]]; [reflexivity | reflexivity | simpl in Hlen; lia].
Qed.

Lemma animateSort_without_steps_witness :
  first_answer (generator_of_unflagged (shuffleGenerator (fun i => i)) [Num 0] None)
    = Done [Num 0] /\
  drawable Available (mkContext 1280 720) [Num 0] = true /\
  animateSort Available (mkContext 1280 720) [Num 0] 10 35
    (generator_of_unflagged (shuffleGenerator (fun i => i))) None =
    ([Draw [Num 0] []], Returned [Num 0]).
Proof.
  split; [reflexivity|]. split; [reflexivity|].
  exact (proj1 (animateSort_without_steps Available (mkContext 1280 720) [Num 0] 10 35
                  (generator_of_unflagged (shuffleGenerator (fun i => i))) None [Num 0]
                  eq_refl) eq_refl).
Defined.




(* ================================================================== *)
(** * Properties of the yielded steps *)
(* ================================================================== *)

(** Split a [Forall] over an explicit list of drivers. *)
Ltac each_driver :=
  lazymatch goal with
  | |- Forall _ (_ :: _) => apply Forall_cons; [|each_driver]
  | |- Forall _ [] => apply Forall_nil
  end.

(** C6, as stated, fails: quick sort yields a highlight-free step at the
    end of every recursive call, radix sort nine per pass, and insertion
    sort and binary insertion sort one per placement until the first
    shift; each of these runs has a highlight-free step before its last. *)
Lemma bare_steps_before_the_last :
  (exists s, In s (removelast (steps_of (quickSort true) (nums [1; 0]))) /\ bare s = true) /\
  (exists s, In s (removelast (steps_of (lsdRadixSort true) (nums [1; 0]))) /\ bare s = true) /\
  (exists s, In s (removelast (steps_of (insertionSort true) (nums [0; 1]))) /\ bare s = true) /\
  (exists s, In s (removelast (steps_of (binaryInsertionSort true) (nums [0; 1; 2])))
             /\ bare s = true).
Proof.
  repeat split.
  - eexists. split; [vm_compute; right; right; left; reflexivity | reflexivity].
  - eexists. split; [vm_compute; right; right; left; reflexivity | reflexivity].
  - eexists. split; [vm_compute; left; reflexivity | reflexivity].
  - eexists. split; [vm_compute; right; left; reflexivity | reflexivity].
Qed.

(** C6 (amended): for shuffle, accent and every sort driver other than
    insertionSort, binaryInsertionSort, quickSort and lsdRadixSort, on
    every input array and with the flag on or off, every yielded step but
    the last has a compare or a swap highlight: only the terminal step
    can have both index lists empty. *)
Theorem bare_step_only_last
    (a : jsarray) (yieldCompare up : bool) (fuel : nat) (pick : Z -> Z) :
  Forall (fun p : Prog unit => Forall highlighted (removelast (steps_of p a)))
    [shuffleGenerator pick; accentGenerator; mergeSort yieldCompare;
     selectionSort yieldCompare; bubbleSort yieldCompare;
     cocktailShakerSort yieldCompare; gnomeSort fuel yieldCompare;
     combSort fuel yieldCompare; shellSort yieldCompare; heapSort yieldCompare;
     oddEvenSort fuel yieldCompare; bitonicSort up yieldCompare;
     cycleSort fuel yieldCompare].
Proof.
  each_driver; unfold steps_of, run;
    match goal with |- Forall _ (removelast (out (?p ?m))) =>
      generalize m; change (all_but_last highlighted p) end;
    auto using all_but_last_emits, shuffleGenerator_highlighted, accentGenerator_highlighted,
      mergeSort_highlighted, selectionSort_highlighted, bubbleSort_highlighted,
      cocktailShakerSort_highlighted, gnomeSort_highlighted, combSort_highlighted,
      shellSort_highlighted, heapSort_highlighted, oddEvenSort_highlighted,
      bitonicSort_highlighted, cycleSort_highlighted.
Qed.

(** C3: the code departs from the claim.  On [1,0] bubble sort with the
    flag off yields nothing, although its run with the flag on yields an
    exchange step and a settled step, which the flag is not meant to
    suppress; on the same input selection sort with the flag off does
    yield its exchange step and its settled step, and radix sort with
    the flag off yields steps that highlight a comparison and none that
    carries a write, which its run with the flag on has. *)
Lemma bubbleSort_off_is_silent :
  steps_of (bubbleSort false) (nums [1; 0]) = [] /\
  spec_mutation_steps (steps_of (bubbleSort true) (nums [1; 0])) =
    [mkStep (nums [0; 1]) (Some [0; 1]) (Some []) (Some 1) (Some 1);
     mkStep (nums [0; 1]) (Some []) (Some []) (Some 1) (Some 1)] /\
  steps_of (bubbleSort false) (nums [1; 0]) <>
    spec_mutation_steps (steps_of (bubbleSort true) (nums [1; 0])) /\
  steps_of (selectionSort false) (nums [1; 0]) =
    spec_mutation_steps (steps_of (selectionSort true) (nums [1; 0])) /\
  steps_of (selectionSort false) (nums [1; 0]) =
    [mkStep (nums [0; 1]) (Some [0; 1]) None (Some 1) (Some 1);
     mkStep (nums [0; 1]) None None (Some 1) (Some 1)] /\
  existsb (fun s => negb (no_indexes (compareIndexes s)))
    (steps_of (lsdRadixSort false) (nums [1; 0])) = true /\
  existsb (fun s => negb (no_indexes (swappedIndexes s)))
    (steps_of (lsdRadixSort false) (nums [1; 0])) = false /\
  existsb (fun s => negb (no_indexes (swappedIndexes s)))
    (steps_of (lsdRadixSort true) (nums [1; 0])) = true.
Proof. repeat split; try (vm_compute; reflexivity). discriminate. Qed.

(** What each driver yields with the flag off, on every array:
    selectionSort, insertionSort and binaryInsertionSort yield exactly
    the steps of the run with the flag on that carry no compare indexes
    (exchange, placement and settled steps), in the same order;
    mergeSort, quickSort, bubbleSort, cocktailShakerSort, gnomeSort,
    combSort, shellSort, heapSort, oddEvenSort, bitonicSort and
    cycleSort yield no step at all; lsdRadixSort yields its digit and
    count steps and drops its copy-back and settled steps; shuffle and
    accent do not look at the flag. *)
Lemma steps_with_the_flag_off (a : jsarray) (fuel : nat) (up : bool) (pick : Z -> Z) :
  Forall (fun D : bool -> Prog unit =>
            steps_of (D false) a = filter keep_uncompared (steps_of (D true) a))
    [selectionSort; insertionSort; binaryInsertionSort] /\
  Forall (fun D : bool -> Prog unit => steps_of (D false) a = [])
    [mergeSort; quickSort; bubbleSort; cocktailShakerSort; gnomeSort fuel; combSort fuel;
     shellSort; heapSort; oddEvenSort fuel; bitonicSort up; cycleSort fuel] /\
  steps_of (lsdRadixSort false) a = filter keep_unswapped (steps_of (lsdRadixSort true) a) /\
  (forall flag,
     generator_of_unflagged (shuffleGenerator pick) a flag =
       generator_of_unflagged (shuffleGenerator pick) a None /\
     generator_of_unflagged accentGenerator a flag =
       generator_of_unflagged accentGenerator a None).
Proof.
  split; [|split; [|split]].
  - each_driver; apply filtered_steps;
      auto using selectionSort_filtered, insertionSort_filtered, binaryInsertionSort_filtered.
  - apply Forall_cons; [apply (mergeSort_quiet (mkMem a (mkStats 0 0)))|].
    each_driver;
      match goal with |- steps_of (?D false) _ = [] =>
        apply (filtered_none_steps (D true)) end;
      auto using quickSort_filtered, bubbleSort_filtered, cocktailShakerSort_filtered,
        gnomeSort_filtered, combSort_filtered, shellSort_filtered, heapSort_filtered,
        oddEvenSort_filtered, bitonicSort_filtered, cycleSort_filtered.
  - apply filtered_steps, lsdRadixSort_filtered.
  - intros flag. split; reflexivity.
Qed.

(** C8: the code departs from the claim.  On the sorted array [0,1,2]
    insertion sort compares twice (1 with 0, then 2 with 1) and, as the
    reference run counts, makes 2 comparisons and no swap; every step of
    the driver, the last one included, carries 0 comparisons: the
    counter is advanced inside the loop, so the comparison that ends a
    scan is never counted.  Selection sort and binary insertion sort
    count every comparison they make.  And merge sort advances its swap
    counter only when it emits the consolidated step: the run of [1,0]
    without emission ends with 0 swaps where the last step of the run
    with emission carries 2. *)
Lemma counters_differ_from_reference :
  map counters (steps_of (insertionSort true) (nums [0; 1; 2]))
    = [Some (0, 0); Some (0, 0); Some (0, 0)] /\
  last_counters (insertionSort true) (nums [0; 1; 2]) = Some (0, 0) /\
  reference_insertionSort [0; 1; 2] = ([0; 1; 2], 2, 0) /\
  final_array (insertionSort true) (nums [0; 1; 2]) = nums [0; 1; 2] /\
  last_counters (selectionSort true) (nums [0; 1; 2]) = Some (3, 0) /\
  last_counters (binaryInsertionSort true) (nums [0; 1; 2]) = Some (3, 0) /\
  step_swaps (last (steps_of (mergeSort true) (nums [1; 0])) (mkStep [] None None None None))
    = Some 2 /\
  swaps (final_stats (mergeSort false) (nums [1; 0])) = 0.
Proof. repeat split; vm_compute; reflexivity. Qed.

(** For every sort driver and every input array, the counters carried
    by the steps of a run never decrease along the yielded sequence, and
    when the run returns its last step carries the counters the run ends
    with. *)
Lemma counters_never_decrease (a : jsarray) (fuel : nat) (up : bool) :
  Forall (fun D : bool -> Prog unit => counters_behave (D true) a)
    [mergeSort; selectionSort; insertionSort; binaryInsertionSort; quickSort; bubbleSort;
     cocktailShakerSort; gnomeSort fuel; combSort fuel; shellSort; heapSort;
     oddEvenSort fuel; bitonicSort up; cycleSort fuel; lsdRadixSort].
Proof.
  apply Forall_cons.
  { split; [apply (mergeSort_monotone true (mkMem a (mkStats 0 0)))|].
    intros _. apply (mergeSort_synced (mkMem a (mkStats 0 0))). }
  each_driver; apply counters_behave_terminal;
    auto using selectionSort_monotone, insertionSort_monotone, binaryInsertionSort_monotone,
      quickSort_monotone, bubbleSort_monotone, cocktailShakerSort_monotone,
      gnomeSort_monotone, combSort_monotone, shellSort_monotone, heapSort_monotone,
      oddEvenSort_monotone, bitonicSort_monotone, cycleSort_monotone, lsdRadixSort_monotone,
      selectionSort_ends, insertionSort_ends, binaryInsertionSort_ends, quickSort_ends,
      bubbleSort_ends, cocktailShakerSort_ends, gnomeSort_ends, combSort_ends,
      shellSort_ends, heapSort_ends, oddEvenSort_ends, bitonicSort_ends, cycleSort_ends,
      lsdRadixSort_ends.
Qed.

(* ================================================================== *)
(** * The consolidated step of merge sort *)
(* ================================================================== *)

(** C5, as stated, fails in its example: merging the halves [3,1] and
    [2,4] of the range [3,1,2,4] leaves [2,3,1,4] and the consolidated
    step lists the positions 0, 1 and 2; and when merge sort sorts
    [3,1,2,4] its final merge lists the positions 1 and 2.  Neither lists
    all four positions. *)
Lemma merge_example_lists_three_positions :
  last (steps_of (merge 0 1 3 true) (nums [3; 1; 2; 4])) (mkStep [] None None None None) =
    mkStep (nums [2; 3; 1; 4]) (Some [0; 1; 2]) (Some []) (Some 3) (Some 3) /\
  final_array (merge 0 1 3 true) (nums [3; 1; 2; 4]) <> nums [1; 2; 3; 4] /\
  last (steps_of (mergeSort true) (nums [3; 1; 2; 4])) (mkStep [] None None None None) =
    mkStep (nums [1; 2; 3; 4]) (Some [1; 2]) (Some []) (Some 5) (Some 4) /\
  Some [0; 1; 2] <> Some [0; 1; 2; 3] /\ Some [1; 2] <> Some [0; 1; 2; 3].
Proof. repeat split; try (vm_compute; reflexivity); discriminate. Qed.

(** C5 (amended): every call of [merge] (flag on), on any range and from
    any state, returns after yielding one comparison step per pair
    examined and then, exactly when some position of the range changed
    value, one consolidated step whose [swappedIndexes] are, in ascending
    order, exactly the positions of [left..right] whose value differs
    from the snapshot taken on entry; the swap counter grows by the
    number of these positions (and not at all when there is none).
    Merging the halves [3,1] and [2,4] (range values [3,1,2,4]) leaves
    [2,3,1,4] with consolidated [swappedIndexes] [0,1,2]; in mergeSort on
    [3,1,2,4] the final merge starts from [1,3,2,4], leaves [1,2,3,4] and
    lists [1,2]. *)
Theorem merge_consolidated_step (left mid right : Z) (m : Mem) :
  (exists o m',
     merge left mid right true m = (o, m', Some tt) /\
     merge_emission left right m o m' /\
     let changed := changed_from (Z.to_nat (right + 1 - left)) left (arr m') (arr m) in
     (forall k, In k changed <->
                left <= k <= right /\ get_idx (arr m') k <> get_idx (arr m) k) /\
     StronglySorted Z.lt changed) /\
  steps_of (merge 0 1 3 true) (nums [3; 1; 2; 4]) =
    [mkStep (nums [3; 1; 2; 4]) (Some []) (Some [0; 2]) (Some 1) (Some 0);
     mkStep (nums [3; 1; 2; 4]) (Some []) (Some [0; 3]) (Some 2) (Some 0);
     mkStep (nums [3; 1; 2; 4]) (Some []) (Some [1; 3]) (Some 3) (Some 0);
     mkStep (nums [2; 3; 1; 4]) (Some [0; 1; 2]) (Some []) (Some 3) (Some 3)] /\
  last (steps_of (mergeSort true) (nums [3; 1; 2; 4])) (mkStep [] None None None None) =
    mkStep (nums [1; 2; 3; 4]) (Some [1; 2]) (Some []) (Some 5) (Some 4).
Proof.
  split; [|split; vm_compute; reflexivity].
  destruct (merge_emits left mid right m) as (o & m' & [] & Hrun & Hem).
  exists o, m'. split; [exact Hrun|]. split; [exact Hem|].
  cbv zeta. split; [|apply changed_from_ascending].
  intros k. rewrite changed_from_In, strict_neq_true. split; intros [H1 H2]; (split; [lia | exact H2]).
Qed.

(* ================================================================== *)
(** * The sort drivers sort *)
(* ================================================================== *)

Lemma sorts_final (p : Prog unit) (l : list Z) (n : nat) :
  sorts p l n -> final_step_array p (nums l) = Some (nums (iota n)).
Proof.
  intros (o & s & m' & Hrun & Hs). unfold final_step_array, steps_of.
  rewrite Hrun. cbn [out fst]. rewrite rev_app_distr. cbn [rev app]. f_equal. exact Hs.
Qed.

Lemma sorts_at (p : Prog unit) (l : list Z) (n : nat) :
  Permutation l (iota n) ->
  (forall m, arr m = nums l ->
     wp p (fun o _ m' => sorted_mem l m' /\ exists o' s, o = o' ++ [s] /\ array s = arr m') m) ->
  sorts p l n.
Proof. intros Hp H. apply sorts_of_wp; [exact Hp | apply H; reflexivity]. Qed.

Lemma cube_expand (x : Z) : x ^ 3 = x * (x * x).
Proof. change 3 with (Z.succ (Z.succ 1)). rewrite !Z.pow_succ_r, Z.pow_1_r by lia. ring. Qed.

Lemma iota_nonneg (n : nat) : Forall (fun x => 0 <= x) (iota n).
Proof.
  apply Forall_forall. intros x Hx. apply in_map_iff in Hx.
  destruct Hx as (k & <- & _). lia.
Qed.

(** On one element [gnomeSort] never returns: it compares the element
    with the [undefined] beyond the end, exchanges the two, and steps
    back, for ever. *)
Lemma gnome_single_state (fuel : nat) :
  forall m, arr m = [Num 0] \/ arr m = [Undefined; Num 0] \/ arr m = [Num 0; Undefined] ->
    res (gnomeSort fuel true m) = None.
Proof.
  unfold gnomeSort. intros m Hm. rewrite res_bind.
  match goal with |- match res (?w m) with _ => _ end = None =>
    assert (Hw : res (w m) = None); [|rewrite Hw; reflexivity] end.
  revert m Hm. induction fuel as [|fuel IH]; intros [a st] Hm; cbn [arr] in Hm;
    rewrite while_eq.
  - destruct Hm as [->|[->| ->]]; reflexivity.
  - destruct Hm as [->|[->| ->]]; cbn [arr len length Z.of_nat Z.ltb Z.compare Pos.of_succ_nat
                                       Pos.succ];
      rewrite res_bind;
      match goal with |- match res (?b ?m0) with _ => _ end = None =>
        let r := eval vm_compute in (arr (mem (b m0))) in
        let x := eval vm_compute in (res (b m0)) in
        assert (Ha : arr (mem (b m0)) = r) by (destruct st; reflexivity);
        assert (Hr : res (b m0) = x) by (destruct st; reflexivity);
        rewrite Hr; apply IH; rewrite Ha; auto
      end.
Qed.

Lemma gnomeSort_single_never_returns (fuel : nat) :
  res (run (gnomeSort fuel true) (nums [0])) = None.
Proof. apply gnome_single_state. left. reflexivity. Qed.

(** C1, as the spec words it, fails: [mergeSort] on the one-element array
    [0] returns without yielding a step, so there is no final step; and
    [bitonicSort] on the three elements [0, 2, 1] ends on a step that
    shows [0, 2, 1]. *)
Lemma some_drivers_do_not_sort :
  final_step_array (mergeSort true) (nums [0]) = None /\
  ~ sorts (mergeSort true) [0] 1 /\
  Permutation [0; 2; 1] (iota 3) /\
  final_step_array (bitonicSort true true) (nums [0; 2; 1]) = Some (nums [0; 2; 1]) /\
  ~ sorts (bitonicSort true true) [0; 2; 1] 3.
Proof.
  split; [reflexivity|].
  split; [intros H; apply sorts_final in H; vm_compute in H; discriminate|].
  split; [apply perm_skip, perm_swap|].
  split; [vm_compute; reflexivity|].
  intros H. apply sorts_final in H. vm_compute in H. discriminate.
Qed.

(** C1 (amended): on every array [l] that is a permutation of
    [0 .. N-1], run with [yieldCompare = true], selectionSort,
    insertionSort, binaryInsertionSort, quickSort, bubbleSort,
    cocktailShakerSort, shellSort, heapSort and lsdRadixSort return after
    finitely many steps and the last step they yield shows the ascending
    sequence [0 .. N-1]; so do combSort, oddEvenSort and cycleSort (whose
    loops the model bounds by a fuel: any fuel of at least [2 (N+1)^3]
    suffices); so do mergeSort and gnomeSort when [N >= 2]; and so does
    bitonicSort when [N] is a power of two. *)
Theorem drivers_sort (l : list Z) (n : nat) :
  Permutation l (iota n) ->
  Forall (fun p => sorts p l n)
    [selectionSort true; insertionSort true; binaryInsertionSort true; quickSort true;
     bubbleSort true; cocktailShakerSort true; shellSort true; heapSort true;
     lsdRadixSort true] /\
  (forall fuel, enough_fuel n fuel ->
     sorts (combSort fuel true) l n /\ sorts (oddEvenSort fuel true) l n /\
     sorts (cycleSort fuel true) l n) /\
  ((2 <= n)%nat ->
     sorts (mergeSort true) l n /\
     forall fuel, enough_fuel n fuel -> sorts (gnomeSort fuel true) l n) /\
  (forall k : nat, Z.of_nat n = 2 ^ Z.of_nat k -> sorts (bitonicSort true true) l n).
Proof.
  intros Hp.
  assert (Hlen : zlen l = Z.of_nat n) by (rewrite (perm_zlen _ _ Hp); apply zlen_iota).
  assert (Hcube : forall fuel, enough_fuel n fuel ->
            (zlen l + 1) * ((zlen l + 1) * (zlen l + 1)) <= Z.of_nat fuel /\
            2 * ((zlen l + 1) * ((zlen l + 1) * (zlen l + 1))) <= Z.of_nat fuel).
  { intros fuel Hf. unfold enough_fuel in Hf. rewrite cube_expand, <- Hlen in Hf.
    assert (0 <= zlen l) by lia. nia. }
  split; [|split; [|split]].
  - repeat constructor; apply (sorts_at _ l n Hp); intros m Ha.
    + apply selectionSort_sorted; exact Ha.
    + apply insertionSort_sorted; exact Ha.
    + apply binaryInsertionSort_sorted; exact Ha.
    + apply quickSort_sorted; exact Ha.
    + apply bubbleSort_sorted; exact Ha.
    + apply cocktailShakerSort_sorted; exact Ha.
    + apply shellSort_sorted; exact Ha.
    + apply heapSort_sorted; exact Ha.
    + apply lsdRadixSort_sorted; [exact Ha|].
      apply (Permutation_Forall (Permutation_sym Hp)). apply iota_nonneg.
  - intros fuel Hf. destruct (Hcube fuel Hf) as [H1 H2].
    assert (H0 : 0 <= zlen l) by lia.
    split; [|split]; apply (sorts_at _ l n Hp); intros m Ha.
    + apply combSort_sorted; [exact Ha | nia].
    + apply oddEvenSort_sorted; [exact Ha | nia].
    + apply (cycleSort_sorted l n); [exact Ha | exact Hp | nia].
  - intros Hn. split.
    + apply (sorts_at _ l n Hp). intros m Ha. apply mergeSort_sorted; [exact Ha | lia].
    + intros fuel Hf. destruct (Hcube fuel Hf) as [H1 H2].
      apply (sorts_at _ l n Hp). intros m Ha.
      apply gnomeSort_sorted; [exact Ha | lia|]. rewrite cube_expand. exact H1.
  - intros k Hk. apply (sorts_at _ l n Hp). intros m Ha.
    apply (bitonicSort_sorted l k); [exact Ha|]. unfold pow2. lia.
Qed.

Lemma drivers_sort_witness :
  Permutation [1; 0] (iota 2) /\
  sorts (selectionSort true) [1; 0] 2 /\
  sorts (cycleSort 54 true) [1; 0] 2 /\
  sorts (mergeSort true) [1; 0] 2 /\
  sorts (gnomeSort 54 true) [1; 0] 2 /\
  sorts (bitonicSort true true) [1; 0] 2.
Proof.
  assert (Hp : Permutation [1; 0] (iota 2)) by apply perm_swap.
  assert (Hf : enough_fuel 2 54) by (unfold enough_fuel; vm_compute; discriminate).
  destruct (drivers_sort [1; 0] 2 Hp) as (H1 & H2 & H3 & H4).
  split; [exact Hp|].
  split; [exact (Forall_inv H1)|].
  split; [exact (proj2 (proj2 (H2 54%nat Hf)))|].
  split; [exact (proj1 (H3 (le_n 2)))|].
  split; [exact (proj2 (H3 (le_n 2)) 54%nat Hf)|].
  exact (H4 1%nat eq_refl).
Defined.

(* ================================================================== *)
(** * Further properties: the drivers on arbitrary integers *)
(* ================================================================== *)

(** X1: on every array of integers (any length, negative numbers and
    repeated values included) selectionSort, insertionSort,
    binaryInsertionSort, quickSort, bubbleSort, cocktailShakerSort,
    shellSort and heapSort, run with [yieldCompare = true], return; they
    sort in place: the array is left an ascending rearrangement of the
    input, and the last step they yield shows it. *)
Theorem drivers_sort_any_integers (l : list Z) :
  Forall (fun p => sorts_ints p l)
    [selectionSort true; insertionSort true; binaryInsertionSort true; quickSort true;
     bubbleSort true; cocktailShakerSort true; shellSort true; heapSort true].
Proof.
  repeat constructor; apply sorts_ints_at; intros m Ha.
  - apply selectionSort_sorted; exact Ha.
  - apply insertionSort_sorted; exact Ha.
  - apply binaryInsertionSort_sorted; exact Ha.
  - apply quickSort_sorted; exact Ha.
  - apply bubbleSort_sorted; exact Ha.
  - apply cocktailShakerSort_sorted; exact Ha.
  - apply shellSort_sorted; exact Ha.
  - apply heapSort_sorted; exact Ha.
Qed.

(** X2: combSort and oddEvenSort sort every array of integers in place,
    and so do gnomeSort and mergeSort on every array of at least two
    integers; the loops of the first three, whose guards do not bound
    them, end within [2 (N+1)^3] rounds. *)
Theorem looping_drivers_sort_any_integers (l : list Z) (fuel : nat) :
  enough_fuel (length l) fuel ->
  sorts_ints (combSort fuel true) l /\
  sorts_ints (oddEvenSort fuel true) l /\
  ((2 <= length l)%nat ->
     sorts_ints (gnomeSort fuel true) l /\ sorts_ints (mergeSort true) l).
Proof.
  intros Hf. unfold enough_fuel in Hf. rewrite cube_expand in Hf.
  fold (zlen l) in Hf. assert (H0 : 0 <= zlen l) by (unfold zlen; lia).
  split; [|split].
  - apply sorts_ints_at. intros m Ha. apply combSort_sorted; [exact Ha | nia].
  - apply sorts_ints_at. intros m Ha. apply oddEvenSort_sorted; [exact Ha | nia].
  - intros Hn. split; apply sorts_ints_at; intros m Ha.
    + apply gnomeSort_sorted; [exact Ha | unfold zlen; lia|]. rewrite cube_expand. nia.
    + apply mergeSort_sorted; [exact Ha | unfold zlen; lia].
Qed.

Lemma looping_drivers_sort_any_integers_witness :
  enough_fuel 4 250 /\
  sorts_ints (combSort 250 true) [3; -1; 3; 0] /\
  sorts_ints (gnomeSort 250 true) [3; -1; 3; 0] /\
  sorts_ints (mergeSort true) [3; -1; 3; 0].
Proof.
  assert (Hf : enough_fuel 4 250) by (unfold enough_fuel; vm_compute; discriminate).
  destruct (looping_drivers_sort_any_integers [3; -1; 3; 0] 250 Hf) as (H1 & H2 & H3).
  split; [exact Hf|]. split; [exact H1|].
  assert (Hn : (2 <= length [3; -1; 3; 0]%Z)%nat) by (cbn; lia).
  split; [exact (proj1 (H3 Hn)) | exact (proj2 (H3 Hn))].
Defined.

(** X3: lsdRadixSort sorts in place every array of non-negative integers
    below [2^53] (repeated values included), whatever the number of
    decimal digits of its greatest element.  Below [2^53] the digits the
    page reads, through a division of doubles, are the digits of the
    integers. *)
Theorem lsdRadixSort_sorts_naturals (l : list Z) :
  Forall (fun x => 0 <= x < 2 ^ 53) l -> sorts_ints (lsdRadixSort true) l.
Proof.
  intros Hall. apply sorts_ints_at. intros m Ha.
  apply lsdRadixSort_sorted; [exact Ha|].
  eapply Forall_impl; [|exact Hall]. intros x Hx. cbv beta in Hx. lia.
Qed.

Lemma lsdRadixSort_sorts_naturals_witness :
  Forall (fun x => 0 <= x < 2 ^ 53) [170; 45; 75; 90; 2; 802; 2; 66] /\
  sorts_ints (lsdRadixSort true) [170; 45; 75; 90; 2; 802; 2; 66].
Proof.
  assert (H : Forall (fun x => 0 <= x < 2 ^ 53) [170; 45; 75; 90; 2; 802; 2; 66])
    by (repeat constructor; vm_compute; try reflexivity; discriminate).
  split; [exact H | exact (lsdRadixSort_sorts_naturals _ H)].
Defined.

(** X4: on an array of integers whose length is a power of two,
    [bitonicSort(arr, up)] returns and sorts in place in the direction
    asked for: ascending when [up] is true, descending when it is false. *)
Theorem bitonicSort_sorts_in_direction (up : bool) (l : list Z) (k : nat) :
  Z.of_nat (length l) = 2 ^ Z.of_nat k -> sorts_ints_dir up (bitonicSort up true) l.
Proof. intros H. apply (bitonicSort_dir up l k). exact H. Qed.

Lemma bitonicSort_sorts_in_direction_witness :
  Z.of_nat (length [3; 1; 2; 0]) = 2 ^ Z.of_nat 2 /\
  sorts_ints_dir false (bitonicSort false true) [3; 1; 2; 0].
Proof.
  split; [reflexivity|].
  exact (bitonicSort_sorts_in_direction false [3; 1; 2; 0] 2 eq_refl).
Defined.

(** X5: on an array of one element gnomeSort never returns, whatever the
    element and the flag: every round compares the element with the
    [undefined] next to it, exchanges the two and steps back; with the
    flag on each round yields two steps, so the steps never end. *)
Theorem gnomeSort_single_element_runs_on (x : Z) (yc : bool) (fuel : nat) :
  res (run (gnomeSort fuel yc) (nums [x])) = None /\
  length (steps_of (gnomeSort fuel true) (nums [x])) = (2 * fuel)%nat.
Proof.
  split.
  - apply (gnome_single_round x yc fuel). left. reflexivity.
  - apply (gnome_single_round x true fuel (mkMem (nums [x]) (mkStats 0 0))).
    left. reflexivity.
Qed.
(* ================================================================== *)
(** * Further properties: what the counters count *)
(* ================================================================== *)

(** X6: the sorts that exchange neighbours only - bubbleSort,
    cocktailShakerSort, oddEvenSort and, on two elements or more,
    gnomeSort - end with a swap counter equal to the number of inversions
    of the input (the pairs of positions that hold their values in the
    wrong order), and the last step they yield shows that count. *)
Theorem neighbour_exchanges_count_inversions (l : list Z) (fuel : nat) :
  enough_fuel (length l) fuel ->
  counts_swaps (bubbleSort true) (nums l) (inversions l) /\
  counts_swaps (cocktailShakerSort true) (nums l) (inversions l) /\
  counts_swaps (oddEvenSort fuel true) (nums l) (inversions l) /\
  ((2 <= length l)%nat -> counts_swaps (gnomeSort fuel true) (nums l) (inversions l)).
Proof.
  intros Hf. unfold enough_fuel in Hf. rewrite cube_expand in Hf.
  fold (zlen l) in Hf. assert (H0 : 0 <= zlen l) by (unfold zlen; lia).
  split; [|split; [|split]].
  - apply swaps_are_inversions;
      [apply bubbleSort_pays | | apply bubbleSort_ends].
    apply sorts_ints_at. intros m Ha. apply bubbleSort_sorted; exact Ha.
  - apply swaps_are_inversions;
      [apply cocktailShakerSort_pays | | apply cocktailShakerSort_ends].
    apply sorts_ints_at. intros m Ha. apply cocktailShakerSort_sorted; exact Ha.
  - apply swaps_are_inversions;
      [apply oddEvenSort_pays | | apply oddEvenSort_ends].
    apply sorts_ints_at. intros m Ha. apply oddEvenSort_sorted; [exact Ha | nia].
  - intros Hn.
    assert (Hn' : 2 <= zlen l) by (unfold zlen; lia).
    assert (Hf' : (zlen l + 1) ^ 3 <= Z.of_nat fuel) by (rewrite cube_expand; nia).
    apply counts_swaps_of; [apply gnomeSort_ends | | apply gnomeSort_swaps; assumption].
    apply sorts_ints_at. intros m Ha. apply gnomeSort_sorted; assumption.
Qed.

Lemma neighbour_exchanges_count_inversions_witness :
  enough_fuel 4 250 /\
  counts_swaps (bubbleSort true) (nums [3; -1; 3; 0]) 3 /\
  counts_swaps (gnomeSort 250 true) (nums [3; -1; 3; 0]) 3.
Proof.
  assert (Hf : enough_fuel 4 250) by (unfold enough_fuel; vm_compute; discriminate).
  destruct (neighbour_exchanges_count_inversions [3; -1; 3; 0] 250 Hf) as (H1 & _ & _ & H4).
  split; [exact Hf|]. split; [exact H1|].
  apply H4. cbn. lia.
Defined.

(** X7: insertionSort counts one comparison and one exchange per shift,
    and shifts once per inversion: on every array of integers it ends
    with both counters equal to the number of inversions of the input
    (the comparison that ends a scan is not counted), its last step shows
    them, and it yields one step per shift, one per element inserted and
    a closing one. *)
Theorem insertionSort_counts_inversions (l : list Z) :
  final_stats (insertionSort true) (nums l) = mkStats (inversions l) (inversions l) /\
  last_counters (insertionSort true) (nums l) = Some (inversions l, inversions l) /\
  Z.of_nat (length (steps_of (insertionSort true) (nums l)))
    = inversions l + Z.max 0 (zlen l - 1) + 1.
Proof.
  destruct (insertionSort_counts l) as (Hc & Hs & Hn).
  assert (Hsort : sorts_ints (insertionSort true) l).
  { apply sorts_ints_at. intros m Ha. apply insertionSort_sorted; exact Ha. }
  split; [|split; [|exact Hn]].
  - destruct (final_stats (insertionSort true) (nums l)) as [c s]. cbn in Hc, Hs.
    subst. reflexivity.
  - rewrite (last_counters_final _ _ (insertionSort_ends true)
               (sorts_ints_completes _ _ Hsort)), Hc, Hs.
    reflexivity.
Qed.

(** X8: selectionSort returns on every array, whatever it holds and
    whatever the flag, after comparing every pair of positions exactly
    once, N (N - 1) / 2 comparisons on N elements, and exchanging at most
    max(N - 1, 0) times; it yields one step per exchange, a closing step
    and, with the flag on, one step per comparison. *)
Theorem selectionSort_compares_every_pair (a : jsarray) (yc : bool) :
  completes (selectionSort yc) a /\
  2 * comparisons (final_stats (selectionSort yc) a) = len a * (len a - 1) /\
  0 <= swaps (final_stats (selectionSort yc) a) <= Z.max 0 (len a - 1) /\
  Z.of_nat (length (steps_of (selectionSort yc) a))
    = (if yc then comparisons (final_stats (selectionSort yc) a) else 0)
      + swaps (final_stats (selectionSort yc) a) + 1.
Proof.
  destruct (selectionSort_counts yc (mkMem a (mkStats 0 0)))
    as (o & m' & [] & Hrun & _ & Hc & Hs & Hn).
  unfold completes, final_stats, steps_of, run. rewrite Hrun.
  cbn [res mem out fst snd arr stats] in *. cbn [comparisons swaps] in *.
  split; [discriminate|]. split; [lia|]. split; [lia|].
  rewrite Hn. destruct yc; lia.
Qed.

(** X9: on an array of integers already in ascending order bubbleSort
    makes a single pass: max(N - 1, 0) comparisons, no exchange, and one
    step per comparison and a closing one, which all show the input. *)
Theorem bubbleSort_single_pass_when_sorted (l : list Z) :
  StronglySorted Z.le l ->
  completes (bubbleSort true) (nums l) /\
  final_array (bubbleSort true) (nums l) = nums l /\
  final_stats (bubbleSort true) (nums l) = mkStats (Z.max 0 (zlen l - 1)) 0 /\
  Z.of_nat (length (steps_of (bubbleSort true) (nums l))) = Z.max 0 (zlen l - 1) + 1 /\
  Forall (fun s => array s = nums l) (steps_of (bubbleSort true) (nums l)).
Proof.
  intros Hs. apply StronglySorted_sorted_on in Hs.
  destruct (bubbleSort_best l (mkMem (nums l) (mkStats 0 0)) eq_refl Hs)
    as (o & m' & [] & Hrun & Ha & Hc & Hw & Hlen & Hall).
  unfold completes, final_array, final_stats, steps_of, run. rewrite Hrun.
  cbn [res mem out fst snd arr stats comparisons swaps] in *.
  split; [discriminate|]. split; [exact Ha|]. split; [|split; assumption].
  destruct (stats m') as [c s]. cbn in Hc, Hw. subst. f_equal.
Qed.

Lemma bubbleSort_single_pass_when_sorted_witness :
  StronglySorted Z.le [-2; 0; 0; 5] /\
  final_stats (bubbleSort true) (nums [-2; 0; 0; 5]) = mkStats 3 0.
Proof.
  assert (H : StronglySorted Z.le [-2; 0; 0; 5]) by (repeat constructor; lia).
  split; [exact H|].
  exact (proj1 (proj2 (proj2 (bubbleSort_single_pass_when_sorted _ H)))).
Defined.
(* ================================================================== *)
(** * Further properties: shuffle, accent and their playback *)
(* ================================================================== *)

(** X10: shuffleGenerator, drawing at each index [i] a position [pick i]
    between 0 and [i] (what [Math.floor(Math.random() * (i + 1))] gives),
    returns after one step per index from N - 1 down to 1; the step of
    index [i] names [i] and [pick i] as compared, has no swapped indexes
    and no counters, and every step, like the array left at the end,
    shows a rearrangement of the input; the last step shows the array as
    it is left. *)
Theorem shuffleGenerator_permutes (pick : Z -> Z) (l : list Z) :
  (forall i, 1 <= i < zlen l -> 0 <= pick i <= i) ->
  exists o m' l',
    run (shuffleGenerator pick) (nums l) = (o, m', Some tt) /\
    arr m' = nums l' /\ Permutation l' l /\
    map compareIndexes o
      = map (fun i => Some [i; pick i]) (downfrom (zlen l - 1) (Z.to_nat (zlen l - 1))) /\
    Forall (fun s => swappedIndexes s = None /\ counters s = None /\ shows_perm l s) o /\
    (o = [] \/ exists o' s, o = o' ++ [s] /\ array s = nums l').
Proof.
  intros Hpick.
  destruct (shuffleGenerator_spec pick l (mkMem (nums l) (mkStats 0 0)) eq_refl Hpick)
    as (o & m' & [] & Hrun & (l' & Ha & Hp) & _ & Hmap & Hall & Hlast).
  exists o, m', l'. split; [exact Hrun|]. split; [exact Ha|]. split; [exact Hp|].
  split; [exact Hmap|]. split; [exact Hall|].
  destruct Hlast as [->|(o' & s & -> & Hs)]; [left; reflexivity|].
  right. exists o', s. split; [reflexivity|]. rewrite Hs. exact Ha.
Qed.

Lemma shuffleGenerator_permutes_witness :
  (forall i, 1 <= i < zlen [10; 20; 30] -> 0 <= (fun i => i / 2) i <= i) /\
  exists o m' l',
    run (shuffleGenerator (fun i => i / 2)) (nums [10; 20; 30]) = (o, m', Some tt) /\
    arr m' = nums l' /\ Permutation l' [10; 20; 30].
Proof.
  assert (H : forall i, 1 <= i < zlen [10; 20; 30] -> 0 <= (fun i => i / 2) i <= i).
  { intros i Hi. cbv beta. unfold zlen in Hi. cbn in Hi.
    assert (i = 1 \/ i = 2) as [-> | ->] by lia; vm_compute; split; discriminate. }
  split; [exact H|].
  destruct (shuffleGenerator_permutes (fun i => i / 2) [10; 20; 30] H)
    as (o & m' & l' & H1 & H2 & H3 & _).
  exists o, m', l'. auto.
Defined.

(** X11: accentGenerator only reads the array: on every array it yields
    one step per position, in order from 0, each showing the array and
    naming that position as swapped, then a closing step without indexes;
    no step carries counters and the array is left as it was. *)
Theorem accentGenerator_sweeps (a : jsarray) :
  run accentGenerator a =
    (map (fun i => mkStep a (Some [i]) None None None) (iota (length a))
       ++ [mkStep a None None None None],
     mkMem a (mkStats 0 0), Some tt).
Proof.
  destruct (accentGenerator_spec (mkMem a (mkStats 0 0))) as (o & m' & [] & Hrun & -> & ->).
  exact Hrun.
Qed.

(** X12: on a rearrangement of [0 .. N-1] cycleSort writes every element
    that is not at its place exactly once, straight to its place: it ends
    with a swap counter equal to the number of positions that do not hold
    their own index, and its last step shows that count. *)
Theorem cycleSort_writes_each_misplaced_once (l : list Z) (n fuel : nat) :
  Permutation l (iota n) -> (n <= fuel)%nat ->
  counts_swaps (cycleSort fuel true) (nums l) (misplaced 0 l).
Proof.
  intros Hp Hf. apply counts_swaps_of.
  - apply cycleSort_ends.
  - apply sorts_ints_at. intros m Ha. apply (cycleSort_sorted l n fuel m Ha Hp Hf).
  - apply (cycleSort_swaps l n fuel Hp Hf).
Qed.

Lemma cycleSort_writes_each_misplaced_once_witness :
  Permutation [2; 1; 0; 3] (iota 4) /\ (4 <= 4)%nat /\
  counts_swaps (cycleSort 4 true) (nums [2; 1; 0; 3]) 2.
Proof.
  assert (Hp : Permutation [2; 1; 0; 3] (iota 4)).
  { change (iota 4) with [0; 1; 2; 3].
    apply (perm_trans (l' := [1; 2; 0; 3])); [apply perm_swap|].
    apply (perm_trans (l' := [1; 0; 2; 3])); [apply perm_skip, perm_swap|].
    apply perm_swap. }
  split; [exact Hp|]. split; [lia|].
  exact (cycleSort_writes_each_misplaced_once [2; 1; 0; 3] 4 4 Hp (le_n 4)).
Defined.

(** X13: mergeSort with the flag on returns on every array, whatever it
    holds, and on N <= 2^d elements it yields at most N d steps and
    counts at most N d comparisons: each of the at most d levels of
    halving merges ranges that together hold N elements, and a merge of s
    elements yields at most s steps. *)
Theorem mergeSort_steps_bound (a : jsarray) (d : nat) :
  len a <= 2 ^ Z.of_nat d ->
  completes (mergeSort true) a /\
  Z.of_nat (length (steps_of (mergeSort true) a)) <= len a * Z.of_nat d /\
  comparisons (final_stats (mergeSort true) a) <= len a * Z.of_nat d.
Proof.
  intros Hsz.
  destruct (mergeSort_steps d (mkMem a (mkStats 0 0)) Hsz) as (o & m' & [] & Hrun & Ho & Hc).
  unfold completes, steps_of, final_stats, run. rewrite Hrun.
  cbn [res out mem fst snd arr stats comparisons] in *.
  split; [discriminate|]. split; lia.
Qed.

Lemma mergeSort_steps_bound_witness :
  len (nums [3; 1; 2; 0; 4]) <= 2 ^ Z.of_nat 3 /\
  Z.of_nat (length (steps_of (mergeSort true) (nums [3; 1; 2; 0; 4]))) <= 5 * 3.
Proof.
  assert (H : len (nums [3; 1; 2; 0; 4]) <= 2 ^ Z.of_nat 3) by (vm_compute; discriminate).
  split; [exact H|].
  exact (proj1 (proj2 (mergeSort_steps_bound (nums [3; 1; 2; 0; 4]) 3 H))).
Defined.

(** X14: [animateSort] with shuffleGenerator on an order of N strips
    (N integers, each from 0 to N - 1), with the picture available on a
    canvas at least N pixels wide and 1 high, when frames take at least
    one step and the frame lasts no negative time, draws only
    rearrangements of the input and returns one, which it presents last
    without highlights (whatever the cap of 80,000 steps cuts). *)
Theorem animateSort_shuffle_returns_permutation (context : Context) (l : list Z)
    (pick : Z -> Z) (interval frameDuration : Z) (yieldCompare : option bool) :
  Forall (fun z => 0 <= z < zlen l) l ->
  zlen l <= canvas_width context -> 1 <= canvas_height context ->
  (forall i, 1 <= i < zlen l -> 0 <= pick i <= i) ->
  at_least_one (numStepsPerFrame frameDuration interval) = true ->
  0 <= Z.max frameDuration interval ->
  exists frames l',
    animateSort Available context (nums l) interval frameDuration
      (generator_of_unflagged (shuffleGenerator pick)) yieldCompare
      = (frames ++ [Draw (nums l') []], Returned (nums l')) /\
    Permutation l' l /\
    Forall (fun a => exists ls, a = nums ls /\ Permutation ls l) (drawn frames).
Proof. apply play_shuffle. Qed.

Lemma animateSort_shuffle_returns_permutation_witness :
  (Forall (fun z => 0 <= z < zlen [2; 0; 1]) [2; 0; 1] /\
   zlen [2; 0; 1] <= canvas_width (mkContext 1280 720) /\
   1 <= canvas_height (mkContext 1280 720) /\
   (forall i, 1 <= i < zlen [2; 0; 1] -> 0 <= (fun i => i / 2) i <= i) /\
   at_least_one (numStepsPerFrame 35 10) = true /\
   0 <= Z.max 35 10) /\
  exists frames l',
    animateSort Available (mkContext 1280 720) (nums [2; 0; 1]) 10 35
      (generator_of_unflagged (shuffleGenerator (fun i => i / 2))) None
      = (frames ++ [Draw (nums l') []], Returned (nums l')).
Proof.
  assert (H1 : Forall (fun z => 0 <= z < zlen [2; 0; 1]) [2; 0; 1])
    by (repeat constructor; vm_compute; try reflexivity; discriminate).
  assert (H2 : zlen [2; 0; 1] <= canvas_width (mkContext 1280 720))
    by (vm_compute; discriminate).
  assert (H3 : 1 <= canvas_height (mkContext 1280 720)) by (vm_compute; discriminate).
  assert (H4 : forall i, 1 <= i < zlen [2; 0; 1] -> 0 <= (fun i => i / 2) i <= i).
  { intros i Hi. cbv beta. unfold zlen in Hi. cbn in Hi.
    assert (i = 1 \/ i = 2) as [-> | ->] by lia; vm_compute; split; discriminate. }
  assert (H5 : at_least_one (numStepsPerFrame 35 10) = true) by reflexivity.
  assert (H6 : 0 <= Z.max 35 10) by (vm_compute; discriminate).
  split; [auto 10|].
  destruct (animateSort_shuffle_returns_permutation (mkContext 1280 720) [2; 0; 1]
              (fun i => i / 2) 10 35 None H1 H2 H3 H4 H5 H6) as (frames & l' & E & _).
  exists frames, l'. exact E.
Defined.

(** X15: [animateSort] with accentGenerator on an array that can be
    drawn, when frames take at least one step and the frame lasts no
    negative time, draws the array it was given in every frame,
    presents it once more without highlights and returns it
    unchanged. *)
Theorem animateSort_accent_returns_input (context : Context) (a : jsarray)
    (interval frameDuration : Z) (yieldCompare : option bool) :
  drawable Available context a = true ->
  at_least_one (numStepsPerFrame frameDuration interval) = true ->
  0 <= Z.max frameDuration interval ->
  exists frames,
    animateSort Available context a interval frameDuration
      (generator_of_unflagged accentGenerator) yieldCompare
      = (frames ++ [Draw a []], Returned a) /\
    Forall (eq a) (drawn frames).
Proof. apply play_accent. Qed.

Lemma animateSort_accent_returns_input_witness :
  (drawable Available (mkContext 1280 720) (nums [0; 1; 2]) = true /\
   at_least_one (numStepsPerFrame 35 10) = true /\ 0 <= Z.max 35 10) /\
  snd (animateSort Available (mkContext 1280 720) (nums [0; 1; 2]) 10 35
         (generator_of_unflagged accentGenerator) (Some true))
    = Returned (nums [0; 1; 2]).
Proof.
  assert (H1 : drawable Available (mkContext 1280 720) (nums [0; 1; 2]) = true)
    by reflexivity.
  assert (H2 : at_least_one (numStepsPerFrame 35 10) = true) by reflexivity.
  assert (H3 : 0 <= Z.max 35 10) by (vm_compute; discriminate).
  split; [auto|].
  destruct (animateSort_accent_returns_input (mkContext 1280 720) (nums [0; 1; 2]) 10 35
              (Some true) H1 H2 H3) as (frames & E & _).
  rewrite E. reflexivity.
Defined.

(** X16: the valve of 80,000 steps does not cut the three sorts of the
    page on the sizes they are meant for.  On an order of N strips, with
    the picture available on a canvas at least N pixels wide and 1 high,
    when frames take at least one step and the frame lasts no negative
    time, [animateSort] with mergeSort on 2 to 4096 elements, and with
    selectionSort or insertionSort on at most 399, presents the steps
    and returns the array in ascending order. *)
Theorem animateSort_returns_sorted_array (context : Context) (l : list Z)
    (interval frameDuration : Z) :
  Forall (fun z => 0 <= z < zlen l) l ->
  zlen l <= canvas_width context -> 1 <= canvas_height context ->
  at_least_one (numStepsPerFrame frameDuration interval) = true ->
  0 <= Z.max frameDuration interval ->
  (2 <= zlen l <= 4096 -> plays_sorted Available context mergeSort l interval frameDuration) /\
  (zlen l <= 399 ->
     plays_sorted Available context selectionSort l interval frameDuration /\
     plays_sorted Available context insertionSort l interval frameDuration).
Proof.
  intros Hall Hw Hh Hk Hd. split; [intros Hn | intros Hn; split].
  - apply play_sorted; try assumption.
    + apply mergeSort_plain; [reflexivity | exact Hall].
    + apply sorts_ints_at. intros m Ha. apply mergeSort_sorted; [exact Ha | lia].
    + apply mergeSort_within_cap. rewrite len_nums. lia.
  - apply play_sorted; try assumption.
    + apply selectionSort_plain; [reflexivity | exact Hall].
    + apply sorts_ints_at. intros m Ha. apply selectionSort_sorted; exact Ha.
    + apply selectionSort_within_cap. rewrite len_nums. lia.
  - apply play_sorted; try assumption.
    + apply insertionSort_plain; [reflexivity | exact Hall].
    + apply sorts_ints_at. intros m Ha. apply insertionSort_sorted; exact Ha.
    + apply insertionSort_within_cap. lia.
Qed.

Lemma animateSort_returns_sorted_array_witness :
  (Forall (fun z => 0 <= z < zlen [2; 0; 1]) [2; 0; 1] /\
   zlen [2; 0; 1] <= canvas_width (mkContext 1280 720) /\
   1 <= canvas_height (mkContext 1280 720) /\
   at_least_one (numStepsPerFrame 35 10) = true /\ 0 <= Z.max 35 10 /\
   2 <= zlen [2; 0; 1] <= 4096) /\
  plays_sorted Available (mkContext 1280 720) mergeSort [2; 0; 1] 10 35 /\
  plays_sorted Available (mkContext 1280 720) insertionSort [2; 0; 1] 10 35.
Proof.
  assert (H1 : Forall (fun z => 0 <= z < zlen [2; 0; 1]) [2; 0; 1])
    by (repeat constructor; vm_compute; try reflexivity; discriminate).
  assert (H2 : zlen [2; 0; 1] <= canvas_width (mkContext 1280 720))
    by (vm_compute; discriminate).
  assert (H3 : 1 <= canvas_height (mkContext 1280 720)) by (vm_compute; discriminate).
  assert (H4 : at_least_one (numStepsPerFrame 35 10) = true) by reflexivity.
  assert (H5 : 0 <= Z.max 35 10) by (vm_compute; discriminate).
  assert (Hn : 2 <= zlen [2; 0; 1] <= 4096) by (vm_compute; split; discriminate).
  assert (Hn' : zlen [2; 0; 1] <= 399) by (vm_compute; discriminate).
  destruct (animateSort_returns_sorted_array (mkContext 1280 720) [2; 0; 1] 10 35
              H1 H2 H3 H4 H5) as [G1 G2].
  split; [auto 10|].
  split; [exact (G1 Hn) | exact (proj2 (G2 Hn'))].
Defined.

(** X17: a round of [execute] runs to its end and leaves the picture in
    order.  With the picture available on a canvas at least 1 pixel high
    and as wide as the greater element count, a frame duration that is
    not negative and gives at least one step per frame for both
    intervals, at most 4096 elements for merge sort and at most 399 for
    selection and insertion sort, every array the round presents can be
    drawn: the round shuffles [0 .. n-1], sorts it back, sweeps it, and
    its last presentation, before the closing pause of two seconds, is
    [0 .. n-1] without highlights; so the loop of [execute] completes,
    with the one entry of [main.js] and with the three entries of its
    longer version. *)
Theorem execute_rounds_restore_order (context : Context) (picks : nat -> Z -> Z)
    (frameDuration slowInterval fastInterval slowN fastN : Z) :
  0 <= canvas_width context ->
  slowN <= canvas_width context -> fastN <= canvas_width context ->
  1 <= canvas_height context ->
  0 <= frameDuration ->
  at_least_one (numStepsPerFrame frameDuration slowInterval) = true ->
  at_least_one (numStepsPerFrame frameDuration fastInterval) = true ->
  slowN <= 4096 -> fastN <= 399 ->
  (forall r i, 1 <= i -> 0 <= picks r i <= i) ->
  (forall r,
     round_restores slowN
       (execute_round Available context (picks r) frameDuration slowInterval fastInterval
          slowN fastN true (generator_of mergeSort)) /\
     round_restores fastN
       (execute_round Available context (picks r) frameDuration slowInterval fastInterval
          slowN fastN false (generator_of selectionSort)) /\
     round_restores fastN
       (execute_round Available context (picks r) frameDuration slowInterval fastInterval
          slowN fastN false (generator_of insertionSort))) /\
  snd (execute_rounds Available context picks 0 frameDuration slowInterval fastInterval
         slowN fastN entries_merge) = Completed /\
  snd (execute_rounds Available context picks 0 frameDuration slowInterval fastInterval
         slowN fastN entries_three) = Completed.
Proof.
  intros Hw0 HwS HwF Hh Hfd Hslow Hfast HslowN HfastN Hpicks.
  assert (R : forall r,
     round_restores slowN
       (execute_round Available context (picks r) frameDuration slowInterval fastInterval
          slowN fastN true (generator_of mergeSort)) /\
     round_restores fastN
       (execute_round Available context (picks r) frameDuration slowInterval fastInterval
          slowN fastN false (generator_of selectionSort)) /\
     round_restores fastN
       (execute_round Available context (picks r) frameDuration slowInterval fastInterval
          slowN fastN false (generator_of insertionSort))).
  { intros r. split; [|split].
    - apply (execute_round_restores context (picks r) frameDuration slowInterval fastInterval
               slowN fastN true mergeSort Hw0 HwS Hh Hfd Hslow Hfast (Hpicks r)).
      intros l Hp. apply (mergeSort_round_ok slowN l HslowN Hp).
    - apply (execute_round_restores context (picks r) frameDuration slowInterval fastInterval
               slowN fastN false selectionSort Hw0 HwF Hh Hfd Hslow Hfast (Hpicks r)).
      intros l Hp. apply (selectionSort_round_ok fastN l HfastN Hp).
    - apply (execute_round_restores context (picks r) frameDuration slowInterval fastInterval
               slowN fastN false insertionSort Hw0 HwF Hh Hfd Hslow Hfast (Hpicks r)).
      intros l Hp. apply (insertionSort_round_ok fastN l HfastN Hp). }
  split; [exact R|].
  destruct (R 0%nat) as ((e0 & E0) & _).
  destruct (R 1%nat) as (_ & (e1 & E1) & _).
  destruct (R 2%nat) as (_ & _ & (e2 & E2)).
  unfold entries_merge, entries_three. cbn [execute_rounds].
  rewrite E0, E1, E2. split; reflexivity.
Qed.

Lemma execute_rounds_restore_order_witness :
  (0 <= canvas_width (mkContext 1280 720) /\ 8 <= canvas_width (mkContext 1280 720) /\
   4 <= canvas_width (mkContext 1280 720) /\ 1 <= canvas_height (mkContext 1280 720) /\
   0 <= 35 /\
   at_least_one (numStepsPerFrame 35 10) = true /\
   at_least_one (numStepsPerFrame 35 5) = true /\
   8 <= 4096 /\ 4 <= 399 /\
   (forall (r : nat) i, 1 <= i -> 0 <= (fun (_ : nat) i => i / 2) r i <= i)) /\
  snd (execute_rounds Available (mkContext 1280 720) (fun _ i => i / 2) 0 35 10 5 8 4
         entries_three) = Completed.
Proof.
  assert (H1 : 0 <= canvas_width (mkContext 1280 720)) by (vm_compute; discriminate).
  assert (H2 : 8 <= canvas_width (mkContext 1280 720)) by (vm_compute; discriminate).
  assert (H3 : 4 <= canvas_width (mkContext 1280 720)) by (vm_compute; discriminate).
  assert (H4 : 1 <= canvas_height (mkContext 1280 720)) by (vm_compute; discriminate).
  assert (H5 : 0 <= 35) by lia.
  assert (H6 : at_least_one (numStepsPerFrame 35 10) = true) by reflexivity.
  assert (H7 : at_least_one (numStepsPerFrame 35 5) = true) by reflexivity.
  assert (H8 : 8 <= 4096) by lia.
  assert (H9 : 4 <= 399) by lia.
  assert (H10 : forall (r : nat) i, 1 <= i -> 0 <= (fun (_ : nat) i => i / 2) r i <= i).
  { intros _ i Hi. cbv beta. split; [apply Z.div_pos; lia|].
    apply Z.div_le_upper_bound; lia. }
  split; [auto 12|].
  exact (proj2 (proj2 (execute_rounds_restore_order (mkContext 1280 720) (fun _ i => i / 2)
                         35 10 5 8 4 H1 H2 H3 H4 H5 H6 H7 H8 H9 H10))).
Defined.


(* ================================================================== *)
(** * Further properties: the layout of [rearrangeImage] *)
(* ================================================================== *)

(** X19: [rearrangeImage] cuts the canvas into strips that tile it: with
    [s = floor(width / n)] and [r = width % n], strip [k] starts at
    [k s + min(k, r)], the first [r] strips are [s + 1] pixels wide and
    the others [s], each strip starts where the one before ends, the
    first at 0, and the widths add up to the width of the canvas. *)
Theorem segments_tile_the_canvas (width n : Z) :
  0 <= width -> 1 <= n ->
  segments width n = map (strip width n) (iota (Z.to_nat n)) /\
  strip_x width n 0 = 0 /\
  (forall k, 0 <= k ->
     strip_x width n (k + 1) = strip_x width n k + currentSegmentWidth width n k) /\
  strip_x width n n = width /\
  total_width (segments width n) = width.
Proof.
  intros Hw Hn.
  split; [apply segments_spec; assumption|].
  split; [apply strip_x_0; assumption|].
  split; [intros k Hk; apply strip_x_succ; assumption|].
  split; [apply strip_x_end; assumption | apply segments_total; assumption].
Qed.

Lemma segments_tile_the_canvas_witness :
  0 <= 10 /\ 1 <= 3 /\
  segments 10 3 = [mkSegment 0 4; mkSegment 4 3; mkSegment 7 3] /\
  total_width (segments 10 3) = 10.
Proof.
  split; [lia|]. split; [lia|].
  destruct (segments_tile_the_canvas 10 3 ltac:(lia) ltac:(lia)) as (H1 & _ & _ & _ & H5).
  split; [exact H1 | exact H5].
Defined.

(** X20: on a non-empty [order], [rearrangeImage] draws (does not throw)
    exactly when the picture is not broken, the canvas is at least 1
    pixel wide and 1 high, and every entry of [order] is the index of a
    strip that is not empty: an integer from 0 to [order.length - 1],
    and below [width] when the canvas is narrower than there are strips
    (the strips from [width] on are then 0 pixels wide).  An [undefined]
    entry, as gnomeSort leaves on a one-element array, an index out of
    range or an empty strip makes [drawImage] throw. *)
Theorem rearrangeImage_layout_draws_iff (image : Image) (context : Context)
    (order : jsarray) (colored : list Colored) :
  let width := canvas_width context in
  let n := len order in
  order <> [] ->
  (rearrangeImage (Some order) image context colored <> None
   <-> image = Available /\ 1 <= width /\ 1 <= canvas_height context /\
       Forall (fun v => exists z, v = Num z /\ 0 <= z < n /\ (n <= width \/ z < width))
         order).
Proof.
  intros width n Hne.
  rewrite rearrangeImage_drawable. unfold drawable. fold width.
  destruct image.
  2:{ split; [discriminate | intros [H _]; discriminate H]. }
  destruct order as [|v order]; [contradiction|].
  pose proof (len_pos_cons v order) as Hn. fold n in Hn |- *.
  set (o := v :: order) in *.
  rewrite !andb_true_iff, !Z.leb_le, forallb_forall, Forall_forall.
  assert (Hstrip : 1 <= width -> forall x,
            shown_strip width n x = true <->
            exists z, x = Num z /\ 0 <= z < n /\ (n <= width \/ z < width)).
  { intros Hw x. unfold shown_strip. destruct x as [z|].
    2:{ split; [discriminate | intros (z & Hz & _); discriminate Hz]. }
    rewrite !andb_true_iff, !Z.leb_le, Z.ltb_lt.
    destruct (Z.le_gt_cases n width) as [Hle|Hgt].
    - pose proof (strips_not_empty width n Hn z Hle).
      split; [intros [[H1 H2] _]; exists z; auto|].
      intros (z' & Hz & Hr & _). injection Hz as <-. auto.
    - pose proof (strips_narrow width n ltac:(lia) z Hgt) as Hnar.
      split.
      + intros [[H1 H2] H3]. exists z. split; [reflexivity|]. split; [lia|].
        right. apply Hnar. exact H3.
      + intros (z' & Hz & Hr & Hor). injection Hz as <-.
        split; [lia|]. apply Hnar. lia. }
  split.
  - intros [[Hw Hh] Hall]. split; [reflexivity|]. split; [exact Hw|]. split; [exact Hh|].
    intros x Hx. apply (Hstrip Hw). apply Hall. exact Hx.
  - intros (_ & Hw & Hh & Hall). split; [split; assumption|].
    intros x Hx. apply (Hstrip Hw). apply Hall. exact Hx.
Qed.

Lemma rearrangeImage_layout_draws_iff_witness :
  [Num 1; Num 0; Num 1] <> [] /\
  rearrangeImage (Some [Num 1; Num 0; Num 1]) Available (mkContext 2 720) [] <> None /\
  rearrangeImage (Some [Num 2; Num 0; Num 1]) Available (mkContext 2 720) [] = None.
Proof.
  assert (Hne : [Num 1; Num 0; Num 1] <> []) by discriminate.
  split; [exact Hne|]. split; [|reflexivity].
  apply (proj2 (rearrangeImage_layout_draws_iff Available (mkContext 2 720)
                  [Num 1; Num 0; Num 1] [] Hne)).
  split; [reflexivity|]. split; [vm_compute; discriminate|].
  split; [vm_compute; discriminate|].
  repeat constructor; eexists; (split; [reflexivity|]);
    (split; [vm_compute; split; [discriminate | reflexivity]|]);
    right; vm_compute; reflexivity.
Defined.

(** X21: when [order] is a rearrangement of [0 .. n-1], as every step of
    the shuffle shows, and the picture is available on a canvas at least
    [n] pixels wide and 1 high, [rearrangeImage] pastes every strip
    exactly once: slot [i], which starts where strip [i] was cut,
    receives strip [order[i]] and its number as label, and the pasted
    widths add up to the width of the canvas. *)
Theorem rearrangeImage_layout_pastes_each_strip_once (context : Context) (l : list Z)
    (n : nat) (colored : list Colored) :
  let width := canvas_width context in
  (1 <= n)%nat -> Z.of_nat n <= width -> 1 <= canvas_height context ->
  Permutation l (iota n) ->
  exists ps,
    rearrangeImage (Some (nums l)) Available context colored
      = Some (mkPicture ps (highlight_rects width (Z.of_nat n) colored)) /\
    map paste_x ps = map (strip_x width (Z.of_nat n)) (iota n) /\
    map pasted ps = map (strip width (Z.of_nat n)) l /\
    map label ps = nums l /\
    Permutation (map pasted ps) (segments width (Z.of_nat n)) /\
    total_width (map pasted ps) = width.
Proof.
  intros width Hn Hw Hh Hp.
  assert (Hlen : length l = n).
  { rewrite (Permutation_length Hp). unfold iota. rewrite length_map, length_seq. reflexivity. }
  assert (Hz : zlen l = Z.of_nat n) by (unfold zlen; rewrite Hlen; reflexivity).
  assert (Hne : l <> []) by (intros ->; cbn in Hlen; lia).
  assert (Hall : Forall (fun z => 0 <= z < zlen l) l)
    by (rewrite Hz; apply perm_iota_bounds; exact Hp).
  pose proof (layout_valid context l colored Hne ltac:(fold width; lia) Hh Hall) as E.
  cbv zeta in E. fold width in E. rewrite Hz, Hlen in E.
  assert (Hc : length (iota n) = length l)
    by (unfold iota; rewrite length_map, length_seq; lia).
  eexists. split; [exact E|].
  assert (E1 : forall (f : Z * Z -> Paste) (g : Paste -> Z) (h : Z -> Z),
             (forall p, g (f p) = h (fst p)) ->
             map g (map f (combine (iota n) l)) = map h (iota n)).
  { intros f g h H. rewrite map_map. rewrite <- (map_fst_combine (iota n) l Hc) at 2.
    rewrite map_map. apply map_ext. exact H. }
  assert (E2 : forall {B} (f : Z * Z -> Paste) (g : Paste -> B) (h : Z -> B),
             (forall p, g (f p) = h (snd p)) ->
             map g (map f (combine (iota n) l)) = map h l).
  { intros B f g h H. rewrite map_map. rewrite <- (map_snd_combine (iota n) l Hc) at 2.
    rewrite map_map. apply map_ext. exact H. }
  split; [apply E1; reflexivity|].
  assert (Epasted : map pasted
            (map (fun p => mkPaste (strip_x width (Z.of_nat n) (fst p))
                              (strip width (Z.of_nat n) (snd p)) (Num (snd p))
                              (2 * strip_x width (Z.of_nat n) (fst p)
                               + currentSegmentWidth width (Z.of_nat n) (fst p)))
               (combine (iota n) l)) = map (strip width (Z.of_nat n)) l)
    by (apply E2; reflexivity).
  split; [exact Epasted|].
  split; [apply (E2 value); reflexivity|].
  assert (Hperm : Permutation (map (strip width (Z.of_nat n)) l)
                    (segments width (Z.of_nat n))).
  { rewrite segments_spec by lia. rewrite Nat2Z.id. apply Permutation_map. exact Hp. }
  rewrite Epasted. split; [exact Hperm|].
  rewrite (total_width_perm _ _ Hperm). apply segments_total; lia.
Qed.

Lemma rearrangeImage_layout_pastes_each_strip_once_witness :
  ((1 <= 3)%nat /\ Z.of_nat 3 <= canvas_width (mkContext 10 8) /\
   1 <= canvas_height (mkContext 10 8) /\ Permutation [1; 0; 2] (iota 3)) /\
  exists ps,
    rearrangeImage (Some (nums [1; 0; 2])) Available (mkContext 10 8) []
      = Some (mkPicture ps []) /\
    total_width (map pasted ps) = 10.
Proof.
  assert (H1 : (1 <= 3)%nat) by lia.
  assert (H2 : Z.of_nat 3 <= canvas_width (mkContext 10 8)) by (vm_compute; discriminate).
  assert (H3 : 1 <= canvas_height (mkContext 10 8)) by (vm_compute; discriminate).
  assert (Hp : Permutation [1; 0; 2] (iota 3)) by apply perm_swap.
  split; [auto|].
  destruct (rearrangeImage_layout_pastes_each_strip_once (mkContext 10 8) [1; 0; 2] 3 []
              H1 H2 H3 Hp) as (ps & E & _ & _ & _ & _ & Ht).
  exists ps. split; [exact E | exact Ht].
Defined.

(** X22: given the order [0 .. n-1], which every round of [execute]
    presents last, with the picture available on a canvas at least [n]
    pixels wide and 1 high, [rearrangeImage] pastes each strip back
    where it was cut: the picture is whole again. *)
Theorem rearrangeImage_layout_restores_identity (context : Context) (n : Z)
    (colored : list Colored) :
  let width := canvas_width context in
  1 <= n -> n <= width -> 1 <= canvas_height context ->
  exists ps,
    rearrangeImage (Some (identity_order n)) Available context colored
      = Some (mkPicture ps (highlight_rects width n colored)) /\
    map pasted ps = segments width n /\
    Forall (fun p => paste_x p = seg_x (pasted p)) ps.
Proof.
  intros width Hn Hw Hh. rewrite identity_order_iota.
  set (k := Z.to_nat n).
  assert (Hk : Z.of_nat k = n) by (unfold k; lia).
  assert (Hlen : length (iota k) = k) by (unfold iota; rewrite length_map, length_seq; reflexivity).
  assert (Hz : zlen (iota k) = n) by (unfold zlen; rewrite Hlen; exact Hk).
  assert (Hne : iota k <> []).
  { intros E. rewrite E in Hlen. cbn in Hlen. lia. }
  assert (Hall : Forall (fun z => 0 <= z < zlen (iota k)) (iota k)) by apply iota_range.
  pose proof (layout_valid context (iota k) colored Hne ltac:(fold width; lia) Hh Hall) as E.
  cbv zeta in E. fold width in E. rewrite Hz, Hlen in E.
  eexists. split; [exact E|].
  assert (Hcomb : combine (iota k) (iota k) = map (fun x => (x, x)) (iota k)).
  { generalize (iota k). induction l as [|x l IH]; cbn; [reflexivity | rewrite IH; reflexivity]. }
  rewrite Hcomb, !map_map. cbn [fst snd pasted paste_x].
  split.
  - rewrite segments_spec by lia. fold k. reflexivity.
  - apply Forall_forall. intros p Hp. apply in_map_iff in Hp.
    destruct Hp as (x & <- & _). reflexivity.
Qed.

Lemma rearrangeImage_layout_restores_identity_witness :
  (1 <= 3 /\ 3 <= canvas_width (mkContext 10 8) /\ 1 <= canvas_height (mkContext 10 8)) /\
  exists ps,
    rearrangeImage (Some (identity_order 3)) Available (mkContext 10 8) []
      = Some (mkPicture ps []) /\
    map pasted ps = segments 10 3.
Proof.
  assert (H1 : 1 <= 3) by lia.
  assert (H2 : 3 <= canvas_width (mkContext 10 8)) by (vm_compute; discriminate).
  assert (H3 : 1 <= canvas_height (mkContext 10 8)) by (vm_compute; discriminate).
  split; [auto|].
  destruct (rearrangeImage_layout_restores_identity (mkContext 10 8) 3 [] H1 H2 H3)
    as (ps & E & Hs & _).
  exists ps. split; [exact E | exact Hs].
Defined.

(** X23: on a canvas at least as wide as there are strips, the highlight
    of position [index] is painted from [index * segmentWidth], while
    slot [index] starts [min(index, remainder)] pixels further right:
    when the width of the canvas is not a multiple of the number of
    strips, every highlight but that of position 0 starts to the left of
    the strip it marks, by up to [remainder] pixels; its width is that
    of the slot. *)
Theorem highlight_starts_left_of_its_slot (context : Context) (l : list Z) (n : nat)
    (index : Z) (c : Color) :
  let width := canvas_width context in
  Z.of_nat n <= width -> 1 <= canvas_height context ->
  Permutation l (iota n) -> 0 <= index < Z.of_nat n ->
  exists ps rc p,
    rearrangeImage (Some (nums l)) Available context [mkColored [index] c]
      = Some (mkPicture ps [rc]) /\
    nth_error ps (Z.to_nat index) = Some p /\
    paste_x p - rect_x rc = Z.min index (remainder width (Z.of_nat n)) /\
    0 <= remainder width (Z.of_nat n) < Z.of_nat n /\
    rect_width rc = currentSegmentWidth width (Z.of_nat n) index /\
    rect_color rc = c.
Proof.
  intros width Hw Hh Hp Hi.
  assert (Hn : (1 <= n)%nat) by lia.
  destruct (layout_slots context l n [mkColored [index] c] Hn Hw Hh Hp) as (ps & E & Hx).
  fold width in E, Hx.
  assert (Hlen : length ps = n).
  { rewrite <- (length_map paste_x), Hx. unfold iota. rewrite !length_map, length_seq.
    reflexivity. }
  destruct (nth_error ps (Z.to_nat index)) as [p|] eqn:Ep.
  2:{ apply nth_error_None in Ep. lia. }
  exists ps, (mkRect (index * segmentWidth width (Z.of_nat n))
                (currentSegmentWidth width (Z.of_nat n) index) c), p.
  split; [exact E|]. split; [exact Ep|].
  assert (Hpx : paste_x p = strip_x width (Z.of_nat n) index).
  { pose proof (map_nth_error paste_x _ _ Ep) as H1. rewrite Hx in H1.
    unfold iota in H1. rewrite map_map, nth_error_map, nth_error_seq in H1.
    destruct (Nat.ltb_spec (Z.to_nat index) n); [|lia].
    cbn [option_map Nat.add] in H1. rewrite Z2Nat.id in H1 by lia.
    injection H1 as H1. symmetry. exact H1. }
  rewrite Hpx. cbn [rect_x rect_width rect_color]. unfold strip_x.
  split; [lia|]. split; [apply remainder_range; lia|]. split; reflexivity.
Qed.

Lemma highlight_starts_left_of_its_slot_witness :
  (Z.of_nat 3 <= canvas_width (mkContext 10 8) /\ 1 <= canvas_height (mkContext 10 8) /\
   Permutation [1; 0; 2] (iota 3) /\ 0 <= 2 < Z.of_nat 3) /\
  exists ps rc p,
    rearrangeImage (Some (nums [1; 0; 2])) Available (mkContext 10 8) [mkColored [2] Red]
      = Some (mkPicture ps [rc]) /\
    nth_error ps (Z.to_nat 2) = Some p /\
    paste_x p - rect_x rc = 1.
Proof.
  assert (H1 : Z.of_nat 3 <= canvas_width (mkContext 10 8)) by (vm_compute; discriminate).
  assert (H2 : 1 <= canvas_height (mkContext 10 8)) by (vm_compute; discriminate).
  assert (Hp : Permutation [1; 0; 2] (iota 3)) by apply perm_swap.
  assert (H4 : 0 <= 2 < Z.of_nat 3) by (cbn; lia).
  split; [auto|].
  destruct (highlight_starts_left_of_its_slot (mkContext 10 8) [1; 0; 2] 3 2 Red H1 H2 Hp H4)
    as (ps & rc & p & E & Hn & Hx & _).
  exists ps, rc, p. split; [exact E|]. split; [exact Hn | exact Hx].
Defined.
(* ================================================================== *)
(** * Further properties: helpers of the drivers, and the flag *)
(* ================================================================== *)

(** X24: whatever the array holds, [yieldCompare] changes neither the
    array a driver leaves nor whether its run returns: with the flag off
    the fifteen drivers do to the array exactly what they do with it on,
    silently or nearly so. *)
Theorem yieldCompare_keeps_the_result (a : jsarray) (fuel : nat) (up : bool) :
  Forall (fun D : bool -> Prog unit => same_result D a)
    [mergeSort; selectionSort; insertionSort; binaryInsertionSort; quickSort; bubbleSort;
     cocktailShakerSort; gnomeSort fuel; combSort fuel; shellSort; heapSort;
     oddEvenSort fuel; bitonicSort up; cycleSort fuel; lsdRadixSort].
Proof.
  repeat match goal with
         | |- Forall _ (_ :: _) => apply Forall_cons
         | |- Forall _ [] => apply Forall_nil
         end.
  - apply mergeSort_same_result.
  - apply (filtered_same_result _ _ _ selectionSort_filtered).
  - apply (filtered_same_result _ _ _ insertionSort_filtered).
  - apply (filtered_same_result _ _ _ binaryInsertionSort_filtered).
  - apply (filtered_same_result _ _ _ quickSort_filtered).
  - apply (filtered_same_result _ _ _ bubbleSort_filtered).
  - apply (filtered_same_result _ _ _ cocktailShakerSort_filtered).
  - apply (filtered_same_result _ (gnomeSort fuel) _ (gnomeSort_filtered fuel)).
  - apply (filtered_same_result _ (combSort fuel) _ (combSort_filtered fuel)).
  - apply (filtered_same_result _ _ _ shellSort_filtered).
  - apply (filtered_same_result _ _ _ heapSort_filtered).
  - apply (filtered_same_result _ (oddEvenSort fuel) _ (oddEvenSort_filtered fuel)).
  - apply (filtered_same_result _ (bitonicSort up) _ (bitonicSort_filtered up)).
  - apply (filtered_same_result _ (cycleSort fuel) _ (cycleSort_filtered fuel)).
  - apply (filtered_same_result _ _ _ lsdRadixSort_filtered).
Qed.

(** X25: [partition] of quickSort (Lomuto, pivot [arr[high]]), on a
    window [low .. high] of an array of integers, with either flag,
    returns an index [pi] of the window and leaves the window a
    rearrangement of itself, the rest untouched, with nothing greater
    than [arr[pi]] before [pi] in the window and only greater elements
    after it. *)
Theorem partition_splits_the_window (a : list Z) (low high : Z) (yc : bool) (m : Mem) :
  arr m = nums a -> 0 <= low < high -> high < zlen a ->
  wp (partition low high yc)
     (fun _ pi m' =>
        exists a', arr m' = nums a' /\ Permutation a' a /\ window_kept a a' low high /\
                   low <= pi <= high /\
                   (forall k, low <= k < pi -> zth a' k <= zth a' pi) /\
                   (forall k, pi < k <= high -> zth a' pi < zth a' k)) m.
Proof.
  intros Ha Hl Hh. destruct yc.
  - apply partition_spec; assumption.
  - apply (wp_filtered keep_none (partition low high true) (partition low high false)
             (fun pi m' =>
                exists a', arr m' = nums a' /\ Permutation a' a /\ window_kept a a' low high /\
                           low <= pi <= high /\
                           (forall k, low <= k < pi -> zth a' k <= zth a' pi) /\
                           (forall k, pi < k <= high -> zth a' pi < zth a' k))).
    + apply partition_filtered.
    + apply partition_spec; assumption.
Qed.

Lemma partition_splits_the_window_witness :
  0 <= 0 < 3 /\ 3 < zlen [5; 1; 7; 3] /\
  wp (partition 0 3 true)
     (fun _ pi m' =>
        exists a', arr m' = nums a' /\ Permutation a' [5; 1; 7; 3] /\
                   window_kept [5; 1; 7; 3] a' 0 3 /\ 0 <= pi <= 3 /\
                   (forall k, 0 <= k < pi -> zth a' k <= zth a' pi) /\
                   (forall k, pi < k <= 3 -> zth a' pi < zth a' k))
     (mkMem (nums [5; 1; 7; 3]) (mkStats 0 0)).
Proof.
  assert (H1 : 0 <= 0 < 3) by lia.
  assert (H2 : 3 < zlen [5; 1; 7; 3]) by (vm_compute; reflexivity).
  split; [exact H1|]. split; [exact H2|].
  exact (partition_splits_the_window [5; 1; 7; 3] 0 3 true
           (mkMem (nums [5; 1; 7; 3]) (mkStats 0 0)) eq_refl H1 H2).
Defined.

(** X26: [merge] of mergeSort, given two adjacent ascending runs
    [left .. mid] and [mid+1 .. right] of an array of integers, leaves
    [left .. right] ascending and a rearrangement of what it held, the
    rest of the array untouched, and ends on a step that shows the
    array. *)
Theorem merge_joins_sorted_runs (a : list Z) (left mid right : Z) (m : Mem) :
  arr m = nums a -> 0 <= left <= mid -> mid < right -> right < zlen a ->
  sorted_on a left (mid + 1) -> sorted_on a (mid + 1) (right + 1) ->
  wp (merge left mid right true)
     (fun o _ m' =>
        exists a', arr m' = nums a' /\ Permutation a' a /\ frame a a' left right /\
                   sorted_on a' left (right + 1) /\ shows_last o m') m.
Proof. apply merge_sorted. Qed.

Lemma merge_joins_sorted_runs_witness :
  sorted_on [2; 9; 4; 6] 0 (1 + 1) /\ sorted_on [2; 9; 4; 6] (1 + 1) (3 + 1) /\
  wp (merge 0 1 3 true)
     (fun o _ m' =>
        exists a', arr m' = nums a' /\ Permutation a' [2; 9; 4; 6] /\
                   frame [2; 9; 4; 6] a' 0 3 /\ sorted_on a' 0 (3 + 1) /\ shows_last o m')
     (mkMem (nums [2; 9; 4; 6]) (mkStats 0 0)).
Proof.
  assert (H1 : sorted_on [2; 9; 4; 6] 0 (1 + 1)).
  { intros i j Hi Hij Hj.
    assert (i = 0 \/ i = 1) as [-> | ->] by lia;
      assert (j = 0 \/ j = 1) as [-> | ->] by lia; vm_compute; try discriminate; lia. }
  assert (H2 : sorted_on [2; 9; 4; 6] (1 + 1) (3 + 1)).
  { intros i j Hi Hij Hj.
    assert (i = 2 \/ i = 3) as [-> | ->] by lia;
      assert (j = 2 \/ j = 3) as [-> | ->] by lia; vm_compute; try discriminate; lia. }
  split; [exact H1|]. split; [exact H2|].
  apply (merge_joins_sorted_runs [2; 9; 4; 6] 0 1 3 (mkMem (nums [2; 9; 4; 6]) (mkStats 0 0)));
    [reflexivity | lia | lia | vm_compute; reflexivity | exact H1 | exact H2].
Defined.

(** X27: [heapify] of heapSort sifts down: when, among the first [n]
    elements of an array of integers, every node after [i] holds at least
    what its children hold, [heapify(arr, n, i)] returns and extends that
    to node [i]; it rearranges the positions [i .. n-1] only. *)
Theorem heapify_sifts_down (a : list Z) (n i : Z) (fuel : nat) (m : Mem) :
  arr m = nums a -> 0 <= i < n -> n <= zlen a -> n - i <= Z.of_nat fuel ->
  heap_ok a n (i + 1) ->
  wp (heapify fuel n i true)
     (fun _ _ m' =>
        exists a', arr m' = nums a' /\ Permutation a' a /\ window_kept a a' i (n - 1) /\
                   heap_ok a' n i) m.
Proof.
  intros Ha Hi Hn Hf Hh.
  apply (heapify_spec fuel n i i a m Ha); try lia.
  apply heap_ok_heap_but; [lia | exact Hh].
Qed.

Lemma heapify_sifts_down_witness :
  heap_ok [1; 8; 5] 3 (0 + 1) /\
  wp (heapify 3 3 0 true)
     (fun _ _ m' =>
        exists a', arr m' = nums a' /\ Permutation a' [1; 8; 5] /\
                   window_kept [1; 8; 5] a' 0 (3 - 1) /\ heap_ok a' 3 0)
     (mkMem (nums [1; 8; 5]) (mkStats 0 0)).
Proof.
  assert (H : heap_ok [1; 8; 5] 3 (0 + 1)) by (intros k c Hk Hc Hchild; lia).
  split; [exact H|].
  apply (heapify_sifts_down [1; 8; 5] 3 0 3 (mkMem (nums [1; 8; 5]) (mkStats 0 0)));
    [reflexivity | lia | vm_compute; discriminate | lia | exact H].
Defined.

(** X28: [bitonicMerge] of bitonicSort, on a window of [2^(k+1)] integers
    whose first half is ascending and second half descending, returns and
    leaves the window in order in the direction asked for, ascending when
    [up] and descending otherwise, as a rearrangement of what it held,
    the rest of the array untouched. *)
Theorem bitonicMerge_sorts_bitonic_window (k fuel : nat) (lo : Z) (up : bool)
    (a : list Z) (m : Mem) :
  (S k <= fuel)%nat -> arr m = nums a -> 0 <= lo -> lo + pow2 (S k) <= zlen a ->
  sorted_dir true a lo (pow2 k) -> sorted_dir false a (lo + pow2 k) (pow2 k) ->
  wp (bitonicMerge fuel lo (pow2 (S k)) up true)
     (fun _ _ m' =>
        exists a', arr m' = nums a' /\ Permutation a' a /\
                   window_kept a a' lo (lo + pow2 (S k) - 1) /\
                   sorted_dir up a' lo (pow2 (S k))) m.
Proof.
  intros Hf Ha Hlo Hhi Hasc Hdesc.
  apply (bitonicMerge_spec (S k) fuel lo up a m Hf Ha Hlo Hhi).
  assert (Hb : bitonic true a lo (pow2 (S k))).
  { rewrite pow2_S. apply asc_desc_bitonic; [|assumption | assumption].
    pose proof (pow2_pos k). lia. }
  destruct up; [exact Hb | apply (bitonic_flip true); exact Hb].
Qed.

Lemma bitonicMerge_sorts_bitonic_window_witness :
  sorted_dir true [1; 4; 3; 2] 0 (pow2 1) /\ sorted_dir false [1; 4; 3; 2] (0 + pow2 1) (pow2 1) /\
  wp (bitonicMerge 2 0 (pow2 2) false true)
     (fun _ _ m' =>
        exists a', arr m' = nums a' /\ Permutation a' [1; 4; 3; 2] /\
                   window_kept [1; 4; 3; 2] a' 0 (0 + pow2 2 - 1) /\
                   sorted_dir false a' 0 (pow2 2))
     (mkMem (nums [1; 4; 3; 2]) (mkStats 0 0)).
Proof.
  assert (H1 : sorted_dir true [1; 4; 3; 2] 0 (pow2 1)).
  { intros x y Hx Hxy Hy. change (pow2 1) with 2 in Hy.
    assert (x = 0 \/ x = 1) as [-> | ->] by lia;
      assert (y = 0 \/ y = 1) as [-> | ->] by lia; vm_compute; try discriminate; lia. }
  assert (H2 : sorted_dir false [1; 4; 3; 2] (0 + pow2 1) (pow2 1)).
  { intros x y Hx Hxy Hy. change (pow2 1) with 2 in Hx, Hy.
    assert (x = 2 \/ x = 3) as [-> | ->] by lia;
      assert (y = 2 \/ y = 3) as [-> | ->] by lia; vm_compute; try discriminate; lia. }
  split; [exact H1|]. split; [exact H2|].
  apply (bitonicMerge_sorts_bitonic_window 1 2 0 false [1; 4; 3; 2]
           (mkMem (nums [1; 4; 3; 2]) (mkStats 0 0)));
    [lia | reflexivity | lia | vm_compute; discriminate | exact H1 | exact H2].
Defined.
(* ================================================================== *)
(** * Further properties: a worst case, and an edge of the scheduler *)
(* ================================================================== *)

(** X29: an array of integers already in ascending order is a worst case
    of quickSort: every partition takes only its last element off the
    window, so the run makes N (N - 1) / 2 comparisons; and since every
    element is exchanged with itself, the swap counter ends at
    N (N - 1) / 2 + max(N - 1, 0) although the array never changes. *)
Theorem quickSort_worst_on_sorted (l : list Z) :
  StronglySorted Z.le l ->
  completes (quickSort true) (nums l) /\
  final_array (quickSort true) (nums l) = nums l /\
  2 * comparisons (final_stats (quickSort true) (nums l)) = zlen l * (zlen l - 1) /\
  swaps (final_stats (quickSort true) (nums l))
    = comparisons (final_stats (quickSort true) (nums l)) + Z.max 0 (zlen l - 1).
Proof.
  intros Hs. apply StronglySorted_sorted_on in Hs.
  destruct (quickSort_ascending l (mkMem (nums l) (mkStats 0 0)) eq_refl Hs)
    as (o & m' & [] & Hrun & Ha & Hc & Hw).
  unfold completes, final_array, final_stats, run. rewrite Hrun.
  cbn [res mem fst snd arr stats comparisons swaps] in *. cbv zeta in *.
  assert (0 <= zlen l) by (unfold zlen; lia).
  split; [discriminate|]. split; [exact Ha|].
  destruct (Z.le_gt_cases (zlen l) 0).
  - replace (Z.max 0 (zlen l - 1)) with 0 in * by lia. split; nia.
  - replace (Z.max 0 (zlen l - 1)) with (zlen l - 1) in * by lia. split; nia.
Qed.

Lemma quickSort_worst_on_sorted_witness :
  StronglySorted Z.le [1; 2; 3; 4] /\
  final_array (quickSort true) (nums [1; 2; 3; 4]) = nums [1; 2; 3; 4] /\
  2 * comparisons (final_stats (quickSort true) (nums [1; 2; 3; 4])) = 4 * (4 - 1).
Proof.
  assert (H : StronglySorted Z.le [1; 2; 3; 4]) by (repeat constructor; lia).
  split; [exact H|].
  destruct (quickSort_worst_on_sorted [1; 2; 3; 4] H) as (_ & H2 & H3 & _).
  split; [exact H2 | exact H3].
Defined.

(** X30: with [interval = 0] and a positive [frameDuration] the steps per
    frame is infinite: once the drain has ended, [animateSort] folds
    every step it consumed into a single frame, which draws the array of
    the last step with the highlights of all of them and sounds the
    first step's indexes, sleeps [frameDuration] once, then presents the
    final array, provided that frame can be presented and the final
    array drawn. *)
Theorem animateSort_single_frame_when_interval_zero (image : Image) (context : Context)
    (arr_ : jsarray) (frameDuration : Z) (generator : Generator)
    (yieldCompare : option bool) (queue : list QueueEntry) (finalArray : jsarray) :
  0 < frameDuration ->
  drain (generator arr_ yieldCompare) = Some (queue, finalArray) ->
  queue <> [] ->
  presentable image context frameDuration (len arr_) queue = true ->
  drawable image context finalArray = true ->
  animateSort image context arr_ 0 frameDuration generator yieldCompare =
    (frame_events frameDuration (len arr_) queue ++ [Draw finalArray []],
     Returned finalArray).
Proof.
  intros Hfd Hdrain Hq Hok Hfinal.
  assert (Hk : numStepsPerFrame frameDuration 0 = PosInf).
  { unfold numStepsPerFrame. cbn [Z.eqb]. destruct (Z.ltb_spec 0 frameDuration); [reflexivity | lia]. }
  assert (Hmax : Z.max frameDuration 0 = frameDuration) by lia.
  pose proof (animateSort_frames image context arr_ 0 frameDuration generator yieldCompare
                queue finalArray) as E.
  cbv zeta in E. rewrite Hk, Hmax in E.
  destruct (length queue) as [|n] eqn:El.
  { destruct queue; [contradiction | discriminate El]. }
  rewrite chunks_all in E by exact Hq. cbn [flat_map forallb] in E.
  rewrite app_nil_r, andb_true_r in E.
  apply E; [exact Hdrain | left; reflexivity | exact Hok | exact Hfinal].
Qed.

Lemma animateSort_single_frame_when_interval_zero_witness :
  let context := mkContext 1280 720 in
  let queue := map enqueue (steps_of (bubbleSort true) (nums [1; 0])) in
  (0 < 35 /\
   drain (generator_of bubbleSort (nums [1; 0]) (Some true)) = Some (queue, nums [0; 1]) /\
   queue <> [] /\
   presentable Available context 35 (len (nums [1; 0])) queue = true /\
   drawable Available context (nums [0; 1]) = true) /\
  length (drawn (fst (animateSort Available context (nums [1; 0]) 0 35
                        (generator_of bubbleSort) (Some true))))
    = 2%nat.
Proof.
  intros context queue.
  assert (H1 : 0 < 35) by lia.
  assert (H2 : drain (generator_of bubbleSort (nums [1; 0]) (Some true))
               = Some (queue, nums [0; 1])).
  { rewrite drain_generator_of by (left; vm_compute; discriminate).
    vm_compute. reflexivity. }
  assert (H3 : queue <> []) by (vm_compute; discriminate).
  assert (H4 : presentable Available context 35 (len (nums [1; 0])) queue = true)
    by (vm_compute; reflexivity).
  assert (H5 : drawable Available context (nums [0; 1]) = true) by (vm_compute; reflexivity).
  split; [auto|].
  rewrite (animateSort_single_frame_when_interval_zero Available context (nums [1; 0]) 35
             (generator_of bubbleSort) (Some true) queue (nums [0; 1]) H1 H2 H3 H4 H5).
  vm_compute. reflexivity.
Defined.
